(** * HashGraph: a shallow embedding of [src/hash_graph.cpp]

    The development follows the source file top to bottom: the handle
    codec, the node store and its structural edits, the traversal loops,
    the path store with its intrusive doubly linked lists of steps, and
    the binary codec. *)

From stdpp Require Import gmap strings list fin_maps sorting.
From Stdlib Require Import ZArith Ascii Lia.
From Stdlib.Strings Require Import Byte.

Local Open Scope Z_scope.

(** ** Machine integers *)

(** [size_t], [uint64_t] and the bits of a [handle_t] are 64-bit unsigned
    values; arithmetic on them wraps modulo [2^64]. *)
Definition two64 : Z := 2 ^ 64.
Definition wrap64 (z : Z) : Z := z mod two64.

(** [numeric_limits<id_t>::max()] for the signed 64-bit [id_t]. *)
Definition id_max : Z := 2 ^ 63 - 1.

(** An identifier the handle codec can pack: [pack] asserts
    [number < (0x1ULL << 63)]. *)
Definition valid_id (id : Z) : Prop := 0 <= id < 2 ^ 63.

(** A well-formed 64-bit handle. *)
Definition valid_handle (h : Z) : Prop := 0 <= h < two64.

(** ** Handle codec

    Modelled from the spec: [handlegraph::number_bool_packing] lives in
    [handlegraph/util.hpp], which is not part of the sources at hand.  A
    handle is the node identifier shifted left by one with the orientation
    in the low bit, held in an unsigned 64-bit integer. *)
Definition handle_t := Z.

Definition pack (number : Z) (bit : bool) : handle_t :=
  Z.lor (wrap64 (Z.shiftl number 1)) (Z.b2z bit).
Definition unpack_number (h : handle_t) : Z := Z.shiftr h 1.
Definition unpack_bit (h : handle_t) : bool := Z.testbit h 0.
Definition toggle_bit (h : handle_t) : handle_t := Z.lxor h 1.

(** [HashGraph::get_handle]; the signed [id_t] is converted to the
    codec's unsigned argument. *)
Definition get_handle (node_id : Z) (is_reverse : bool) : handle_t :=
  pack (wrap64 node_id) is_reverse.
Definition get_id (h : handle_t) : Z := unpack_number h.
Definition get_is_reverse (h : handle_t) : bool := unpack_bit h.
Definition flip (h : handle_t) : handle_t := toggle_bit h.

(** [HandleGraph::forward] of the base interface. *)
Definition forward (h : handle_t) : handle_t :=
  if get_is_reverse h then flip h else h.

(** ** Sequences

    A node's sequence is a [std::string]; it is kept as the list of its
    characters so that [substr] is [take]/[drop]. *)
Definition seq_t := list ascii.

Definition seq_of (s : string) : seq_t := String.list_ascii_of_string s.

(** Modelled from the spec: [reverse_complement] is declared in the
    toolkit's utility header, which is not part of the sources at hand.
    The tests fix its behaviour on the nucleotide alphabet
    ([ATG] becomes [CAT], [GAC] becomes [GTC]). *)
Definition complement (c : ascii) : ascii :=
  if decide (c = "A"%char) then "T"%char
  else if decide (c = "T"%char) then "A"%char
  else if decide (c = "C"%char) then "G"%char
  else if decide (c = "G"%char) then "C"%char
  else if decide (c = "a"%char) then "t"%char
  else if decide (c = "t"%char) then "a"%char
  else if decide (c = "c"%char) then "g"%char
  else if decide (c = "g"%char) then "c"%char
  else c.

Definition reverse_complement (s : seq_t) : seq_t := rev (map complement s).

(** [std::string::substr(pos, len)]: throws [std::out_of_range] when
    [pos > size()], otherwise returns the [min(len, size() - pos)]
    characters that start at [pos]. *)
Definition substr (s : seq_t) (pos len : Z) : option seq_t :=
  let size := Z.of_nat (length s) in
  if decide (pos <= size)
  then Some (take (Z.to_nat (Z.min len (size - pos))) (drop (Z.to_nat pos) s))
  else None.

(** ** Records *)

Module node_t.
Record t := mk {
  sequence : seq_t;
  left_edges : list handle_t;
  right_edges : list handle_t
}.
(** The default-constructed node that [graph[id]] inserts. *)
Definition empty : t := mk [] [] [].
(** [node_t(sequence)] *)
Definition of_sequence (s : seq_t) : t := mk s [] [].
Definition set_sequence (s : seq_t) (n : t) : t :=
  mk s (left_edges n) (right_edges n).
Definition set_left (l : list handle_t) (n : t) : t :=
  mk (sequence n) l (right_edges n).
Definition set_right (l : list handle_t) (n : t) : t :=
  mk (sequence n) (left_edges n) l.
End node_t.

(** A step record lives on the free store; [addr] is its address and
    [None] is [nullptr]. *)
Definition addr := positive.

Module path_mapping_t.
Record t := mk {
  handle : handle_t;
  path_id : Z;
  prev : option addr;
  next : option addr
}.
(** [path_mapping_t(handle, path_id)] *)
Definition create (h : handle_t) (pid : Z) : t := mk h pid None None.
Definition set_handle (h : handle_t) (m : t) : t :=
  mk h (path_id m) (prev m) (next m).
Definition set_prev (p : option addr) (m : t) : t :=
  mk (handle m) (path_id m) p (next m).
Definition set_next (n : option addr) (m : t) : t :=
  mk (handle m) (path_id m) (prev m) n.
End path_mapping_t.

Module path_t.
Record t := mk {
  head : option addr;
  tail : option addr;
  path_id : Z;
  count : Z;
  name : string
}.
(** [path_t()] *)
Definition empty : t := mk None None 0 0 "".
(** [path_t(name, path_id)] *)
Definition create (nm : string) (pid : Z) : t := mk None None pid 0 nm.
End path_t.

(** The whole object.  [store] is the free store holding the step
    records that the paths and the occurrence index point into. *)
Record HashGraph := mkHashGraph {
  max_id : Z;
  min_id : Z;
  next_path_id : Z;
  graph : gmap Z node_t.t;
  path_id : gmap string Z;
  paths : gmap Z path_t.t;
  occurrences : gmap Z (list addr);
  store : gmap addr path_mapping_t.t
}.

Definition set_graph (gr : gmap Z node_t.t) (g : HashGraph) : HashGraph :=
  mkHashGraph (max_id g) (min_id g) (next_path_id g) gr (path_id g)
              (paths g) (occurrences g) (store g).
Definition set_bounds (mx mn : Z) (g : HashGraph) : HashGraph :=
  mkHashGraph mx mn (next_path_id g) (graph g) (path_id g)
              (paths g) (occurrences g) (store g).
Definition set_occurrences (oc : gmap Z (list addr)) (g : HashGraph) : HashGraph :=
  mkHashGraph (max_id g) (min_id g) (next_path_id g) (graph g) (path_id g)
              (paths g) oc (store g).
Definition set_paths (ps : gmap Z path_t.t) (g : HashGraph) : HashGraph :=
  mkHashGraph (max_id g) (min_id g) (next_path_id g) (graph g) (path_id g)
              ps (occurrences g) (store g).
Definition set_store (st : gmap addr path_mapping_t.t) (g : HashGraph) : HashGraph :=
  mkHashGraph (max_id g) (min_id g) (next_path_id g) (graph g) (path_id g)
              (paths g) (occurrences g) st.

(** [HashGraph()] and the state [clear] leaves behind, for a graph that
    owns no step records. *)
Definition empty_graph : HashGraph :=
  mkHashGraph 0 id_max 1 ∅ ∅ ∅ ∅ ∅.

(** [graph[id]]: [operator[]] default-constructs a missing record. *)
Definition node_at (gr : gmap Z node_t.t) (id : Z) : node_t.t :=
  default node_t.empty (gr !! id).

(** ** Node store *)

(** [create_handle(sequence, id)] *)
Definition create_handle (sequence : seq_t) (id : Z) (g : HashGraph)
  : handle_t * HashGraph :=
  (get_handle id false,
   set_bounds (Z.max (max_id g) id) (Z.min (min_id g) id)
     (set_graph (<[id := node_t.of_sequence sequence]> (graph g)) g)).

(** [create_handle(sequence)] *)
Definition create_handle_next (sequence : seq_t) (g : HashGraph)
  : handle_t * HashGraph :=
  create_handle sequence (max_id g + 1) g.

Definition push_left (id : Z) (h : handle_t) (gr : gmap Z node_t.t) :=
  let n := node_at gr id in
  <[id := node_t.set_left (node_t.left_edges n ++ [h]) n]> gr.
Definition push_right (id : Z) (h : handle_t) (gr : gmap Z node_t.t) :=
  let n := node_at gr id in
  <[id := node_t.set_right (node_t.right_edges n ++ [h]) n]> gr.

(** [create_edge(left, right)] on the node table. *)
Definition create_edge_nodes (left right : handle_t) (gr : gmap Z node_t.t)
  : gmap Z node_t.t :=
  let gr1 := if get_is_reverse left
             then push_left (get_id left) right gr
             else push_right (get_id left) right gr in
  if decide (left ≠ flip right) then
    if get_is_reverse right
    then push_right (get_id right) (flip left) gr1
    else push_left (get_id right) (flip left) gr1
  else gr1.

Definition create_edge (left right : handle_t) (g : HashGraph) : HashGraph :=
  set_graph (create_edge_nodes left right (graph g)) g.

Definition has_node (node_id : Z) (g : HashGraph) : bool :=
  bool_decide (is_Some (graph g !! node_id)).

(** [get_length]; [graph.at] throws on a missing identifier. *)
Definition get_length (h : handle_t) (g : HashGraph) : option Z :=
  n ← graph g !! get_id h; Some (Z.of_nat (length (node_t.sequence n))).

(** [get_sequence] *)
Definition get_sequence (h : handle_t) (g : HashGraph) : option seq_t :=
  n ← graph g !! get_id h;
  Some (if get_is_reverse h then reverse_complement (node_t.sequence n)
        else node_t.sequence n).

Definition min_node_id (g : HashGraph) : Z := min_id g.
Definition max_node_id (g : HashGraph) : Z := max_id g.
Definition node_size (g : HashGraph) : nat := size (graph g).

(** ** Iteration order of the hash tables

    [graph] and [paths] are hash tables ([reserve] is called on them in
    [deserialize]); their declaration is not part of the sources at hand.
    A range-[for] over such a table enumerates every key once, in an order
    that the table, not the program, decides.  That order is a parameter
    of the model. *)
Class HashOrder := {
  hash_iter : list Z → list Z;
  hash_iter_perm : ∀ ks, hash_iter ks ≡ₚ ks
}.

Section iteration.
Context `{HashOrder}.

(** The keys of a table, as [begin() .. end()] yields them. *)
Definition hash_keys {A} (m : gmap Z A) : list Z :=
  hash_iter ((map_to_list m).*1).

(** The records of a table in iteration order. *)
Definition hash_items {A} (m : gmap Z A) : list (Z * A) :=
  omap (λ k, pair k <$> m !! k) (hash_keys m).
End iteration.

(** ** Traversal

    An iteratee is a [std::function<bool(const handle_t&)>]; what it
    captures by reference is the state [S] it threads through its calls. *)
Section traversal.
Context {S : Type}.
Implicit Types iteratee : handle_t → S → bool * S.

(** The loop [for (it = begin; it != end && keep_going; it++)] whose
    body assigns to [keep_going] the iteratee's verdict on the entry
    under [it], seen through [view]. *)
Fixpoint visit_loop iteratee (view : handle_t → handle_t)
    (range : list handle_t) (keep_going : bool) (s : S) : bool * S :=
  match range with
  | [] => (keep_going, s)
  | x :: range' =>
      if keep_going
      then let '(k, s') := iteratee (view x) s in
           visit_loop iteratee view range' k s'
      else (keep_going, s)
  end.

(** [follow_edges_impl] *)
Definition follow_edges_impl (h : handle_t) (go_left : bool) iteratee
    (g : HashGraph) (s : S) : option (bool * S) :=
  n ← graph g !! get_id h;
  let edge_list := if xorb (get_is_reverse h) go_left
                   then node_t.left_edges n else node_t.right_edges n in
  Some (visit_loop iteratee (λ e, if go_left then flip e else e)
          edge_list true s).

(** [for_each_handle_impl] with [parallel == false].  The OpenMP branch
    is not part of the model. *)
Definition for_each_handle_impl `{HashOrder} iteratee
    (g : HashGraph) (s : S) : bool * S :=
  visit_loop iteratee (λ e, e)
    ((λ id, get_handle id false) <$> hash_keys (graph g)) true s.
End traversal.

(** [get_degree] *)
Definition get_degree (h : handle_t) (go_left : bool) (g : HashGraph)
  : option nat :=
  n ← graph g !! get_id h;
  Some (length (if xorb (get_is_reverse h) go_left
                then node_t.left_edges n else node_t.right_edges n)).

(** ** Removing entries from edge lists and buckets *)

(** [v[i] = v.back(); v.pop_back();] *)
Definition swap_remove {A} (i : nat) (v : list A) : list A :=
  match last v with
  | Some b => take (length v - 1)%nat (<[i := b]> v)
  | None => v
  end.

(** The loop that overwrites the first entry satisfying [P] with the last
    entry, pops the last entry and breaks. *)
Definition remove_first {A} (P : A → Prop) `{∀ x, Decision (P x)}
    (v : list A) : list A :=
  match list_find P v with
  | Some (i, _) => swap_remove i v
  | None => v
  end.

(** The loop that overwrites the first entry satisfying [P] and breaks. *)
Definition replace_first {A} (P : A → Prop) `{∀ x, Decision (P x)}
    (y : A) (v : list A) : list A :=
  match list_find P v with
  | Some (i, _) => <[i := y]> v
  | None => v
  end.

(** The list on which a neighbour [next] keeps its reference back:
    [get_is_reverse(next) ? graph[id].right_edges : graph[id].left_edges],
    rewritten by [f]. *)
Definition update_bwd (f : list handle_t → list handle_t) (next : handle_t)
    (gr : gmap Z node_t.t) : gmap Z node_t.t :=
  let other := node_at gr (get_id next) in
  <[get_id next :=
      if get_is_reverse next
      then node_t.set_right (f (node_t.right_edges other)) other
      else node_t.set_left (f (node_t.left_edges other)) other]> gr.

(** [destroy_handle].  The two edge lists of the node are walked as they
    stand on entry; this is what the source does as long as no entry of
    the node refers to the node itself (otherwise the source pops from
    the vector it is iterating). *)
Definition destroy_handle (h : handle_t) (g : HashGraph) : HashGraph :=
  let node := node_at (graph g) (get_id h) in
  let gr0 := <[get_id h := node]> (graph g) in
  let gr1 :=
    foldl (λ gr next,
             update_bwd (remove_first (λ e, get_id e = get_id h)) next gr)
          gr0 (node_t.left_edges node ++ node_t.right_edges node) in
  set_occurrences (delete (get_id h) (occurrences g))
    (set_graph (delete (get_id h) gr1) g).

(** [destroy_edge] *)
Definition destroy_edge (left right : handle_t) (g : HashGraph) : HashGraph :=
  let left_node := node_at (graph g) (get_id left) in
  let gr1 :=
    <[get_id left :=
        if get_is_reverse left
        then node_t.set_left
               (remove_first (λ e, e = right) (node_t.left_edges left_node))
               left_node
        else node_t.set_right
               (remove_first (λ e, e = right) (node_t.right_edges left_node))
               left_node]> (graph g) in
  set_graph (update_bwd (remove_first (λ e, e = flip left)) right gr1) g.

(** ** Observations used in the statements *)

(** One of the two adjacency lists of the record kept under [id]. *)
Definition edge_list (left_side : bool) (id : Z) (gr : gmap Z node_t.t)
  : list handle_t :=
  if left_side then node_t.left_edges (node_at gr id)
  else node_t.right_edges (node_at gr id).

(** The number of entries on both adjacency lists of a record. *)
Definition total_degree (n : node_t.t) : nat :=
  (length (node_t.left_edges n) + length (node_t.right_edges n))%nat.

(** The largest identifier among the live nodes, if there is one. *)
Definition max_live_id (g : HashGraph) : option Z :=
  foldr (λ k acc, Some (from_option (Z.max k) k acc)) None
        ((map_to_list (graph g)).*1).

(** What a stateful iteratee does when it is called on every entry of a
    list in turn, with nothing stopping it: the verdicts it returns and
    the state it ends in. *)
Section iteratee_runs.
Context {S : Type}.
Implicit Types iteratee : handle_t → S → bool * S.

Fixpoint verdicts iteratee (l : list handle_t) (s : S) : list bool :=
  match l with
  | [] => []
  | x :: l' => (iteratee x s).1 :: verdicts iteratee l' (iteratee x s).2
  end.

Definition state_after iteratee (l : list handle_t) (s : S) : S :=
  foldl (λ s x, (iteratee x s).2) s l.

(** The early-stop contract: [visited] is what the loop called the
    iteratee on, [rest] what it left alone, [r] its result. *)
Definition early_stop iteratee (visited rest : list handle_t) (s : S)
    (r : bool) : Prop :=
  match r with
  | true => rest = [] ∧ Forall (λ b, b = true) (verdicts iteratee visited s)
  | false =>
      ∃ before x, visited = before ++ [x] ∧
        Forall (λ b, b = true) (verdicts iteratee before s) ∧
        (iteratee x (state_after iteratee before s)).1 = false
  end.
End iteratee_runs.

(** An iteratee that never stops and records what it is called on. *)
Definition record_visit (h : handle_t) (log : list handle_t)
  : bool * list handle_t := (true, log ++ [h]).

(** Two tables the model can be run with: one that iterates in increasing
    key order and one that iterates in decreasing key order. *)
Definition ascending_order : HashOrder :=
  {| hash_iter := merge_sort Z.le;
     hash_iter_perm := merge_sort_Permutation Z.le |}.
Definition descending_order : HashOrder :=
  {| hash_iter := merge_sort Z.ge;
     hash_iter_perm := merge_sort_Permutation Z.ge |}.

(** ** Path store

    Every pointer dereference is a lookup in [store]; an operation that
    would dereference a pointer to no record has no outcome in the model
    ([None]). *)

(** [new path_mapping_t(...)]: the allocator returns an address at which
    no record lives.  Records have distinct 64-bit addresses, so the free
    store holds fewer than [2^64] of them; [None] stands for
    [std::bad_alloc]. *)
Definition new_addr (st : gmap addr path_mapping_t.t) : option addr :=
  if decide (Z.of_nat (size st) + 1 < two64) then Some (fresh (dom st))
  else None.

(** [path_t::push_back] *)
Definition push_back (h : handle_t) (p : path_t.t)
    (st : gmap addr path_mapping_t.t)
  : option (addr * path_t.t * gmap addr path_mapping_t.t) :=
  pushing ← new_addr st;
  let record := path_mapping_t.create h (path_t.path_id p) in
  let count' := wrap64 (path_t.count p + 1) in
  match path_t.tail p with
  | None =>
      Some (pushing,
            path_t.mk (Some pushing) (Some pushing) (path_t.path_id p) count'
                      (path_t.name p),
            <[pushing := record]> st)
  | Some tl =>
      tail_record ← st !! tl;
      Some (pushing,
            path_t.mk (path_t.head p) (Some pushing) (path_t.path_id p) count'
                      (path_t.name p),
            <[pushing := path_mapping_t.set_prev (Some tl) record]>
              (<[tl := path_mapping_t.set_next (Some pushing) tail_record]> st))
  end.

(** [path_t::push_front] *)
Definition push_front (h : handle_t) (p : path_t.t)
    (st : gmap addr path_mapping_t.t)
  : option (addr * path_t.t * gmap addr path_mapping_t.t) :=
  pushing ← new_addr st;
  let record := path_mapping_t.create h (path_t.path_id p) in
  let count' := wrap64 (path_t.count p + 1) in
  match path_t.head p with
  | None =>
      Some (pushing,
            path_t.mk (Some pushing) (Some pushing) (path_t.path_id p) count'
                      (path_t.name p),
            <[pushing := record]> st)
  | Some hd =>
      head_record ← st !! hd;
      Some (pushing,
            path_t.mk (Some pushing) (path_t.tail p) (path_t.path_id p) count'
                      (path_t.name p),
            <[pushing := path_mapping_t.set_next (Some hd) record]>
              (<[hd := path_mapping_t.set_prev (Some pushing) head_record]> st))
  end.

(** [path_t::insert_after] *)
Definition insert_after (h : handle_t) (mapping : option addr) (p : path_t.t)
    (st : gmap addr path_mapping_t.t)
  : option (addr * path_t.t * gmap addr path_mapping_t.t) :=
  inserting ← new_addr st;
  let record := path_mapping_t.create h (path_t.path_id p) in
  let count' := wrap64 (path_t.count p + 1) in
  match mapping with
  | Some m =>
      m_record ← st !! m;
      let after := path_mapping_t.next m_record in
      st1 ← match after with
            | Some n =>
                n_record ← st !! n;
                Some (<[n := path_mapping_t.set_prev (Some inserting) n_record]> st)
            | None => Some st
            end;
      m_record' ← st1 !! m;
      let st2 := <[m := path_mapping_t.set_next (Some inserting) m_record']> st1 in
      let st3 := <[inserting := path_mapping_t.mk h (path_t.path_id p)
                                  (Some m) after]> st2 in
      Some (inserting,
            path_t.mk (path_t.head p)
                      (if decide (Some m = path_t.tail p)
                       then Some inserting else path_t.tail p)
                      (path_t.path_id p) count' (path_t.name p),
            st3)
  | None =>
      match path_t.head p with
      | Some hd =>
          head_record ← st !! hd;
          Some (inserting,
                path_t.mk (Some inserting) (path_t.tail p) (path_t.path_id p)
                          count' (path_t.name p),
                <[inserting := path_mapping_t.set_next (Some hd) record]>
                  (<[hd := path_mapping_t.set_prev (Some inserting) head_record]> st))
      | None =>
          Some (inserting,
                path_t.mk (Some inserting) (Some inserting) (path_t.path_id p)
                          count' (path_t.name p),
                <[inserting := record]> st)
      end
  end.

(** [path_t::remove] *)
Definition remove (mapping : addr) (p : path_t.t)
    (st : gmap addr path_mapping_t.t)
  : option (path_t.t * gmap addr path_mapping_t.t) :=
  record ← st !! mapping;
  let head' := if decide (Some mapping = path_t.head p)
               then path_mapping_t.next record else path_t.head p in
  let tail' := if decide (Some mapping = path_t.tail p)
               then path_mapping_t.prev record else path_t.tail p in
  st1 ← match path_mapping_t.next record with
        | Some n =>
            n_record ← st !! n;
            Some (<[n := path_mapping_t.set_prev (path_mapping_t.prev record)
                           n_record]> st)
        | None => Some st
        end;
  st2 ← match path_mapping_t.prev record with
        | Some q =>
            q_record ← st1 !! q;
            Some (<[q := path_mapping_t.set_next (path_mapping_t.next record)
                           q_record]> st1)
        | None => Some st1
        end;
  Some (path_t.mk head' tail' (path_t.path_id p)
                  (wrap64 (path_t.count p - 1)) (path_t.name p),
        delete mapping st2).

(** The records met by following [next] from [cur].  The loops of the
    source that do this have no bound; [fuel] bounds the walk in the
    model, and the number of records in the store is always enough for a
    list without a cycle. *)
Fixpoint walk (fuel : nat) (st : gmap addr path_mapping_t.t)
    (cur : option addr) : list addr :=
  match fuel, cur with
  | S fuel', Some a =>
      match st !! a with
      | Some record => a :: walk fuel' st (path_mapping_t.next record)
      | None => []
      end
  | _, _ => []
  end.

Definition steps_from (st : gmap addr path_mapping_t.t) (cur : option addr)
  : list addr := walk (size st) st cur.

(** [path_t::~path_t]: follow [next] from the head and delete each record. *)
Fixpoint free_list (fuel : nat) (cur : option addr)
    (st : gmap addr path_mapping_t.t) : gmap addr path_mapping_t.t :=
  match fuel, cur with
  | S fuel', Some a =>
      match st !! a with
      | Some record => free_list fuel' (path_mapping_t.next record) (delete a st)
      | None => st
      end
  | _, _ => st
  end.

Definition destroy_path_t (p : path_t.t) (st : gmap addr path_mapping_t.t)
  : gmap addr path_mapping_t.t := free_list (size st) (path_t.head p) st.

(** The handles of the records in a list of steps. *)
Definition handles_of (st : gmap addr path_mapping_t.t) (steps : list addr)
  : list handle_t :=
  omap (λ a, path_mapping_t.handle <$> st !! a) steps.

(** ** Paths and occurrences *)

(** [occurrences[id].push_back(mapping)] *)
Definition push_occurrence (id : Z) (mapping : addr)
    (oc : gmap Z (list addr)) : gmap Z (list addr) :=
  <[id := default [] (oc !! id) ++ [mapping]]> oc.

(** [get_occurrence_count]; [paths.at] throws on a missing path. *)
Definition get_occurrence_count (path : Z) (g : HashGraph) : option Z :=
  path_t.count <$> paths g !! path.

Definition has_path (name : string) (g : HashGraph) : bool :=
  bool_decide (is_Some (path_id g !! name)).

Definition get_path_count (g : HashGraph) : nat := size (paths g).

(** [create_path_handle].  Assigning into [paths[next_path_id]] first
    destroys whatever list that slot held. *)
Definition create_path_handle (name : string) (g : HashGraph)
  : Z * HashGraph :=
  let id := next_path_id g in
  let st := match paths g !! id with
            | Some old => destroy_path_t old (store g)
            | None => store g
            end in
  (id,
   mkHashGraph (max_id g) (min_id g) (id + 1) (graph g)
               (<[name := id]> (path_id g))
               (<[id := path_t.create name id]> (paths g))
               (occurrences g) st).

(** [paths[id]]: [operator[]] default-constructs a missing path. *)
Definition path_at (ps : gmap Z path_t.t) (id : Z) : path_t.t :=
  default path_t.empty (ps !! id).

(** [append_occurrence]; the result is the occurrence handle, the path
    together with the address of the new step. *)
Definition append_occurrence (path : Z) (to_append : handle_t) (g : HashGraph)
  : option ((Z * addr) * HashGraph) :=
  '(mapping, p', st') ← push_back to_append (path_at (paths g) path) (store g);
  Some ((path, mapping),
        set_store st'
          (set_occurrences
             (push_occurrence (get_id to_append) mapping (occurrences g))
             (set_paths (<[path := p']> (paths g)) g))).

(** Modelled from the spec: [for_each_occurrence_in_path] belongs to the
    base interface, which is not part of the sources at hand.  It does
    nothing on a path whose count is zero and otherwise starts at
    [get_first_occurrence] and moves with [get_next_occurrence] while
    [has_next_occurrence] holds. *)
Definition occurrences_in_path (p : path_t.t)
    (st : gmap addr path_mapping_t.t) : list addr :=
  if decide (path_t.count p = 0) then [] else steps_from st (path_t.head p).

(** The body of the loop in [destroy_path]: take one step out of the
    bucket of its node. *)
Definition forget_occurrence (st : gmap addr path_mapping_t.t)
    (oc : gmap Z (list addr)) (mapping : addr) : gmap Z (list addr) :=
  match st !! mapping with
  | Some record =>
      let id := get_id (path_mapping_t.handle record) in
      <[id := remove_first (λ a, a = mapping) (default [] (oc !! id))]> oc
  | None => oc
  end.

(** [destroy_path] *)
Definition destroy_path (path : Z) (g : HashGraph) : option HashGraph :=
  p ← paths g !! path;
  let oc := foldl (forget_occurrence (store g)) (occurrences g)
                  (occurrences_in_path p (store g)) in
  Some (mkHashGraph (max_id g) (min_id g) (next_path_id g) (graph g)
          (delete (path_t.name p) (path_id g))
          (delete path (paths g)) oc
          (destroy_path_t p (store g))).

(** [get_occurrence], [get_first_occurrence] and the other navigation
    functions, on the address of a step. *)
Definition get_occurrence (mapping : addr) (g : HashGraph) : option handle_t :=
  path_mapping_t.handle <$> store g !! mapping.
Definition get_first_occurrence (path : Z) (g : HashGraph)
  : option (option addr) := path_t.head <$> paths g !! path.
Definition get_last_occurrence (path : Z) (g : HashGraph)
  : option (option addr) := path_t.tail <$> paths g !! path.
Definition get_next_occurrence (mapping : addr) (g : HashGraph)
  : option (option addr) := path_mapping_t.next <$> store g !! mapping.
Definition get_previous_occurrence (mapping : addr) (g : HashGraph)
  : option (option addr) := path_mapping_t.prev <$> store g !! mapping.

(** The steps of a path from head to tail, and the handles they hold. *)
Definition path_steps (path : Z) (g : HashGraph) : list addr :=
  steps_from (store g) (path_t.head (path_at (paths g) path)).
Definition path_handles (path : Z) (g : HashGraph) : list handle_t :=
  handles_of (store g) (path_steps path g).

(** ** Splitting a node *)

(** The first loop of [divide_handle]: one new node per offset, holding
    the piece that starts there. *)
Fixpoint divide_sequence (id node_length : Z) (forward_offsets : list Z)
    (g : HashGraph) (return_val : list handle_t)
  : option (list handle_t * HashGraph) :=
  match forward_offsets with
  | [] => Some (return_val, g)
  | off :: rest =>
      let length := wrap64 (match rest with
                            | following :: _ => following
                            | [] => node_length
                            end - off) in
      piece ← substr (node_t.sequence (node_at (graph g) id)) off length;
      let '(h, g') := create_handle_next piece g in
      divide_sequence id node_length rest g' (return_val ++ [h])
  end.

(** Moving the right edges of the node onto the final piece. *)
Definition move_right_edges (id final : Z) (gr : gmap Z node_t.t)
  : gmap Z node_t.t :=
  let gr1 := <[final := node_at gr final]> gr in
  let moved := node_t.right_edges (node_at gr1 id) in
  let gr2 := <[final := node_t.set_right moved (node_at gr1 final)]> gr1 in
  <[id := node_t.set_right [] (node_at gr2 id)]> gr2.

(** The loop over [final_node.right_edges] that points the neighbours'
    references at the final piece.  The vector keeps its size, so the
    range-[for] is a loop over its indices that reads the entry current
    at each turn. *)
Definition retarget_backrefs (final : Z) (old_target new_target : handle_t)
    (gr : gmap Z node_t.t) : gmap Z node_t.t :=
  foldl (λ gr i,
           match node_t.right_edges (node_at gr final) !! i with
           | Some next =>
               update_bwd (replace_first (λ e, e = old_target) new_target)
                          next gr
           | None => gr
           end)
        gr (seq 0 (length (node_t.right_edges (node_at gr final)))).

(** [for (i = 1; i < return_val.size(); i++)
       create_edge(return_val[i - 1], return_val[i]);] *)
Fixpoint chain_segments (return_val : list handle_t) (gr : gmap Z node_t.t)
  : gmap Z node_t.t :=
  match return_val with
  | a :: (b :: _) as rest => chain_segments rest (create_edge_nodes a b gr)
  | _ => gr
  end.

(** One of the two inner loops over the new pieces: insert a step after
    [mapping] and file it in the bucket of its node, then continue from
    the new step.  [busy] is the bucket that the enclosing range-[for] is
    walking; a [push_back] on that very vector would invalidate the loop,
    and has no outcome in the model. *)
Fixpoint insert_steps (busy : Z) (pieces : list (Z * handle_t))
    (mapping : option addr) (path : Z) (g : HashGraph) : option HashGraph :=
  match pieces with
  | [] => Some g
  | (id, h) :: pieces' =>
      '(inserted, p', st') ←
        insert_after h mapping (path_at (paths g) path) (store g);
      if decide (id = busy) then None
      else
        insert_steps busy pieces' (Some inserted) path
          (set_store st'
             (set_occurrences (push_occurrence id inserted (occurrences g))
                (set_paths (<[path := p']> (paths g)) g)))
  end.

(** The body of the loop over the bucket of the divided node. *)
Definition rehome_step (busy : Z) (return_val : list handle_t) (g : HashGraph)
    (mapping : addr) : option HashGraph :=
  record ← store g !! mapping;
  let path := path_mapping_t.path_id record in
  if get_is_reverse (path_mapping_t.handle record)
  then insert_steps busy
         ((λ h, (get_id h, flip h)) <$> reverse (tail return_val))
         (path_mapping_t.prev record) path g
  else insert_steps busy ((λ h, (get_id h, h)) <$> tail return_val)
         (Some mapping) path g.

Fixpoint rehome_steps (busy : Z) (return_val : list handle_t)
    (bucket : list addr) (g : HashGraph) : option HashGraph :=
  match bucket with
  | [] => Some g
  | mapping :: bucket' =>
      g' ← rehome_step busy return_val g mapping;
      rehome_steps busy return_val bucket' g'
  end.

(** [divide_handle].  [None] stands for an exception that leaves the
    call ([graph.at] in [get_length], [substr], a failed allocation) or for
    a step the language gives no meaning to (the dereference of a pointer
    to no record, a [push_back] on the bucket being walked). *)
Definition divide_handle (h : handle_t) (offsets : list Z) (g : HashGraph)
  : option (list handle_t * HashGraph) :=
  node_length ← get_length h g;
  let forward_offsets :=
    if get_is_reverse h
    then (λ off, wrap64 (node_length - off)) <$> offsets
    else offsets in
  let forward_handle := forward h in
  if decide (offsets = []) then Some ([forward_handle], g)
  else
    let id := get_id h in
    let front := default 0 (head forward_offsets) in
    '(return_val, g1) ←
      divide_sequence id node_length forward_offsets g [forward_handle];
    kept ← substr (node_t.sequence (node_at (graph g1) id)) 0 front;
    let gr2 := <[id := node_t.set_sequence kept (node_at (graph g1) id)]>
                 (graph g1) in
    let back := default forward_handle (last return_val) in
    let gr3 := move_right_edges id (get_id back) gr2 in
    let gr4 := retarget_backrefs (get_id back) (flip forward_handle)
                                 (flip back) gr3 in
    let gr5 := chain_segments return_val gr4 in
    let g5 := set_graph gr5 g1 in
    g6 ← match occurrences g5 !! id with
         | Some bucket => rehome_steps id return_val bucket g5
         | None => Some g5
         end;
    Some (if get_is_reverse h then flip <$> reverse return_val
          else return_val,
          g6).

(** The pieces that [divide_handle] cuts out of a sequence at increasing
    forward offsets, one starting at each offset. *)
Fixpoint pieces (s : seq_t) (offsets : list Z) : list seq_t :=
  match offsets with
  | [] => []
  | off :: rest =>
      take (Z.to_nat (match rest with
                      | following :: _ => following
                      | [] => Z.of_nat (length s)
                      end - off))
           (drop (Z.to_nat off) s)
      :: pieces s rest
  end.

(** The sequence kept under an identifier, if it is live. *)
Definition seq_at (gr : gmap Z node_t.t) (id : Z) : option seq_t :=
  node_t.sequence <$> gr !! id.

(** An edit of the node table that keeps every live node live and
    leaves its sequence alone. *)
Definition sequences_kept (gr gr' : gmap Z node_t.t) : Prop :=
  ∀ id s, seq_at gr id = Some s → seq_at gr' id = Some s.

(** Every live identifier is at most the tracked bound. *)
Definition ids_bounded (g : HashGraph) : Prop :=
  ∀ id, is_Some (graph g !! id) → id <= max_id g.

(** The sequences of a list of handles, laid end to end. *)
Definition joined_sequence (hs : list handle_t) (g : HashGraph)
  : option seq_t :=
  pieces ← mapM (λ h, get_sequence h g) hs; Some (concat pieces).

(** ** Reciprocal entries *)

(** How many entries of a list refer to node [x]. *)
Definition refs_to (x : Z) (l : list handle_t) : nat :=
  length (filter (λ e, get_id e = x) l).

(** How many entries of a list lead to node [n] and keep their reference
    back on its left list ([left_side = true]: the entry is forward) or on
    its right list (the entry is reverse). *)
Definition exits_to (n : Z) (left_side : bool) (l : list handle_t) : nat :=
  length (filter (λ e, get_id e = n ∧ negb (get_is_reverse e) = left_side) l).

(** The entries of node [x], left list first. *)
Definition out_edges (x : Z) (gr : gmap Z node_t.t) : list handle_t :=
  node_t.left_edges (node_at gr x) ++ node_t.right_edges (node_at gr x).

(** Node [x] has no edge to itself. *)
Definition no_self_loop (x : Z) (gr : gmap Z node_t.t) : Prop :=
  Forall (λ e, get_id e ≠ x) (out_edges x gr).

(** Every reference that another node keeps to [x] is the reciprocal
    entry of an edge stored on [x]. *)
Definition backrefs_accounted (x : Z) (gr : gmap Z node_t.t) : Prop :=
  map_Forall (λ n nd, n ≠ x →
                (refs_to x (node_t.left_edges nd)
                 ≤ exits_to n true (out_edges x gr))%nat ∧
                (refs_to x (node_t.right_edges nd)
                 ≤ exits_to n false (out_edges x gr))%nat) gr.

(** The node-record invariant for edges between different nodes: the
    references that [n] keeps to [x] on one of its lists are as many as
    the entries of [x] that lead to that list of [n]. *)
Definition reciprocal (gr : gmap Z node_t.t) : Prop :=
  ∀ x n side, x ≠ n →
    refs_to x (edge_list side n gr) = exits_to n side (out_edges x gr).

(** No record of the table refers to node [x]. *)
Definition no_refs_to (x : Z) (gr : gmap Z node_t.t) : Prop :=
  map_Forall (λ _ nd,
                Forall (λ e, get_id e ≠ x)
                       (node_t.left_edges nd ++ node_t.right_edges nd)) gr.

(** ** Binary codec

    The stream is the list of its bytes.  Modelled from the spec:
    [endianness<T>::to_big_endian] is not part of the sources at hand; a
    64-bit integer is written as its eight bytes, most significant
    first. *)
Definition byte_of_Z (z : Z) : byte :=
  default "000"%byte (Byte.of_N (Z.to_N (z mod 256))).
Definition Z_of_byte (b : byte) : Z := Z.of_N (Byte.to_N b).

Fixpoint to_big_endian (width : nat) (z : Z) : list byte :=
  match width with
  | O => []
  | S width' => to_big_endian width' (z / 256) ++ [byte_of_Z z]
  end.

Definition from_big_endian (bs : list byte) : Z :=
  foldl (λ acc b, acc * 256 + Z_of_byte b) 0 bs.

(** Writing a 64-bit integer, signed or unsigned: the eight bytes of its
    bit pattern. *)
Definition write64 (z : Z) : list byte := to_big_endian 8 (wrap64 z).

(** The signed reading of a 64-bit pattern. *)
Definition to_signed (u : Z) : Z := if decide (u < 2 ^ 63) then u else u - two64.

(** [in.read] of eight bytes.  A read past the end of the stream leaves
    the destination unspecified in the source; the model stops there
    ([None]). *)
Definition read_u64 (inp : list byte) : option (Z * list byte) :=
  if decide (8 ≤ length inp)%nat
  then Some (from_big_endian (take 8 inp), drop 8 inp) else None.
Definition read_i64 (inp : list byte) : option (Z * list byte) :=
  '(u, rest) ← read_u64 inp; Some (to_signed u, rest).

(** [resize(n)] followed by [n] reads of one character. *)
Definition read_chars (n : Z) (inp : list byte) : option (seq_t * list byte) :=
  if decide (n ≤ Z.of_nat (length inp))
  then Some (ascii_of_byte <$> take (Z.to_nat n) inp, drop (Z.to_nat n) inp)
  else None.

(** [resize(n)] followed by [n] reads of one encoded handle. *)
Fixpoint read_handles (n : nat) (inp : list byte)
  : option (list handle_t * list byte) :=
  match n with
  | O => Some ([], inp)
  | S n' =>
      '(h, rest) ← read_u64 inp;
      '(hs, rest') ← read_handles n' rest;
      Some (h :: hs, rest')
  end.

Definition write_chars (s : seq_t) : list byte := byte_of_ascii <$> s.
Definition write_handles (hs : list handle_t) : list byte :=
  hs ≫= write64.

(** [node_t::serialize] *)
Definition node_serialize (n : node_t.t) : list byte :=
  write64 (Z.of_nat (length (node_t.sequence n)))
  ++ write_chars (node_t.sequence n)
  ++ write64 (Z.of_nat (length (node_t.left_edges n)))
  ++ write_handles (node_t.left_edges n)
  ++ write64 (Z.of_nat (length (node_t.right_edges n)))
  ++ write_handles (node_t.right_edges n).

(** [node_t::deserialize] *)
Definition node_deserialize (inp : list byte) : option (node_t.t * list byte) :=
  '(seq_size, inp) ← read_u64 inp;
  '(sequence, inp) ← read_chars seq_size inp;
  '(num_left_edges, inp) ← read_u64 inp;
  '(left_edges, inp) ← read_handles (Z.to_nat num_left_edges) inp;
  '(num_right_edges, inp) ← read_u64 inp;
  '(right_edges, inp) ← read_handles (Z.to_nat num_right_edges) inp;
  Some (node_t.mk sequence left_edges right_edges, inp).

(** [path_t::serialize] *)
Definition path_serialize (p : path_t.t) (st : gmap addr path_mapping_t.t)
  : list byte :=
  write64 (path_t.path_id p)
  ++ write64 (Z.of_nat (String.length (path_t.name p)))
  ++ write_chars (String.list_ascii_of_string (path_t.name p))
  ++ write64 (path_t.count p)
  ++ write_handles (handles_of st (steps_from st (path_t.head p))).

(** The loop of [push_back] calls in [path_t::deserialize]. *)
Fixpoint push_back_all (hs : list handle_t) (p : path_t.t)
    (st : gmap addr path_mapping_t.t)
  : option (path_t.t * gmap addr path_mapping_t.t) :=
  match hs with
  | [] => Some (p, st)
  | h :: hs' =>
      '(_, p', st') ← push_back h p st;
      push_back_all hs' p' st'
  end.

(** [path_t::deserialize], on a freshly constructed [path_t]. *)
Definition path_deserialize (inp : list byte)
    (st : gmap addr path_mapping_t.t)
  : option (path_t.t * gmap addr path_mapping_t.t * list byte) :=
  '(path_id_in, inp) ← read_i64 inp;
  '(name_size, inp) ← read_u64 inp;
  '(name, inp) ← read_chars name_size inp;
  '(num_mappings, inp) ← read_u64 inp;
  '(steps, inp) ← read_handles (Z.to_nat num_mappings) inp;
  '(p, st') ← push_back_all steps
                (path_t.mk None None path_id_in 0
                           (String.string_of_list_ascii name)) st;
  Some (p, st', inp).

Section codec.
Context `{HashOrder}.

(** [HashGraph::serialize] *)
Definition serialize (g : HashGraph) : list byte :=
  write64 (max_id g) ++ write64 (min_id g) ++ write64 (next_path_id g)
  ++ write64 (Z.of_nat (size (graph g)))
  ++ (hash_items (graph g) ≫= λ '(id, n), write64 id ++ node_serialize n)
  ++ write64 (Z.of_nat (size (paths g)))
  ++ (hash_items (paths g) ≫= λ '(_, p), path_serialize p (store g)).

(** [clear]; clearing [paths] destroys every path and with it its
    list of steps. *)
Definition clear (g : HashGraph) : HashGraph :=
  mkHashGraph 0 id_max 1 ∅ ∅ ∅ ∅
    (foldl (λ st '(_, p), destroy_path_t p st) (store g)
           (hash_items (paths g))).

(** The loop over the node records in [deserialize]. *)
Fixpoint read_nodes (n : nat) (inp : list byte) (gr : gmap Z node_t.t)
  : option (gmap Z node_t.t * list byte) :=
  match n with
  | O => Some (gr, inp)
  | S n' =>
      '(node_id, inp) ← read_i64 inp;
      '(node, inp) ← node_deserialize inp;
      read_nodes n' inp (<[node_id := node]> gr)
  end.

(** The loop over the paths in [deserialize].  Assigning into
    [paths[path.path_id]] first destroys whatever list that slot held. *)
Fixpoint read_paths (n : nat) (inp : list byte) (g : HashGraph)
  : option (HashGraph * list byte) :=
  match n with
  | O => Some (g, inp)
  | S n' =>
      '(p, st, inp) ← path_deserialize inp (store g);
      let st' := match paths g !! path_t.path_id p with
                 | Some old => destroy_path_t old st
                 | None => st
                 end in
      read_paths n' inp
        (mkHashGraph (max_id g) (min_id g) (next_path_id g) (graph g)
           (<[path_t.name p := path_t.path_id p]> (path_id g))
           (<[path_t.path_id p := p]> (paths g))
           (occurrences g) st')
  end.

(** The loop that rebuilds the occurrence index. *)
Definition index_path (st : gmap addr path_mapping_t.t)
    (oc : gmap Z (list addr)) (p : path_t.t) : gmap Z (list addr) :=
  foldl (λ oc mapping,
           match st !! mapping with
           | Some record =>
               push_occurrence (get_id (path_mapping_t.handle record))
                               mapping oc
           | None => oc
           end)
        oc (steps_from st (path_t.head p)).

Definition rebuild_occurrences (g : HashGraph) : HashGraph :=
  set_occurrences
    (foldl (λ oc '(_, p), index_path (store g) oc p) (occurrences g)
           (hash_items (paths g)))
    g.

(** [HashGraph::deserialize] *)
Definition deserialize (inp : list byte) (g : HashGraph) : option HashGraph :=
  let g := clear g in
  '(max_id_in, inp) ← read_i64 inp;
  '(min_id_in, inp) ← read_i64 inp;
  '(next_path_id_in, inp) ← read_i64 inp;
  '(num_nodes, inp) ← read_u64 inp;
  '(gr, inp) ← read_nodes (Z.to_nat num_nodes) inp (graph g);
  '(num_paths, inp) ← read_u64 inp;
  '(g, inp) ← read_paths (Z.to_nat num_paths) inp
                (mkHashGraph max_id_in min_id_in next_path_id_in gr
                   (path_id g) (paths g) (occurrences g) (store g));
  Some (rebuild_occurrences g).
End codec.

(** ** Well-formed paths *)

(** [cells] is a doubly linked segment of step records: it starts at
    [first], the record before it is [before], its last record is [final]
    and the record after it is [after]. *)
Fixpoint dseg (st : gmap addr path_mapping_t.t) (before first : option addr)
    (cells : list addr) (final after : option addr) : Prop :=
  match cells with
  | [] => first = after ∧ final = before
  | a :: cells' =>
      first = Some a ∧
      ∃ record, st !! a = Some record ∧
                path_mapping_t.prev record = before ∧
                dseg st (Some a) (path_mapping_t.next record) cells'
                     final after
  end.

(** The path record [p] kept under [key] owns exactly the step records
    [cells], linked from its head to its tail, and counts them. *)
Definition path_cells (st : gmap addr path_mapping_t.t) (key : Z)
    (p : path_t.t) (cells : list addr) : Prop :=
  dseg st None (path_t.head p) cells (path_t.tail p) None ∧
  NoDup cells ∧
  path_t.count p = Z.of_nat (length cells) ∧
  Forall (λ a, ∃ record, st !! a = Some record ∧
                         path_mapping_t.path_id record = key) cells ∧
  path_t.path_id p = key.

(** The invariant of the path store: the free store has room left in
    the address space, every path is a well-formed list, and every step
    record on the free store is on the list of the path it names. *)
Record store_wf (ps : gmap Z path_t.t) (st : gmap addr path_mapping_t.t)
  : Prop := {
  wf_room : Z.of_nat (size st) < two64;
  wf_paths : ∀ k p, ps !! k = Some p → ∃ cells, path_cells st k p cells;
  wf_store : ∀ a record, st !! a = Some record →
             ∃ p, ps !! path_mapping_t.path_id record = Some p ∧
                  a ∈ steps_from st (path_t.head p)
}.

Definition paths_wf (g : HashGraph) : Prop := store_wf (paths g) (store g).

(** What one allocation does to the free store: [a] is a new record that
    holds [h] for path [k]; the records that were there keep their handle
    and their path, and only records of path [k] are relinked. *)
Definition store_extends (k : Z) (a : addr) (h : handle_t)
    (st st' : gmap addr path_mapping_t.t) : Prop :=
  st !! a = None ∧
  Z.of_nat (size st) + 1 < two64 ∧
  dom st' = {[a]} ∪ dom st ∧
  (∃ before after, st' !! a = Some (path_mapping_t.mk h k before after)) ∧
  (∀ b record, st !! b = Some record →
     ∃ record', st' !! b = Some record' ∧
       path_mapping_t.handle record' = path_mapping_t.handle record ∧
       path_mapping_t.path_id record' = path_mapping_t.path_id record ∧
       (path_mapping_t.path_id record ≠ k → record' = record)).

Arguments write64 : simpl never.
Arguments read_u64 : simpl never.
Arguments read_i64 : simpl never.
Arguments read_chars : simpl never.

(** ** What the codec can carry *)

(** A value that a signed 64-bit variable holds. *)
Definition int64 (z : Z) : Prop := - 2 ^ 63 <= z < 2 ^ 63.

(** A node record whose sizes fit in 64 bits and whose entries are 64-bit
    handles. *)
Definition node_representable (n : node_t.t) : Prop :=
  Z.of_nat (length (node_t.sequence n)) < two64 ∧
  Z.of_nat (length (node_t.left_edges n)) < two64 ∧
  Z.of_nat (length (node_t.right_edges n)) < two64 ∧
  Forall valid_handle (node_t.left_edges n) ∧
  Forall valid_handle (node_t.right_edges n).

Global Instance valid_handle_dec (h : Z) : Decision (valid_handle h).
Proof. unfold valid_handle. apply _. Defined.
Global Instance int64_dec (z : Z) : Decision (int64 z).
Proof. unfold int64. apply _. Defined.
Global Instance node_representable_dec (n : node_t.t)
  : Decision (node_representable n).
Proof. unfold node_representable. apply _. Defined.

(** A state of the object as a 64-bit machine holds it: identifiers are
    signed 64-bit integers, sizes are unsigned 64-bit integers, handles are
    64-bit patterns.  The model keeps all of them in [Z] and in lists of
    any length, so this has to be said. *)
Record representable (g : HashGraph) : Prop := {
  rep_max_id : int64 (max_id g);
  rep_min_id : int64 (min_id g);
  rep_next_path_id : int64 (next_path_id g);
  rep_node_count : Z.of_nat (size (graph g)) < two64;
  rep_nodes : ∀ id n, graph g !! id = Some n →
              int64 id ∧ node_representable n;
  rep_path_count : Z.of_nat (size (paths g)) < two64;
  rep_paths : ∀ k p, paths g !! k = Some p →
              int64 (path_t.path_id p) ∧
              Z.of_nat (String.length (path_t.name p)) < two64;
  rep_steps : ∀ a record, store g !! a = Some record →
              valid_handle (path_mapping_t.handle record)
}.

(** Path [k] is the same in [g] and [g']: same identifier, name and count,
    and the same handles from head to tail. *)
Definition same_path (g g' : HashGraph) (k : Z) : Prop :=
  match paths g !! k, paths g' !! k with
  | Some p, Some p' =>
      path_t.path_id p' = path_t.path_id p ∧
      path_t.name p' = path_t.name p ∧
      path_t.count p' = path_t.count p ∧
      path_handles k g' = path_handles k g
  | None, None => True
  | _, _ => False
  end.

(** Every step of every path is filed in the bucket of the node of its
    handle, and the buckets hold nothing else. *)
Definition occurrences_indexed (g : HashGraph) : Prop :=
  (∀ k a record,
     is_Some (paths g !! k) → a ∈ path_steps k g →
     store g !! a = Some record →
     a ∈ default [] (occurrences g
                       !! get_id (path_mapping_t.handle record))) ∧
  (∀ x bucket a,
     occurrences g !! x = Some bucket → a ∈ bucket →
     ∃ record, store g !! a = Some record ∧
               get_id (path_mapping_t.handle record) = x).

(** The number of steps of the paths in a list. *)
Definition steps_total (st : gmap addr path_mapping_t.t)
    (l : list (Z * path_t.t)) : nat :=
  sum_list ((λ '(_, p), length (steps_from st (path_t.head p))) <$> l).

(** ** Scenarios of the tests *)

(** Node 2 with an edge to node 1 and an edge to node 3. *)
Definition two_edge_graph : HashGraph :=
  let '(h1, g) := create_handle (seq_of "CT") 1 empty_graph in
  let '(h2, g) := create_handle (seq_of "ATG") 2 g in
  let '(h3, g) := create_handle (seq_of "GAC") 3 g in
  create_edge h2 h3 (create_edge h1 h2 g).

(** The scenario of the path tests: three nodes, two paths that cross the
    middle node in opposite orientations, and a split of the middle node
    at offsets 2 and 4. *)
Definition split_scenario : option (list handle_t * HashGraph) :=
  let '(h1, g) := create_handle_next (seq_of "AC") empty_graph in
  let '(h2, g) := create_handle_next (seq_of "CAGTGA") g in
  let '(h3, g) := create_handle_next (seq_of "GT") g in
  let g := create_edge h1 h2 g in
  let g := create_edge h2 h3 g in
  let g := create_edge h1 (flip h2) g in
  let g := create_edge (flip h2) h3 g in
  let '(p1, g) := create_path_handle "1" g in
  let '(p2, g) := create_path_handle "2" g in
  '(_, g) ← append_occurrence p1 h1 g;
  '(_, g) ← append_occurrence p1 h2 g;
  '(_, g) ← append_occurrence p1 h3 g;
  '(_, g) ← append_occurrence p2 h1 g;
  '(_, g) ← append_occurrence p2 (flip h2) g;
  '(_, g) ← append_occurrence p2 h3 g;
  divide_handle h2 [2; 4] g.

(** A node, a path and one step on it. *)
Definition one_step_graph : option HashGraph :=
  let '(h, g) := create_handle (seq_of "ATG") 2 empty_graph in
  let '(p, g) := create_path_handle "1" g in
  '(_, g) ← append_occurrence p h g;
  Some g.

(** ** Further observations and operations *)

(** The handles that [follow_edges] reaches from [h] when its iteratee
    never stops it, in the order in which it visits them. *)
Definition neighbors (h : handle_t) (go_left : bool) (g : HashGraph)
  : option (list handle_t) :=
  snd <$> follow_edges_impl h go_left record_visit g [].

(** The adjacency list that holds the edges leaving [h] on its right:
    [get_is_reverse(h) ? graph[id].left_edges : graph[id].right_edges]. *)
Definition side_list (h : handle_t) (gr : gmap Z node_t.t) : list handle_t :=
  edge_list (get_is_reverse h) (get_id h) gr.

(** How many times a handle is on a list. *)
Definition count_handle (h : handle_t) (l : list handle_t) : nat :=
  length (filter (λ e, e = h) l).

(** The edge from [a] to [b] is stored as often on the side of [a] as on
    the side of [b]. *)
Definition edges_symmetric (gr : gmap Z node_t.t) : Prop :=
  ∀ a b, count_handle b (side_list a gr)
         = count_handle (flip a) (side_list (flip b) gr).

(** Every live identifier lies between the two tracked bounds. *)
Definition ids_within (g : HashGraph) : Prop :=
  ∀ id, is_Some (graph g !! id) → min_id g <= id <= max_id g.

(** ** Path accessors *)

(** [get_path_handle]; [path_id.at] throws on a missing name. *)
Definition get_path_handle (path_name : string) (g : HashGraph) : option Z :=
  path_id g !! path_name.

(** [get_path_name]; [paths.at] throws on a missing path. *)
Definition get_path_name (path : Z) (g : HashGraph) : option string :=
  path_t.name <$> paths g !! path.

(** [has_next_occurrence] and [has_previous_occurrence], on the address
    of a step. *)
Definition has_next_occurrence (mapping : addr) (g : HashGraph)
  : option bool :=
  (λ record, bool_decide (path_mapping_t.next record ≠ None))
    <$> store g !! mapping.
Definition has_previous_occurrence (mapping : addr) (g : HashGraph)
  : option bool :=
  (λ record, bool_decide (path_mapping_t.prev record ≠ None))
    <$> store g !! mapping.

(** An occurrence handle: the identifier of the path and the address of
    the step. *)
Definition occurrence_handle_t : Type := Z * addr.

(** [get_path_handle_of_occurrence] *)
Definition get_path_handle_of_occurrence (occ : occurrence_handle_t) : Z :=
  occ.1.

(** ** Loops that return at the first refusal *)

Section visiting.
Context {A S : Type}.
Implicit Types iteratee : A → S → bool * S.

(** [for (x : range) { if (!iteratee(x)) return false; } return true;] *)
Fixpoint visit_until iteratee (range : list A) (s : S) : bool * S :=
  match range with
  | [] => (true, s)
  | x :: range' =>
      let '(k, s') := iteratee x s in
      if k then visit_until iteratee range' s' else (false, s')
  end.

(** What the iteratee answers, and the state it ends in, when it is
    called on every entry of a list in turn. *)
Fixpoint answers iteratee (l : list A) (s : S) : list bool * S :=
  match l with
  | [] => ([], s)
  | x :: l' =>
      let '(k, s') := iteratee x s in
      let '(ks, s'') := answers iteratee l' s' in
      (k :: ks, s'')
  end.

(** The loop was run on [visited] and on nothing else of
    [visited ++ rest]: it returned [true] after the iteratee accepted
    every entry, or [false] right after the first refusal. *)
Definition stops_at_refusal iteratee (visited rest : list A) (s : S)
    (result : bool * S) : Prop :=
  (answers iteratee visited s).2 = result.2 ∧
  if result.1
  then rest = [] ∧ Forall (λ k, k = true) (answers iteratee visited s).1
  else ∃ accepted,
         (answers iteratee visited s).1 = accepted ++ [false] ∧
         Forall (λ k, k = true) accepted.
End visiting.

(** [for_each_path_handle_impl] *)
Definition for_each_path_handle_impl `{HashOrder} {S : Type}
    (iteratee : Z → S → bool * S) (g : HashGraph) (s : S) : bool * S :=
  visit_until iteratee (hash_keys (paths g)) s.

(** The loop of [for_each_occurrence_on_handle_impl]: each step of the
    bucket is dereferenced for its path when its turn comes. *)
Fixpoint visit_occurrences {S : Type}
    (iteratee : occurrence_handle_t → S → bool * S)
    (st : gmap addr path_mapping_t.t) (bucket : list addr) (s : S)
  : option (bool * S) :=
  match bucket with
  | [] => Some (true, s)
  | mapping :: bucket' =>
      record ← st !! mapping;
      let '(k, s') := iteratee (path_mapping_t.path_id record, mapping) s in
      if k then visit_occurrences iteratee st bucket' s' else Some (false, s')
  end.

(** [for_each_occurrence_on_handle_impl] *)
Definition for_each_occurrence_on_handle_impl {S : Type} (h : handle_t)
    (iteratee : occurrence_handle_t → S → bool * S) (g : HashGraph) (s : S)
  : option (bool * S) :=
  match occurrences g !! get_id h with
  | Some bucket => visit_occurrences iteratee (store g) bucket s
  | None => Some (true, s)
  end.

(** The invariant of the occurrence index: a bucket holds no step twice
    and only live steps whose handle is on its node, and every step
    record is filed in the bucket of the node of its handle. *)
Record index_wf (g : HashGraph) : Prop := {
  index_buckets : ∀ x bucket, occurrences g !! x = Some bucket →
    NoDup bucket ∧
    ∀ a, a ∈ bucket →
      ∃ record, store g !! a = Some record ∧
                get_id (path_mapping_t.handle record) = x;
  index_steps : ∀ a record, store g !! a = Some record →
    a ∈ default [] (occurrences g !! get_id (path_mapping_t.handle record))
}.

(** The occurrence handles that [for_each_occurrence_on_handle] makes
    from the bucket of the node of [h], in the order of the bucket. *)
Definition occurrences_on (h : handle_t) (g : HashGraph)
  : list occurrence_handle_t :=
  omap (λ a, (λ record, (path_mapping_t.path_id record, a)) <$> store g !! a)
       (default [] (occurrences g !! get_id h)).

(** ** Turning a node around *)

(** The innermost loop of [apply_orientation]: the first entry that
    refers to node [id] is flipped. *)
Definition flip_first (id : Z) (l : list handle_t) : list handle_t :=
  match list_find (λ e, get_id e = id) l with
  | Some (i, e) => <[i := flip e]> l
  | None => l
  end.

(** The loop of [apply_orientation] over one adjacency list of the node.
    The vector keeps its size, so the range-[for] is a loop over its
    indices that reads the entry current at each turn: an entry of the
    node that refers to the node itself may have been flipped by an
    earlier turn. *)
Definition flip_backrefs (left_side : bool) (id : Z) (gr : gmap Z node_t.t)
  : gmap Z node_t.t :=
  foldl (λ gr i,
           match edge_list left_side id gr !! i with
           | Some target => update_bwd (flip_first id) target gr
           | None => gr
           end)
        gr (seq 0 (length (edge_list left_side id gr))).

(** The loop over the bucket of the node: every step is turned around. *)
Fixpoint flip_steps (bucket : list addr) (st : gmap addr path_mapping_t.t)
  : option (gmap addr path_mapping_t.t) :=
  match bucket with
  | [] => Some st
  | occurrence :: bucket' =>
      record ← st !! occurrence;
      flip_steps bucket'
        (<[occurrence :=
             path_mapping_t.set_handle (flip (path_mapping_t.handle record))
                                       record]> st)
  end.

(** The part of [apply_orientation] that works on the node table: the
    sequence is reverse-complemented, the references back to the node are
    flipped, and the two adjacency lists switch sides. *)
Definition turn_node (id : Z) (gr : gmap Z node_t.t) : gmap Z node_t.t :=
  let node := node_at gr id in
  let gr1 :=
    <[id := node_t.set_sequence (reverse_complement (node_t.sequence node))
                                node]> gr in
  let gr2 := flip_backrefs false id (flip_backrefs true id gr1) in
  let turned := node_at gr2 id in
  <[id := node_t.mk (node_t.sequence turned) (node_t.right_edges turned)
                    (node_t.left_edges turned)]> gr2.

(** The part that works on the steps: [occurrences.find(id)] and the
    loop over the bucket it finds. *)
Definition turn_steps (id : Z) (oc : gmap Z (list addr))
    (st : gmap addr path_mapping_t.t) : option (gmap addr path_mapping_t.t) :=
  match oc !! id with
  | Some bucket => flip_steps bucket st
  | None => Some st
  end.

(** [apply_orientation] *)
Definition apply_orientation (h : handle_t) (g : HashGraph)
  : option (handle_t * HashGraph) :=
  if get_is_reverse h then
    st' ← turn_steps (get_id h) (occurrences g) (store g);
    Some (flip h,
          set_store st' (set_graph (turn_node (get_id h) (graph g)) g))
  else Some (h, g).

(** A store whose records kept their links and their path. *)
Definition relabelled (st st' : gmap addr path_mapping_t.t) : Prop :=
  ∀ a, match st !! a, st' !! a with
       | Some r, Some r' =>
           path_mapping_t.prev r' = path_mapping_t.prev r ∧
           path_mapping_t.next r' = path_mapping_t.next r ∧
           path_mapping_t.path_id r' = path_mapping_t.path_id r
       | None, None => True
       | _, _ => False
       end.

(** ** Dividing a node that paths walk over *)

(** What takes the place of a step on handle [e] when the forward handle
    [h] is divided into [parts]: the parts in their order for a forward
    step on the node, their flips in the opposite order for a reverse
    step on it, and the step itself when it is on another node. *)
Definition divided_step (h : handle_t) (parts : list handle_t)
    (e : handle_t) : list handle_t :=
  if decide (get_id e = get_id h)
  then if get_is_reverse e then flip <$> reverse parts else parts
  else [e].

(** What the loop over the bucket of the divided node makes of one step:
    the new pieces [news] are inserted behind a forward step, and their
    flips, in the opposite order, in front of a reverse step. *)
Definition step_expansion (news : list handle_t) (e : handle_t)
  : list handle_t :=
  if get_is_reverse e then (flip <$> reverse news) ++ [e] else e :: news.

(** The handles that a list of steps spells once the steps of [rest]
    have had their turn in the loop. *)
Definition pending_handles (news : list handle_t) (rest : list addr)
    (st : gmap addr path_mapping_t.t) (cells : list addr) : list handle_t :=
  cells ≫= (λ a, match st !! a with
                 | Some record =>
                     if decide (a ∈ rest)
                     then step_expansion news (path_mapping_t.handle record)
                     else [path_mapping_t.handle record]
                 | None => []
                 end).

(** A reference to [old] pointed at [new]: what the loop over the moved
    edges of [divide_handle] makes of an entry that referred back to the
    divided node. *)
Definition retargeted (old new e : handle_t) : handle_t :=
  if decide (e = old) then new else e.

(** The entries that the loop creating the edges between consecutive
    parts, [create_edge(return_val[i - 1], return_val[i])], appends to
    the list on the side of [a]. *)
Definition chain_links (a : handle_t) (ps : list handle_t) : list handle_t :=
  zip ps (tail ps) ≫=
    (λ pq, (if decide (a = pq.1) then [pq.2] else [])
           ++ (if decide (pq.1 ≠ flip pq.2 ∧ a = flip pq.2)
               then [flip pq.1] else [])).

(** ** A one-sided edge

    One node with a reversing self-loop on its right side, divided at
    offset 2: the calls [create_handle], [create_edge] and
    [divide_handle], in this order. *)
Definition one_sided_scenario : option HashGraph :=
  let '(h, g) := create_handle_next (seq_of "ACGT") empty_graph in
  let g := create_edge h (flip h) g in
  '(_, g) ← divide_handle h [2] g;
  Some g.

(** * Properties *)

(** ** Machine integers *)

Lemma wrap64_small (z : Z) : 0 <= z < two64 → wrap64 z = z.
Proof. intros Hz. unfold wrap64. by apply Z.mod_small. Qed.

(** ** Handle codec *)

Lemma get_id_div (h : handle_t) : get_id h = h / 2.
Proof. unfold get_id, unpack_number. by rewrite Z.shiftr_div_pow2. Qed.

Lemma get_is_reverse_mod (h : handle_t) : Z.b2z (get_is_reverse h) = h mod 2.
Proof. unfold get_is_reverse, unpack_bit. by rewrite Z.bit0_mod. Qed.

Lemma handle_split (h : handle_t) :
  h = 2 * get_id h + Z.b2z (get_is_reverse h).
Proof. rewrite get_id_div, get_is_reverse_mod. apply Z.div_mod. lia. Qed.

Lemma testbit_b2z_succ (b : bool) (j : Z) :
  0 <= j → Z.testbit (Z.b2z b) (Z.succ j) = false.
Proof.
  intros Hj. replace (Z.b2z b) with (2 * 0 + Z.b2z b) by lia.
  by rewrite Z.testbit_succ_r, Z.bits_0.
Qed.

Lemma lor_bit (n : Z) (b : bool) : Z.lor (2 * n) (Z.b2z b) = 2 * n + Z.b2z b.
Proof.
  apply Z.bits_inj'; intros i Hi.
  rewrite Z.lor_spec.
  destruct (decide (i = 0)) as [->|].
  - rewrite Z.testbit_0_r, Z.testbit_even_0. by destruct b.
  - replace i with (Z.succ (i - 1)) by lia.
    rewrite Z.testbit_succ_r, Z.testbit_even_succ, testbit_b2z_succ by lia.
    by rewrite Bool.orb_false_r.
Qed.

Lemma lxor_bit (n : Z) (b : bool) :
  Z.lxor (2 * n + Z.b2z b) 1 = 2 * n + Z.b2z (negb b).
Proof.
  apply Z.bits_inj'; intros i Hi.
  rewrite Z.lxor_spec.
  destruct (decide (i = 0)) as [->|].
  - rewrite !Z.testbit_0_r. by destruct b.
  - replace i with (Z.succ (i - 1)) by lia.
    rewrite !Z.testbit_succ_r by lia.
    rewrite (testbit_b2z_succ true) by lia. by rewrite Bool.xorb_false_r.
Qed.

Lemma flip_split (h : handle_t) :
  flip h = 2 * get_id h + Z.b2z (negb (get_is_reverse h)).
Proof.
  unfold flip, toggle_bit. rewrite (handle_split h) at 1. apply lxor_bit.
Qed.

Lemma get_id_build (n : Z) (b : bool) : get_id (2 * n + Z.b2z b) = n.
Proof.
  rewrite get_id_div.
  destruct b; simpl; Z.to_euclidean_division_equations; lia.
Qed.

Lemma get_is_reverse_build (n : Z) (b : bool) :
  get_is_reverse (2 * n + Z.b2z b) = b.
Proof. unfold get_is_reverse, unpack_bit. apply Z.testbit_0_r. Qed.

Lemma flip_flip (h : handle_t) : flip (flip h) = h.
Proof.
  rewrite (flip_split (flip h)), (flip_split h).
  rewrite get_id_build, get_is_reverse_build, Bool.negb_involutive.
  symmetry. apply handle_split.
Qed.

Lemma get_id_flip (h : handle_t) : get_id (flip h) = get_id h.
Proof. rewrite flip_split. apply get_id_build. Qed.

Lemma get_is_reverse_flip (h : handle_t) :
  get_is_reverse (flip h) = negb (get_is_reverse h).
Proof. rewrite flip_split. apply get_is_reverse_build. Qed.

Lemma flip_ne (h : handle_t) : flip h ≠ h.
Proof.
  intros E. apply (f_equal get_is_reverse) in E.
  rewrite get_is_reverse_flip in E. by destruct (get_is_reverse h).
Qed.

(** Two handles on the same node are equal or each other's flip. *)
Lemma same_id_cases (h1 h2 : handle_t) :
  get_id h1 = get_id h2 →
  (h1 = h2 ∧ get_is_reverse h1 = get_is_reverse h2) ∨
  (h1 = flip h2 ∧ get_is_reverse h1 = negb (get_is_reverse h2)).
Proof.
  intros E. pose proof (handle_split h1) as E1.
  pose proof (handle_split h2) as E2. pose proof (flip_split h2) as E3.
  rewrite E in E1.
  destruct (get_is_reverse h1), (get_is_reverse h2); simpl in *;
    [left|right|right|left]; split; congruence.
Qed.

Lemma get_handle_split (id : Z) (b : bool) :
  valid_id id → get_handle id b = 2 * id + Z.b2z b.
Proof.
  intros [H0 H1]. unfold get_handle, pack, wrap64, two64.
  rewrite Z.shiftl_mul_pow2 by lia. change (2 ^ 1) with 2.
  rewrite (Z.mod_small id) by lia.
  rewrite Z.mod_small by lia. rewrite (Z.mul_comm id 2). apply lor_bit.
Qed.

Lemma get_id_get_handle (id : Z) (b : bool) :
  valid_id id → get_id (get_handle id b) = id.
Proof. intros H. rewrite get_handle_split by done. apply get_id_build. Qed.

Lemma get_is_reverse_get_handle (id : Z) (b : bool) :
  valid_id id → get_is_reverse (get_handle id b) = b.
Proof. intros H. rewrite get_handle_split by done. apply get_is_reverse_build. Qed.

Lemma flip_get_handle (id : Z) (b : bool) :
  valid_id id → flip (get_handle id b) = get_handle id (negb b).
Proof.
  intros H. rewrite flip_split, get_id_get_handle, get_is_reverse_get_handle by done.
  by rewrite get_handle_split.
Qed.

Lemma valid_handle_get_handle (id : Z) (b : bool) :
  valid_id id → valid_handle (get_handle id b).
Proof.
  intros H. rewrite get_handle_split by done. destruct H as [H0 H1].
  unfold valid_handle, two64. destruct b; simpl; lia.
Qed.

Lemma valid_id_get_id (h : handle_t) : valid_handle h → valid_id (get_id h).
Proof.
  unfold valid_handle, valid_id, two64. intros [H0 H1]. rewrite get_id_div.
  split; [apply Z.div_pos; lia|].
  apply Z.div_lt_upper_bound; lia.
Qed.

Lemma valid_handle_flip (h : handle_t) : valid_handle h → valid_handle (flip h).
Proof.
  intros H. pose proof (valid_id_get_id h H) as [H0 H1].
  rewrite flip_split. unfold valid_handle, two64.
  destruct (negb (get_is_reverse h)); simpl; lia.
Qed.

Lemma forward_is_forward (h : handle_t) : get_is_reverse (forward h) = false.
Proof.
  unfold forward. destruct (get_is_reverse h) eqn:E; [|done].
  by rewrite get_is_reverse_flip, E.
Qed.

Lemma get_id_forward (h : handle_t) : get_id (forward h) = get_id h.
Proof. unfold forward. destruct (get_is_reverse h); [apply get_id_flip|done]. Qed.

(** ** Node store *)

Example create_handle_ATG :
  let '(h, g) := create_handle (seq_of "ATG") 2 empty_graph in
  get_sequence h g = Some (seq_of "ATG") ∧
  get_sequence (flip h) g = Some (seq_of "CAT") ∧
  get_length h g = Some 3 ∧ has_node 2 g = true ∧ has_node 3 g = false ∧
  min_node_id g = 2 ∧ max_node_id g = 2.
Proof. vm_compute. repeat split. Qed.

Lemma get_sequence_create_handle (sequence : seq_t) (id : Z) (g : HashGraph) :
  valid_id id →
  get_sequence (create_handle sequence id g).1 (create_handle sequence id g).2
  = Some sequence.
Proof.
  intros Hid. unfold get_sequence, create_handle; simpl.
  rewrite get_id_get_handle, get_is_reverse_get_handle by done.
  rewrite lookup_insert_eq. done.
Qed.

(** C9 (amended).  The handle returned by [create_handle] is forward, carries
    the supplied identifier, and [get_sequence] on it gives back the supplied
    sequence; when the identifier is omitted it is one past the tracked bound
    [max_node_id], which is not lowered when nodes are destroyed. *)
Theorem create_handle_returns (sequence : seq_t) (g : HashGraph) :
  (∀ id, valid_id id →
     let '(h, g') := create_handle sequence id g in
     get_is_reverse h = false ∧ get_id h = id ∧
     get_sequence h g' = Some sequence) ∧
  (valid_id (max_node_id g + 1) →
     let '(h, g') := create_handle_next sequence g in
     get_is_reverse h = false ∧ get_id h = max_node_id g + 1 ∧
     get_sequence h g' = Some sequence).
Proof.
  assert (∀ id, valid_id id →
     let '(h, g') := create_handle sequence id g in
     get_is_reverse h = false ∧ get_id h = id ∧
     get_sequence h g' = Some sequence) as Hid.
  { intros id Hid.
    pose proof (get_sequence_create_handle sequence id g Hid) as Hs.
    destruct (create_handle sequence id g) as [h g'] eqn:E.
    assert (h = get_handle id false) as -> by (by inversion E).
    split; [by apply get_is_reverse_get_handle|].
    split; [by apply get_id_get_handle|done]. }
  split; [done|]. intros Hnext. apply (Hid _ Hnext).
Qed.

Lemma create_handle_returns_witness :
  valid_id 2 ∧ valid_id (max_node_id empty_graph + 1) ∧
  (let '(h, g') := create_handle (seq_of "ATG") 2 empty_graph in
   get_is_reverse h = false ∧ get_id h = 2 ∧
   get_sequence h g' = Some (seq_of "ATG")) ∧
  (let '(h, g') := create_handle_next (seq_of "ATG") empty_graph in
   get_is_reverse h = false ∧ get_id h = max_node_id empty_graph + 1 ∧
   get_sequence h g' = Some (seq_of "ATG")).
Proof.
  assert (valid_id 2) as H2 by (unfold valid_id; lia).
  assert (valid_id (max_node_id empty_graph + 1)) as H1
    by (unfold valid_id; simpl; lia).
  split; [done|]. split; [done|].
  destruct (create_handle_returns (seq_of "ATG") empty_graph) as [Ha Hb].
  split; [exact (Ha 2 H2)|exact (Hb H1)].
Defined.

(** C9 as stated fails: after the node with the largest identifier is
    destroyed, the next identifier is still one past the old bound. *)
Lemma create_handle_next_not_max_live :
  ¬ (∀ (sequence : seq_t) (g : HashGraph) (m : Z),
       max_live_id g = Some m →
       get_id (create_handle_next sequence g).1 = m + 1).
Proof.
  intros Hclaim.
  pose (g1 := (create_handle_next (seq_of "A") empty_graph).2).
  pose (r2 := create_handle_next (seq_of "C") g1).
  pose (g3 := destroy_handle r2.1 r2.2).
  specialize (Hclaim (seq_of "G") g3 1).
  assert (max_live_id g3 = Some 1) as Hm by (by vm_compute).
  specialize (Hclaim Hm). vm_compute in Hclaim. discriminate.
Qed.

(** C8 as stated fails: [create_handle] on a live identifier does not leave
    the graph as it was. *)
Lemma create_handle_live_id_changes :
  ¬ (∀ (sequence : seq_t) (id : Z) (g : HashGraph),
       has_node id g = true → (create_handle sequence id g).2 = g).
Proof.
  intros Hclaim.
  pose (g1 := (create_handle (seq_of "A") 1 empty_graph).2).
  specialize (Hclaim (seq_of "C") 1 g1).
  assert (has_node 1 g1 = true) as Hl by (by vm_compute).
  specialize (Hclaim Hl).
  apply (f_equal (λ g, node_t.sequence <$> graph g !! 1)) in Hclaim.
  vm_compute in Hclaim. discriminate.
Qed.

(** C8 (amended).  [create_handle] on a live identifier raises nothing: it
    returns the forward handle of that identifier and replaces the record
    with one that holds the new sequence and two empty adjacency lists;
    every other record, the paths, the occurrence index and the step
    records stay as they were. *)
Theorem create_handle_live_id (sequence : seq_t) (id : Z) (g : HashGraph) :
  has_node id g = true →
  let '(h, g') := create_handle sequence id g in
  h = get_handle id false ∧
  graph g' !! id = Some (node_t.mk sequence [] []) ∧
  (∀ j, j ≠ id → graph g' !! j = graph g !! j) ∧
  dom (graph g') = dom (graph g) ∧
  max_id g' = Z.max (max_id g) id ∧ min_id g' = Z.min (min_id g) id ∧
  next_path_id g' = next_path_id g ∧ path_id g' = path_id g ∧
  paths g' = paths g ∧ occurrences g' = occurrences g ∧ store g' = store g.
Proof.
  intros Hlive. unfold create_handle; simpl.
  apply bool_decide_eq_true in Hlive.
  split; [done|]. split; [apply lookup_insert_eq|].
  split; [intros j Hj; by apply lookup_insert_ne|].
  split; [|done].
  rewrite dom_insert_L. apply elem_of_dom in Hlive. set_solver.
Qed.

Lemma create_handle_live_id_witness :
  let g := (create_handle (seq_of "A") 1 empty_graph).2 in
  has_node 1 g = true ∧
  graph (create_handle (seq_of "C") 1 g).2 !! 1
  = Some (node_t.mk (seq_of "C") [] []).
Proof.
  intros g.
  assert (has_node 1 g = true) as Hl by (by vm_compute).
  split; [done|].
  pose proof (create_handle_live_id (seq_of "C") 1 g Hl) as Ht.
  destruct (create_handle (seq_of "C") 1 g) as [h g'].
  exact (proj1 (proj2 Ht)).
Defined.

(** *** Edges *)

Lemma node_at_insert (gr : gmap Z node_t.t) (id j : Z) (n : node_t.t) :
  node_at (<[id := n]> gr) j = if decide (j = id) then n else node_at gr j.
Proof.
  unfold node_at. case_decide as E.
  - subst. by rewrite lookup_insert_eq.
  - by rewrite lookup_insert_ne.
Qed.

Lemma edge_list_push_left (side : bool) (id j : Z) (h : handle_t)
    (gr : gmap Z node_t.t) :
  edge_list side j (push_left id h gr)
  = edge_list side j gr ++ (if decide (j = id ∧ side = true) then [h] else []).
Proof.
  unfold edge_list, push_left. rewrite node_at_insert.
  destruct (decide (j = id)) as [->|]; destruct side; simpl;
    repeat case_decide; try done; try naive_solver;
    by rewrite app_nil_r.
Qed.

Lemma edge_list_push_right (side : bool) (id j : Z) (h : handle_t)
    (gr : gmap Z node_t.t) :
  edge_list side j (push_right id h gr)
  = edge_list side j gr ++ (if decide (j = id ∧ side = false) then [h] else []).
Proof.
  unfold edge_list, push_right. rewrite node_at_insert.
  destruct (decide (j = id)) as [->|]; destruct side; simpl;
    repeat case_decide; try done; try naive_solver;
    by rewrite app_nil_r.
Qed.

Lemma dom_push_left (id : Z) (h : handle_t) (gr : gmap Z node_t.t) :
  dom (push_left id h gr) = {[id]} ∪ dom gr.
Proof. unfold push_left. by rewrite dom_insert_L. Qed.

Lemma dom_push_right (id : Z) (h : handle_t) (gr : gmap Z node_t.t) :
  dom (push_right id h gr) = {[id]} ∪ dom gr.
Proof. unfold push_right. by rewrite dom_insert_L. Qed.

Lemma sequence_push_left (id j : Z) (h : handle_t) (gr : gmap Z node_t.t) :
  node_t.sequence (node_at (push_left id h gr) j)
  = node_t.sequence (node_at gr j).
Proof.
  unfold push_left. rewrite node_at_insert. by case_decide; subst.
Qed.

Lemma sequence_push_right (id j : Z) (h : handle_t) (gr : gmap Z node_t.t) :
  node_t.sequence (node_at (push_right id h gr) j)
  = node_t.sequence (node_at gr j).
Proof.
  unfold push_right. rewrite node_at_insert. by case_decide; subst.
Qed.

(** The side of its node on which an edge leaves [left], and the side on
    which it enters [right]; [true] stands for the left list. *)
Lemma edge_list_create_edge (h1 h2 : handle_t) (gr : gmap Z node_t.t)
    (side : bool) (j : Z) :
  edge_list side j (create_edge_nodes h1 h2 gr)
  = edge_list side j gr
    ++ (if decide (j = get_id h1 ∧ side = get_is_reverse h1)
        then [h2] else [])
    ++ (if decide (h1 ≠ flip h2 ∧
                   j = get_id h2 ∧ side = negb (get_is_reverse h2))
        then [flip h1] else []).
Proof.
  unfold create_edge_nodes.
  destruct (decide (h1 ≠ flip h2)) as [Hne|Heq];
    destruct (get_is_reverse h2), (get_is_reverse h1); simpl;
    repeat (rewrite edge_list_push_left || rewrite edge_list_push_right);
    rewrite <- ?app_assoc; do 2 f_equal;
    repeat case_decide; simpl; try done; naive_solver.
Qed.

Lemma dom_create_edge (h1 h2 : handle_t) (gr : gmap Z node_t.t) :
  is_Some (gr !! get_id h1) → is_Some (gr !! get_id h2) →
  dom (create_edge_nodes h1 h2 gr) = dom gr.
Proof.
  intros Hl%elem_of_dom Hr%elem_of_dom. unfold create_edge_nodes.
  destruct (get_is_reverse h1), (decide (h1 ≠ flip h2)),
    (get_is_reverse h2);
    rewrite ?dom_push_left, ?dom_push_right; set_solver.
Qed.

(** C4.  A reversing self-loop on one side, [create_edge(h, flip(h))], adds
    exactly one entry to the two adjacency lists of the node taken
    together.  Any other [create_edge(h1, h2)] appends [h2] to one list of
    the node of [h1] and the reciprocal [flip(h1)] to one list of the node of
    [h2]; these are two different lists, and no other list changes. *)
Theorem create_edge_entries (g : HashGraph) :
  (∀ h n, graph g !! get_id h = Some n →
     ∃ n', graph (create_edge h (flip h) g) !! get_id h = Some n' ∧
           total_degree n' = S (total_degree n)) ∧
  (∀ h1 h2, h1 ≠ flip h2 →
     is_Some (graph g !! get_id h1) → is_Some (graph g !! get_id h2) →
     let g' := create_edge h1 h2 g in
     let at1 := (get_id h1, get_is_reverse h1) in
     let at2 := (get_id h2, negb (get_is_reverse h2)) in
     at1 ≠ at2 ∧
     dom (graph g') = dom (graph g) ∧
     edge_list at1.2 at1.1 (graph g')
       = edge_list at1.2 at1.1 (graph g) ++ [h2] ∧
     edge_list at2.2 at2.1 (graph g')
       = edge_list at2.2 at2.1 (graph g) ++ [flip h1] ∧
     ∀ side j, (j, side) ≠ at1 → (j, side) ≠ at2 →
       edge_list side j (graph g') = edge_list side j (graph g)).
Proof.
  split.
  - intros h n Hn.
    assert (is_Some (graph (create_edge h (flip h) g) !! get_id h)) as [n' Hn'].
    { apply elem_of_dom. simpl. rewrite dom_create_edge.
      - apply elem_of_dom; eauto.
      - eauto.
      - rewrite get_id_flip; eauto. }
    exists n'. split; [done|].
    pose proof (edge_list_create_edge h (flip h) (graph g) true (get_id h)) as HL.
    pose proof (edge_list_create_edge h (flip h) (graph g) false (get_id h)) as HR.
    unfold edge_list, node_at in HL, HR. simpl in Hn'.
    rewrite Hn', Hn in HL, HR. simpl in HL, HR.
    unfold total_degree. rewrite HL, HR, !length_app.
    rewrite flip_flip.
    destruct (get_is_reverse h); repeat case_decide; simpl;
      try lia; naive_solver.
  - intros h1 h2 Hne Hl1 Hl2 g' at1 at2.
    assert (at1 ≠ at2) as Hat.
    { unfold at1, at2. intros [= Hid Hrev].
      destruct (same_id_cases h1 h2 Hid) as [[_ E]|[E _]]; [|done].
      rewrite E in Hrev. by destruct (get_is_reverse h2). }
    split; [done|]. split; [by apply dom_create_edge|].
    unfold g', at1, at2 in *; simpl.
    split; [|split].
    + rewrite edge_list_create_edge.
      rewrite decide_True by done. rewrite decide_False; [done|].
      intros (_ & E1 & E2). apply Hat. by rewrite E1, E2.
    + rewrite edge_list_create_edge.
      rewrite decide_False.
      2:{ intros [E1 E2]. apply Hat. by rewrite E1, E2. }
      by rewrite decide_True.
    + intros side j H1 H2. rewrite edge_list_create_edge.
      rewrite !decide_False; [by rewrite app_nil_r| |].
      * intros (_ & E1 & E2). apply H2. by rewrite E1, E2.
      * intros [E1 E2]. apply H1. by rewrite E1, E2.
Qed.

Lemma create_edge_entries_witness :
  let g := (create_handle (seq_of "ATG") 2
              (create_handle (seq_of "CT") 1 empty_graph).2).2 in
  let h := get_handle 2 false in
  let h2 := get_handle 1 false in
  (∃ n', graph (create_edge h (flip h) g) !! get_id h = Some n' ∧
         total_degree n' = 1%nat) ∧
  edge_list false 2 (graph (create_edge h h2 g)) = [h2] ∧
  edge_list true 1 (graph (create_edge h h2 g)) = [flip h].
Proof.
  intros g h h2.
  destruct (create_edge_entries g) as [Ha Hb].
  split.
  - apply (Ha h (node_t.mk (seq_of "ATG") [] [])). by vm_compute.
  - assert (h ≠ flip h2) as Hne by (vm_compute; discriminate).
    assert (is_Some (graph g !! get_id h)) as H1 by (vm_compute; eauto).
    assert (is_Some (graph g !! get_id h2)) as H2 by (vm_compute; eauto).
    destruct (Hb h h2 Hne H1 H2) as (_ & _ & E1 & E2 & _).
    split; [exact E1|exact E2].
Defined.

(** ** Traversal *)

Section traversal_facts.
Context {S : Type}.
Implicit Types iteratee : handle_t → S → bool * S.

Lemma state_after_snoc iteratee (l : list handle_t) (x : handle_t) (s : S) :
  state_after iteratee (l ++ [x]) s
  = (iteratee x (state_after iteratee l s)).2.
Proof. unfold state_after. by rewrite foldl_app. Qed.

Lemma visit_loop_stopped iteratee (view : handle_t → handle_t)
    (range : list handle_t) (s : S) :
  visit_loop iteratee view range false s = (false, s).
Proof. by destruct range. Qed.

(** The loop calls the iteratee on a prefix of its range and on nothing
    else, and obeys the early-stop contract. *)
Lemma visit_loop_contract iteratee (view : handle_t → handle_t)
    (range : list handle_t) (s : S) :
  ∃ visited rest r,
    view <$> range = visited ++ rest ∧
    visit_loop iteratee view range true s
    = (r, state_after iteratee visited s) ∧
    early_stop iteratee visited rest s r.
Proof.
  revert s. induction range as [|x range IH]; intros s.
  - exists [], [], true. simpl. repeat split; constructor.
  - cbn [visit_loop]. rewrite fmap_cons.
    destruct (iteratee (view x) s) as [k s1] eqn:E.
    destruct k.
    + destruct (IH s1) as (visited & rest & r & Hsplit & Hrun & Hstop).
      exists (view x :: visited), rest, r.
      split; [by rewrite Hsplit|].
      split.
      { rewrite Hrun. unfold state_after. simpl. by rewrite E. }
      destruct r; simpl in *.
      * destruct Hstop as [-> Hall]. split; [done|].
        rewrite E. simpl. by constructor.
      * destruct Hstop as (before & y & -> & Hall & Hlast).
        exists (view x :: before), y. split; [done|].
        simpl. rewrite E. simpl. split; [by constructor|].
        unfold state_after in *. simpl. rewrite ?E. done.
    + exists [view x], (view <$> range), false.
      split; [done|]. rewrite visit_loop_stopped.
      split; [unfold state_after; simpl; by rewrite E|].
      exists [], (view x). simpl. split; [done|].
      split; [constructor|]. by rewrite E.
Qed.

(** C6.  [follow_edges] walks the left list exactly when the handle's
    orientation and [go_left] differ, and the right list otherwise; the
    iteratee sees every entry flipped when [go_left] holds and as stored
    otherwise; it is called on a prefix of the list, in list order, never
    past the first entry it rejects, and the call returns false exactly
    when the last entry visited was rejected. *)
Theorem follow_edges_contract (h : handle_t) (go_left : bool) iteratee
    (g : HashGraph) (s : S) (n : node_t.t) :
  graph g !! get_id h = Some n →
  let edge_list := if xorb (get_is_reverse h) go_left
                   then node_t.left_edges n else node_t.right_edges n in
  let entries := (if go_left then flip else λ e, e) <$> edge_list in
  ∃ visited rest r,
    entries = visited ++ rest ∧
    follow_edges_impl h go_left iteratee g s
    = Some (r, state_after iteratee visited s) ∧
    early_stop iteratee visited rest s r ∧
    (r = false ↔ false ∈ verdicts iteratee visited s).
Proof.
  intros Hn edge_list entries. unfold follow_edges_impl. rewrite Hn. simpl.
  destruct (visit_loop_contract iteratee
              (λ e, if go_left then flip e else e) edge_list s)
    as (visited & rest & r & Hsplit & Hrun & Hstop).
  exists visited, rest, r. fold edge_list. rewrite Hrun.
  split; [|split; [done|split; [done|]]].
  { rewrite <- Hsplit. unfold entries. by destruct go_left. }
  destruct r; simpl in Hstop.
  - destruct Hstop as [_ Hall]. split; [done|].
    intros Hin. rewrite Forall_forall in Hall. by specialize (Hall _ Hin).
  - split; [|done]. intros _.
    destruct Hstop as (before & x & -> & _ & Hlast).
    clear -Hlast. revert s Hlast.
    induction before as [|y before IH]; intros s Hlast; simpl in *.
    + rewrite Hlast. by left.
    + right. apply IH. exact Hlast.
Qed.
End traversal_facts.

Lemma follow_edges_contract_witness :
  let g := create_edge (get_handle 2 false) (get_handle 1 false)
             (create_handle (seq_of "ATG") 2
                (create_handle (seq_of "CT") 1 empty_graph).2).2 in
  follow_edges_impl (get_handle 1 false) true record_visit g []
  = Some (true, [get_handle 2 false]).
Proof.
  intros g.
  destruct (follow_edges_contract (get_handle 1 false) true record_visit g []
              (node_t.mk (seq_of "CT") [get_handle 2 true] []))
    as (visited & rest & r & Hsplit & Hrun & Hstop & _).
  { by vm_compute. }
  rewrite Hrun. destruct r; simpl in Hstop.
  - destruct Hstop as [-> _]. rewrite app_nil_r in Hsplit.
    rewrite <- Hsplit. by vm_compute.
  - destruct Hstop as (before & x & _ & _ & Hlast). discriminate Hlast.
Defined.

Section table_order.
Context `{HashOrder}.

Lemma hash_keys_perm {A} (m : gmap Z A) : hash_keys m ≡ₚ (map_to_list m).*1.
Proof. apply hash_iter_perm. Qed.

Lemma NoDup_hash_keys {A} (m : gmap Z A) : NoDup (hash_keys m).
Proof. rewrite hash_keys_perm. apply NoDup_fst_map_to_list. Qed.

Lemma elem_of_hash_keys {A} (m : gmap Z A) (k : Z) :
  k ∈ hash_keys m ↔ is_Some (m !! k).
Proof.
  rewrite hash_keys_perm, list_elem_of_fmap. split.
  - intros ([k' a] & -> & Hin). apply elem_of_map_to_list in Hin. eauto.
  - intros [a Ha]. exists (k, a). split; [done|].
    by apply elem_of_map_to_list.
Qed.

(** C7 (amended).  Sequential [for_each_handle] calls the iteratee on the
    forward handle of every live node exactly once, in the order in which
    the hash table enumerates its keys, stops after the first call that
    returns false and returns false in that case, and returns true when
    every call returned true. *)
Theorem for_each_handle_contract {S : Type}
    (iteratee : handle_t → S → bool * S) (g : HashGraph) (s : S) :
  let ids := hash_keys (graph g) in
  NoDup ids ∧ (∀ id, id ∈ ids ↔ is_Some (graph g !! id)) ∧
  ∃ visited rest r,
    (λ id, get_handle id false) <$> ids = visited ++ rest ∧
    for_each_handle_impl iteratee g s
    = (r, state_after iteratee visited s) ∧
    early_stop iteratee visited rest s r.
Proof.
  intros ids. split; [apply NoDup_hash_keys|].
  split; [intros id; apply elem_of_hash_keys|].
  unfold for_each_handle_impl.
  destruct (visit_loop_contract iteratee (λ e, e)
              ((λ id, get_handle id false) <$> ids) s)
    as (visited & rest & r & Hsplit & Hrun & Hstop).
  exists visited, rest, r. rewrite list_fmap_id in Hsplit. done.
Qed.
End table_order.

(** C7 as stated fails: nothing makes the table enumerate its keys in
    increasing order. *)
Lemma for_each_handle_not_increasing :
  ¬ (∀ (H : HashOrder) (g : HashGraph),
       Sorted Z.lt
         (get_id <$> (for_each_handle_impl record_visit g []).2)).
Proof.
  intros Hclaim.
  pose (g := (create_handle (seq_of "ATG") 2
                (create_handle (seq_of "CT") 1 empty_graph).2).2).
  specialize (Hclaim descending_order g).
  vm_compute in Hclaim.
  inversion Hclaim as [|? ? _ Hhd]. inversion Hhd as [|? ? Hlt]. done.
Qed.

(** ** Splitting a node *)

Example split_scenario_paths :
  ∃ s0 s1 s2 g,
    split_scenario = Some ([s0; s1; s2], g) ∧
    get_sequence s0 g = Some (seq_of "CA") ∧
    get_sequence s1 g = Some (seq_of "GT") ∧
    get_sequence s2 g = Some (seq_of "GA") ∧
    path_handles 1 g = [get_handle 1 false; s0; s1; s2; get_handle 3 false] ∧
    path_handles 2 g
    = [get_handle 1 false; flip s2; flip s1; flip s0; get_handle 3 false] ∧
    get_occurrence_count 1 g = Some 5 ∧ get_occurrence_count 2 g = Some 5.
Proof. do 4 eexists. vm_compute. repeat split. Qed.

(** With no offsets the call returns the forward handle of the node, for
    either orientation of its argument, and touches nothing. *)
Lemma divide_handle_no_offsets (h : handle_t) (g : HashGraph) :
  is_Some (graph g !! get_id h) →
  divide_handle h [] g = Some ([forward h], g).
Proof.
  intros [n Hn]. unfold divide_handle, get_length. rewrite Hn. simpl.
  by destruct (get_is_reverse h).
Qed.

Lemma forward_of_reverse (h : handle_t) :
  get_is_reverse h = true → forward h = flip h ∧ forward h ≠ h.
Proof.
  intros Hr. unfold forward. rewrite Hr. split; [done|]. apply flip_ne.
Qed.

(** C2 (the code departs from it).  On the reverse handle of the live node
    2 and an empty offset vector, [divide_handle] leaves the graph as it
    was but returns the forward handle, not the handle it was given: the
    early return comes before the step that turns the result back into the
    orientation of the argument. *)
Theorem divide_handle_empty_reverse :
  let g := (create_handle (seq_of "ATG") 2 empty_graph).2 in
  let h := get_handle 2 true in
  get_is_reverse h = true ∧ has_node (get_id h) g = true ∧
  divide_handle h [] g = Some ([flip h], g) ∧ [flip h] ≠ [h].
Proof.
  intros g h. split; [by vm_compute|]. split; [by vm_compute|].
  rewrite divide_handle_no_offsets by (vm_compute; eauto).
  split; [by vm_compute|]. vm_compute. intros [=].
Qed.

(** C1 (the code departs from it).  On the reverse handle of a node that
    holds [AACG] and the increasing offsets 1 and 2, the pieces returned by
    [divide_handle] spell [CGCGTT], while [get_sequence] of the handle was
    [CGTT]: the offsets are translated to the forward strand but left in
    their original order, so the first piece length wraps around and the
    pieces overlap. *)
Theorem divide_handle_reverse_two_offsets :
  let g := (create_handle (seq_of "AACG") 1 empty_graph).2 in
  let h := get_handle 1 true in
  get_sequence h g = Some (seq_of "CGTT") ∧
  ∃ parts g',
    divide_handle h [1; 2] g = Some (parts, g') ∧
    joined_sequence parts g' = Some (seq_of "CGCGTT").
Proof.
  intros g h. split; [by vm_compute|].
  do 2 eexists. split; by vm_compute.
Qed.

(** The same split on the forward handle, and a single offset on the
    reverse handle, behave as the tests expect. *)
Example divide_handle_forward_two_offsets :
  let g := (create_handle (seq_of "AACG") 1 empty_graph).2 in
  ∃ parts g',
    divide_handle (get_handle 1 false) [1; 2] g = Some (parts, g') ∧
    mapM (λ h, get_sequence h g') parts
    = Some [seq_of "A"; seq_of "A"; seq_of "CG"].
Proof. do 2 eexists. split; by vm_compute. Qed.

Example divide_handle_reverse_one_offset :
  let g := (create_handle (seq_of "GAC") 4 empty_graph).2 in
  ∃ parts g',
    divide_handle (get_handle 4 true) [1] g = Some (parts, g') ∧
    mapM (λ h, get_sequence h g') parts = Some [seq_of "G"; seq_of "TC"] ∧
    Forall (λ h, get_is_reverse h = true) parts.
Proof.
  do 2 eexists. split; [by vm_compute|]. split; [by vm_compute|].
  repeat constructor.
Qed.

(** *** Forward handles are divided correctly *)

Lemma pieces_join (s : seq_t) (off : Z) (rest : list Z) :
  Sorted Z.lt (off :: rest) → 0 <= off →
  Forall (λ o, o <= Z.of_nat (length s)) (off :: rest) →
  concat (pieces s (off :: rest)) = drop (Z.to_nat off) s.
Proof.
  revert off. induction rest as [|next rest IH]; intros off Hsorted H0 Hle.
  - simpl. rewrite app_nil_r. apply take_ge. rewrite length_drop.
    apply Forall_cons in Hle as [Hle _]. lia.
  - apply Sorted_inv in Hsorted as [Hsorted Hhd].
    apply HdRel_inv in Hhd.
    apply Forall_cons in Hle as [Hoff Hle].
    change (pieces s (off :: next :: rest))
      with (take (Z.to_nat (next - off)) (drop (Z.to_nat off) s)
            :: pieces s (next :: rest)).
    rewrite concat_cons, IH by (done || lia).
    replace (Z.to_nat next) with (Z.to_nat off + Z.to_nat (next - off))%nat
      by lia.
    rewrite <- drop_drop. apply take_drop.
Qed.

Lemma substr_piece (s : seq_t) (off next : Z) :
  0 <= off → off <= next → next <= Z.of_nat (length s) →
  Z.of_nat (length s) < two64 →
  substr s off (wrap64 (next - off))
  = Some (take (Z.to_nat (next - off)) (drop (Z.to_nat off) s)).
Proof.
  intros H0 Hon Hnl Hl. unfold substr. simpl.
  rewrite decide_True by lia. rewrite wrap64_small by lia.
  by rewrite Z.min_l by lia.
Qed.

Lemma sequences_kept_refl gr : sequences_kept gr gr.
Proof. by intros id s. Qed.

Lemma sequences_kept_trans gr1 gr2 gr3 :
  sequences_kept gr1 gr2 → sequences_kept gr2 gr3 → sequences_kept gr1 gr3.
Proof. intros H12 H23 id s Hs. by apply H23, H12. Qed.

(** Rewriting the adjacency lists of the record under [id], which
    [operator[]] creates if need be, keeps the sequences. *)
Lemma sequences_kept_insert_edges gr id (f : node_t.t → node_t.t) :
  (∀ n, node_t.sequence (f n) = node_t.sequence n) →
  sequences_kept gr (<[id := f (node_at gr id)]> gr).
Proof.
  intros Hf j s Hs. unfold seq_at in *.
  destruct (decide (j = id)) as [->|Hne].
  - rewrite lookup_insert_eq. simpl. rewrite Hf. unfold node_at.
    destruct (gr !! id) as [n|]; [done|]. done.
  - by rewrite lookup_insert_ne.
Qed.

Lemma sequences_kept_update_bwd f next gr :
  sequences_kept gr (update_bwd f next gr).
Proof.
  unfold update_bwd. destruct (get_is_reverse next).
  - apply (sequences_kept_insert_edges gr (get_id next)
             (λ n, node_t.set_right (f (node_t.right_edges n)) n)). done.
  - apply (sequences_kept_insert_edges gr (get_id next)
             (λ n, node_t.set_left (f (node_t.left_edges n)) n)). done.
Qed.

Lemma sequences_kept_push_left id h gr : sequences_kept gr (push_left id h gr).
Proof.
  apply (sequences_kept_insert_edges gr id
           (λ n, node_t.set_left (node_t.left_edges n ++ [h]) n)). done.
Qed.

Lemma sequences_kept_push_right id h gr :
  sequences_kept gr (push_right id h gr).
Proof.
  apply (sequences_kept_insert_edges gr id
           (λ n, node_t.set_right (node_t.right_edges n ++ [h]) n)). done.
Qed.

Lemma sequences_kept_create_edge h1 h2 gr :
  sequences_kept gr (create_edge_nodes h1 h2 gr).
Proof.
  unfold create_edge_nodes.
  destruct (get_is_reverse h1), (decide (h1 ≠ flip h2)),
    (get_is_reverse h2);
    eauto using sequences_kept_trans, sequences_kept_push_left,
      sequences_kept_push_right.
Qed.

Lemma sequences_kept_chain rv gr : sequences_kept gr (chain_segments rv gr).
Proof.
  revert gr. induction rv as [|a rv IH]; intros gr; [apply sequences_kept_refl|].
  destruct rv as [|b rv]; [apply sequences_kept_refl|].
  cbn [chain_segments]. eapply sequences_kept_trans; [|apply IH].
  apply sequences_kept_create_edge.
Qed.

Lemma sequences_kept_move id final gr :
  sequences_kept gr (move_right_edges id final gr).
Proof.
  unfold move_right_edges.
  eapply sequences_kept_trans; [|eapply sequences_kept_trans].
  - apply (sequences_kept_insert_edges gr final (λ n, n)). done.
  - set (gr1 := <[final := node_at gr final]> gr).
    apply (sequences_kept_insert_edges gr1 final
             (λ n, node_t.set_right
                     (node_t.right_edges (node_at gr1 id)) n)). done.
  - match goal with
    | |- sequences_kept ?gr2 _ =>
        apply (sequences_kept_insert_edges gr2 id
                 (λ n, node_t.set_right [] n))
    end. done.
Qed.

Lemma sequences_kept_retarget final old_target new_target gr :
  sequences_kept gr (retarget_backrefs final old_target new_target gr).
Proof.
  unfold retarget_backrefs.
  generalize (seq 0 (length (node_t.right_edges (node_at gr final)))).
  intros indices. revert gr.
  induction indices as [|i indices IH]; intros gr; [apply sequences_kept_refl|].
  simpl. eapply sequences_kept_trans; [|apply IH].
  destruct (node_t.right_edges (node_at gr final) !! i);
    [apply sequences_kept_update_bwd|apply sequences_kept_refl].
Qed.

Lemma insert_steps_graph busy pieces mapping path g g' :
  insert_steps busy pieces mapping path g = Some g' → graph g' = graph g.
Proof.
  revert mapping g. induction pieces as [|[id h] pieces IH]; intros mapping g.
  - by intros [= <-].
  - simpl. destruct (insert_after _ _ _ _) as [[[a p'] st']|]; [|done].
    simpl. case_decide; [done|]. intros Hrec. by apply IH in Hrec.
Qed.

Lemma rehome_steps_graph busy rv bucket g g' :
  rehome_steps busy rv bucket g = Some g' → graph g' = graph g.
Proof.
  revert g. induction bucket as [|m bucket IH]; intros g; simpl.
  - by intros [= <-].
  - destruct (rehome_step busy rv g m) as [g1|] eqn:Hstep; [|done]. simpl.
    intros Hrec. apply IH in Hrec. rewrite Hrec.
    unfold rehome_step in Hstep.
    destruct (store g !! m); [|done]. simpl in Hstep.
    destruct (get_is_reverse _); by apply insert_steps_graph in Hstep.
Qed.

(** The first loop of [divide_handle] on increasing forward offsets: the
    new nodes hold the pieces, under identifiers above the old bound. *)
Lemma divide_sequence_forward (offs : list Z) (g : HashGraph)
    (acc : list handle_t) (id : Z) (s : seq_t) :
  seq_at (graph g) id = Some s → ids_bounded g →
  Sorted Z.lt offs →
  Forall (λ o, 0 <= o <= Z.of_nat (length s)) offs →
  Z.of_nat (length s) < two64 →
  0 <= max_id g + 1 → max_id g + Z.of_nat (length offs) < 2 ^ 63 →
  ∃ news g1,
    divide_sequence id (Z.of_nat (length s)) offs g acc
    = Some (acc ++ news, g1) ∧
    Forall2 (λ hn piece, get_is_reverse hn = false ∧ max_id g < get_id hn ∧
                         seq_at (graph g1) (get_id hn) = Some piece)
            news (pieces s offs) ∧
    (∀ j, j <= max_id g → graph g1 !! j = graph g !! j) ∧
    paths g1 = paths g ∧ store g1 = store g ∧ occurrences g1 = occurrences g.
Proof.
  revert g acc.
  induction offs as [|off rest IH];
    intros g acc Hs Hbound Hsorted Hrange Hlen Hlow Hhigh.
  - exists [], g. rewrite app_nil_r. split; [done|]. split; [constructor|].
    done.
  - apply Forall_cons in Hrange as [Hoff Hrange].
    apply Sorted_inv in Hsorted as [Hsorted Hhd].
    set (following := match rest with
                      | f :: _ => f
                      | [] => Z.of_nat (length s)
                      end).
    assert (off <= following <= Z.of_nat (length s)) as Hfol.
    { unfold following. destruct rest as [|f rest']; [lia|].
      apply HdRel_inv in Hhd. apply Forall_cons in Hrange as [Hf _]. lia. }
    assert (node_t.sequence (node_at (graph g) id) = s) as Hnode.
    { unfold seq_at in Hs. unfold node_at.
      destruct (graph g !! id) as [n|]; [|done]. by injection Hs. }
    cbn [divide_sequence]. fold following. rewrite Hnode.
    rewrite substr_piece by lia. cbn [mbind option_bind].
    set (piece := take (Z.to_nat (following - off)) (drop (Z.to_nat off) s)).
    unfold create_handle_next, create_handle.
    set (g' := set_bounds _ _ _).
    assert (max_id g' = max_id g + 1) as Hmax
      by (unfold g'; simpl; lia).
    assert (id ≠ max_id g + 1) as Hid.
    { intros ->. unfold seq_at in Hs.
      destruct (graph g !! (max_id g + 1)) as [n|] eqn:E; [|done].
      assert (max_id g + 1 <= max_id g) by (apply Hbound; eauto). lia. }
    cbn [length] in Hhigh.
    destruct (IH g' (acc ++ [get_handle (max_id g + 1) false]))
      as (news & g1 & Hrun & Hnews & Hframe & Hps & Hst & Hoc).
    { unfold seq_at, g'. simpl. by rewrite lookup_insert_ne. }
    { intros j Hj. rewrite Hmax. unfold g' in Hj. simpl in Hj.
      destruct (decide (j = max_id g + 1)) as [->|Hne]; [lia|].
      rewrite lookup_insert_ne in Hj by done. apply Hbound in Hj. lia. }
    { done. }
    { done. }
    { done. }
    { lia. }
    { lia. }
    assert (valid_id (max_id g + 1)) as Hvalid by (unfold valid_id; lia).
    exists (get_handle (max_id g + 1) false :: news), g1.
    split; [by rewrite Hrun, <- app_assoc|]. split; [|split].
    + cbn [pieces]. fold following. fold piece. constructor.
      * rewrite get_is_reverse_get_handle, get_id_get_handle by done.
        split; [done|]. split; [lia|].
        unfold seq_at. rewrite Hframe by lia. unfold g'. simpl.
        by rewrite lookup_insert_eq.
      * eapply Forall2_impl; [exact Hnews|].
        intros hn p (Hfwd & Hgt & Hseq). split; [done|]. split; [lia|done].
    + intros j Hj. rewrite Hframe by lia. unfold g'. simpl.
      apply lookup_insert_ne. lia.
    + done.
Qed.

Lemma joined_sequence_Some (hs : list handle_t) (g : HashGraph)
    (ss : list seq_t) :
  Forall2 (λ h s, get_sequence h g = Some s) hs ss →
  joined_sequence hs g = Some (concat ss).
Proof.
  intros Hall. unfold joined_sequence.
  apply mapM_Some in Hall. unfold seq_t in *. by rewrite Hall.
Qed.

(** The split round trip for forward handles: the sequences of the
    handles that [divide_handle] returns, laid end to end, spell the
    sequence the node had. *)
Lemma divide_handle_forward_round_trip (h : handle_t) (offsets : list Z)
    (g g' : HashGraph) (parts : list handle_t) (s : seq_t) :
  get_is_reverse h = false →
  get_sequence h g = Some s →
  Sorted Z.lt offsets →
  Forall (λ o, 0 <= o <= Z.of_nat (length s)) offsets →
  Z.of_nat (length s) < two64 →
  ids_bounded g →
  0 <= max_id g + 1 → max_id g + Z.of_nat (length offsets) < 2 ^ 63 →
  divide_handle h offsets g = Some (parts, g') →
  joined_sequence parts g' = Some s.
Proof.
  intros Hfwd Hseq Hsorted Hrange Hlen Hbound Hlow Hhigh.
  unfold get_sequence in Hseq. rewrite Hfwd in Hseq.
  destruct (graph g !! get_id h) as [n|] eqn:Hn; [|done].
  simpl in Hseq. injection Hseq as <-.
  set (s := node_t.sequence n) in *.
  assert (seq_at (graph g) (get_id h) = Some s) as Hat
    by (unfold seq_at; by rewrite Hn).
  unfold divide_handle, get_length, forward. rewrite Hn, Hfwd.
  cbn [mbind option_bind]. fold s.
  case_decide as Hoffs.
  { intros [= <- <-]. unfold joined_sequence, get_sequence. simpl.
    rewrite Hn, Hfwd. simpl. by rewrite app_nil_r. }
  destruct (divide_sequence_forward offsets g [h] (get_id h) s)
    as (news & g1 & Hrun & Hnews & Hframe & Hps & Hst & Hoc); try done.
  rewrite Hrun. cbn [mbind option_bind].
  destruct offsets as [|front rest]; [done|].
  cbn [head default].
  assert (get_id h <= max_id g) as Hid by (apply Hbound; eauto).
  assert (node_t.sequence (node_at (graph g1) (get_id h)) = s) as Hnode.
  { unfold node_at. rewrite Hframe by done. by rewrite Hn. }
  rewrite Hnode.
  pose proof Hrange as [Hfront _]%Forall_cons.
  change (id front) with front.
  assert (substr s 0 front = Some (take (Z.to_nat front) s)) as ->.
  { unfold substr. simpl. rewrite decide_True by lia.
    rewrite Z.sub_0_r, Z.min_l by lia. done. }
  cbn [mbind option_bind].
  set (gr2 := <[get_id h := _]> (graph g1)).
  set (back := default h (last ([h] ++ news))).
  set (gr5 := chain_segments _ _).
  assert (sequences_kept gr2 gr5) as Hkept.
  { unfold gr5.
    eapply sequences_kept_trans; [|apply sequences_kept_chain].
    eapply sequences_kept_trans; [|apply sequences_kept_retarget].
    apply sequences_kept_move. }
  assert (∀ g6, graph g6 = gr5 →
            joined_sequence ([h] ++ news) g6 = Some s) as Hjoin.
  { intros g6 Hg6.
    rewrite (joined_sequence_Some _ _
               (take (Z.to_nat front) s :: pieces s (front :: rest))).
    2:{ constructor.
      - unfold get_sequence. rewrite Hfwd, Hg6.
        assert (seq_at gr5 (get_id h) = Some (take (Z.to_nat front) s)) as Hk.
        { apply Hkept. unfold seq_at, gr2. by rewrite lookup_insert_eq. }
        unfold seq_at in Hk. destruct (gr5 !! get_id h); [|done].
        simpl in *. congruence.
      - eapply Forall2_impl; [exact Hnews|].
        intros hn p (Hf & Hgt & Hp). unfold get_sequence. rewrite Hf, Hg6.
        assert (seq_at gr5 (get_id hn) = Some p) as Hk.
        { apply Hkept. unfold seq_at, gr2.
          rewrite lookup_insert_ne by lia. exact Hp. }
        unfold seq_at in Hk. destruct (gr5 !! get_id hn); [|done].
        simpl in *. congruence. }
    rewrite concat_cons.
    rewrite pieces_join; [by rewrite take_drop|done|lia|].
    eapply Forall_impl; [exact Hrange|]. simpl. lia. }
  destruct (occurrences (set_graph gr5 g1) !! get_id h) as [bucket|].
  - destruct (rehome_steps (get_id h) ([h] ++ news) bucket
                (set_graph gr5 g1)) as [g6|] eqn:Hre;
      cbn [mbind option_bind]; [|done].
    intros [= <- <-]. apply Hjoin.
    by apply rehome_steps_graph in Hre.
  - cbn [mbind option_bind]. intros [= <- <-]. by apply Hjoin.
Qed.

(** ** Destroying a node *)

Lemma take_pred_snoc {A} (l : list A) (z : A) :
  take (length (l ++ [z]) - 1) (l ++ [z]) = l.
Proof.
  rewrite length_app. simpl.
  replace (length l + 1 - 1)%nat with (length l) by lia.
  by rewrite take_app_length.
Qed.

Lemma swap_remove_middle {A} (l1 l2 : list A) (y : A) :
  swap_remove (length l1) (l1 ++ y :: l2) ≡ₚ l1 ++ l2.
Proof.
  unfold swap_remove.
  destruct l2 as [|z l2 _] using rev_ind.
  - rewrite last_snoc.
    rewrite insert_app_r_alt, Nat.sub_diag by lia. simpl.
    rewrite take_pred_snoc. by rewrite app_nil_r.
  - assert (l1 ++ y :: l2 ++ [z] = (l1 ++ y :: l2) ++ [z]) as E
      by (by rewrite <- app_assoc).
    rewrite E, last_snoc, <- E.
    rewrite insert_app_r_alt, Nat.sub_diag by lia. simpl.
    assert (l1 ++ z :: l2 ++ [z] = (l1 ++ z :: l2) ++ [z]) as E'
      by (by rewrite <- app_assoc).
    assert (length (l1 ++ y :: l2 ++ [z]) = length ((l1 ++ z :: l2) ++ [z]))
      as -> by (rewrite !length_app; simpl; rewrite !length_app; simpl; lia).
    rewrite E', take_pred_snoc.
    rewrite <- Permutation_middle, (Permutation_app_comm l2 [z]).
    simpl. by rewrite Permutation_middle.
Qed.

Lemma swap_remove_perm {A} (i : nat) (v : list A) (y : A) :
  v !! i = Some y → swap_remove i v ≡ₚ delete i v.
Proof.
  intros Hi.
  destruct (list_elem_of_split_length v i y Hi) as (l1 & l2 & -> & ->).
  rewrite delete_middle. apply swap_remove_middle.
Qed.

Section remove_first_facts.
Context {A : Type} (P : A → Prop) `{∀ x, Decision (P x)}.

Lemma remove_first_found (v : list A) (i : nat) (y : A) :
  list_find P v = Some (i, y) → remove_first P v ≡ₚ delete i v.
Proof.
  intros Hf. unfold remove_first. rewrite Hf.
  apply list_find_Some in Hf as (Hi & _ & _). by eapply swap_remove_perm.
Qed.

Lemma length_filter_delete (Q : A → Prop) `{∀ x, Decision (Q x)}
    (v : list A) (i : nat) (y : A) :
  v !! i = Some y →
  length (filter Q (delete i v))
  = (length (filter Q v) - (if decide (Q y) then 1 else 0))%nat.
Proof.
  intros Hi.
  destruct (list_elem_of_split_length v i y Hi) as (l1 & l2 & -> & ->).
  rewrite delete_middle, !filter_app, filter_cons, !length_app.
  case_decide; simpl; lia.
Qed.

(** Removing the first match lowers the number of matches by one,
    unless there was none. *)
Lemma remove_first_matches (v : list A) :
  length (filter P (remove_first P v)) = pred (length (filter P v)).
Proof.
  destruct (list_find P v) as [[i y]|] eqn:Hf.
  - rewrite (remove_first_found v i y Hf).
    apply list_find_Some in Hf as (Hi & HP & _).
    rewrite (length_filter_delete P v i y Hi), decide_True by done. lia.
  - unfold remove_first. rewrite Hf.
    apply list_find_None in Hf.
    assert (filter P v = []) as ->; [|done].
    induction v as [|a v IH]; [done|].
    apply Forall_cons in Hf as [Ha Hv].
    rewrite filter_cons_False by done. by apply IH.
Qed.

(** Matches of a coarser predicate go down by at most one and never up. *)
Lemma remove_first_perm_sub (v : list A) :
  remove_first P v ⊆+ v.
Proof.
  destruct (list_find P v) as [[i y]|] eqn:Hf.
  - rewrite (remove_first_found v i y Hf). apply sublist_submseteq.
    apply sublist_delete.
  - unfold remove_first. by rewrite Hf.
Qed.
End remove_first_facts.

Lemma edge_list_update_bwd (f : list handle_t → list handle_t)
    (next : handle_t) (gr : gmap Z node_t.t) (side : bool) (n : Z) :
  edge_list side n (update_bwd f next gr)
  = if decide (n = get_id next ∧ negb (get_is_reverse next) = side)
    then f (edge_list side n gr) else edge_list side n gr.
Proof.
  unfold edge_list, update_bwd. rewrite node_at_insert.
  destruct (decide (n = get_id next)) as [->|Hn].
  - destruct (get_is_reverse next), side; simpl;
      case_decide; try done; naive_solver.
  - rewrite decide_False; [done|]. by intros [? _].
Qed.

Lemma refs_to_zero (x : Z) (l : list handle_t) :
  refs_to x l = 0%nat → Forall (λ e, get_id e ≠ x) l.
Proof.
  unfold refs_to. induction l as [|e l IH]; [constructor|].
  rewrite filter_cons. case_decide; simpl; [done|].
  intros Hl. constructor; [done|by apply IH].
Qed.

(** The loop of [destroy_handle] lowers the number of references to [x] on
    a list by the number of entries of [x] that lead to that list. *)
Lemma refs_to_after_destroy_loop (x : Z) (nexts : list handle_t)
    (gr : gmap Z node_t.t) (side : bool) (n : Z) :
  refs_to x (edge_list side n
    (foldl (λ gr next,
              update_bwd (remove_first (λ e, get_id e = x)) next gr)
           gr nexts))
  = (refs_to x (edge_list side n gr) - exits_to n side nexts)%nat.
Proof.
  revert gr. induction nexts as [|a nexts IH]; intros gr; simpl.
  - unfold exits_to. simpl. lia.
  - rewrite IH, edge_list_update_bwd. unfold exits_to.
    rewrite filter_cons.
    destruct (decide (n = get_id a ∧ negb (get_is_reverse a) = side))
      as [[-> Hs]|Hno].
    + rewrite decide_True by done. unfold refs_to at 1.
      rewrite remove_first_matches. fold (refs_to x (edge_list side (get_id a) gr)).
      simpl. lia.
    + rewrite decide_False; [done|]. intros [<- Hs]. by apply Hno.
Qed.




(** *** The invariant of reciprocal entries *)

Lemma reciprocal_empty : reciprocal ∅.
Proof. intros x n side _. by destruct side. Qed.

Lemma reciprocal_accounted (x : Z) (gr : gmap Z node_t.t) :
  reciprocal gr → backrefs_accounted x gr.
Proof.
  intros Hrec n nd Hn Hne.
  pose proof (Hrec x n true (not_eq_sym Hne)) as Hl.
  pose proof (Hrec x n false (not_eq_sym Hne)) as Hr.
  unfold edge_list, node_at in Hl, Hr. rewrite Hn in Hl, Hr. simpl in *.
  lia.
Qed.

Lemma edge_list_insert_fresh (gr : gmap Z node_t.t) (id : Z) (s : seq_t)
    (side : bool) (n : Z) :
  gr !! id = None →
  edge_list side n (<[id := node_t.of_sequence s]> gr) = edge_list side n gr.
Proof.
  intros Hfresh. unfold edge_list. rewrite node_at_insert.
  case_decide as E; [|done]. subst n. unfold node_at. rewrite Hfresh.
  by destruct side.
Qed.

Lemma out_edges_split (x : Z) (gr : gmap Z node_t.t) :
  out_edges x gr = edge_list true x gr ++ edge_list false x gr.
Proof. done. Qed.

(** Creating a node under an identifier that is not live keeps the
    invariant. *)
Lemma reciprocal_create_handle (sequence : seq_t) (id : Z) (g : HashGraph) :
  has_node id g = false → reciprocal (graph g) →
  reciprocal (graph (create_handle sequence id g).2).
Proof.
  intros Hfresh Hrec x n side Hne. simpl.
  apply bool_decide_eq_false in Hfresh.
  assert (graph g !! id = None) as Hnone.
  { destruct (graph g !! id) eqn:E; [|done]. exfalso. apply Hfresh. eauto. }
  rewrite out_edges_split, !edge_list_insert_fresh by done.
  rewrite <- out_edges_split. by apply Hrec.
Qed.

Lemma refs_to_app (x : Z) (l1 l2 : list handle_t) :
  refs_to x (l1 ++ l2) = (refs_to x l1 + refs_to x l2)%nat.
Proof. unfold refs_to. by rewrite filter_app, length_app. Qed.

Lemma exits_to_app (n : Z) (side : bool) (l1 l2 : list handle_t) :
  exits_to n side (l1 ++ l2) = (exits_to n side l1 + exits_to n side l2)%nat.
Proof. unfold exits_to. by rewrite filter_app, length_app. Qed.

Lemma refs_to_one (x : Z) (e : handle_t) :
  refs_to x [e] = if decide (get_id e = x) then 1%nat else 0%nat.
Proof.
  unfold refs_to. rewrite filter_cons, filter_nil. by case_decide.
Qed.

Lemma exits_to_one (n : Z) (side : bool) (e : handle_t) :
  exits_to n side [e]
  = if decide (get_id e = n ∧ negb (get_is_reverse e) = side)
    then 1%nat else 0%nat.
Proof.
  unfold exits_to. rewrite filter_cons, filter_nil. by case_decide.
Qed.

(** [create_edge] keeps the invariant, whatever the two handles are. *)
Lemma reciprocal_create_edge (h1 h2 : handle_t) (g : HashGraph) :
  reciprocal (graph g) → reciprocal (graph (create_edge h1 h2 g)).
Proof.
  intros Hrec x n side Hne. simpl.
  rewrite out_edges_split, !edge_list_create_edge.
  rewrite !refs_to_app, !exits_to_app.
  pose proof (Hrec x n side Hne) as Hold.
  rewrite out_edges_split, exits_to_app in Hold.
  assert (get_id h1 ≠ get_id h2 → h1 ≠ flip h2) as Hflip.
  { intros Hid ->. apply Hid. by rewrite get_id_flip. }
  repeat case_decide;
    rewrite ?refs_to_one, ?exits_to_one, ?get_id_flip, ?get_is_reverse_flip;
    repeat case_decide;
    try (change (refs_to x []) with 0%nat);
    try (change (exits_to n side []) with 0%nat);
    try lia;
    exfalso; destruct (get_is_reverse h1), (get_is_reverse h2), side;
    simpl in *; naive_solver.
Qed.

Lemma length_filter_remove_first_other {A} (P Q : A → Prop)
    `{∀ x, Decision (P x)} `{∀ x, Decision (Q x)} (v : list A) :
  (∀ y, P y → ¬ Q y) →
  length (filter Q (remove_first P v)) = length (filter Q v).
Proof.
  intros Hdisj. destruct (list_find P v) as [[i y]|] eqn:Hf.
  - rewrite (remove_first_found P v i y Hf).
    apply list_find_Some in Hf as (Hi & HP & _).
    rewrite (length_filter_delete Q v i y Hi).
    rewrite decide_False by (by apply Hdisj). lia.
  - unfold remove_first. by rewrite Hf.
Qed.

(** The loop of [destroy_handle] only removes entries that refer to the
    node being destroyed. *)
Lemma other_entries_after_destroy_loop (x : Z) (Q : handle_t → Prop)
    `{∀ e, Decision (Q e)} (nexts : list handle_t)
    (gr : gmap Z node_t.t) (side : bool) (n : Z) :
  (∀ e, Q e → get_id e ≠ x) →
  length (filter Q (edge_list side n
    (foldl (λ gr next,
              update_bwd (remove_first (λ e, get_id e = x)) next gr)
           gr nexts)))
  = length (filter Q (edge_list side n gr)).
Proof.
  intros HQ. revert gr. induction nexts as [|a nexts IH]; intros gr; [done|].
  simpl. rewrite IH, edge_list_update_bwd. case_decide; [|done].
  apply length_filter_remove_first_other. intros y Hy HQy.
  by apply (HQ y).
Qed.

Lemma exits_to_le_refs_to (n : Z) (side : bool) (l : list handle_t) :
  (exits_to n side l ≤ refs_to n l)%nat.
Proof.
  unfold exits_to, refs_to. induction l as [|e l IH]; [done|].
  rewrite !filter_cons. repeat case_decide; simpl; try lia; naive_solver.
Qed.

(** [destroy_handle] on a node without an edge to itself keeps the
    invariant. *)
Lemma reciprocal_destroy_handle (h : handle_t) (g : HashGraph) :
  has_node (get_id h) g = true →
  no_self_loop (get_id h) (graph g) →
  reciprocal (graph g) →
  reciprocal (graph (destroy_handle h g)).
Proof.
  intros Hlive _ Hrec. set (X := get_id h).
  apply bool_decide_eq_true in Hlive as [node Hnode]. fold X in Hnode.
  unfold destroy_handle. fold X. simpl.
  assert (node_at (graph g) X = node) as Hat
    by (unfold node_at; by rewrite Hnode).
  rewrite Hat, (insert_id (graph g) X node) by done.
  set (nexts := node_t.left_edges node ++ node_t.right_edges node).
  set (gr1 := foldl _ (graph g) nexts).
  assert (out_edges X (graph g) = nexts) as Hout
    by (unfold out_edges; by rewrite Hat).
  assert (∀ side n, edge_list side n (delete X gr1)
                    = if decide (n = X) then [] else edge_list side n gr1)
    as Hdel.
  { intros side n. unfold edge_list, node_at. case_decide as E.
    - subst n. rewrite lookup_delete_eq. by destruct side.
    - by rewrite lookup_delete_ne. }
  assert (∀ side n, n ≠ X → refs_to X (edge_list side n gr1) = 0%nat)
    as Hgone.
  { intros side n Hn. unfold gr1.
    rewrite refs_to_after_destroy_loop.
    rewrite (Hrec X n side) by done. rewrite Hout. lia. }
  intros x n side Hne.
  rewrite out_edges_split, exits_to_app, !Hdel.
  destruct (decide (n = X)) as [->|HnX].
  - rewrite !decide_False by done.
    pose proof (exits_to_le_refs_to X side (edge_list true x gr1)) as Ht.
    pose proof (exits_to_le_refs_to X side (edge_list false x gr1)) as Hf.
    rewrite Hgone in Ht, Hf by done. change (refs_to x []) with 0%nat. lia.
  - destruct (decide (x = X)) as [->|HxX].
    + rewrite Hgone by done. by destruct side.
    + unfold refs_to, exits_to, gr1.
      rewrite !other_entries_after_destroy_loop.
      * pose proof (Hrec x n side Hne) as Hold.
        rewrite out_edges_split, exits_to_app in Hold. exact Hold.
      * intros e [He _]. congruence.
      * intros e [He _]. congruence.
      * intros e He. congruence.
Qed.

(** The content of C5 for the graphs that the editing operations build. *)
Corollary destroy_handle_reciprocal (h : handle_t) (g : HashGraph) :
  has_node (get_id h) g = true →
  no_self_loop (get_id h) (graph g) →
  reciprocal (graph g) →
  no_refs_to (get_id h) (graph (destroy_handle h g)).
Proof.
  intros Hlive Hloop Hrec.
  assert (backrefs_accounted (get_id h) (graph g)) as Hacc
    by (by apply reciprocal_accounted).
  set (x := get_id h) in *.
  apply bool_decide_eq_true in Hlive as [node Hnode].
  unfold destroy_handle. fold x. simpl.
  assert (node_at (graph g) x = node) as Hat
    by (unfold node_at; by rewrite Hnode).
  rewrite Hat, (insert_id (graph g) x node) by done.
  intros n nd Hn.
  destruct (decide (n = x)) as [->|Hne]; [by rewrite lookup_delete_eq in Hn|].
  rewrite lookup_delete_ne in Hn by done.
  assert (∀ side, refs_to x (edge_list side n
            (foldl (λ gr next,
                      update_bwd (remove_first (λ e, get_id e = x)) next gr)
                   (graph g)
                   (node_t.left_edges node ++ node_t.right_edges node)))
          = 0%nat) as Hzero.
  { intros side. rewrite refs_to_after_destroy_loop.
    rewrite (Hrec x n side) by done. unfold out_edges. rewrite Hat. lia. }
  apply Forall_app. split; apply refs_to_zero.
  - specialize (Hzero true). unfold edge_list, node_at in Hzero.
    by rewrite Hn in Hzero.
  - specialize (Hzero false). unfold edge_list, node_at in Hzero.
    by rewrite Hn in Hzero.
Qed.

(** ** Doubly linked lists of steps *)

Section dseg_facts.
Implicit Types st : gmap addr path_mapping_t.t.
Implicit Types cells : list addr.

Lemma dseg_app st before first cells1 cells2 final after :
  dseg st before first (cells1 ++ cells2) final after ↔
  ∃ mid_final mid_first,
    dseg st before first cells1 mid_final mid_first ∧
    dseg st mid_final mid_first cells2 final after.
Proof.
  revert before first.
  induction cells1 as [|a cells1 IH]; intros before first; simpl.
  - split.
    + intros Hd. exists before, first. done.
    + intros (mf & mh & [-> ->] & Hd). done.
  - split.
    + intros (-> & record & Ha & Hp & Hd).
      apply IH in Hd as (mf & mh & H1 & H2).
      exists mf, mh. split; [|done]. split; [done|]. exists record. done.
    + intros (mf & mh & (-> & record & Ha & Hp & H1) & H2).
      split; [done|]. exists record. split; [done|]. split; [done|].
      apply IH. eauto.
Qed.

(** A segment only depends on the records of its own cells. *)
Lemma dseg_frame st st' before first cells final after :
  (∀ a, a ∈ cells → st' !! a = st !! a) →
  dseg st before first cells final after →
  dseg st' before first cells final after.
Proof.
  revert before first.
  induction cells as [|a cells IH]; intros before first Hsame; simpl; [done|].
  intros (-> & record & Ha & Hp & Hd). split; [done|].
  exists record. rewrite Hsame by (by left). split; [done|]. split; [done|].
  apply IH; [|done]. intros b Hb. apply Hsame. by right.
Qed.

Lemma dseg_cells_live st before first cells final after :
  dseg st before first cells final after →
  Forall (λ a, is_Some (st !! a)) cells.
Proof.
  revert before first.
  induction cells as [|a cells IH]; intros before first; simpl.
  - constructor.
  - intros (-> & record & Ha & Hp & Hd). constructor; eauto.
Qed.

(** The last cell of a segment. *)
Lemma dseg_final st before first cells final after :
  dseg st before first cells final after →
  final = from_option Some before (last cells).
Proof.
  revert before first.
  induction cells as [|a cells IH]; intros before first; simpl.
  - by intros [_ ->].
  - intros (-> & record & Ha & Hp & Hd). apply IH in Hd. rewrite Hd.
    destruct cells as [|b cells]; [done|]. rewrite last_cons_cons.
    destruct (last (b :: cells)) eqn:E; [done|]. by apply last_None in E.
Qed.

Lemma dseg_first st before first cells final after :
  dseg st before first cells final after →
  first = from_option Some after (head cells).
Proof.
  destruct cells as [|a cells]; simpl; [by intros [-> _]|by intros [-> _]].
Qed.

(** The [prev] pointer of a cell stays inside the segment or is the
    pointer before it. *)
Lemma dseg_prev_inside st before first cells final after a record :
  dseg st before first cells final after →
  a ∈ cells → st !! a = Some record →
  path_mapping_t.prev record = before ∨
  ∃ q, path_mapping_t.prev record = Some q ∧ q ∈ cells.
Proof.
  revert before first.
  induction cells as [|b cells IH]; intros before first Hd Hin Ha.
  - by apply elem_of_nil in Hin.
  - simpl in Hd. destruct Hd as (-> & rec_b & Hb & Hp & Hd).
    destruct (decide (a = b)) as [->|Hne].
    + left. congruence.
    + apply elem_of_cons in Hin as [?|Hin]; [done|].
      destruct (IH _ _ Hd Hin Ha) as [Hq|(q & Hq & Hqin)].
      * right. exists b. split; [done|by left].
      * right. exists q. split; [done|by right].
Qed.

(** Following [next] from the first cell of a list that ends in a null
    pointer meets exactly its cells, given enough fuel. *)
Lemma walk_dseg st before first cells final fuel :
  dseg st before first cells final None →
  (length cells ≤ fuel)%nat →
  walk fuel st first = cells.
Proof.
  revert before first fuel.
  induction cells as [|a cells IH]; intros before first fuel; simpl.
  - intros [-> _] _. by destruct fuel.
  - intros (-> & record & Ha & Hp & Hd) Hfuel.
    destruct fuel as [|fuel]; [lia|]. simpl. rewrite Ha.
    f_equal. eapply IH; [done|lia].
Qed.

Lemma cells_le_size st cells :
  NoDup cells → Forall (λ a, is_Some (st !! a)) cells →
  (length cells ≤ size st)%nat.
Proof.
  intros Hnd Hlive.
  assert (list_to_set cells ⊆ dom st) as Hsub.
  { intros a Ha. apply elem_of_list_to_set in Ha.
    rewrite Forall_forall in Hlive. apply elem_of_dom. by apply Hlive. }
  apply subseteq_size in Hsub.
  rewrite size_list_to_set, size_dom in Hsub by done. done.
Qed.

Lemma steps_from_dseg st before first cells final :
  dseg st before first cells final None → NoDup cells →
  steps_from st first = cells.
Proof.
  intros Hd Hnd. unfold steps_from. eapply walk_dseg; [done|].
  apply cells_le_size; [done|]. by eapply dseg_cells_live.
Qed.

Lemma path_cells_steps st k p cells :
  path_cells st k p cells → steps_from st (path_t.head p) = cells.
Proof. intros (Hd & Hnd & _). by eapply steps_from_dseg. Qed.

Lemma path_cells_unique st k p cells cells' :
  path_cells st k p cells → path_cells st k p cells' → cells = cells'.
Proof.
  intros H1 H2. apply path_cells_steps in H1, H2. congruence.
Qed.

(** Deleting the cells of a list, as the destructor does. *)
Lemma free_list_dseg st before first cells final fuel :
  dseg st before first cells final None → NoDup cells →
  (length cells ≤ fuel)%nat →
  free_list fuel first st = foldr delete st cells.
Proof.
  revert st before first fuel.
  induction cells as [|a cells IH]; intros st before first fuel; simpl.
  - intros [-> _] _ _. by destruct fuel.
  - intros (-> & record & Ha & Hp & Hd) Hnd Hfuel.
    apply NoDup_cons in Hnd as [Hna Hnd].
    destruct fuel as [|fuel]; [lia|]. simpl. rewrite Ha.
    rewrite (IH (delete a st) (Some a)); [|  |done|lia].
    + clear. induction cells as [|b cells IH]; simpl; [done|].
      by rewrite IH, delete_delete.
    + eapply dseg_frame; [|done]. intros b Hb.
      apply lookup_delete_ne. intros ->. done.
Qed.

Lemma lookup_delete_cells st cells b :
  foldr delete st cells !! b = if decide (b ∈ cells) then None else st !! b.
Proof.
  induction cells as [|a cells IH]; simpl.
  - destruct (decide (b ∈ [])) as [Hin|]; [by apply elem_of_nil in Hin|done].
  - destruct (decide (b = a)) as [->|Hne].
    + rewrite lookup_delete_eq, decide_True; [done|by left].
    + rewrite lookup_delete_ne, IH by done.
      destruct (decide (b ∈ cells)).
      * rewrite decide_True; [done|by right].
      * rewrite decide_False; [done|]. by intros [?|?]%elem_of_cons.
Qed.
End dseg_facts.

Section path_operations.
Implicit Types st : gmap addr path_mapping_t.t.
Implicit Types cells : list addr.

Lemma new_addr_spec st a :
  new_addr st = Some a →
  st !! a = None ∧ Z.of_nat (size st) + 1 < two64.
Proof.
  unfold new_addr. case_decide as Hroom; [|done]. intros [= <-].
  split; [|done]. apply not_elem_of_dom. apply is_fresh.
Qed.

Lemma dseg_singleton st before a record after :
  st !! a = Some record →
  path_mapping_t.prev record = before →
  path_mapping_t.next record = after →
  dseg st before (Some a) [a] (Some a) after.
Proof.
  intros Ha Hp Hn. simpl. split; [done|]. exists record.
  split; [done|]. split; [done|]. done.
Qed.

Lemma path_cells_not_fresh st k p cells a :
  path_cells st k p cells → st !! a = None → a ∉ cells.
Proof.
  intros (Hd & _) Ha Hin. apply dseg_cells_live in Hd.
  rewrite Forall_forall in Hd. apply Hd in Hin as [? ?]. congruence.
Qed.

Lemma path_cells_count_room st k p cells :
  path_cells st k p cells → Z.of_nat (size st) + 1 < two64 →
  wrap64 (path_t.count p + 1) = Z.of_nat (length (cells)) + 1.
Proof.
  intros (Hd & Hnd & Hc & _) Hroom. rewrite Hc.
  apply wrap64_small.
  pose proof (cells_le_size st cells Hnd (dseg_cells_live _ _ _ _ _ _ Hd)).
  lia.
Qed.

Lemma store_extends_insert2 st k a h b record record' before after :
  st !! a = None → Z.of_nat (size st) + 1 < two64 →
  st !! b = Some record →
  path_mapping_t.path_id record = k →
  path_mapping_t.handle record' = path_mapping_t.handle record →
  path_mapping_t.path_id record' = k →
  store_extends k a h st
    (<[a := path_mapping_t.mk h k before after]> (<[b := record']> st)).
Proof.
  intros Ha Hroom Hb Hk Hh Hk'.
  assert (a ≠ b) as Hab by congruence.
  split; [done|]. split; [done|]. split; [|split].
  - rewrite !dom_insert_L. apply elem_of_dom_2 in Hb. set_solver.
  - exists before, after. apply lookup_insert_eq.
  - intros c rec_c Hc.
    assert (c ≠ a) as Hca by congruence.
    rewrite lookup_insert_ne by done.
    destruct (decide (c = b)) as [->|Hcb].
    + rewrite lookup_insert_eq. exists record'.
      assert (rec_c = record) as -> by congruence.
      split; [done|]. split; [done|]. split; [congruence|]. congruence.
    + rewrite lookup_insert_ne by done. exists rec_c. done.
Qed.

Lemma store_extends_insert1 st k a h before after :
  st !! a = None → Z.of_nat (size st) + 1 < two64 →
  store_extends k a h st (<[a := path_mapping_t.mk h k before after]> st).
Proof.
  intros Ha Hroom.
  split; [done|]. split; [done|]. split; [|split].
  - by rewrite dom_insert_L.
  - exists before, after. apply lookup_insert_eq.
  - intros c rec_c Hc.
    assert (c ≠ a) as Hca by congruence.
    rewrite lookup_insert_ne by done. exists rec_c. done.
Qed.

(** [push_back] on a well-formed path. *)
Lemma push_back_cells st k p cells a h :
  path_cells st k p cells → new_addr st = Some a →
  ∃ p' st',
    push_back h p st = Some (a, p', st') ∧
    path_cells st' k p' (cells ++ [a]) ∧
    store_extends k a h st st' ∧
    path_t.name p' = path_t.name p.
Proof.
  intros Hwf Hnew.
  pose proof (new_addr_spec st a Hnew) as [Ha Hroom].
  pose proof (path_cells_not_fresh _ _ _ _ _ Hwf Ha) as Hnotin.
  pose proof (path_cells_count_room _ _ _ _ Hwf Hroom) as Hcount.
  destruct Hwf as (Hd & Hnd & Hc & Hids & Hkey).
  pose proof (dseg_final _ _ _ _ _ _ Hd) as Hfinal.
  unfold push_back. rewrite Hnew. simpl.
  destruct cells as [|c cells _] using rev_ind.
  - simpl in Hfinal. rewrite Hfinal.
    destruct Hd as [Hhead _].
    eexists _, _. split; [done|]. split; [|split; [|done]].
    + split; [|split; [|split; [|split]]]; simpl.
      * split; [done|]. eexists. rewrite lookup_insert_eq.
        split; [done|]. done.
      * apply NoDup_singleton.
      * rewrite Hcount. simpl. lia.
      * constructor; [|constructor]. eexists.
        rewrite lookup_insert_eq. split; [done|]. done.
      * done.
    + unfold path_mapping_t.create. rewrite Hkey.
      by apply store_extends_insert1.
  - rewrite last_snoc in Hfinal. simpl in Hfinal. rewrite Hfinal.
    apply dseg_app in Hd as (mf & mh & Hd1 & Hd2).
    destruct Hd2 as (-> & rec_c & Hrc & Hprev & Hnext & _).
    rewrite Hrc. simpl.
    apply NoDup_app in Hnd as (Hnd1 & Hdisj & _).
    assert (c ∉ cells) as Hc_notin.
    { intros Hin. apply (Hdisj c Hin). by left. }
    assert (a ∉ cells) as Ha_notin.
    { intros Hin. apply Hnotin. apply elem_of_app. by left. }
    assert (a ≠ c) as Hac.
    { intros ->. apply Hnotin. apply elem_of_app. right. by left. }
    apply Forall_app in Hids as [Hids1 Hids2].
    apply Forall_singleton in Hids2 as (rec_c' & Hrc' & Hkc).
    assert (rec_c' = rec_c) as -> by congruence.
    eexists _, _. split; [done|]. split; [|split; [|done]].
    + split; [|split; [|split; [|split]]]; simpl.
      * apply dseg_app. exists (Some c), (Some a). split.
        -- apply dseg_app. exists mf, (Some c). split.
           ++ eapply dseg_frame; [|done]. intros b Hb.
              rewrite !lookup_insert_ne; [done| |]; congruence.
           ++ eapply dseg_singleton.
              ** rewrite lookup_insert_ne by done. apply lookup_insert_eq.
              ** done.
              ** done.
        -- eapply dseg_singleton; [apply lookup_insert_eq|done|done].
      * apply NoDup_app. split; [|split].
        -- apply NoDup_app. split; [done|]. split; [|apply NoDup_singleton].
           intros b Hb Hb'. apply list_elem_of_singleton in Hb' as ->. done.
        -- intros b Hb Hb'. apply list_elem_of_singleton in Hb' as ->.
           by apply Hnotin.
        -- apply NoDup_singleton.
      * rewrite Hcount, !length_app. simpl. lia.
      * apply Forall_app. split; [apply Forall_app; split|].
        -- eapply Forall_impl; [apply Forall_and; split;
             [exact Hids1|apply Forall_forall; intros b Hb; exact Hb]|].
           simpl. intros b [(rec_b & Hrb & Hkb) Hb].
           exists rec_b. rewrite !lookup_insert_ne; [done| |]; congruence.
        -- constructor; [|constructor]. eexists.
           rewrite lookup_insert_ne by done. rewrite lookup_insert_eq.
           split; [done|]. done.
        -- constructor; [|constructor]. eexists.
           rewrite lookup_insert_eq. split; [done|]. done.
      * done.
    + unfold path_mapping_t.create, path_mapping_t.set_prev. simpl.
      rewrite Hkey. eapply store_extends_insert2; try done.
Qed.

Lemma store_extends_insert3 st k a h b record record' c rec_c rec_c'
    before after :
  st !! a = None → Z.of_nat (size st) + 1 < two64 →
  st !! b = Some record → st !! c = Some rec_c → b ≠ c →
  path_mapping_t.path_id record = k →
  path_mapping_t.handle record' = path_mapping_t.handle record →
  path_mapping_t.path_id record' = k →
  path_mapping_t.path_id rec_c = k →
  path_mapping_t.handle rec_c' = path_mapping_t.handle rec_c →
  path_mapping_t.path_id rec_c' = k →
  store_extends k a h st
    (<[a := path_mapping_t.mk h k before after]>
       (<[b := record']> (<[c := rec_c']> st))).
Proof.
  intros Ha Hroom Hb Hc Hbc Hk Hh Hk' Hkc Hhc Hkc'.
  assert (a ≠ b) as Hab by congruence.
  assert (a ≠ c) as Hac by congruence.
  split; [done|]. split; [done|]. split; [|split].
  - rewrite !dom_insert_L. apply elem_of_dom_2 in Hb, Hc. set_solver.
  - exists before, after. apply lookup_insert_eq.
  - intros d rec_d Hd.
    assert (d ≠ a) as Hda by congruence.
    rewrite lookup_insert_ne by done.
    destruct (decide (d = b)) as [->|Hdb].
    + rewrite lookup_insert_eq. exists record'.
      assert (rec_d = record) as -> by congruence.
      split; [done|]. split; [done|]. split; [congruence|]. congruence.
    + rewrite lookup_insert_ne by done.
      destruct (decide (d = c)) as [->|Hdc].
      * rewrite lookup_insert_eq. exists rec_c'.
        assert (rec_d = rec_c) as -> by congruence.
        split; [done|]. split; [done|]. split; [congruence|]. congruence.
      * rewrite lookup_insert_ne by done. exists rec_d. done.
Qed.

Lemma Forall_path_id_frame st st' k cells :
  Forall (λ a, ∃ record, st !! a = Some record ∧
                         path_mapping_t.path_id record = k) cells →
  (∀ b, b ∈ cells → st' !! b = st !! b) →
  Forall (λ a, ∃ record, st' !! a = Some record ∧
                         path_mapping_t.path_id record = k) cells.
Proof.
  intros Hids Hsame. apply Forall_forall. intros b Hb.
  rewrite Forall_forall in Hids. rewrite Hsame by done. by apply Hids.
Qed.

(** [insert_after] on a well-formed path, after one of its steps or at
    its head. *)
Lemma insert_after_cells st k p cells a h mapping :
  path_cells st k p cells → new_addr st = Some a →
  (∀ m, mapping = Some m → m ∈ cells) →
  ∃ p' st' cells',
    insert_after h mapping p st = Some (a, p', st') ∧
    path_cells st' k p' cells' ∧
    store_extends k a h st st' ∧
    path_t.name p' = path_t.name p ∧
    (mapping = None → cells' = a :: cells) ∧
    (∀ m l1 l2, mapping = Some m → cells = l1 ++ m :: l2 →
                cells' = l1 ++ m :: a :: l2).
Proof.
  intros Hwf Hnew Hmap.
  pose proof (new_addr_spec st a Hnew) as [Ha Hroom].
  pose proof (path_cells_not_fresh _ _ _ _ _ Hwf Ha) as Hnotin.
  pose proof (path_cells_count_room _ _ _ _ Hwf Hroom) as Hcount.
  destruct Hwf as (Hd & Hnd & Hc & Hids & Hkey).
  pose proof (dseg_final _ _ _ _ _ _ Hd) as Hfinal.
  unfold insert_after. rewrite Hnew. simpl.
  destruct mapping as [m|].
  - (* after the step [m] *)
    specialize (Hmap m eq_refl).
    apply list_elem_of_split in Hmap as (l1 & l2 & ->).
    apply dseg_app in Hd as (mf & mh & Hd1 & Hd2).
    destruct Hd2 as (-> & rec_m & Hrm & Hprev & Hd2).
    rewrite Hrm. simpl.
    apply NoDup_app in Hnd as (Hnd1 & Hdisj & Hnd2).
    apply NoDup_cons in Hnd2 as [Hm_l2 Hnd2].
    assert (m ∉ l1) as Hm_l1 by (intros Hin; apply (Hdisj m Hin); by left).
    assert (a ∉ l1) as Ha_l1
      by (intros Hin; apply Hnotin; apply elem_of_app; by left).
    assert (a ≠ m) as Ham
      by (intros ->; apply Hnotin; apply elem_of_app; right; by left).
    assert (a ∉ l2) as Ha_l2
      by (intros Hin; apply Hnotin; apply elem_of_app; right; by right).
    apply Forall_app in Hids as [Hids1 Hids2].
    apply Forall_cons in Hids2 as [(rec_m' & Hrm' & Hkm) Hids2].
    assert (rec_m' = rec_m) as -> by congruence.
    assert (∀ l1' l2', l1 ++ m :: l2 = l1' ++ m :: l2' →
                       l1' = l1 ∧ l2' = l2) as Huniq.
    { intros l1' l2' E.
      assert (NoDup (l1 ++ m :: l2)) as Hnd.
      { apply NoDup_app. split; [done|]. split; [done|].
        by apply NoDup_cons. }
      revert l1' E Hnd Hm_l1. clear. revert l2 l2'.
      induction l1 as [|x l1 IH]; intros l2 l2' l1' E Hnd Hm.
      - destruct l1' as [|y l1']; simpl in E.
        + by injection E as ->.
        + injection E as <- E. apply NoDup_cons in Hnd as [Hnot _].
          exfalso. apply Hnot. rewrite E. apply elem_of_app. right. by left.
      - destruct l1' as [|y l1']; simpl in E.
        + injection E as -> E. exfalso. apply Hm. by left.
        + injection E as <- E. apply NoDup_cons in Hnd as [_ Hnd].
          destruct (IH l2 l2' l1' E Hnd) as [-> ->].
          * intros Hin. apply Hm. by right.
          * done. }
    destruct l2 as [|n l2].
    + (* [m] is the tail *)
      destruct Hd2 as [Hnext Htail]. rewrite Hnext. simpl.
      rewrite Hrm. simpl. rewrite decide_True by done.
      eexists _, _, (l1 ++ [m; a]).
      split; [done|]. split; [|split; [|split; [done|split; [done|]]]].
      * split; [|split; [|split; [|split]]]; simpl.
        -- apply dseg_app. exists mf, (Some m). split.
           ++ eapply dseg_frame; [|done]. intros b Hb.
              rewrite !lookup_insert_ne; [done| |]; congruence.
           ++ simpl. split; [done|]. eexists.
              rewrite lookup_insert_ne by done. rewrite lookup_insert_eq.
              split; [done|]. split; [done|]. simpl. split; [done|].
              eexists. rewrite lookup_insert_eq. done.
        -- apply NoDup_app. split; [done|]. split.
           ++ intros b Hb [->|[->|Hn]%elem_of_cons]%elem_of_cons; try done.
              by apply elem_of_nil in Hn.
           ++ apply NoDup_cons. split; [|apply NoDup_singleton].
              intros ->%list_elem_of_singleton. done.
        -- rewrite Hcount, !length_app. simpl. lia.
        -- apply Forall_app. split.
           ++ apply (Forall_path_id_frame st); [done|]. intros b Hb.
              rewrite !lookup_insert_ne; [done| |]; congruence.
           ++ constructor; [|constructor; [|constructor]].
              ** eexists. rewrite lookup_insert_ne by done.
                 rewrite lookup_insert_eq. done.
              ** eexists. rewrite lookup_insert_eq. done.
        -- done.
      * rewrite Hkey. eapply store_extends_insert2; try done.
      * intros m' l1' l2' [= <-] E. apply Huniq in E as [-> ->]. done.
    + (* [m] is followed by [n] *)
      destruct Hd2 as (Hnext & rec_n & Hrn & Hprev_n & Hd2).
      rewrite Hnext. simpl. rewrite Hrn. simpl.
      apply NoDup_cons in Hnd2 as [Hn_l2 Hnd2].
      assert (m ≠ n) as Hmn by (intros ->; apply Hm_l2; by left).
      assert (n ∉ l1) as Hn_l1
        by (intros Hin; apply (Hdisj n Hin); right; by left).
      assert (a ≠ n) as Han by (intros ->; apply Ha_l2; by left).
      assert (m ∉ l2) as Hm_l2' by (intros Hin; apply Hm_l2; by right).
      assert (a ∉ l2) as Ha_l2' by (intros Hin; apply Ha_l2; by right).
      rewrite lookup_insert_ne by done. rewrite Hrm. simpl.
      apply Forall_cons in Hids2 as [(rec_n' & Hrn' & Hkn) Hids2].
      assert (rec_n' = rec_n) as -> by congruence.
      assert (Some m ≠ path_t.tail p) as Htail_ne.
      { rewrite Hfinal. rewrite last_app.
        rewrite last_cons_cons.
        destruct (last (n :: l2)) as [z|] eqn:Hz.
        - simpl. intros [= ->]. apply last_Some in Hz as (l' & Hz).
          apply Hm_l2. rewrite Hz. apply elem_of_app. right. by left.
        - by apply last_None in Hz. }
      rewrite decide_False by done.
      eexists _, _, (l1 ++ m :: a :: n :: l2).
      split; [done|]. split; [|split; [|split; [done|split; [done|]]]].
      * split; [|split; [|split; [|split]]]; simpl.
        -- apply dseg_app. exists mf, (Some m). split.
           ++ eapply dseg_frame; [|done]. intros b Hb.
              rewrite !lookup_insert_ne; [done| | |]; congruence.
           ++ simpl. split; [done|]. eexists.
              rewrite lookup_insert_ne by done. rewrite lookup_insert_eq.
              split; [done|]. split; [done|]. simpl. split; [done|].
              eexists. rewrite lookup_insert_eq.
              split; [done|]. split; [done|]. simpl. split; [done|].
              eexists. rewrite !lookup_insert_ne by done.
              rewrite lookup_insert_eq.
              split; [done|]. split; [done|]. simpl.
              eapply dseg_frame; [|done]. intros b Hb.
              rewrite !lookup_insert_ne; [done| | |]; congruence.
        -- apply NoDup_app. split; [done|]. split.
           ++ intros b Hb Hb'. apply elem_of_cons in Hb' as [->|Hb']; [done|].
              apply elem_of_cons in Hb' as [->|Hb']; [done|].
              apply (Hdisj b Hb). by right.
           ++ apply NoDup_cons. split.
              { intros [->|[->|Hin]%elem_of_cons]%elem_of_cons; done. }
              apply NoDup_cons. split.
              { intros [->|Hin]%elem_of_cons; done. }
              by apply NoDup_cons.
        -- rewrite Hcount, !length_app. simpl. lia.
        -- apply Forall_app. split.
           ++ apply (Forall_path_id_frame st); [done|]. intros b Hb.
              rewrite !lookup_insert_ne; [done| | |]; congruence.
           ++ constructor; [|constructor; [|constructor]].
              ** eexists. rewrite lookup_insert_ne by done.
                 rewrite lookup_insert_eq. done.
              ** eexists. rewrite lookup_insert_eq. done.
              ** eexists. rewrite !lookup_insert_ne by done.
                 rewrite lookup_insert_eq. done.
              ** apply (Forall_path_id_frame st); [done|]. intros b Hb.
                 rewrite !lookup_insert_ne; [done| | |]; congruence.
        -- done.
      * rewrite Hkey.
        eapply (store_extends_insert3 st k a h m rec_m _ n rec_n);
          try done.
      * intros m' l1' l2' [= <-] E. apply Huniq in E as [-> ->]. done.
  - (* at the head *)
    destruct cells as [|c cells].
    + destruct Hd as [Hhead Htail]. rewrite Hhead.
      eexists _, _, [a].
      split; [done|]. split; [|split; [|split; [done|split; [done|]]]].
      * split; [|split; [|split; [|split]]]; simpl.
        -- split; [done|]. eexists. rewrite lookup_insert_eq.
           split; [done|]. done.
        -- apply NoDup_singleton.
        -- rewrite Hcount. simpl. lia.
        -- constructor; [|constructor]. eexists.
           rewrite lookup_insert_eq. done.
        -- done.
      * unfold path_mapping_t.create. rewrite Hkey.
        by apply store_extends_insert1.
      * intros m l1 l2 [=].
    + destruct Hd as (Hhead & rec_c & Hrc & Hprev & Hd).
      rewrite Hhead, Hrc. simpl.
      apply NoDup_cons in Hnd as [Hc_cells Hnd].
      assert (a ≠ c) as Hac by (intros ->; apply Hnotin; by left).
      assert (a ∉ cells) as Ha_cells
        by (intros Hin; apply Hnotin; by right).
      apply Forall_cons in Hids as [(rec_c' & Hrc' & Hkc) Hids].
      assert (rec_c' = rec_c) as -> by congruence.
      eexists _, _, (a :: c :: cells).
      split; [done|]. split; [|split; [|split; [done|split; [done|]]]].
      * split; [|split; [|split; [|split]]]; simpl.
        -- split; [done|]. eexists. rewrite lookup_insert_eq.
           split; [done|]. split; [done|]. simpl. split; [done|].
           eexists. rewrite lookup_insert_ne by done.
           rewrite lookup_insert_eq.
           split; [done|]. split; [done|]. simpl.
           eapply dseg_frame; [|done]. intros b Hb.
           rewrite !lookup_insert_ne; [done| |]; congruence.
        -- apply NoDup_cons. split; [|by apply NoDup_cons].
           intros [->|Hin]%elem_of_cons; done.
        -- rewrite Hcount. simpl. lia.
        -- constructor; [|constructor].
           ++ eexists. rewrite lookup_insert_eq. done.
           ++ eexists. rewrite lookup_insert_ne by done.
              rewrite lookup_insert_eq. done.
           ++ apply (Forall_path_id_frame st); [done|]. intros b Hb.
              rewrite !lookup_insert_ne; [done| |]; congruence.
        -- done.
      * unfold path_mapping_t.create, path_mapping_t.set_next. simpl.
        rewrite Hkey. eapply store_extends_insert2; try done.
      * intros m l1 l2 [=].
Qed.
End path_operations.

(** ** The invariant of the path store *)

Section store_invariant.
Implicit Types st : gmap addr path_mapping_t.t.
Implicit Types ps : gmap Z path_t.t.
Implicit Types cells : list addr.

Lemma store_wf_empty : store_wf ∅ ∅.
Proof.
  split.
  - rewrite map_size_empty. unfold two64. lia.
  - intros k p Hk. by rewrite lookup_empty in Hk.
  - intros a record Ha. by rewrite lookup_empty in Ha.
Qed.

Lemma store_extends_size k a h st st' :
  store_extends k a h st st' → size st' = S (size st).
Proof.
  intros (Ha & _ & Hdom & _).
  rewrite <- !size_dom, Hdom, size_union, size_singleton; [done|].
  apply not_elem_of_dom in Ha. set_solver.
Qed.

Lemma store_extends_other k a h st st' b record :
  store_extends k a h st st' → st !! b = Some record →
  path_mapping_t.path_id record ≠ k → st' !! b = Some record.
Proof.
  intros (_ & _ & _ & _ & Hold) Hb Hne.
  destruct (Hold b record Hb) as (record' & Hb' & _ & _ & Hsame).
  by rewrite Hb', Hsame.
Qed.

(** A path other than [k] does not notice an allocation for [k]. *)
Lemma path_cells_other k a h st st' j q cells :
  store_extends k a h st st' → j ≠ k →
  path_cells st j q cells → path_cells st' j q cells.
Proof.
  intros Hext Hjk (Hd & Hnd & Hc & Hids & Hkey).
  assert (∀ b, b ∈ cells → st' !! b = st !! b) as Hsame.
  { intros b Hb. rewrite Forall_forall in Hids.
    destruct (Hids b Hb) as (record & Hrb & Hkb).
    rewrite Hrb. eapply store_extends_other; [done|done|congruence]. }
  split; [by eapply dseg_frame|]. split; [done|]. split; [done|].
  split; [|done]. by apply (Forall_path_id_frame st).
Qed.

(** One allocation on a path of a well-formed store. *)
Lemma store_wf_extend ps st k p cells a h st' p' cells' :
  store_wf ps st → ps !! k = Some p →
  path_cells st k p cells → path_cells st' k p' cells' →
  (∀ b, b ∈ cells → b ∈ cells') → a ∈ cells' →
  store_extends k a h st st' →
  store_wf (<[k := p']> ps) st'.
Proof.
  intros [Hroom Hpaths Hstore] Hk Hcells Hcells' Hsub Ha Hext.
  split.
  - rewrite (store_extends_size _ _ _ _ _ Hext).
    destruct Hext as (_ & Hr & _). lia.
  - intros j q Hj. destruct (decide (j = k)) as [->|Hjk].
    + rewrite lookup_insert_eq in Hj. injection Hj as <-. eauto.
    + rewrite lookup_insert_ne in Hj by done.
      destruct (Hpaths j q Hj) as (cs & Hcs). exists cs.
      by eapply path_cells_other.
  - intros b record' Hb.
    destruct (decide (b = a)) as [->|Hba].
    + destruct Hext as (_ & _ & _ & (before & after & Ha') & _).
      assert (record' = path_mapping_t.mk h k before after) as ->
        by congruence.
      simpl. exists p'. rewrite lookup_insert_eq. split; [done|].
      by rewrite (path_cells_steps _ _ _ _ Hcells').
    + assert (is_Some (st !! b)) as [record Hrb].
      { destruct Hext as (_ & _ & Hdom & _).
        apply elem_of_dom. apply elem_of_dom_2 in Hb.
        rewrite Hdom in Hb. set_solver. }
      pose proof Hext as (_ & _ & _ & _ & Hold).
      destruct (Hold b record Hrb) as (record'' & Hb'' & _ & Hpid & _).
      assert (record'' = record') as -> by congruence.
      rewrite Hpid.
      destruct (Hstore b record Hrb) as (q & Hq & Hin).
      destruct (decide (path_mapping_t.path_id record = k)) as [Hk'|Hk'].
      * rewrite Hk' in *. exists p'. rewrite lookup_insert_eq.
        split; [done|].
        assert (q = p) as -> by congruence.
        rewrite (path_cells_steps _ _ _ _ Hcells) in Hin.
        rewrite (path_cells_steps _ _ _ _ Hcells'). by apply Hsub.
      * exists q. rewrite lookup_insert_ne by done. split; [done|].
        destruct (Hpaths _ q Hq) as (cs & Hcs).
        rewrite (path_cells_steps _ _ _ _ Hcs) in Hin.
        rewrite (path_cells_steps _ _ _ _
                   (path_cells_other _ _ _ _ _ _ _ _ Hext Hk' Hcs)).
        done.
Qed.

Lemma size_foldr_delete st cells :
  (size (foldr delete st cells) ≤ size st)%nat.
Proof.
  induction cells as [|a cells IH]; simpl; [done|].
  etrans; [|exact IH].
  destruct (foldr delete st cells !! a) eqn:E.
  - rewrite map_size_delete_Some by eauto. lia.
  - by rewrite delete_id.
Qed.

Lemma destroy_path_t_cells st k p cells :
  path_cells st k p cells → destroy_path_t p st = foldr delete st cells.
Proof.
  intros (Hd & Hnd & _). unfold destroy_path_t.
  eapply free_list_dseg; [done|done|].
  apply cells_le_size; [done|]. by eapply dseg_cells_live.
Qed.

(** A path of a well-formed store survives when cells that are not its
    own are deleted. *)
Lemma path_cells_delete st j q cells gone :
  path_cells st j q cells → (∀ b, b ∈ cells → b ∉ gone) →
  path_cells (foldr delete st gone) j q cells.
Proof.
  intros (Hd & Hnd & Hc & Hids & Hkey) Hdisj.
  assert (∀ b, b ∈ cells → foldr delete st gone !! b = st !! b) as Hsame.
  { intros b Hb. rewrite lookup_delete_cells.
    rewrite decide_False; [done|]. by apply Hdisj. }
  split; [by eapply dseg_frame|]. split; [done|]. split; [done|].
  split; [|done]. by apply (Forall_path_id_frame st).
Qed.

(** Destroying a path: its record leaves the table and its cells leave
    the free store. *)
Lemma store_wf_drop ps st k old :
  store_wf ps st → ps !! k = Some old →
  store_wf (delete k ps) (destroy_path_t old st).
Proof.
  intros [Hroom Hpaths Hstore] Hk.
  destruct (Hpaths k old Hk) as (gone & Hgone).
  rewrite (destroy_path_t_cells _ _ _ _ Hgone).
  assert (∀ j q cs, ps !! j = Some q → j ≠ k → path_cells st j q cs →
                    ∀ b, b ∈ cs → b ∉ gone) as Hdisj.
  { intros j q cs Hj Hjk (_ & _ & _ & Hids & _) b Hb Hb'.
    destruct Hgone as (_ & _ & _ & Hids' & _).
    rewrite Forall_forall in Hids, Hids'.
    destruct (Hids b Hb) as (r1 & Hr1 & Hk1).
    destruct (Hids' b Hb') as (r2 & Hr2 & Hk2). congruence. }
  split.
  - pose proof (size_foldr_delete st gone). lia.
  - intros j q Hj. apply lookup_delete_Some in Hj as [Hjk Hj].
    destruct (Hpaths j q Hj) as (cs & Hcs). exists cs.
    apply path_cells_delete; [done|]. eauto.
  - intros b record Hb. rewrite lookup_delete_cells in Hb.
    destruct (decide (b ∈ gone)) as [|Hnot]; [done|].
    destruct (Hstore b record Hb) as (q & Hq & Hin).
    destruct (decide (path_mapping_t.path_id record = k)) as [Hk'|Hk'].
    + rewrite Hk' in Hq. assert (q = old) as -> by congruence.
      by rewrite (path_cells_steps _ _ _ _ Hgone) in Hin.
    + exists q. rewrite lookup_delete_ne by done. split; [done|].
      destruct (Hpaths _ q Hq) as (cs & Hcs).
      rewrite (path_cells_steps _ _ _ _ Hcs) in Hin.
      rewrite (path_cells_steps _ _ _ _
                 (path_cells_delete _ _ _ _ gone Hcs
                    (Hdisj _ _ _ Hq Hk' Hcs))).
      done.
Qed.

Lemma path_cells_nil st k name :
  path_cells st k (path_t.mk None None k 0 name) [].
Proof.
  split; [done|]. split; [constructor|]. split; [done|].
  split; [constructor|done].
Qed.

(** Registering an empty path under a key that no step record names. *)
Lemma store_wf_add_empty ps st k name :
  store_wf ps st → ps !! k = None →
  store_wf (<[k := path_t.mk None None k 0 name]> ps) st.
Proof.
  intros [Hroom Hpaths Hstore] Hk. split; [done| |].
  - intros j q Hj. destruct (decide (j = k)) as [->|Hjk].
    + rewrite lookup_insert_eq in Hj. injection Hj as <-.
      exists []. apply path_cells_nil.
    + rewrite lookup_insert_ne in Hj by done. eauto.
  - intros b record Hb. destruct (Hstore b record Hb) as (q & Hq & Hin).
    exists q. split; [|done]. rewrite lookup_insert_ne; [done|].
    intros E. rewrite E in Hk. congruence.
Qed.
End store_invariant.

(** ** Path operations keep the store well formed *)

Lemma paths_wf_empty_graph : paths_wf empty_graph.
Proof. apply store_wf_empty. Qed.

(** The stored count of a path is the number of records met by following
    [next] from its head, and that walk ends at its tail. *)
Lemma count_is_walk_length (g : HashGraph) (k : Z) (p : path_t.t) :
  paths_wf g → paths g !! k = Some p →
  get_occurrence_count k g = Some (Z.of_nat (length (path_steps k g))) ∧
  last (path_steps k g) = path_t.tail p ∧
  dseg (store g) None (path_t.head p) (path_steps k g) (path_t.tail p) None.
Proof.
  intros Hwf Hk. destruct (wf_paths _ _ Hwf k p Hk) as (cells & Hcells).
  unfold get_occurrence_count, path_steps, path_at. rewrite Hk. simpl.
  rewrite (path_cells_steps _ _ _ _ Hcells).
  destruct Hcells as (Hd & _ & Hc & _).
  split; [by rewrite Hc|]. split; [|done].
  apply dseg_final in Hd. rewrite Hd. by destruct (last cells).
Qed.

Lemma create_path_handle_wf (name : string) (g : HashGraph) :
  paths_wf g → paths_wf (create_path_handle name g).2.
Proof.
  intros Hwf. unfold paths_wf, create_path_handle. simpl.
  unfold path_t.create.
  destruct (paths g !! next_path_id g) as [old|] eqn:Hold.
  - rewrite <- (insert_delete_eq (paths g)).
    apply store_wf_add_empty; [|apply lookup_delete_eq].
    by apply store_wf_drop.
  - by apply store_wf_add_empty.
Qed.

Lemma append_occurrence_wf (k : Z) (h : handle_t) (g : HashGraph) :
  paths_wf g → is_Some (paths g !! k) →
  (Z.of_nat (size (store g)) + 1 < two64 →
   is_Some (append_occurrence k h g)) ∧
  (∀ r g', append_occurrence k h g = Some (r, g') → paths_wf g').
Proof.
  intros Hwf [p Hk].
  destruct (wf_paths _ _ Hwf k p Hk) as (cells & Hcells).
  unfold append_occurrence, path_at. rewrite Hk. simpl.
  assert (∀ a, new_addr (store g) = Some a →
            ∃ p' st', push_back h p (store g) = Some (a, p', st') ∧
                      store_wf (<[k := p']> (paths g)) st') as Hstep.
  { intros a Ha.
    destruct (push_back_cells _ _ _ _ a h Hcells Ha)
      as (p' & st' & Hpush & Hcells' & Hext & _).
    exists p', st'. split; [done|].
    eapply store_wf_extend; try done.
    - intros b Hb. apply elem_of_app. by left.
    - apply elem_of_app. right. by left. }
  split.
  - intros Hroom.
    assert (new_addr (store g) = Some (fresh (dom (store g)))) as Ha
      by (unfold new_addr; by rewrite decide_True).
    destruct (Hstep _ Ha) as (p' & st' & -> & _). simpl. eauto.
  - intros r g' Happ.
    destruct (push_back h p (store g)) as [[[a p'] st']|] eqn:Hpush;
      [|done].
    simpl in Happ. injection Happ as <- <-.
    assert (new_addr (store g) = Some a) as Ha.
    { unfold push_back in Hpush.
      destruct (new_addr (store g)) as [a'|]; [|done]. simpl in Hpush.
      destruct (path_t.tail p); simpl in Hpush.
      - destruct (store g !! a0); simpl in Hpush; [|done]. congruence.
      - congruence. }
    destruct (Hstep _ Ha) as (p'' & st'' & Hpush' & Hwf').
    rewrite ?Hpush in Hpush'. injection Hpush' as <- <-. exact Hwf'.
Qed.

Lemma destroy_path_wf (k : Z) (g : HashGraph) :
  paths_wf g →
  (is_Some (paths g !! k) → is_Some (destroy_path k g)) ∧
  (∀ g', destroy_path k g = Some g' → paths_wf g').
Proof.
  intros Hwf. unfold destroy_path. split.
  - intros [p ->]. simpl. eauto.
  - intros g'. destruct (paths g !! k) as [p|] eqn:Hk; [|done]. simpl.
    intros [= <-]. unfold paths_wf. simpl. by apply store_wf_drop.
Qed.

Lemma insert_after_new_addr h mapping p st a p' st' :
  insert_after h mapping p st = Some (a, p', st') → new_addr st = Some a.
Proof.
  unfold insert_after. destruct (new_addr st) as [a'|]; [|done]. simpl.
  destruct mapping as [m|].
  - destruct (st !! m) as [rm|]; [|done]. simpl.
    destruct (path_mapping_t.next rm) as [n|]; simpl.
    + destruct (st !! n); [|done]. simpl.
      destruct (_ !! m); [|done]. simpl. congruence.
    + destruct (st !! m); [|done]. simpl. congruence.
  - destruct (path_t.head p) as [hd|]; simpl.
    + destruct (st !! hd); [|done]. simpl. congruence.
    + congruence.
Qed.

(** The inner loops of the last part of [divide_handle]. *)
Lemma insert_steps_wf (busy : Z) (pieces : list (Z * handle_t))
    (mapping : option addr) (k : Z) (g g' : HashGraph) (p : path_t.t) :
  paths_wf g → paths g !! k = Some p →
  (∀ m, mapping = Some m → m ∈ steps_from (store g) (path_t.head p)) →
  insert_steps busy pieces mapping k g = Some g' →
  paths_wf g'.
Proof.
  revert mapping g p.
  induction pieces as [|[id h] pieces IH]; intros mapping g p Hwf Hk Hmap;
    simpl.
  - by intros [= <-].
  - unfold path_at. rewrite Hk. simpl.
    destruct (insert_after h mapping p (store g)) as [[[a p'] st']|] eqn:Hins;
      [|done].
    simpl. case_decide; [done|].
    destruct (wf_paths _ _ Hwf k p Hk) as (cells & Hcells).
    rewrite (path_cells_steps _ _ _ _ Hcells) in Hmap.
    pose proof (insert_after_new_addr _ _ _ _ _ _ _ Hins) as Ha.
    destruct (insert_after_cells _ _ _ _ a h mapping Hcells Ha Hmap)
      as (p'' & st'' & cells' & Hins' & Hcells' & Hext & _ & Hnone & Hsome).
    rewrite ?Hins in Hins'. injection Hins' as <- <-.
    assert (a ∈ cells' ∧ ∀ b, b ∈ cells → b ∈ cells') as [Ha_in Hsub].
    { destruct mapping as [m|].
      - pose proof (Hmap m eq_refl) as Hm.
        apply list_elem_of_split in Hm as (l1 & l2 & E).
        rewrite (Hsome m l1 l2 eq_refl E), E. split.
        + apply elem_of_app. right. right. by left.
        + intros b [Hb|[->|Hb]%elem_of_cons]%elem_of_app;
            apply elem_of_app; [by left|right; by left|].
          right. right. by right.
      - rewrite (Hnone eq_refl). split; [by left|]. intros b Hb. by right. }
    apply (IH _ _ p'); simpl.
    + eapply store_wf_extend; done.
    + apply lookup_insert_eq.
    + intros m [= <-]. by rewrite (path_cells_steps _ _ _ _ Hcells').
Qed.

Lemma rehome_step_wf (busy : Z) (return_val : list handle_t)
    (g g' : HashGraph) (mapping : addr) :
  paths_wf g → rehome_step busy return_val g mapping = Some g' →
  paths_wf g'.
Proof.
  intros Hwf. unfold rehome_step.
  destruct (store g !! mapping) as [record|] eqn:Hrec; [|done]. simpl.
  destruct (wf_store _ _ Hwf mapping record Hrec) as (p & Hp & Hin).
  destruct (get_is_reverse (path_mapping_t.handle record)).
  - apply (insert_steps_wf _ _ _ _ _ _ p); [done|done|].
    intros m Hm.
    destruct (wf_paths _ _ Hwf _ p Hp) as (cells & Hcells).
    rewrite (path_cells_steps _ _ _ _ Hcells) in *.
    destruct Hcells as (Hd & _).
    destruct (dseg_prev_inside _ _ _ _ _ _ _ _ Hd Hin Hrec)
      as [Hnone|(q & Hq & Hqin)]; congruence.
  - apply (insert_steps_wf _ _ _ _ _ _ p); [done|done|].
    by intros m [= <-].
Qed.

Lemma rehome_steps_wf (busy : Z) (return_val : list handle_t)
    (bucket : list addr) (g g' : HashGraph) :
  paths_wf g → rehome_steps busy return_val bucket g = Some g' →
  paths_wf g'.
Proof.
  revert g. induction bucket as [|mapping bucket IH]; intros g Hwf; simpl.
  - by intros [= <-].
  - destruct (rehome_step busy return_val g mapping) as [g1|] eqn:Hstep;
      [|done].
    simpl. apply IH. by eapply rehome_step_wf.
Qed.

Lemma divide_sequence_paths (id node_length : Z) (forward_offsets : list Z)
    (g g' : HashGraph) (acc return_val : list handle_t) :
  divide_sequence id node_length forward_offsets g acc
  = Some (return_val, g') →
  paths g' = paths g ∧ store g' = store g ∧ occurrences g' = occurrences g.
Proof.
  revert g acc.
  induction forward_offsets as [|off rest IH]; intros g acc; simpl.
  - by intros [= <- <-].
  - destruct (substr _ _ _) as [piece|]; [|done]. simpl.
    intros Hrec. apply IH in Hrec as (-> & -> & ->). done.
Qed.

Lemma divide_handle_wf (h : handle_t) (offsets : list Z)
    (g g' : HashGraph) (parts : list handle_t) :
  paths_wf g → divide_handle h offsets g = Some (parts, g') →
  paths_wf g'.
Proof.
  intros Hwf. unfold divide_handle.
  destruct (get_length h g) as [node_length|]; [|done]. simpl.
  case_decide; [by intros [= _ <-]|].
  destruct (divide_sequence _ _ _ _ _) as [[return_val g1]|] eqn:Hseq;
    [|done].
  simpl. destruct (substr _ _ _) as [kept|]; [|done]. simpl.
  apply divide_sequence_paths in Hseq as (Hps & Hst & Hoc).
  match goal with
  | |- context [set_graph ?gr g1] => set (g5 := set_graph gr g1)
  end.
  assert (paths_wf g5) as Hwf5.
  { unfold paths_wf, g5. simpl. by rewrite Hps, Hst. }
  destruct (occurrences g1 !! get_id h) as [bucket|].
  - destruct (rehome_steps (get_id h) return_val bucket g5) as [g6|] eqn:Hre;
      simpl; [|done].
    intros [= _ <-]. by eapply rehome_steps_wf.
  - simpl. by intros [= _ <-].
Qed.

(** ** Loading a graph keeps the store well formed *)

Lemma push_back_frame h p st a p' st' b :
  push_back h p st = Some (a, p', st') →
  b ≠ a → Some b ≠ path_t.tail p → st' !! b = st !! b.
Proof.
  unfold push_back. destruct (new_addr st) as [a'|]; [|done]. simpl.
  destruct (path_t.tail p) as [tl|]; simpl.
  - destruct (st !! tl); [|done]. simpl. intros [= <- _ <-] Hba Hbt.
    rewrite !lookup_insert_ne; [done|congruence|done].
  - intros [= <- _ <-] Hba _. by rewrite lookup_insert_ne.
Qed.

Lemma push_back_new_addr h p st a p' st' :
  push_back h p st = Some (a, p', st') → new_addr st = Some a.
Proof.
  unfold push_back. destruct (new_addr st) as [a'|]; [|done]. simpl.
  destruct (path_t.tail p) as [tl|]; simpl.
  - destruct (st !! tl); [|done]. simpl. congruence.
  - congruence.
Qed.

Lemma handles_of_app st l1 l2 :
  handles_of st (l1 ++ l2) = handles_of st l1 ++ handles_of st l2.
Proof. unfold handles_of. apply omap_app. Qed.

Lemma handles_of_cons st a record l :
  st !! a = Some record →
  handles_of st (a :: l) = path_mapping_t.handle record :: handles_of st l.
Proof. intros Ha. unfold handles_of. simpl. by rewrite Ha. Qed.

Lemma handles_of_frame st st' cells :
  (∀ b record, b ∈ cells → st !! b = Some record →
     ∃ record', st' !! b = Some record' ∧
       path_mapping_t.handle record' = path_mapping_t.handle record) →
  Forall (λ b, is_Some (st !! b)) cells →
  handles_of st' cells = handles_of st cells.
Proof.
  intros Hsame Hlive.
  induction cells as [|b cells IH]; [done|].
  apply Forall_cons in Hlive as [[record Hb] Hlive].
  destruct (Hsame b record) as (record' & Hb' & Hh); [by left|done|].
  rewrite (handles_of_cons _ _ _ _ Hb), (handles_of_cons _ _ _ _ Hb'), Hh.
  f_equal. apply IH; [|done]. intros c rc Hc. apply Hsame. by right.
Qed.

(** The loop of [push_back] calls that rebuilds the list of a path: it
    appends one new record per handle and touches no record outside the
    list. *)
Lemma push_back_all_cells (hs : list handle_t) (p p' : path_t.t)
    (st st' : gmap addr path_mapping_t.t) (k : Z) (cells : list addr) :
  path_cells st k p cells → Z.of_nat (size st) < two64 →
  push_back_all hs p st = Some (p', st') →
  ∃ new,
    path_cells st' k p' (cells ++ new) ∧
    length new = length hs ∧
    handles_of st' new = hs ∧
    (∀ b, b ∈ new → st !! b = None) ∧
    (∀ b, b ∉ cells → b ∉ new → st' !! b = st !! b) ∧
    (∀ b record, st !! b = Some record →
       ∃ record', st' !! b = Some record' ∧
         path_mapping_t.handle record' = path_mapping_t.handle record) ∧
    dom st' = dom st ∪ list_to_set new ∧
    Z.of_nat (size st') < two64 ∧
    path_t.name p' = path_t.name p.
Proof.
  revert p st cells.
  induction hs as [|h hs IH]; intros p st cells Hcells Hroom; simpl.
  - intros [= <- <-]. exists []. rewrite app_nil_r.
    split; [done|]. split; [done|]. split; [done|].
    split; [by intros b Hb%elem_of_nil|]. split; [done|].
    split; [eauto|]. split; [set_solver|]. done.
  - destruct (push_back h p st) as [[[a p1] st1]|] eqn:Hpush; [|done].
    simpl. intros Hrest.
    pose proof (push_back_new_addr _ _ _ _ _ _ Hpush) as Ha.
    destruct (push_back_cells _ _ _ _ a h Hcells Ha)
      as (p1' & st1' & Hpush' & Hcells1 & Hext & Hname).
    rewrite ?Hpush in Hpush'. injection Hpush' as <- <-.
    assert (Z.of_nat (size st1) < two64) as Hroom1.
    { rewrite (store_extends_size _ _ _ _ _ Hext).
      destruct Hext as (_ & Hr & _). lia. }
    destruct (IH _ _ _ Hcells1 Hroom1 Hrest)
      as (new & Hcells' & Hlen & Hhs & Hfresh & Hframe & Hold & Hdom
          & Hroom' & Hname').
    pose proof Hext as (Hnone & _ & Hdom1 & (bf & af & Ha1) & Hold1).
    assert (a ∉ new) as Ha_new.
    { intros Hin. apply Hfresh in Hin. congruence. }
    exists (a :: new).
    replace (cells ++ a :: new) with ((cells ++ [a]) ++ new)
      by (by rewrite <- app_assoc).
    split; [done|]. split; [simpl; by rewrite Hlen|].
    split; [|split; [|split; [|split; [|split; [|split]]]]].
    + destruct (Hold a _ Ha1) as (ra & Hra & Hha).
      rewrite (handles_of_cons _ _ _ _ Hra), Hha, Hhs. done.
    + intros b [->|Hb]%elem_of_cons; [done|].
      apply Hfresh in Hb.
      destruct (st !! b) as [rb|] eqn:Hrb; [|done].
      destruct (Hold1 b rb Hrb) as (? & ? & _). congruence.
    + intros b Hb1 Hb2.
      rewrite Hframe.
      * eapply push_back_frame; [done| |].
        -- intros ->. apply Hb2. by left.
        -- destruct Hcells as (Hd & _). apply dseg_final in Hd.
           rewrite Hd. destruct (last cells) as [z|] eqn:Hz; [|done].
           simpl. intros [= ->]. apply Hb1.
           apply last_Some in Hz as (l' & ->). apply elem_of_app.
           right. by left.
      * intros [?|Hb3%list_elem_of_singleton]%elem_of_app; [done|].
        subst b. apply Hb2. by left.
      * intros Hin. apply Hb2. by right.
    + intros b record Hb.
      destruct (Hold1 b record Hb) as (r1 & Hr1 & Hh1 & _).
      destruct (Hold b r1 Hr1) as (r2 & Hr2 & Hh2).
      exists r2. split; [done|]. congruence.
    + rewrite Hdom, Hdom1. set_solver.
    + done.
    + congruence.
Qed.

Lemma size_insert_le {A} (m : gmap addr A) (a : addr) (x : A) :
  (size (<[a := x]> m) ≤ S (size m))%nat.
Proof.
  destruct (m !! a) eqn:E.
  - rewrite map_size_insert_Some by eauto. lia.
  - rewrite map_size_insert_None by done. lia.
Qed.

(** Enough room in the address space lets the loop run to its end. *)
Lemma push_back_all_runs (hs : list handle_t) (p : path_t.t)
    (st : gmap addr path_mapping_t.t) (k : Z) (cells : list addr) :
  path_cells st k p cells →
  Z.of_nat (size st) + Z.of_nat (length hs) < two64 →
  is_Some (push_back_all hs p st).
Proof.
  revert p st cells.
  induction hs as [|h hs IH]; intros p st cells Hcells Hroom; simpl;
    [eauto|].
  assert (new_addr st = Some (fresh (dom st))) as Ha.
  { unfold new_addr. rewrite decide_True; [done|]. simpl in Hroom. lia. }
  destruct (push_back_cells _ _ _ _ _ h Hcells Ha)
    as (p1 & st1 & Hpush & Hcells1 & Hext & _).
  rewrite Hpush. simpl. eapply IH; [done|].
  rewrite (store_extends_size _ _ _ _ _ Hext). simpl in Hroom. lia.
Qed.

(** Moving a freshly built list into its slot of the path table. *)
Lemma store_wf_assign (ps : gmap Z path_t.t)
    (st st1 : gmap addr path_mapping_t.t) (k : Z) (p' : path_t.t)
    (new : list addr) :
  store_wf ps st → path_cells st1 k p' new →
  (∀ b, b ∈ new → st !! b = None) →
  (∀ b, b ∉ new → st1 !! b = st !! b) →
  Z.of_nat (size st1) < two64 →
  store_wf (<[k := p']> ps)
           (match ps !! k with
            | Some old => destroy_path_t old st1
            | None => st1
            end).
Proof.
  intros [Hroom Hpaths Hstore] Hnew Hfresh Hframe Hroom1.
  assert (∀ j q cs, ps !! j = Some q → path_cells st j q cs →
                    path_cells st1 j q cs ∧ ∀ b, b ∈ cs → b ∉ new) as Hkeep.
  { intros j q cs Hj Hcs.
    assert (∀ b, b ∈ cs → b ∉ new) as Hdisj.
    { intros b Hb Hb'. apply Hfresh in Hb'.
      destruct Hcs as (Hd & _). apply dseg_cells_live in Hd.
      rewrite Forall_forall in Hd. destruct (Hd b Hb). congruence. }
    split; [|done].
    destruct Hcs as (Hd & Hnd & Hc & Hids & Hkey).
    assert (∀ b, b ∈ cs → st1 !! b = st !! b) as Hsame
      by (intros b Hb; apply Hframe; by apply Hdisj).
    split; [by eapply dseg_frame|]. split; [done|]. split; [done|].
    split; [|done]. by apply (Forall_path_id_frame st). }
  destruct (ps !! k) as [old|] eqn:Hk.
  - destruct (Hpaths k old Hk) as (gone & Hgone).
    destruct (Hkeep k old gone Hk Hgone) as [Hgone1 Hgone_new].
    rewrite (destroy_path_t_cells _ _ _ _ Hgone1).
    split.
    + pose proof (size_foldr_delete st1 gone). lia.
    + intros j q Hj. destruct (decide (j = k)) as [->|Hjk].
      * rewrite lookup_insert_eq in Hj. injection Hj as <-. exists new.
        apply path_cells_delete; [done|]. intros b Hb Hb'.
        by apply (Hgone_new b).
      * rewrite lookup_insert_ne in Hj by done.
        destruct (Hpaths j q Hj) as (cs & Hcs). exists cs.
        apply path_cells_delete; [by apply (Hkeep j q cs)|].
        intros b Hb Hb'.
        destruct Hcs as (_ & _ & _ & Hids & _).
        destruct Hgone as (_ & _ & _ & Hids' & _).
        rewrite Forall_forall in Hids, Hids'.
        destruct (Hids b Hb) as (r1 & Hr1 & Hk1).
        destruct (Hids' b Hb') as (r2 & Hr2 & Hk2). congruence.
    + intros b record Hb. rewrite lookup_delete_cells in Hb.
      destruct (decide (b ∈ gone)) as [|Hnot]; [done|].
      destruct (decide (b ∈ new)) as [Hin|Hnotnew].
      * exists p'.
        pose proof Hnew as (Hd & Hnd & Hc & Hids & Hkey).
        rewrite Forall_forall in Hids.
        destruct (Hids b Hin) as (r & Hr & Hkr).
        assert (r = record) as -> by congruence.
        rewrite Hkr, lookup_insert_eq. split; [done|].
        assert (path_cells (foldr delete st1 gone) k p' new) as Hnew'.
        { apply path_cells_delete; [done|]. intros c Hc1 Hc2.
          by apply (Hgone_new c). }
        by rewrite (path_cells_steps _ _ _ _ Hnew').
      * rewrite Hframe in Hb by done.
        destruct (Hstore b record Hb) as (q & Hq & Hin).
        destruct (decide (path_mapping_t.path_id record = k)) as [Hk'|Hk'].
        -- rewrite Hk' in Hq. assert (q = old) as -> by congruence.
           by rewrite (path_cells_steps _ _ _ _ Hgone) in Hin.
        -- exists q. rewrite lookup_insert_ne by done. split; [done|].
           destruct (Hpaths _ q Hq) as (cs & Hcs).
           rewrite (path_cells_steps _ _ _ _ Hcs) in Hin.
           assert (path_cells (foldr delete st1 gone)
                     (path_mapping_t.path_id record) q cs) as Hcs'.
           { apply path_cells_delete; [by apply (Hkeep _ q cs)|].
             intros c Hc1 Hc2.
             destruct Hcs as (_ & _ & _ & Hids & _).
             destruct Hgone as (_ & _ & _ & Hids' & _).
             rewrite Forall_forall in Hids, Hids'.
             destruct (Hids c Hc1) as (r1 & Hr1 & Hk1).
             destruct (Hids' c Hc2) as (r2 & Hr2 & Hk2). congruence. }
           by rewrite (path_cells_steps _ _ _ _ Hcs').
  - split; [done| |].
    + intros j q Hj. destruct (decide (j = k)) as [->|Hjk].
      * rewrite lookup_insert_eq in Hj. injection Hj as <-. eauto.
      * rewrite lookup_insert_ne in Hj by done.
        destruct (Hpaths j q Hj) as (cs & Hcs). exists cs.
        by apply (Hkeep j q cs).
    + intros b record Hb.
      destruct (decide (b ∈ new)) as [Hin|Hnotnew].
      * exists p'.
        pose proof Hnew as (Hd & Hnd & Hc & Hids & Hkey).
        rewrite Forall_forall in Hids.
        destruct (Hids b Hin) as (r & Hr & Hkr).
        assert (r = record) as -> by congruence.
        rewrite Hkr, lookup_insert_eq. split; [done|].
        by rewrite (path_cells_steps _ _ _ _ Hnew).
      * rewrite Hframe in Hb by done.
        destruct (Hstore b record Hb) as (q & Hq & Hin).
        exists q. rewrite lookup_insert_ne by congruence. split; [done|].
        destruct (Hpaths _ q Hq) as (cs & Hcs).
        rewrite (path_cells_steps _ _ _ _ Hcs) in Hin.
        destruct (Hkeep _ q cs Hq Hcs) as [Hcs' _].
        by rewrite (path_cells_steps _ _ _ _ Hcs').
Qed.

Section loading.
Context `{HashOrder}.

Lemma omap_lookup_items {A} (m : gmap Z A) (l : list (Z * A)) :
  (∀ k a, (k, a) ∈ l → m !! k = Some a) →
  omap (λ k, pair k <$> m !! k) (l.*1) = l.
Proof.
  induction l as [|[k a] l IH]; intros Hl; [done|].
  rewrite fmap_cons. simpl. rewrite (Hl k a) by (by left). simpl.
  f_equal. apply IH. intros k' a' Hin. apply Hl. by right.
Qed.

(** The records of a table, in the order of the table, are its
    records. *)
Lemma hash_items_perm {A} (m : gmap Z A) : hash_items m ≡ₚ map_to_list m.
Proof.
  unfold hash_items. rewrite hash_keys_perm.
  rewrite omap_lookup_items; [done|].
  intros k a Hin. by apply elem_of_map_to_list.
Qed.

Lemma elem_of_hash_items {A} (m : gmap Z A) (k : Z) (a : A) :
  (k, a) ∈ hash_items m ↔ m !! k = Some a.
Proof. rewrite hash_items_perm. apply elem_of_map_to_list. Qed.

Lemma NoDup_fst_hash_items {A} (m : gmap Z A) : NoDup ((hash_items m).*1).
Proof. rewrite hash_items_perm. apply NoDup_fst_map_to_list. Qed.

Lemma length_hash_items {A} (m : gmap Z A) :
  length (hash_items m) = size m.
Proof. rewrite hash_items_perm. by rewrite length_map_to_list. Qed.

(** Destroying some of the paths, one after the other. *)
Lemma store_wf_destroy_all (l : list (Z * path_t.t))
    (ps : gmap Z path_t.t) (st : gmap addr path_mapping_t.t) :
  store_wf ps st → NoDup (l.*1) →
  (∀ k p, (k, p) ∈ l → ps !! k = Some p) →
  store_wf (foldr delete ps (l.*1))
           (foldl (λ st '(_, p), destroy_path_t p st) st l).
Proof.
  revert ps st. induction l as [|[k p] l IH]; intros ps st Hwf Hnd Hl.
  - done.
  - rewrite fmap_cons in *. simpl.
    apply NoDup_cons in Hnd as [Hk Hnd].
    rewrite delete_foldr_delete. apply IH; [|done|].
    + apply store_wf_drop; [done|]. apply Hl. by left.
    + intros k' p' Hin. rewrite lookup_delete_ne.
      * apply Hl. by right.
      * intros <-. apply Hk. apply list_elem_of_fmap.
        exists (k, p'). done.
Qed.

(** [clear] leaves no step record behind. *)
Lemma store_clear (g : HashGraph) : paths_wf g → store (clear g) = ∅.
Proof.
  intros Hwf. simpl.
  pose proof (store_wf_destroy_all (hash_items (paths g)) _ _ Hwf
                (NoDup_fst_hash_items _)) as Hall.
  destruct Hall as [_ _ Hstore].
  { intros k p. apply elem_of_hash_items. }
  apply map_empty. intros a.
  destruct (foldl _ (store g) (hash_items (paths g)) !! a) as [record|]
    eqn:Ha; [|done].
  destruct (Hstore a record Ha) as (p & Hp & _).
  apply lookup_foldr_delete_Some in Hp as [Hnot Hp].
  exfalso. apply Hnot. apply list_elem_of_fmap.
  exists (path_mapping_t.path_id record, p). split; [done|].
  by apply elem_of_hash_items.
Qed.

Lemma paths_wf_clear (g : HashGraph) : paths_wf g → paths_wf (clear g).
Proof.
  intros Hwf. unfold paths_wf. rewrite (store_clear g Hwf). simpl.
  apply store_wf_empty.
Qed.

Lemma path_deserialize_cells (inp inp' : list byte)
    (st st' : gmap addr path_mapping_t.t) (p : path_t.t) :
  Z.of_nat (size st) < two64 →
  path_deserialize inp st = Some (p, st', inp') →
  ∃ new,
    path_cells st' (path_t.path_id p) p new ∧
    (∀ b, b ∈ new → st !! b = None) ∧
    (∀ b, b ∉ new → st' !! b = st !! b) ∧
    Z.of_nat (size st') < two64.
Proof.
  intros Hroom. unfold path_deserialize.
  destruct (read_i64 inp) as [[pid inp1]|]; [|done]. simpl.
  destruct (read_u64 inp1) as [[name_size inp2]|]; [|done]. simpl.
  destruct (read_chars name_size inp2) as [[name inp3]|]; [|done]. simpl.
  destruct (read_u64 inp3) as [[num inp4]|]; [|done]. simpl.
  destruct (read_handles (Z.to_nat num) inp4) as [[steps inp5]|]; [|done].
  simpl.
  destruct (push_back_all steps _ st) as [[p1 st1]|] eqn:Hall; [|done].
  simpl. intros [= <- <- <-].
  destruct (push_back_all_cells _ _ _ _ _ pid [] (path_cells_nil st pid _)
              Hroom Hall)
    as (new & Hcells & _ & _ & Hfresh & Hframe & _ & _ & Hroom' & _).
  simpl in Hcells. pose proof Hcells as (_ & _ & _ & _ & Hkey).
  rewrite Hkey. exists new. split; [done|]. split; [done|].
  split; [|done]. intros b Hb. apply Hframe; [|done]. apply not_elem_of_nil.
Qed.

Lemma read_paths_wf (n : nat) (inp inp' : list byte) (g g' : HashGraph) :
  paths_wf g → read_paths n inp g = Some (g', inp') → paths_wf g'.
Proof.
  revert inp g. induction n as [|n IH]; intros inp g Hwf; simpl.
  - by intros [= <- <-].
  - destruct (path_deserialize inp (store g)) as [[[p st] inp1]|] eqn:Hp;
      [|done].
    simpl. apply IH. unfold paths_wf. simpl.
    destruct (path_deserialize_cells _ _ _ _ _ (wf_room _ _ Hwf) Hp)
      as (new & Hcells & Hfresh & Hframe & Hroom).
    by apply (store_wf_assign _ (store g) _ _ _ new).
Qed.

Lemma deserialize_wf (inp : list byte) (g g' : HashGraph) :
  paths_wf g → deserialize inp g = Some g' → paths_wf g'.
Proof.
  intros Hwf. unfold deserialize.
  destruct (read_i64 inp) as [[mx inp1]|]; [|done]. simpl.
  destruct (read_i64 inp1) as [[mn inp2]|]; [|done]. simpl.
  destruct (read_i64 inp2) as [[np inp3]|]; [|done]. simpl.
  destruct (read_u64 inp3) as [[num_nodes inp4]|]; [|done]. simpl.
  destruct (read_nodes _ inp4 ∅) as [[gr inp5]|]; [|done]. simpl.
  destruct (read_u64 inp5) as [[num_paths inp6]|]; [|done]. simpl.
  destruct (read_paths _ inp6 _) as [[g1 inp7]|] eqn:Hread; [|done]. simpl.
  intros [= <-].
  apply read_paths_wf in Hread; [done|].
  unfold paths_wf. simpl.
  pose proof (store_clear g Hwf) as Hclear. simpl in Hclear.
  rewrite Hclear. apply store_wf_empty.
Qed.

(** C10.  In every state reached from the empty graph the count stored in
    a path equals the number of step records met by following [next] from
    its head, a walk that ends at its tail; the equality is part of an
    invariant of the path store that [create_path_handle],
    [append_occurrence] on a live path, [divide_handle], [destroy_path]
    and [deserialize] all preserve. *)
Theorem path_count_invariant :
  paths_wf empty_graph ∧
  (∀ g k p, paths_wf g → paths g !! k = Some p →
     get_occurrence_count k g = Some (Z.of_nat (length (path_steps k g))) ∧
     last (path_steps k g) = path_t.tail p) ∧
  (∀ g name, paths_wf g → paths_wf (create_path_handle name g).2) ∧
  (∀ g k h r g', paths_wf g → is_Some (paths g !! k) →
     append_occurrence k h g = Some (r, g') → paths_wf g') ∧
  (∀ g h offsets parts g', paths_wf g →
     divide_handle h offsets g = Some (parts, g') → paths_wf g') ∧
  (∀ g k g', paths_wf g → destroy_path k g = Some g' → paths_wf g') ∧
  (∀ g inp g', paths_wf g → deserialize inp g = Some g' → paths_wf g').
Proof.
  split; [apply paths_wf_empty_graph|].
  split.
  { intros g k p Hwf Hk.
    destruct (count_is_walk_length g k p Hwf Hk) as (Hc & Hl & _). done. }
  split; [intros g name; apply create_path_handle_wf|].
  split.
  { intros g k h r g' Hwf Hk.
    destruct (append_occurrence_wf k h g Hwf Hk) as [_ Hpres]. apply Hpres. }
  split; [intros g h offsets parts g' Hwf; by apply divide_handle_wf|].
  split.
  { intros g k g' Hwf. destruct (destroy_path_wf k g Hwf) as [_ Hpres].
    apply Hpres. }
  intros g inp g' Hwf. by apply deserialize_wf.
Qed.
End loading.

Lemma path_count_invariant_witness :
  let g1 := (create_path_handle "1" empty_graph).2 in
  ∃ r g2,
    append_occurrence 1 (get_handle 2 false) g1 = Some (r, g2) ∧
    paths_wf g2 ∧
    get_occurrence_count 1 g2 = Some (Z.of_nat (length (path_steps 1 g2))).
Proof.
  intros g1.
  destruct (@path_count_invariant ascending_order)
    as (Hempty & Hcount & Hcreate & Happend & _).
  assert (paths_wf g1) as Hwf1 by (apply Hcreate, Hempty).
  assert (is_Some (paths g1 !! 1)) as Hlive by (vm_compute; eauto).
  destruct (append_occurrence 1 (get_handle 2 false) g1) as [[r g2]|] eqn:Happ;
    [|by vm_compute in Happ].
  exists r, g2. split; [done|].
  pose proof (Happend g1 1 (get_handle 2 false) r g2 Hwf1 Hlive Happ) as Hwf2.
  split; [done|].
  assert (is_Some (paths g2 !! 1)) as [p Hp].
  { vm_compute in Happ. injection Happ as <- <-. vm_compute. eauto. }
  exact (proj1 (Hcount g2 1 p Hwf2 Hp)).
Defined.

(** ** Binary codec *)

Lemma Z_of_byte_of_Z (z : Z) : Z_of_byte (byte_of_Z z) = z mod 256.
Proof.
  unfold Z_of_byte, byte_of_Z.
  assert (0 <= z mod 256 < 256) as Hz by (apply Z.mod_pos_bound; lia).
  destruct (Byte.of_N (Z.to_N (z mod 256))) as [b|] eqn:E; simpl.
  - apply Byte.to_of_N in E. rewrite E. lia.
  - apply Byte.of_N_None_iff in E. lia.
Qed.

Lemma from_big_endian_snoc (bs : list byte) (b : byte) :
  from_big_endian (bs ++ [b]) = from_big_endian bs * 256 + Z_of_byte b.
Proof. unfold from_big_endian. by rewrite foldl_app. Qed.

Lemma length_to_big_endian (width : nat) (z : Z) :
  length (to_big_endian width z) = width.
Proof.
  revert z. induction width as [|width IH]; intros z; [done|].
  cbn [to_big_endian]. rewrite length_app, IH. simpl. lia.
Qed.

Lemma from_to_big_endian (width : nat) (z : Z) :
  from_big_endian (to_big_endian width z) = z mod 256 ^ Z.of_nat width.
Proof.
  revert z. induction width as [|width IH]; intros z.
  - change (256 ^ Z.of_nat 0) with 1. by rewrite Z.mod_1_r.
  - cbn [to_big_endian]. rewrite from_big_endian_snoc, IH, Z_of_byte_of_Z.
    rewrite Nat2Z.inj_succ, Z.pow_succ_r by lia.
    rewrite Z.rem_mul_r by lia. lia.
Qed.

Lemma length_write64 (z : Z) : length (write64 z) = 8%nat.
Proof. apply length_to_big_endian. Qed.

Lemma read_u64_write64 (z : Z) (rest : list byte) :
  read_u64 (write64 z ++ rest) = Some (wrap64 z, rest).
Proof.
  unfold read_u64. rewrite decide_True.
  2:{ rewrite length_app, length_write64. lia. }
  rewrite <- (length_write64 z) at 1 2.
  rewrite take_app_length, drop_app_length.
  unfold write64. rewrite from_to_big_endian.
  change (256 ^ Z.of_nat 8) with two64.
  unfold wrap64. by rewrite Z.mod_mod.
Qed.

(** An integer that a signed 64-bit variable can hold. *)
Lemma to_signed_wrap64 (z : Z) :
  - 2 ^ 63 <= z < 2 ^ 63 → to_signed (wrap64 z) = z.
Proof.
  intros Hz. unfold to_signed, wrap64, two64.
  destruct (decide (0 <= z)) as [Hpos|Hneg].
  - rewrite Z.mod_small by lia. rewrite decide_True; lia.
  - replace (z mod 2 ^ 64) with (z + 2 ^ 64).
    + rewrite decide_False; lia.
    + apply Z.mod_unique with (-1); lia.
Qed.

Lemma read_i64_write64 (z : Z) (rest : list byte) :
  - 2 ^ 63 <= z < 2 ^ 63 →
  read_i64 (write64 z ++ rest) = Some (z, rest).
Proof.
  intros Hz. unfold read_i64. rewrite read_u64_write64. cbn [mbind option_bind].
  by rewrite to_signed_wrap64.
Qed.

Lemma read_u64_size (n : nat) (rest : list byte) :
  Z.of_nat n < two64 →
  read_u64 (write64 (Z.of_nat n) ++ rest) = Some (Z.of_nat n, rest).
Proof.
  intros Hn. rewrite read_u64_write64. rewrite wrap64_small by lia. done.
Qed.

Lemma read_chars_write_chars (s : seq_t) (rest : list byte) :
  read_chars (Z.of_nat (length s)) (write_chars s ++ rest) = Some (s, rest).
Proof.
  unfold read_chars, write_chars. rewrite decide_True.
  2:{ rewrite length_app, length_fmap. lia. }
  rewrite Nat2Z.id.
  rewrite <- (length_fmap byte_of_ascii s) at 1 2.
  rewrite take_app_length, drop_app_length.
  rewrite <- list_fmap_compose. do 2 f_equal.
  induction s as [|c s IH]; [done|].
  rewrite fmap_cons, IH. simpl. by rewrite ascii_of_byte_of_ascii.
Qed.

Lemma read_handles_write_handles (hs : list handle_t) (rest : list byte) :
  Forall valid_handle hs →
  read_handles (length hs) (write_handles hs ++ rest) = Some (hs, rest).
Proof.
  induction hs as [|h hs IH]; intros Hvalid; [done|].
  apply Forall_cons in Hvalid as [Hh Hhs].
  change (write_handles (h :: hs)) with (write64 h ++ write_handles hs).
  rewrite <- app_assoc. cbn [read_handles length].
  rewrite read_u64_write64. cbn [mbind option_bind].
  rewrite IH by done. cbn [mbind option_bind].
  rewrite wrap64_small by exact Hh. done.
Qed.

(** What a node record must satisfy to be written without loss: its sizes
    fit in 64 bits and its entries are 64-bit handles. *)
Lemma node_deserialize_serialize (n : node_t.t) (rest : list byte) :
  Z.of_nat (length (node_t.sequence n)) < two64 →
  Z.of_nat (length (node_t.left_edges n)) < two64 →
  Z.of_nat (length (node_t.right_edges n)) < two64 →
  Forall valid_handle (node_t.left_edges n) →
  Forall valid_handle (node_t.right_edges n) →
  node_deserialize (node_serialize n ++ rest) = Some (n, rest).
Proof.
  intros Hs Hl Hr Hvl Hvr. unfold node_deserialize, node_serialize.
  rewrite <- !app_assoc.
  rewrite read_u64_size by done. cbn [mbind option_bind].
  rewrite read_chars_write_chars. cbn [mbind option_bind].
  rewrite read_u64_size by done. cbn [mbind option_bind].
  rewrite Nat2Z.id, read_handles_write_handles by done. cbn [mbind option_bind].
  rewrite read_u64_size by done. cbn [mbind option_bind].
  rewrite Nat2Z.id, read_handles_write_handles by done. cbn [mbind option_bind].
  by destruct n.
Qed.

(** *** Node records *)

Lemma read_nodes_serialized (l : list (Z * node_t.t)) (rest : list byte)
    (gr : gmap Z node_t.t) :
  Forall (λ '(id, n), int64 id ∧ node_representable n) l →
  read_nodes (length l)
    ((l ≫= λ '(id, n), write64 id ++ node_serialize n) ++ rest) gr
  = Some (foldl (λ gr '(id, n), <[id := n]> gr) gr l, rest).
Proof.
  revert gr. induction l as [|[id n] l IH]; intros gr Hrep; [done|].
  apply Forall_cons in Hrep as [[Hid (Hs & Hl & Hr & Hvl & Hvr)] Hrep].
  rewrite bind_cons, <- !app_assoc. cbn [length read_nodes foldl].
  rewrite read_i64_write64 by exact Hid. cbn [mbind option_bind].
  rewrite node_deserialize_serialize by done. cbn [mbind option_bind].
  by apply IH.
Qed.

Lemma lookup_foldl_insert {A} (l : list (Z * A)) (m : gmap Z A) (k : Z) :
  NoDup (l.*1) →
  foldl (λ m '(k, a), <[k := a]> m) m l !! k
  = match list_to_map (M := gmap Z A) l !! k with
    | Some a => Some a
    | None => m !! k
    end.
Proof.
  revert m. induction l as [|[k0 a0] l IH]; intros m Hnd.
  - simpl. by rewrite lookup_empty.
  - rewrite fmap_cons in Hnd. apply NoDup_cons in Hnd as [Hk0 Hnd].
    cbn [foldl list_to_map foldr]. rewrite IH by done.
    destruct (decide (k = k0)) as [->|Hne].
    + rewrite (not_elem_of_list_to_map_1 l k0) by done.
      by rewrite !lookup_insert_eq.
    + by rewrite !lookup_insert_ne by done.
Qed.

Section codec_round_trip.
Context `{HashOrder}.

Lemma list_to_map_hash_items {A} (m : gmap Z A) :
  list_to_map (hash_items m) = m.
Proof.
  rewrite <- (list_to_map_to_list m) at 2.
  apply list_to_map_proper; [apply NoDup_fst_hash_items|].
  apply hash_items_perm.
Qed.

(** Inserting the records of a table into an empty table, in any
    order, gives the table back. *)
Lemma foldl_insert_hash_items {A} (m : gmap Z A) :
  foldl (λ m '(k, a), <[k := a]> m) ∅ (hash_items m) = m.
Proof.
  apply map_eq. intros k.
  rewrite lookup_foldl_insert by apply NoDup_fst_hash_items.
  rewrite list_to_map_hash_items, lookup_empty. by destruct (m !! k).
Qed.
End codec_round_trip.

(** *** Paths *)

Lemma length_list_ascii_of_string (s : string) :
  length (String.list_ascii_of_string s) = String.length s.
Proof. induction s as [|c s IH]; simpl; [done|]. by rewrite IH. Qed.

Lemma length_handles_of st cells :
  Forall (λ a, is_Some (st !! a)) cells →
  length (handles_of st cells) = length cells.
Proof.
  induction cells as [|a cells IH]; intros Hlive; [done|].
  apply Forall_cons in Hlive as [[record Ha] Hlive].
  rewrite (handles_of_cons _ _ _ _ Ha). simpl. by rewrite IH.
Qed.

Lemma Forall_handles_of (P : handle_t → Prop) st cells :
  (∀ a record, st !! a = Some record → P (path_mapping_t.handle record)) →
  Forall P (handles_of st cells).
Proof.
  intros HP. unfold handles_of. induction cells as [|a cells IH]; simpl.
  - constructor.
  - destruct (st !! a) as [record|] eqn:Ha; simpl; [|done].
    constructor; [by eapply HP|done].
Qed.

Lemma size_dom_union_fresh (st : gmap addr path_mapping_t.t)
    (st' : gmap addr path_mapping_t.t) (new : list addr) :
  dom st' = dom st ∪ list_to_set new → NoDup new →
  (∀ b, b ∈ new → st !! b = None) →
  size st' = (size st + length new)%nat.
Proof.
  intros Hdom Hnd Hfresh.
  rewrite <- !size_dom, Hdom, size_union, size_list_to_set by
    (try done; intros b Hb Hb'; apply elem_of_list_to_set in Hb';
     apply Hfresh in Hb'; apply elem_of_dom in Hb as [? ?]; congruence).
  done.
Qed.

(** Reading back a path that [path_t::serialize] wrote: the same
    identifier, name and count, and new step records that hold the same
    handles in the same order. *)
Lemma path_deserialize_serialized (stg : gmap addr path_mapping_t.t)
    (k : Z) (p : path_t.t) (cells : list addr) (rest : list byte)
    (st : gmap addr path_mapping_t.t) :
  path_cells stg k p cells →
  int64 (path_t.path_id p) →
  Z.of_nat (String.length (path_t.name p)) < two64 →
  (∀ a record, stg !! a = Some record →
     valid_handle (path_mapping_t.handle record)) →
  Z.of_nat (size st) + Z.of_nat (length cells) < two64 →
  ∃ p' st' new,
    path_deserialize (path_serialize p stg ++ rest) st = Some (p', st', rest) ∧
    path_cells st' k p' new ∧
    path_t.name p' = path_t.name p ∧
    path_t.count p' = path_t.count p ∧
    handles_of st' new = handles_of stg cells ∧
    (∀ b, b ∈ new → st !! b = None) ∧
    (∀ b, b ∉ new → st' !! b = st !! b) ∧
    size st' = (size st + length cells)%nat.
Proof.
  intros Hcells Hid Hname Hvalid Hroom.
  pose proof (path_cells_steps _ _ _ _ Hcells) as Hsteps.
  pose proof Hcells as (Hd & Hnd & Hcount & Hids & Hkey).
  pose proof (dseg_cells_live _ _ _ _ _ _ Hd) as Hlive.
  set (hs := handles_of stg cells).
  assert (length hs = length cells) as Hlen by (by apply length_handles_of).
  assert (Forall valid_handle hs) as Hhs by (by apply Forall_handles_of).
  assert (Z.of_nat (size st) < two64) as Hroom0 by lia.
  destruct (push_back_all_runs hs
              (path_t.mk None None (path_t.path_id p) 0 (path_t.name p))
              st (path_t.path_id p) [])
    as [[p' st'] Hall].
  { apply path_cells_nil. }
  { rewrite Hlen. lia. }
  destruct (push_back_all_cells _ _ _ _ _ _ []
              (path_cells_nil st (path_t.path_id p) (path_t.name p))
              Hroom0 Hall)
    as (new & Hcells' & Hlen' & Hhs' & Hfresh & Hframe & _ & Hdom & _ & Hname').
  simpl in Hcells'.
  exists p', st', new.
  unfold path_deserialize, path_serialize. rewrite <- !app_assoc.
  rewrite read_i64_write64 by exact Hid. cbn [mbind option_bind].
  rewrite read_u64_size by done. cbn [mbind option_bind].
  rewrite <- length_list_ascii_of_string, read_chars_write_chars.
  cbn [mbind option_bind].
  rewrite Hcount, read_u64_size by lia. cbn [mbind option_bind].
  rewrite Hsteps. fold hs. rewrite Nat2Z.id, <- Hlen.
  rewrite read_handles_write_handles by done. cbn [mbind option_bind].
  rewrite String.string_of_list_ascii_of_string, Hall.
  cbn [mbind option_bind].
  split; [done|]. rewrite <- Hkey. split; [done|]. split; [done|].
  split.
  { destruct Hcells' as (_ & _ & Hc' & _). rewrite Hc', Hlen', Hlen. done. }
  split; [done|]. split; [done|].
  split; [intros b Hb; apply Hframe; [apply not_elem_of_nil|done]|].
  rewrite <- ?Hlen, <- Hlen'.
  apply size_dom_union_fresh; [done| |done].
  by destruct Hcells' as (_ & Hnd' & _).
Qed.

Lemma path_cells_subseteq st st' k q cells :
  path_cells st k q cells →
  (∀ b record, st !! b = Some record → st' !! b = Some record) →
  path_cells st' k q cells.
Proof.
  intros (Hd & Hnd & Hc & Hids & Hkey) Hsub.
  assert (∀ b, b ∈ cells → st' !! b = st !! b) as Hsame.
  { intros b Hb. apply dseg_cells_live in Hd. rewrite Forall_forall in Hd.
    destruct (Hd b Hb) as [record Hr]. rewrite Hr. by apply Hsub. }
  split; [by eapply dseg_frame|]. split; [done|]. split; [done|].
  split; [|done]. by apply (Forall_path_id_frame st).
Qed.

Lemma handles_of_subseteq st st' cells :
  Forall (λ b, is_Some (st !! b)) cells →
  (∀ b record, st !! b = Some record → st' !! b = Some record) →
  handles_of st' cells = handles_of st cells.
Proof.
  intros Hlive Hsub. apply handles_of_frame; [|done].
  intros b record _ Hb. exists record. split; [by apply Hsub|done].
Qed.

(** The lists of different paths share no cell, so together they are no
    longer than the free store is large. *)
Lemma steps_total_le_size (ps : gmap Z path_t.t)
    (st : gmap addr path_mapping_t.t) (l : list (Z * path_t.t)) :
  store_wf ps st → NoDup (l.*1) →
  (∀ k p, (k, p) ∈ l → ps !! k = Some p) →
  (steps_total st l ≤ size st)%nat.
Proof.
  intros Hwf Hnd Hl.
  set (all := l ≫= λ '(_, p), steps_from st (path_t.head p)).
  assert (length all = steps_total st l) as <-.
  { unfold all, steps_total. clear. induction l as [|[k p] l IH]; [done|].
    rewrite bind_cons, length_app, fmap_cons. simpl. by rewrite IH. }
  assert (∀ l', (∀ k p, (k, p) ∈ l' → ps !! k = Some p) →
            ∀ b, b ∈ (l' ≫= λ '(_, p), steps_from st (path_t.head p)) →
            ∃ record, st !! b = Some record ∧
                      path_mapping_t.path_id record ∈ l'.*1) as Hown.
  { intros l' Hl' b Hb. apply list_elem_of_bind in Hb as ([k p] & Hb & Hin).
    destruct (wf_paths _ _ Hwf k p (Hl' k p Hin)) as (cells & Hcells).
    rewrite (path_cells_steps _ _ _ _ Hcells) in Hb.
    destruct Hcells as (_ & _ & _ & Hids & _). rewrite Forall_forall in Hids.
    destruct (Hids b Hb) as (record & Hr & Hk). exists record.
    split; [done|]. rewrite Hk. apply list_elem_of_fmap. by exists (k, p). }
  apply cells_le_size.
  - unfold all. clear Hown. induction l as [|[k p] l IH]; [constructor|].
    rewrite fmap_cons in Hnd. apply NoDup_cons in Hnd as [Hk Hnd].
    rewrite bind_cons. apply NoDup_app.
    assert (ps !! k = Some p) as Hp by (apply Hl; by left).
    destruct (wf_paths _ _ Hwf k p Hp) as (cells & Hcells).
    rewrite (path_cells_steps _ _ _ _ Hcells).
    split; [by destruct Hcells as (_ & Hndc & _)|]. split.
    + intros b Hb Hb'.
      apply list_elem_of_bind in Hb' as ([k' p'] & Hb' & Hin).
      assert (ps !! k' = Some p') as Hp' by (apply Hl; by right).
      destruct (wf_paths _ _ Hwf k' p' Hp') as (cells' & Hcells').
      rewrite (path_cells_steps _ _ _ _ Hcells') in Hb'.
      destruct Hcells as (_ & _ & _ & Hids & _).
      destruct Hcells' as (_ & _ & _ & Hids' & _).
      rewrite Forall_forall in Hids, Hids'.
      destruct (Hids b Hb) as (r1 & Hr1 & Hk1).
      destruct (Hids' b Hb') as (r2 & Hr2 & Hk2).
      apply Hk. apply list_elem_of_fmap. exists (k', p').
      split; [|done]. simpl. congruence.
    + apply IH; [done|]. intros k' p' Hin. apply Hl. by right.
  - apply Forall_forall. intros b Hb.
    destruct (Hown l Hl b Hb) as (record & Hr & _). eauto.
Qed.

(** Reading back the paths that [serialize] wrote for [g], into a table
    that holds none of them yet. *)
Lemma read_paths_serialized (g : HashGraph) :
  paths_wf g → representable g →
  ∀ (l : list (Z * path_t.t)) (cur : HashGraph) (rest : list byte),
    NoDup (l.*1) →
    (∀ k p, (k, p) ∈ l → paths g !! k = Some p) →
    paths_wf cur →
    (∀ k p, (k, p) ∈ l → paths cur !! k = None) →
    Z.of_nat (size (store cur)) + Z.of_nat (steps_total (store g) l) < two64 →
    ∃ fin,
      read_paths (length l)
        ((l ≫= λ '(_, p), path_serialize p (store g)) ++ rest) cur
      = Some (fin, rest) ∧
      paths_wf fin ∧
      max_id fin = max_id cur ∧ min_id fin = min_id cur ∧
      next_path_id fin = next_path_id cur ∧ graph fin = graph cur ∧
      occurrences fin = occurrences cur ∧
      (∀ k, is_Some (paths fin !! k) ↔
            is_Some (paths cur !! k) ∨ k ∈ l.*1) ∧
      (∀ k p, (k, p) ∈ l →
         ∃ p', paths fin !! k = Some p' ∧
               path_t.path_id p' = path_t.path_id p ∧
               path_t.name p' = path_t.name p ∧
               path_t.count p' = path_t.count p ∧
               handles_of (store fin) (steps_from (store fin) (path_t.head p'))
               = handles_of (store g) (steps_from (store g) (path_t.head p))) ∧
      (∀ k q, paths cur !! k = Some q → paths fin !! k = Some q) ∧
      (∀ b record, store cur !! b = Some record →
                   store fin !! b = Some record).
Proof.
  intros Hwf Hrep l.
  induction l as [|[k p] l IH]; intros cur rest Hnd Hl Hcur Hfree Hroom.
  - exists cur. simpl. split; [done|]. split; [done|].
    do 5 (split; [done|]). split.
    { intros k. split; [by left|]. intros [?|Hin]; [done|].
      by apply elem_of_nil in Hin. }
    split; [intros k p Hin; by apply elem_of_nil in Hin|]. done.
  - rewrite fmap_cons in Hnd. apply NoDup_cons in Hnd as [Hk Hnd].
    assert (paths g !! k = Some p) as Hp by (apply Hl; by left).
    destruct (wf_paths _ _ Hwf k p Hp) as (cells & Hcells).
    pose proof (path_cells_steps _ _ _ _ Hcells) as Hsteps.
    destruct (rep_paths _ Hrep k p Hp) as [Hid Hname].
    assert (steps_total (store g) ((k, p) :: l)
            = (length cells + steps_total (store g) l)%nat) as Htotal.
    { unfold steps_total. rewrite fmap_cons. simpl. by rewrite Hsteps. }
    rewrite Htotal in Hroom.
    rewrite bind_cons, <- app_assoc. cbn [length read_paths].
    destruct (path_deserialize_serialized (store g) k p cells
                ((l ≫= λ '(_, p0), path_serialize p0 (store g)) ++ rest)
                (store cur) Hcells Hid Hname (rep_steps _ Hrep))
      as (p' & st' & new & Hread & Hcells' & Hname' & Hcount' & Hhandles
          & Hfresh & Hframe & Hsize); [lia|].
    rewrite Hread. cbn [mbind option_bind].
    pose proof Hcells' as (_ & _ & _ & _ & Hkey').
    pose proof Hcells as (_ & _ & _ & _ & Hkey).
    assert (paths cur !! k = None) as Hnone by (apply (Hfree k p); by left).
    rewrite Hkey', Hnone.
    set (cur1 := mkHashGraph _ _ _ _ _ _ _ _).
    assert (paths_wf cur1) as Hcur1.
    { unfold paths_wf, cur1. simpl.
      pose proof (store_wf_assign _ _ st' k p' new Hcur Hcells' Hfresh Hframe)
        as Hassign.
      rewrite Hnone in Hassign. apply Hassign.
      pose proof (wf_room _ _ Hwf). lia. }
    assert (∀ b record, store cur !! b = Some record →
                        st' !! b = Some record) as Hsub1.
    { intros b record Hb. rewrite Hframe; [done|].
      intros Hin. apply Hfresh in Hin. congruence. }
    destruct (IH cur1 rest Hnd) as
      (fin & Hfin & Hwf_fin & Hmx & Hmn & Hnp & Hgr & Hoc & Hdom & Hloaded
       & Hkeep & Hsub).
    { intros k' p'' Hin. apply Hl. by right. }
    { done. }
    { intros k' p'' Hin. unfold cur1. simpl.
      rewrite lookup_insert_ne.
      - apply (Hfree k' p''). by right.
      - intros <-. apply Hk. apply list_elem_of_fmap. by exists (k, p''). }
    { unfold cur1. simpl. rewrite Hsize. lia. }
    exists fin. split; [done|]. split; [done|].
    do 5 (split; [done|]). split; [|split; [|split]].
    + intros k0. rewrite Hdom. unfold cur1. simpl.
      destruct (decide (k0 = k)) as [->|Hne].
      * rewrite lookup_insert_eq. split; [intros _; right; by left|eauto].
      * rewrite lookup_insert_ne by done. split.
        -- intros [?|?]; [by left|right; by right].
        -- intros [?|[?|?]%elem_of_cons]; [by left|done|by right].
    + intros k0 p0 [[= -> ->]|Hin]%elem_of_cons.
      * exists p'. split.
        { apply Hkeep. unfold cur1. simpl. apply lookup_insert_eq. }
        split; [congruence|]. split; [done|]. split; [done|].
        assert (path_cells (store fin) k p' new) as Hcells_fin
          by (by eapply path_cells_subseteq).
        rewrite (path_cells_steps _ _ _ _ Hcells_fin), Hsteps, <- Hhandles.
        apply handles_of_subseteq; [|done].
        destruct Hcells' as (Hd' & _). by eapply dseg_cells_live.
      * by apply Hloaded.
    + intros k0 q Hq. apply Hkeep. unfold cur1. simpl.
      rewrite lookup_insert_ne; [done|]. intros <-. congruence.
    + intros b record Hb. apply Hsub. unfold cur1. simpl. by apply Hsub1.
Qed.

(** *** The occurrence index *)

Lemma elem_of_push_occurrence (oc : gmap Z (list addr)) (x y : Z)
    (a b : addr) :
  a ∈ default [] (push_occurrence y b oc !! x) ↔
  a ∈ default [] (oc !! x) ∨ (x = y ∧ a = b).
Proof.
  unfold push_occurrence. destruct (decide (x = y)) as [->|Hne].
  - rewrite lookup_insert_eq. simpl. rewrite elem_of_app, list_elem_of_singleton.
    naive_solver.
  - rewrite lookup_insert_ne by done. naive_solver.
Qed.

(** What the inner loop of the rebuilding adds to the index: the steps it
    walks, each under the node of its handle. *)
Lemma elem_of_index_steps (st : gmap addr path_mapping_t.t)
    (steps : list addr) (oc : gmap Z (list addr)) (x : Z) (a : addr) :
  a ∈ default []
        (foldl (λ oc mapping,
                  match st !! mapping with
                  | Some record =>
                      push_occurrence
                        (get_id (path_mapping_t.handle record)) mapping oc
                  | None => oc
                  end) oc steps !! x) ↔
  a ∈ default [] (oc !! x) ∨
  (a ∈ steps ∧ ∃ record, st !! a = Some record ∧
                         get_id (path_mapping_t.handle record) = x).
Proof.
  revert oc. induction steps as [|b steps IH]; intros oc; simpl.
  - split; [by left|]. intros [?|[Hin _]]; [done|].
    by apply elem_of_nil in Hin.
  - rewrite IH. destruct (st !! b) as [record|] eqn:Hb.
    + rewrite elem_of_push_occurrence. split.
      * intros [[?|[-> ->]]|[Hin Hrec]]; [by left| |].
        -- right. split; [by left|eauto].
        -- right. split; [by right|done].
      * intros [?|[[->|Hin]%elem_of_cons (rec_a & Ha & Hx)]].
        -- left. by left.
        -- left. right. split; [congruence|done].
        -- right. split; [done|eauto].
    + split.
      * intros [?|[Hin Hrec]]; [by left|]. right. split; [by right|done].
      * intros [?|[[->|Hin]%elem_of_cons (rec_a & Ha & Hx)]];
          [by left|congruence|]. right. split; [done|eauto].
Qed.

Lemma elem_of_index_paths (st : gmap addr path_mapping_t.t)
    (l : list (Z * path_t.t)) (oc : gmap Z (list addr)) (x : Z) (a : addr) :
  a ∈ default []
        (foldl (λ oc '(_, p), index_path st oc p) oc l !! x) ↔
  a ∈ default [] (oc !! x) ∨
  (∃ k p, (k, p) ∈ l ∧ a ∈ steps_from st (path_t.head p) ∧
          ∃ record, st !! a = Some record ∧
                    get_id (path_mapping_t.handle record) = x).
Proof.
  revert oc. induction l as [|[k p] l IH]; intros oc; simpl.
  - split; [by left|]. intros [?|(k & p & Hin & _)]; [done|].
    by apply elem_of_nil in Hin.
  - rewrite IH. unfold index_path. rewrite elem_of_index_steps. split.
    + intros [[?|[Hin Hrec]]|(k' & p' & Hin & Hrest)].
      * by left.
      * right. exists k, p. split; [by left|done].
      * right. exists k', p'. split; [by right|done].
    + intros [?|(k' & p' & [[= -> ->]|Hin]%elem_of_cons & Hrest)].
      * left. by left.
      * left. by right.
      * right. exists k', p'. done.
Qed.

Section round_trip.
Context (Hw Hr : HashOrder).

Lemma rebuild_occurrences_indexed (g : HashGraph) :
  occurrences g = ∅ →
  occurrences_indexed (@rebuild_occurrences Hr g).
Proof.
  intros Hempty. split.
  - intros k a record [p Hp] Ha Hrec. simpl in *.
    apply elem_of_index_paths. right. exists k, p.
    split; [by apply elem_of_hash_items|].
    unfold path_steps, path_at in Ha. simpl in Ha. rewrite Hp in Ha.
    split; [done|eauto].
  - intros x bucket a Hx Ha. simpl in *.
    assert (a ∈ default []
              (foldl (λ oc '(_, p), index_path (store g) oc p)
                     (occurrences g) (hash_items (paths g)) !! x)) as Hin
      by (by rewrite Hx).
    apply elem_of_index_paths in Hin as [Hin|(_ & _ & _ & _ & Hrec)];
      [|done].
    rewrite Hempty, lookup_empty in Hin. by apply elem_of_nil in Hin.
Qed.

(** C3.  For a well-formed state that a 64-bit machine can hold, reading
    back what [serialize] wrote succeeds and gives a graph with the same
    identifier bounds, the same node table (identifiers, sequences, left
    and right adjacency lists), the same paths (identifier, name, count
    and handles in traversal order), and an occurrence index, rebuilt from
    the paths, in which every step of every path is filed under the node
    of its handle.  The tables may be enumerated in one order when
    writing and in another when reading. *)
Theorem serialize_deserialize_round_trip (g g0 : HashGraph) :
  paths_wf g → representable g → paths_wf g0 →
  ∃ g',
    @deserialize Hr (@serialize Hw g) g0 = Some g' ∧
    max_id g' = max_id g ∧ min_id g' = min_id g ∧
    next_path_id g' = next_path_id g ∧
    graph g' = graph g ∧
    (∀ k, same_path g g' k) ∧
    occurrences_indexed g' ∧
    paths_wf g'.
Proof.
  intros Hwf Hrep Hwf0.
  pose proof (@store_clear Hr g0 Hwf0) as Hclear.
  unfold deserialize, serialize. rewrite <- ?app_assoc.
  rewrite read_i64_write64 by apply Hrep. cbn [mbind option_bind].
  rewrite read_i64_write64 by apply Hrep. cbn [mbind option_bind].
  rewrite read_i64_write64 by apply Hrep. cbn [mbind option_bind].
  rewrite read_u64_size by apply Hrep. cbn [mbind option_bind].
  rewrite Nat2Z.id, <- (@length_hash_items Hw _ (graph g)).
  rewrite read_nodes_serialized.
  2:{ apply Forall_forall. intros [id n] Hin.
      apply (@elem_of_hash_items Hw) in Hin. by apply (rep_nodes _ Hrep). }
  cbn [mbind option_bind].
  change (graph (clear g0)) with (∅ : gmap Z node_t.t).
  rewrite (@foldl_insert_hash_items Hw).
  rewrite read_u64_size by apply Hrep. cbn [mbind option_bind].
  rewrite Nat2Z.id, <- (@length_hash_items Hw _ (paths g)).
  rewrite <- (app_nil_r (hash_items (paths g) ≫= _)).
  set (cur := mkHashGraph _ _ _ _ _ _ _ _).
  assert (paths cur = ∅ ∧ store cur = ∅ ∧ occurrences cur = ∅)
    as (Hps & Hst & Hoc).
  { split; [reflexivity|]. split; [exact Hclear|reflexivity]. }
  destruct (read_paths_serialized g Hwf Hrep (@hash_items Hw _ (paths g))
              cur [])
    as (fin & Hfin & Hwf_fin & Hmx & Hmn & Hnp & Hgr & Hoc_fin & Hdom
        & Hloaded & _ & _).
  { apply NoDup_fst_hash_items. }
  { intros k p. apply elem_of_hash_items. }
  { unfold paths_wf. rewrite Hps, Hst. apply store_wf_empty. }
  { intros k p _. by rewrite Hps. }
  { rewrite Hst, map_size_empty.
    pose proof (steps_total_le_size _ _ (@hash_items Hw _ (paths g)) Hwf
                  (NoDup_fst_hash_items _)) as Hle.
    pose proof (wf_room _ _ Hwf).
    assert (steps_total (store g) (@hash_items Hw _ (paths g))
            ≤ size (store g))%nat
      by (apply Hle; intros k p; apply elem_of_hash_items).
    lia. }
  rewrite Hfin. cbn [mbind option_bind].
  exists (@rebuild_occurrences Hr fin).
  split; [done|]. split; [done|]. split; [done|]. split; [done|].
  split; [done|]. split; [|split].
  - intros k. unfold same_path. simpl.
    destruct (paths g !! k) as [p|] eqn:Hp.
    + destruct (Hloaded k p) as (p' & Hp' & Hid & Hname & Hcount & Hhandles).
      { by apply elem_of_hash_items. }
      rewrite Hp'. split; [done|]. split; [done|]. split; [done|].
      unfold path_handles, path_steps, path_at. simpl.
      by rewrite Hp', Hp.
    + destruct (paths fin !! k) as [p'|] eqn:Hp'; [|done].
      assert (is_Some (paths fin !! k)) as Hsome by eauto.
      apply Hdom in Hsome as [[? Hcur]|Hin].
      * by rewrite Hps, lookup_empty in Hcur.
      * apply list_elem_of_fmap in Hin as ([k' p0] & Hk' & Hin).
        apply elem_of_hash_items in Hin. simpl in Hk'. subst k'.
        congruence.
  - apply rebuild_occurrences_indexed. by rewrite Hoc_fin.
  - exact Hwf_fin.
Qed.
End round_trip.

Lemma serialize_deserialize_round_trip_witness :
  ∃ g g',
    one_step_graph = Some g ∧ paths_wf g ∧ representable g ∧
    @deserialize descending_order (@serialize ascending_order g) empty_graph
    = Some g' ∧
    graph g' = graph g ∧ (∀ k, same_path g g' k) ∧ occurrences_indexed g'.
Proof.
  pose (g1 := (create_handle (seq_of "ATG") 2 empty_graph).2).
  pose (g2 := (create_path_handle "1" g1).2).
  assert (paths_wf g2) as Hwf2.
  { apply create_path_handle_wf. apply paths_wf_empty_graph. }
  destruct (append_occurrence 1 (get_handle 2 false) g2) as [[r g]|] eqn:Happ;
    [|by vm_compute in Happ].
  assert (paths_wf g) as Hwf.
  { destruct (append_occurrence_wf 1 (get_handle 2 false) g2 Hwf2)
      as [_ Hpres]; [vm_compute; eauto|].
    by apply (Hpres r g). }
  assert (one_step_graph = Some g) as Hg.
  { change one_step_graph
      with (append_occurrence 1 (get_handle 2 false) g2
            ≫= λ '(_, g), Some g).
    by rewrite Happ. }
  assert (representable g) as Hrep.
  { vm_compute in Happ. injection Happ as <- <-.
    split.
    - by vm_compute.
    - by vm_compute.
    - by vm_compute.
    - by vm_compute.
    - apply (bool_decide_unpack _). by vm_compute.
    - by vm_compute.
    - apply (bool_decide_unpack _). by vm_compute.
    - apply (bool_decide_unpack _). by vm_compute. }
  destruct (serialize_deserialize_round_trip ascending_order descending_order
              g empty_graph Hwf Hrep paths_wf_empty_graph)
    as (g' & Hround & _ & _ & _ & Hgraph & Hpaths & Hindex & _).
  exists g, g'. done.
Defined.

(** * Edges seen through the traversal *)

Lemma visit_loop_record_visit (view : handle_t → handle_t)
    (range log : list handle_t) :
  visit_loop record_visit view range true log
  = (true, log ++ (view <$> range)).
Proof.
  revert log. induction range as [|x range IH]; intros log; simpl.
  - by rewrite app_nil_r.
  - rewrite IH. by rewrite <- app_assoc.
Qed.

Lemma neighbors_unfold (h : handle_t) (go_left : bool) (g : HashGraph) :
  neighbors h go_left g
  = n ← graph g !! get_id h;
    Some ((if go_left then flip else λ e, e)
            <$> edge_list (xorb (get_is_reverse h) go_left) (get_id h)
                          (<[get_id h := n]> (graph g))).
Proof.
  unfold neighbors, follow_edges_impl.
  destruct (graph g !! get_id h) as [n|] eqn:E; [|done].
  simpl. rewrite visit_loop_record_visit. simpl.
  unfold edge_list, node_at. rewrite lookup_insert_eq. simpl.
  by destruct (xorb (get_is_reverse h) go_left), go_left.
Qed.

Lemma neighbors_live (h : handle_t) (go_left : bool) (g : HashGraph) :
  is_Some (graph g !! get_id h) →
  neighbors h go_left g
  = Some ((if go_left then flip else λ e, e)
            <$> edge_list (xorb (get_is_reverse h) go_left) (get_id h)
                          (graph g)).
Proof.
  intros [n Hn]. rewrite neighbors_unfold, Hn. simpl.
  by rewrite insert_id.
Qed.

Lemma neighbors_Some (h : handle_t) (go_left : bool) (g : HashGraph)
    (l : list handle_t) :
  neighbors h go_left g = Some l → is_Some (graph g !! get_id h).
Proof.
  rewrite neighbors_unfold. destruct (graph g !! get_id h); [eauto|done].
Qed.

Lemma fmap_flip_flip (l : list handle_t) : flip <$> (flip <$> l) = l.
Proof.
  rewrite <- list_fmap_compose. rewrite <- (list_fmap_id l) at 2.
  apply list_fmap_ext. intros i x _. simpl. apply flip_flip.
Qed.

Lemma fmap_same (l : list handle_t) : (λ e : handle_t, e) <$> l = l.
Proof. exact (list_fmap_id l). Qed.

Lemma handle_eq (a b : handle_t) :
  get_id a = get_id b → get_is_reverse a = get_is_reverse b → a = b.
Proof.
  intros Hid Hrev. rewrite (handle_split a), (handle_split b). congruence.
Qed.

Lemma is_flip (a b : handle_t) :
  get_id a = get_id b → get_is_reverse a = negb (get_is_reverse b) →
  a = flip b.
Proof.
  intros Hid Hrev. apply handle_eq.
  - by rewrite get_id_flip.
  - by rewrite get_is_reverse_flip.
Qed.

(** X1: an edge made by [create_edge(left, right)] between live nodes is
    seen from both ends: [follow_edges] to the right of [left] visits
    what it visited before and then [right], and [follow_edges] to the
    left of [right] visits what it visited before and then [left]; a
    reversing self-loop included. *)
Theorem create_edge_visible (left_h right_h : handle_t) (g : HashGraph)
    (ls rs : list handle_t) :
  neighbors left_h false g = Some ls →
  neighbors right_h true g = Some rs →
  neighbors left_h false (create_edge left_h right_h g)
  = Some (ls ++ [right_h]) ∧
  neighbors right_h true (create_edge left_h right_h g)
  = Some (rs ++ [left_h]).
Proof.
  intros Hl Hr.
  pose proof (neighbors_Some _ _ _ _ Hl) as Hlive1.
  pose proof (neighbors_Some _ _ _ _ Hr) as Hlive2.
  rewrite neighbors_live in Hl, Hr by done.
  injection Hl as <-. injection Hr as <-.
  assert (dom (graph (create_edge left_h right_h g)) = dom (graph g)) as Hdom
    by by apply dom_create_edge.
  assert (∀ id, is_Some (graph g !! id) →
                is_Some (graph (create_edge left_h right_h g) !! id)) as Hkeep.
  { intros id Hid. apply elem_of_dom. rewrite Hdom. by apply elem_of_dom. }
  rewrite !neighbors_live by auto.
  unfold create_edge. simpl graph. rewrite !edge_list_create_edge.
  rewrite !Bool.xorb_false_r, !Bool.xorb_true_r.
  split; f_equal.
  - rewrite (fmap_same (_ ++ _)), (fmap_same (edge_list _ _ _)).
    destruct (decide (get_id left_h = get_id left_h ∧ _)) as [_|[]]; [|done].
    destruct (decide (left_h ≠ flip right_h ∧ _)) as [(Hne & Hid & Hrev)|_].
    2:{ simpl. done. }
    destruct Hne. apply is_flip; [done|]. by rewrite Hrev.
  - rewrite !fmap_app.
    destruct (decide (left_h = flip right_h)) as [E|Hne].
    + destruct (decide (get_id right_h = get_id left_h ∧ _)) as [_|[]].
      2:{ rewrite E, get_id_flip, get_is_reverse_flip. done. }
      destruct (decide (left_h ≠ flip right_h ∧ _)) as [(Hne & _)|_]; [done|].
      simpl. by rewrite E.
    + destruct (decide (get_id right_h = get_id left_h ∧ _))
        as [(Hid & Hrev)|_].
      { destruct Hne. by apply is_flip. }
      destruct (decide (left_h ≠ flip right_h ∧ _)) as [_|[]]; [|done].
      simpl. by rewrite flip_flip.
Qed.

Lemma create_edge_visible_witness :
  let g := (create_handle (seq_of "ATG") 2
              (create_handle (seq_of "CT") 1 empty_graph).2).2 in
  let h1 := get_handle 1 false in
  let h2 := get_handle 2 true in
  neighbors h1 false (create_edge h1 h2 g) = Some ([] ++ [h2]) ∧
  neighbors h2 true (create_edge h1 h2 g) = Some ([] ++ [h1]).
Proof.
  intros g h1 h2.
  apply (create_edge_visible h1 h2 g [] []); by vm_compute.
Defined.

(** X2: looking left from a handle is looking right from its flip: the
    two traversals walk the same adjacency list and hand the iteratee
    handles that are each other's flips, and [get_degree] is the number
    of handles either of them visits. *)
Theorem follow_edges_flip (h : handle_t) (go_left : bool) (g : HashGraph) :
  neighbors (flip h) (negb go_left) g
  = (λ l : list handle_t, flip <$> l) <$> neighbors h go_left g ∧
  get_degree h go_left g
  = (λ l : list handle_t, length l) <$> neighbors h go_left g ∧
  get_degree (flip h) (negb go_left) g = get_degree h go_left g.
Proof.
  rewrite !neighbors_unfold. unfold get_degree.
  rewrite get_id_flip, get_is_reverse_flip.
  replace (xorb (negb (get_is_reverse h)) (negb go_left))
    with (xorb (get_is_reverse h) go_left)
    by (by destruct (get_is_reverse h), go_left).
  destruct (graph g !! get_id h) as [n|] eqn:E; simpl; [|done].
  unfold edge_list, node_at. rewrite lookup_insert_eq. simpl.
  split; [|split; [|done]].
  - f_equal. destruct go_left; simpl.
    + rewrite fmap_flip_flip. apply fmap_same.
    + f_equal. symmetry. apply fmap_same.
  - f_equal. rewrite length_fmap.
    by destruct (xorb (get_is_reverse h) go_left).
Qed.

(** * Removing edges *)

Lemma count_handle_app (e : handle_t) (l1 l2 : list handle_t) :
  count_handle e (l1 ++ l2) = (count_handle e l1 + count_handle e l2)%nat.
Proof. unfold count_handle. by rewrite filter_app, length_app. Qed.

Lemma count_handle_one (e x : handle_t) :
  count_handle e [x] = if decide (x = e) then 1%nat else 0%nat.
Proof.
  unfold count_handle. rewrite filter_cons, filter_nil.
  by destruct (decide (x = e)).
Qed.

Lemma count_handle_zero (e : handle_t) (l : list handle_t) :
  count_handle e l = 0%nat ↔ e ∉ l.
Proof.
  unfold count_handle. split.
  - intros Hz Hin.
    assert (e ∈ filter (λ y, y = e) l) as Hf by (by apply list_elem_of_filter).
    destruct (filter (λ y, y = e) l); [by apply elem_of_nil in Hf|done].
  - intros Hnot. destruct (filter (λ y, y = e) l) as [|y f] eqn:E; [done|].
    assert (y ∈ filter (λ y, y = e) l) as Hf by (rewrite E; left).
    apply list_elem_of_filter in Hf as [-> Hin]. done.
Qed.

Lemma count_handle_remove_first (e x : handle_t) (l : list handle_t) :
  count_handle e (remove_first (λ y, y = x) l)
  = (count_handle e l - (if decide (e = x) then 1 else 0))%nat.
Proof.
  unfold count_handle. destruct (decide (e = x)) as [->|Hne].
  - rewrite remove_first_matches. lia.
  - rewrite (length_filter_remove_first_other (λ y, y = x) (λ y, y = e));
      [lia|]. intros y -> ->. done.
Qed.

Lemma remove_first_absent (x : handle_t) (l : list handle_t) :
  x ∉ l → remove_first (λ y, y = x) l = l.
Proof.
  intros Hnot. unfold remove_first.
  destruct (list_find (λ y, y = x) l) as [[i y]|] eqn:E; [|done].
  apply list_find_Some in E as (Hi & -> & _).
  destruct Hnot. by eapply list_elem_of_lookup_2.
Qed.

Lemma remove_first_snoc (x : handle_t) (l : list handle_t) :
  remove_first (λ y, y = x) (l ++ [x]) = l.
Proof.
  unfold remove_first.
  destruct (list_find (λ y, y = x) (l ++ [x])) as [[i y]|] eqn:E.
  - apply list_find_Some in E as (Hi & -> & _).
    unfold swap_remove. rewrite last_snoc.
    rewrite list_insert_id by done. apply take_pred_snoc.
  - apply list_find_None in E. apply Forall_app in E as [_ E].
    apply Forall_inv in E. exfalso. by apply E.
Qed.

(** The two loops of [destroy_edge] are the same loop run on the two
    ends of the edge. *)
Lemma destroy_edge_unfold (l r : handle_t) (g : HashGraph) :
  destroy_edge l r g
  = set_graph
      (update_bwd (remove_first (λ e, e = flip l)) r
         (update_bwd (remove_first (λ e, e = r)) (flip l) (graph g))) g.
Proof.
  unfold destroy_edge. f_equal. f_equal. unfold update_bwd.
  rewrite get_id_flip, get_is_reverse_flip.
  by destruct (get_is_reverse l).
Qed.

Lemma side_list_update_bwd (f : list handle_t → list handle_t)
    (next a : handle_t) (gr : gmap Z node_t.t) :
  side_list a (update_bwd f next gr)
  = if decide (a = flip next) then f (side_list a gr) else side_list a gr.
Proof.
  unfold side_list. rewrite edge_list_update_bwd.
  destruct (decide (a = flip next)) as [->|Hne].
  - rewrite decide_True; [done|].
    by rewrite get_id_flip, get_is_reverse_flip.
  - rewrite decide_False; [done|].
    intros (Hid & Hrev). apply Hne. by apply is_flip.
Qed.

Lemma side_list_destroy_edge (l r a : handle_t) (g : HashGraph) :
  side_list a (graph (destroy_edge l r g))
  = let l1 := if decide (a = l)
              then remove_first (λ e, e = r) (side_list a (graph g))
              else side_list a (graph g) in
    if decide (a = flip r) then remove_first (λ e, e = flip l) l1 else l1.
Proof.
  rewrite destroy_edge_unfold. simpl graph.
  rewrite !side_list_update_bwd, flip_flip. done.
Qed.

Lemma count_destroy_edge (l r a e : handle_t) (g : HashGraph) :
  count_handle e (side_list a (graph (destroy_edge l r g)))
  = (count_handle e (side_list a (graph g))
     - (if decide (a = l ∧ e = r) then 1 else 0)
     - (if decide (a = flip r ∧ e = flip l) then 1 else 0))%nat.
Proof.
  rewrite side_list_destroy_edge. simpl.
  destruct (decide (a = flip r)) as [Har|Har];
    destruct (decide (a = l)) as [Hal|Hal];
    rewrite ?count_handle_remove_first;
    repeat case_decide; try lia; naive_solver.
Qed.

Lemma side_list_create_edge (l r a : handle_t) (gr : gmap Z node_t.t) :
  side_list a (create_edge_nodes l r gr)
  = side_list a gr
    ++ (if decide (a = l) then [r] else [])
    ++ (if decide (l ≠ flip r ∧ a = flip r) then [flip l] else []).
Proof.
  unfold side_list. rewrite edge_list_create_edge. f_equal. f_equal.
  - destruct (decide (a = l)) as [->|Hne].
    + by rewrite decide_True.
    + rewrite decide_False; [done|]. intros (Hid & Hrev). apply Hne.
      by apply handle_eq.
  - destruct (decide (l ≠ flip r ∧ a = flip r)) as [(Hne & ->)|Hno].
    + rewrite decide_True; [done|].
      by rewrite get_id_flip, get_is_reverse_flip.
    + rewrite decide_False; [done|]. intros (Hne & Hid & Hrev).
      apply Hno. split; [done|]. by apply is_flip.
Qed.

Lemma count_create_edge (l r a e : handle_t) (gr : gmap Z node_t.t) :
  count_handle e (side_list a (create_edge_nodes l r gr))
  = (count_handle e (side_list a gr)
     + (if decide (a = l ∧ e = r) then 1 else 0)
     + (if decide (l ≠ flip r ∧ a = flip r ∧ e = flip l) then 1 else 0))%nat.
Proof.
  rewrite side_list_create_edge, !count_handle_app.
  destruct (decide (a = l)); destruct (decide (l ≠ flip r ∧ a = flip r));
    rewrite ?count_handle_one; unfold count_handle; simpl;
    repeat case_decide; try lia; naive_solver.
Qed.

(** Two node tables with the same live nodes, sequences and adjacency
    lists are the same table. *)
Lemma graph_ext (gr gr' : gmap Z node_t.t) :
  dom gr' = dom gr →
  (∀ j, node_t.sequence (node_at gr' j) = node_t.sequence (node_at gr j)) →
  (∀ a, side_list a gr' = side_list a gr) →
  gr' = gr.
Proof.
  intros Hdom Hseq Hside. apply map_eq. intros j.
  pose proof (Hseq j) as Hs.
  pose proof (Hside (2 * j + Z.b2z true)) as Hl.
  pose proof (Hside (2 * j + Z.b2z false)) as Hr.
  unfold side_list, edge_list in Hl, Hr.
  rewrite !get_id_build, !get_is_reverse_build in Hl, Hr.
  assert (is_Some (gr' !! j) ↔ is_Some (gr !! j)) as Hlive
    by (by rewrite <- !elem_of_dom, Hdom).
  unfold node_at in *.
  destruct (gr' !! j) as [n'|] eqn:E', (gr !! j) as [n|] eqn:E; simpl in *.
  - destruct n, n'; simpl in *. by subst.
  - destruct Hlive as [Hlive _]. by destruct Hlive.
  - destruct Hlive as [_ Hlive]. by destruct Hlive.
  - done.
Qed.

Lemma sequence_update_bwd (f : list handle_t → list handle_t)
    (next : handle_t) (gr : gmap Z node_t.t) (j : Z) :
  node_t.sequence (node_at (update_bwd f next gr) j)
  = node_t.sequence (node_at gr j).
Proof.
  unfold update_bwd. rewrite node_at_insert.
  destruct (decide (j = get_id next)) as [->|]; [|done].
  by destruct (get_is_reverse next).
Qed.

Lemma dom_update_bwd (f : list handle_t → list handle_t)
    (next : handle_t) (gr : gmap Z node_t.t) :
  dom (update_bwd f next gr) = {[get_id next]} ∪ dom gr.
Proof. unfold update_bwd. by rewrite dom_insert_L. Qed.

Lemma has_node_live (id : Z) (g : HashGraph) :
  has_node id g = true ↔ is_Some (graph g !! id).
Proof. unfold has_node. apply bool_decide_eq_true. Qed.

Lemma dom_destroy_edge (l r : handle_t) (g : HashGraph) :
  has_node (get_id l) g = true → has_node (get_id r) g = true →
  dom (graph (destroy_edge l r g)) = dom (graph g).
Proof.
  intros Hl%has_node_live%elem_of_dom Hr%has_node_live%elem_of_dom.
  rewrite destroy_edge_unfold. simpl graph.
  rewrite !dom_update_bwd, get_id_flip. set_solver.
Qed.

(** X3: what [destroy_edge(left, right)] removes, between live nodes: the
    list on the side of [left] loses one entry [right] if it has one,
    the list on the side of [flip(right)] loses one entry [flip(left)]
    if it has one, every other entry of every list is kept, and nodes,
    sequences and paths are left alone.  For a reversing self-loop
    ([left = flip(right)]) both removals hit the same list, which loses
    two entries when it holds two. *)
Theorem destroy_edge_entries (left_h right_h : handle_t) (g : HashGraph) :
  has_node (get_id left_h) g = true → has_node (get_id right_h) g = true →
  let g' := destroy_edge left_h right_h g in
  dom (graph g') = dom (graph g) ∧
  (∀ j, node_t.sequence (node_at (graph g') j)
        = node_t.sequence (node_at (graph g) j)) ∧
  (∀ a e,
     count_handle e (side_list a (graph g'))
     = (count_handle e (side_list a (graph g))
        - (if decide (a = left_h ∧ e = right_h) then 1 else 0)
        - (if decide (a = flip right_h ∧ e = flip left_h) then 1 else 0))%nat) ∧
  paths g' = paths g ∧ occurrences g' = occurrences g ∧ store g' = store g ∧
  max_id g' = max_id g ∧ min_id g' = min_id g.
Proof.
  intros Hl Hr g'. split; [by apply dom_destroy_edge|].
  split.
  { intros j. unfold g'. rewrite destroy_edge_unfold. simpl graph.
    by rewrite !sequence_update_bwd. }
  split; [intros a e; apply count_destroy_edge|done].
Qed.

Lemma destroy_edge_entries_witness :
  let h := get_handle 1 false in
  let g := create_edge h (flip h) (create_edge h (flip h)
             (create_handle (seq_of "CT") 1 empty_graph).2) in
  count_handle (flip h) (side_list h (graph g)) = 2%nat ∧
  count_handle (flip h) (side_list h (graph (destroy_edge h (flip h) g)))
  = 0%nat.
Proof.
  intros h g. split; [by vm_compute|].
  assert (has_node (get_id h) g = true) as H1 by (by vm_compute).
  assert (has_node (get_id (flip h)) g = true) as H2 by (by vm_compute).
  destruct (destroy_edge_entries h (flip h) g H1 H2) as (_ & _ & Hc & _).
  rewrite Hc. by vm_compute.
Defined.

(** X4: [destroy_edge] undoes [create_edge]: removing the edge that was
    just made between two live nodes gives back the graph as it was,
    every adjacency list in its old order.  For a reversing self-loop
    this needs the list not to hold the entry already, since the two
    removals of [destroy_edge] then hit the same list. *)
Theorem destroy_edge_create_edge (left_h right_h : handle_t) (g : HashGraph) :
  has_node (get_id left_h) g = true → has_node (get_id right_h) g = true →
  (left_h = flip right_h → right_h ∉ side_list left_h (graph g)) →
  destroy_edge left_h right_h (create_edge left_h right_h g) = g.
Proof.
  intros Hl Hr Hloop.
  assert (graph (destroy_edge left_h right_h (create_edge left_h right_h g))
          = graph g) as Hgr.
  { pose proof Hl as Hl'. pose proof Hr as Hr'.
    apply has_node_live in Hl', Hr'.
    assert (dom (graph (create_edge left_h right_h g)) = dom (graph g))
      as Hdom by (by apply dom_create_edge).
    apply graph_ext.
    - rewrite dom_destroy_edge; [done|..];
        apply has_node_live, elem_of_dom; rewrite Hdom; by apply elem_of_dom.
    - intros j. rewrite destroy_edge_unfold. simpl graph.
      rewrite !sequence_update_bwd. unfold create_edge_nodes.
      destruct (get_is_reverse left_h), (decide (left_h ≠ flip right_h)),
        (get_is_reverse right_h);
        cbv iota beta;
        repeat (rewrite sequence_push_left || rewrite sequence_push_right);
        done.
    - intros a. rewrite side_list_destroy_edge. unfold create_edge.
      simpl graph. rewrite side_list_create_edge.
      destruct (decide (a = left_h)) as [->|Hal];
        destruct (decide (left_h = flip right_h)) as [E|Hne].
      + rewrite (decide_False (P := _ ∧ _)) by (intros [? _]; done).
        rewrite app_nil_r. simpl. rewrite remove_first_snoc.
        rewrite ?decide_True by done.
        apply remove_first_absent. rewrite E, flip_flip.
        rewrite <- E. by apply Hloop.
      + rewrite (decide_False (P := _ ∧ _)) by (intros [_ ?]; done).
        rewrite app_nil_r. simpl. by rewrite remove_first_snoc.
      + simpl. rewrite (decide_False (P := _ ∧ _)) by (intros [? _]; done).
        rewrite app_nil_r. rewrite decide_False; [done|]. by rewrite <- E.
      + simpl. destruct (decide (a = flip right_h)) as [->|Har].
        * rewrite decide_True by done. apply remove_first_snoc.
        * rewrite decide_False by (intros [_ ?]; done).
          by rewrite app_nil_r. }
  destruct g as [mx mn np gr pid ps oc st]. unfold destroy_edge in *.
  simpl in *. unfold set_graph. simpl. by rewrite Hgr.
Qed.

Lemma destroy_edge_create_edge_witness :
  let g := two_edge_graph in
  let h1 := get_handle 1 false in
  let h3 := get_handle 3 true in
  destroy_edge h1 h3 (create_edge h1 h3 g) = g.
Proof.
  intros g h1 h3. apply destroy_edge_create_edge; [by vm_compute..|].
  intros E. by vm_compute in E.
Defined.

(** * Symmetry of the stored edges *)

Lemma flip_build (n : Z) (b : bool) :
  flip (2 * n + Z.b2z b) = 2 * n + Z.b2z (negb b).
Proof. by rewrite flip_split, get_id_build, get_is_reverse_build. Qed.

Lemma side_list_build (n : Z) (side : bool) (gr : gmap Z node_t.t) :
  side_list (2 * n + Z.b2z side) gr = edge_list side n gr.
Proof. unfold side_list. by rewrite get_id_build, get_is_reverse_build. Qed.

Lemma refs_to_counts (x : Z) (l : list handle_t) :
  refs_to x l
  = (count_handle (2 * x + Z.b2z false)%Z l
     + count_handle (2 * x + Z.b2z true)%Z l)%nat.
Proof.
  unfold refs_to, count_handle. induction l as [|e l IH]; [done|].
  rewrite !filter_cons. pose proof (handle_split e) as He.
  destruct (decide (get_id e = x)) as [Hx|Hx].
  - destruct (get_is_reverse e); simpl in He.
    + rewrite (decide_False (P := e = 2 * x + Z.b2z false)) by (unfold handle_t in *; simpl in *; lia).
      rewrite (decide_True (P := e = 2 * x + Z.b2z true)) by (unfold handle_t in *; simpl in *; lia).
      cbn [length]. rewrite IH. lia.
    + rewrite (decide_True (P := e = 2 * x + Z.b2z false)) by (unfold handle_t in *; simpl in *; lia).
      rewrite (decide_False (P := e = 2 * x + Z.b2z true)) by (unfold handle_t in *; simpl in *; lia).
      cbn [length]. rewrite IH. lia.
  - rewrite !(decide_False (P := e = _)); [done|..];
      intros ->; by rewrite get_id_build in Hx.
Qed.

Lemma exits_to_count (n : Z) (side : bool) (l : list handle_t) :
  exits_to n side l = count_handle (2 * n + Z.b2z (negb side)) l.
Proof.
  unfold exits_to, count_handle. f_equal. apply list_filter_iff.
  intros e. split.
  - intros [<- <-]. rewrite Bool.negb_involutive. apply handle_split.
  - intros ->. rewrite get_id_build, get_is_reverse_build.
    by rewrite Bool.negb_involutive.
Qed.

(** The symmetry of the stored edges gives the invariant under which
    [destroy_handle] finds every reference back to the node. *)
Lemma edges_symmetric_reciprocal (gr : gmap Z node_t.t) :
  edges_symmetric gr → reciprocal gr.
Proof.
  intros Hsym x n side _.
  rewrite refs_to_counts, exits_to_count, out_edges_split, count_handle_app.
  rewrite <- (side_list_build n side).
  rewrite (Hsym _ (2 * x + Z.b2z false)), (Hsym _ (2 * x + Z.b2z true)).
  rewrite !flip_build, !side_list_build. simpl negb. lia.
Qed.

Lemma edges_symmetric_empty : edges_symmetric ∅.
Proof. intros a b. unfold side_list. by destruct (get_is_reverse a),
  (get_is_reverse (flip b)). Qed.

Lemma edges_symmetric_create_handle (sequence : seq_t) (id : Z)
    (g : HashGraph) :
  has_node id g = false → edges_symmetric (graph g) →
  edges_symmetric (graph (create_handle sequence id g).2).
Proof.
  intros Hfresh Hsym a b. simpl. unfold side_list.
  assert (graph g !! id = None) as Hnone.
  { apply bool_decide_eq_false in Hfresh.
    by apply eq_None_not_Some. }
  rewrite !edge_list_insert_fresh by done. apply Hsym.
Qed.

Lemma flip_inj (a b : handle_t) : flip a = flip b → a = b.
Proof. intros E. by rewrite <- (flip_flip a), E, flip_flip. Qed.

Lemma flip_eq_swap (a b : handle_t) : a = flip b ↔ flip a = b.
Proof.
  split; intros E.
  - by rewrite E, flip_flip.
  - by rewrite <- E, flip_flip.
Qed.

Lemma indicator_ext (P Q : Prop) `{Decision P, Decision Q} :
  (P ↔ Q) →
  (if decide P then 1 else 0)%nat = (if decide Q then 1 else 0)%nat.
Proof. intros HPQ. by apply decide_ext. Qed.

Lemma mirrored_entry (a b l r : handle_t) :
  (flip b = l ∧ flip a = r) ↔ (a = flip r ∧ b = flip l).
Proof. rewrite <- !flip_eq_swap. naive_solver. Qed.

Lemma mirrored_mirrored_entry (a b l r : handle_t) :
  (flip b = flip r ∧ flip a = flip l) ↔ (a = l ∧ b = r).
Proof.
  split.
  - intros [Hb Ha]. split; by apply flip_inj.
  - by intros [-> ->].
Qed.

Lemma edges_symmetric_create_edge (l r : handle_t) (g : HashGraph) :
  edges_symmetric (graph g) → edges_symmetric (graph (create_edge l r g)).
Proof.
  intros Hsym a b. unfold create_edge. simpl graph.
  rewrite !count_create_edge, (Hsym a b).
  rewrite (indicator_ext _ _ (mirrored_entry a b l r)).
  destruct (decide (l = flip r)) as [Hlr|Hlr].
  - rewrite !(decide_False (P := l ≠ flip r ∧ _)) by (intros [? _]; done).
    rewrite (indicator_ext (a = l ∧ b = r) (a = flip r ∧ b = flip l));
      [done|]. by rewrite Hlr, flip_flip.
  - rewrite (indicator_ext (l ≠ flip r ∧ flip b = flip r ∧ flip a = flip l)
               (a = l ∧ b = r)).
    2:{ rewrite mirrored_mirrored_entry. naive_solver. }
    rewrite (indicator_ext (l ≠ flip r ∧ a = flip r ∧ b = flip l)
               (a = flip r ∧ b = flip l)) by naive_solver.
    lia.
Qed.

Lemma edges_symmetric_destroy_edge (l r : handle_t) (g : HashGraph) :
  edges_symmetric (graph g) → edges_symmetric (graph (destroy_edge l r g)).
Proof.
  intros Hsym a b.
  rewrite !count_destroy_edge, (Hsym a b).
  rewrite (indicator_ext (flip b = l ∧ flip a = r) _ (mirrored_entry a b l r)).
  rewrite (indicator_ext (flip b = flip r ∧ flip a = flip l) _
             (mirrored_mirrored_entry a b l r)).
  lia.
Qed.

Lemma edge_list_delete (gr : gmap Z node_t.t) (x n : Z) (side : bool) :
  edge_list side n (delete x gr)
  = if decide (n = x) then [] else edge_list side n gr.
Proof.
  unfold edge_list, node_at. destruct (decide (n = x)) as [->|Hne].
  - rewrite lookup_delete_eq. by destruct side.
  - by rewrite lookup_delete_ne.
Qed.

Lemma no_refs_to_count (x : Z) (gr : gmap Z node_t.t) (a e : handle_t) :
  no_refs_to x gr → get_id e = x → count_handle e (side_list a gr) = 0%nat.
Proof.
  intros Hno He. apply count_handle_zero. intros Hin.
  unfold side_list, edge_list, node_at in Hin.
  destruct (gr !! get_id a) as [nd|] eqn:E.
  - specialize (Hno _ _ E). simpl in Hno.
    rewrite Forall_app, !Forall_forall in Hno. destruct Hno as [Hl Hr].
    simpl in Hin. destruct (get_is_reverse a); [by eapply Hl|by eapply Hr].
  - simpl in Hin. destruct (get_is_reverse a); by apply elem_of_nil in Hin.
Qed.

Lemma edges_symmetric_destroy_handle (h : handle_t) (g : HashGraph) :
  has_node (get_id h) g = true →
  no_self_loop (get_id h) (graph g) →
  edges_symmetric (graph g) →
  edges_symmetric (graph (destroy_handle h g)).
Proof.
  intros Hlive Hloop Hsym.
  pose proof (destroy_handle_reciprocal h g Hlive Hloop
                (edges_symmetric_reciprocal _ Hsym)) as Hno.
  set (x := get_id h) in *.
  assert (∀ a e, get_id a ≠ x → get_id e ≠ x →
            count_handle e (side_list a (graph (destroy_handle h g)))
            = count_handle e (side_list a (graph g))) as Hkeep.
  { intros a e Ha He. unfold destroy_handle. fold x. simpl graph.
    apply has_node_live in Hlive as [node Hnode]. fold x in Hnode.
    assert (node_at (graph g) x = node) as Hat
      by (unfold node_at; by rewrite Hnode).
    rewrite Hat, (insert_id (graph g) x node) by done.
    unfold side_list. rewrite edge_list_delete, decide_False by done.
    unfold count_handle.
    apply (other_entries_after_destroy_loop x (λ y, y = e)).
    by intros y ->. }
  assert (∀ a, get_id a = x → side_list a (graph (destroy_handle h g)) = [])
    as Hgone.
  { intros a Ha. unfold destroy_handle. fold x. simpl graph.
    unfold side_list. rewrite edge_list_delete, decide_True by done. done. }
  intros a b.
  destruct (decide (get_id a = x)) as [Ha|Ha].
  - rewrite (Hgone a Ha). symmetry. change (count_handle b []) with 0%nat.
    apply no_refs_to_count with x; [done|]. by rewrite get_id_flip.
  - destruct (decide (get_id b = x)) as [Hb|Hb].
    + rewrite (Hgone (flip b)) by (by rewrite get_id_flip).
      by apply no_refs_to_count with x.
    + rewrite !Hkeep by (by rewrite ?get_id_flip). apply Hsym.
Qed.

(** X5: the stored edges stay symmetric.  In the empty graph, and after
    [create_handle] on an identifier that is not live, [create_edge],
    [destroy_edge], and [destroy_handle] on a live node without an edge to
    itself, every edge from [a] to [b] is on the list of [a] as often as
    the matching entry [flip(a)] is on the list of [flip(b)]. *)
Theorem edges_symmetric_invariant :
  edges_symmetric (graph empty_graph) ∧
  (∀ g sequence id, has_node id g = false → edges_symmetric (graph g) →
     edges_symmetric (graph (create_handle sequence id g).2)) ∧
  (∀ g l r, edges_symmetric (graph g) →
     edges_symmetric (graph (create_edge l r g))) ∧
  (∀ g l r, edges_symmetric (graph g) →
     edges_symmetric (graph (destroy_edge l r g))) ∧
  (∀ g h, has_node (get_id h) g = true →
     no_self_loop (get_id h) (graph g) → edges_symmetric (graph g) →
     edges_symmetric (graph (destroy_handle h g))).
Proof.
  split; [apply edges_symmetric_empty|].
  split; [intros g s id; apply edges_symmetric_create_handle|].
  split; [intros g l r; apply edges_symmetric_create_edge|].
  split; [intros g l r; apply edges_symmetric_destroy_edge|].
  intros g h. apply edges_symmetric_destroy_handle.
Qed.

Lemma edges_symmetric_invariant_witness :
  edges_symmetric (graph two_edge_graph) ∧
  edges_symmetric
    (graph (destroy_handle (get_handle 2 false)
              (destroy_edge (get_handle 1 false) (get_handle 2 false)
                 two_edge_graph))).
Proof.
  destruct edges_symmetric_invariant as (H0 & Hnode & Hedge & Hcut & Hdel).
  assert (edges_symmetric (graph two_edge_graph)) as Hsym.
  { apply (Hedge (create_edge (get_handle 1 false) (get_handle 2 false) _)).
    apply Hedge.
    apply (Hnode _ (seq_of "GAC") 3); [by vm_compute|].
    apply (Hnode _ (seq_of "ATG") 2); [by vm_compute|].
    apply (Hnode _ (seq_of "CT") 1); [by vm_compute|].
    exact H0. }
  split; [exact Hsym|].
  apply Hdel.
  - by vm_compute.
  - apply (bool_decide_unpack _). by vm_compute.
  - by apply Hcut.
Defined.

Lemma count_handle_fmap_flip (e : handle_t) (l : list handle_t) :
  count_handle e (flip <$> l) = count_handle (flip e) l.
Proof.
  unfold count_handle. induction l as [|y l IH]; [done|].
  rewrite fmap_cons, !filter_cons.
  destruct (decide (flip y = e)) as [<-|Hne].
  - rewrite decide_True by (by rewrite flip_flip). simpl. by rewrite IH.
  - rewrite decide_False; [done|]. intros ->. by rewrite flip_flip in Hne.
Qed.

Lemma side_list_live (a e : handle_t) (gr : gmap Z node_t.t) :
  e ∈ side_list a gr → is_Some (gr !! get_id a).
Proof.
  unfold side_list, edge_list, node_at.
  destruct (gr !! get_id a); [eauto|].
  simpl. destruct (get_is_reverse a); intros Hin; by apply elem_of_nil in Hin.
Qed.

(** X6: in a graph whose stored edges are symmetric, [follow_edges] sees
    every edge from both of its ends, and it never hands the iteratee a
    handle of a node that is not live: going right from [a] it visits
    [b] as often as, going left from [b], it visits [a]; every handle it
    visits, in either direction, has a node record, so that
    [get_sequence] and a further [follow_edges] on it do not throw. *)
Theorem follow_edges_symmetric (g : HashGraph) (a b : handle_t) :
  edges_symmetric (graph g) →
  has_node (get_id a) g = true → has_node (get_id b) g = true →
  (∃ la lb, neighbors a false g = Some la ∧ neighbors b true g = Some lb ∧
            count_handle b la = count_handle a lb) ∧
  (∀ go_left l e, neighbors a go_left g = Some l → e ∈ l →
     has_node (get_id e) g = true ∧ is_Some (get_sequence e g) ∧
     is_Some (neighbors e go_left g)).
Proof.
  intros Hsym Ha Hb. pose proof Ha as Ha'. pose proof Hb as Hb'.
  apply has_node_live in Ha', Hb'.
  assert (∀ x e, e ∈ side_list x (graph g) →
                 is_Some (graph g !! get_id e)) as Hlive.
  { intros x e Hin.
    assert (count_handle e (side_list x (graph g)) ≠ 0%nat) as Hc
      by (by rewrite count_handle_zero; intros Hc; apply Hc).
    rewrite Hsym in Hc. rewrite count_handle_zero in Hc.
    apply dec_stable in Hc. apply side_list_live in Hc.
    by rewrite get_id_flip in Hc. }
  split.
  - rewrite !neighbors_live by done.
    eexists _, _. split; [done|]. split; [done|].
    rewrite Bool.xorb_false_r, Bool.xorb_true_r, fmap_same.
    rewrite count_handle_fmap_flip.
    pose proof (Hsym a b) as E. unfold side_list in E.
    by rewrite get_id_flip, get_is_reverse_flip in E.
  - intros go_left l e Hn Hin. rewrite neighbors_live in Hn by done.
    injection Hn as <-.
    assert (is_Some (graph g !! get_id e)) as He.
    { destruct go_left.
      - apply list_elem_of_fmap in Hin as (e' & -> & Hin).
        rewrite get_id_flip. apply (Hlive (flip a)).
        unfold side_list. by rewrite get_id_flip, get_is_reverse_flip,
          <- Bool.xorb_true_r.
      - rewrite fmap_same in Hin. apply (Hlive a). unfold side_list.
        by rewrite Bool.xorb_false_r in Hin. }
    split; [by apply has_node_live|]. split.
    + unfold get_sequence. destruct He as [n ->]. simpl. eauto.
    + rewrite neighbors_live by done. eauto.
Qed.

Lemma follow_edges_symmetric_witness :
  ∃ la lb,
    neighbors (get_handle 1 false) false two_edge_graph = Some la ∧
    neighbors (get_handle 2 false) true two_edge_graph = Some lb ∧
    count_handle (get_handle 2 false) la = count_handle (get_handle 1 false) lb.
Proof.
  assert (edges_symmetric (graph two_edge_graph)) as Hsym.
  { apply (edges_symmetric_create_edge (get_handle 2 false)
             (get_handle 3 false)
             (create_edge (get_handle 1 false) (get_handle 2 false) _)).
    apply edges_symmetric_create_edge.
    apply (edges_symmetric_create_handle (seq_of "GAC") 3); [by vm_compute|].
    apply (edges_symmetric_create_handle (seq_of "ATG") 2); [by vm_compute|].
    apply (edges_symmetric_create_handle (seq_of "CT") 1); [by vm_compute|].
    apply edges_symmetric_empty. }
  apply (follow_edges_symmetric two_edge_graph (get_handle 1 false)
           (get_handle 2 false) Hsym); by vm_compute.
Defined.

(** * Node records and the tracked bounds *)

Lemma dom_destroy_loop (x : Z) (nexts : list handle_t)
    (gr : gmap Z node_t.t) :
  dom (foldl (λ gr next,
                update_bwd (remove_first (λ e, get_id e = x)) next gr)
             gr nexts)
  = dom gr ∪ list_to_set (get_id <$> nexts).
Proof.
  revert gr. induction nexts as [|next nexts IH]; intros gr; simpl.
  - set_solver.
  - rewrite IH, dom_update_bwd. set_solver.
Qed.

Lemma edges_symmetric_targets_live (gr : gmap Z node_t.t) (a e : handle_t) :
  edges_symmetric gr → e ∈ side_list a gr → is_Some (gr !! get_id e).
Proof.
  intros Hsym Hin.
  assert (count_handle e (side_list a gr) ≠ 0%nat) as Hc
    by (by rewrite count_handle_zero; intros Hc; apply Hc).
  rewrite Hsym in Hc. rewrite count_handle_zero in Hc.
  apply dec_stable in Hc. apply side_list_live in Hc.
  by rewrite get_id_flip in Hc.
Qed.

Lemma dom_destroy_handle (h : handle_t) (g : HashGraph) :
  has_node (get_id h) g = true → edges_symmetric (graph g) →
  dom (graph (destroy_handle h g)) = dom (graph g) ∖ {[get_id h]}.
Proof.
  intros Hlive Hsym. apply has_node_live in Hlive as [node Hnode].
  unfold destroy_handle. simpl graph.
  assert (node_at (graph g) (get_id h) = node) as Hat
    by (unfold node_at; by rewrite Hnode).
  rewrite Hat, (insert_id (graph g) (get_id h) node) by done.
  rewrite dom_delete_L, dom_destroy_loop.
  assert (list_to_set (get_id <$> node_t.left_edges node
                                  ++ node_t.right_edges node)
          ⊆ dom (graph g)) as Hsub.
  { intros id Hid. apply elem_of_list_to_set in Hid.
    apply list_elem_of_fmap in Hid as (e & -> & He).
    apply elem_of_dom.
    apply elem_of_app in He as [He|He].
    - apply (edges_symmetric_targets_live _ (2 * get_id h + Z.b2z true));
        [done|]. rewrite side_list_build. unfold edge_list. by rewrite Hat.
    - apply (edges_symmetric_targets_live _ (2 * get_id h + Z.b2z false));
        [done|]. rewrite side_list_build. unfold edge_list. by rewrite Hat. }
  set_solver.
Qed.



(** X8: what a missing node does.  On a handle whose node is not live
    the readers [get_length], [get_sequence], [get_degree] and
    [follow_edges] throw, while [create_edge] and [destroy_edge] do not
    fail: each of them leaves behind a live node record for that
    identifier, with an empty sequence, and leaves the tracked bounds as
    they were. *)
Theorem missing_node_behaviour (h other : handle_t) (g : HashGraph) :
  has_node (get_id h) g = false →
  (get_length h g = None ∧ get_sequence h g = None ∧
   (∀ go_left, get_degree h go_left g = None) ∧
   (∀ go_left, neighbors h go_left g = None)) ∧
  (∀ g', g' = create_edge h other g ∨ g' = create_edge other h g ∨
         g' = destroy_edge h other g ∨ g' = destroy_edge other h g →
     has_node (get_id h) g' = true ∧ get_length h g' = Some 0 ∧
     max_node_id g' = max_node_id g ∧ min_node_id g' = min_node_id g).
Proof.
  intros Hmiss. apply bool_decide_eq_false in Hmiss.
  apply eq_None_not_Some in Hmiss.
  split.
  { unfold get_length, get_sequence, get_degree.
    setoid_rewrite neighbors_unfold. rewrite Hmiss. done. }
  assert (∀ gr', is_Some (gr' !! get_id h) →
            node_t.sequence (node_at gr' (get_id h)) = [] →
            ∀ g', graph g' = gr' →
              has_node (get_id h) g' = true ∧ get_length h g' = Some 0)
    as Hshow.
  { intros gr' [n Hn] Hseq g' <-. split; [apply has_node_live; eauto|].
    unfold get_length. unfold node_at in Hseq. rewrite Hn in *. simpl in *.
    by rewrite Hseq. }
  assert (node_t.sequence (node_at (graph g) (get_id h)) = []) as Hempty
    by (unfold node_at; by rewrite Hmiss).
  intros g' [-> | [-> | [-> | ->]]];
    (apply and_assoc; split; [|done]).
  - apply (Hshow (graph (create_edge h other g))); [| |done].
    + apply elem_of_dom. unfold create_edge, create_edge_nodes. simpl.
      destruct (get_is_reverse h), (decide (h ≠ flip other)),
        (get_is_reverse other);
        rewrite ?dom_push_left, ?dom_push_right; set_solver.
    + unfold create_edge, create_edge_nodes. simpl.
      destruct (get_is_reverse h), (decide (h ≠ flip other)),
        (get_is_reverse other);
        repeat (rewrite sequence_push_left || rewrite sequence_push_right);
        done.
  - apply (Hshow (graph (create_edge other h g))); [| |done].
    + apply elem_of_dom. unfold create_edge, create_edge_nodes. simpl.
      destruct (decide (other ≠ flip h)) as [Hne|Heq].
      * destruct (get_is_reverse other), (get_is_reverse h);
          rewrite ?dom_push_left, ?dom_push_right; set_solver.
      * apply dec_stable in Heq. rewrite Heq, get_id_flip.
        destruct (get_is_reverse (flip h));
          rewrite ?dom_push_left, ?dom_push_right; set_solver.
    + unfold create_edge, create_edge_nodes. simpl.
      destruct (get_is_reverse other), (decide (other ≠ flip h)),
        (get_is_reverse h);
        repeat (rewrite sequence_push_left || rewrite sequence_push_right);
        done.
  - apply (Hshow (graph (destroy_edge h other g))); [| |done].
    + apply elem_of_dom. rewrite destroy_edge_unfold. simpl graph.
      rewrite !dom_update_bwd, get_id_flip. set_solver.
    + rewrite destroy_edge_unfold. simpl graph.
      by rewrite !sequence_update_bwd.
  - apply (Hshow (graph (destroy_edge other h g))); [| |done].
    + apply elem_of_dom. rewrite destroy_edge_unfold. simpl graph.
      rewrite !dom_update_bwd. set_solver.
    + rewrite destroy_edge_unfold. simpl graph.
      by rewrite !sequence_update_bwd.
Qed.

Lemma missing_node_behaviour_witness :
  let h := get_handle 5 false in
  let g' := create_edge (get_handle 1 false) h
              (create_handle (seq_of "CT") 1 empty_graph).2 in
  has_node (get_id h) g' = true ∧ get_length h g' = Some 0 ∧
  max_node_id g' = 1 ∧ min_node_id g' = 1.
Proof.
  intros h g'.
  assert (has_node (get_id h) (create_handle (seq_of "CT") 1 empty_graph).2
          = false) as Hmiss by (by vm_compute).
  destruct (missing_node_behaviour h (get_handle 1 false) _ Hmiss)
    as [_ Hnew].
  apply (Hnew g'). right. by left.
Defined.

(** X9: [destroy_handle] undoes [create_handle] except for the bounds:
    creating a node under an identifier that is not live and has no
    occurrence bucket, then destroying it, gives back the node table, the
    paths and the occurrence index as they were, while [max_id] and
    [min_id] keep the values that [create_handle] gave them. *)
Theorem destroy_handle_create_handle (sequence : seq_t) (id : Z)
    (g : HashGraph) :
  valid_id id → has_node id g = false → occurrences g !! id = None →
  let '(h, g1) := create_handle sequence id g in
  destroy_handle h g1
  = set_bounds (Z.max (max_id g) id) (Z.min (min_id g) id) g.
Proof.
  intros Hid Hfresh Hoc. simpl.
  apply bool_decide_eq_false in Hfresh. apply eq_None_not_Some in Hfresh.
  unfold destroy_handle. simpl. rewrite get_id_get_handle by done.
  unfold node_at. rewrite lookup_insert_eq. simpl.
  rewrite insert_insert_eq, delete_insert_id by done.
  rewrite delete_id by done.
  by destruct g.
Qed.

Lemma destroy_handle_create_handle_witness :
  destroy_handle (get_handle 7 false)
    (create_handle (seq_of "ATG") 7 two_edge_graph).2
  = set_bounds 7 1 two_edge_graph.
Proof.
  apply (destroy_handle_create_handle (seq_of "ATG") 7 two_edge_graph);
    by vm_compute.
Defined.

(** * Paths: creating, appending, editing and walking *)

Lemma new_addr_room (st : gmap addr path_mapping_t.t) :
  Z.of_nat (size st) + 1 < two64 → new_addr st = Some (fresh (dom st)).
Proof. intros Hroom. unfold new_addr. by rewrite decide_True. Qed.

Lemma steps_from_null (st : gmap addr path_mapping_t.t) :
  steps_from st None = [].
Proof. unfold steps_from. by destruct (size st). Qed.

Lemma dseg_neighbours st before first l1 a l2 final after :
  dseg st before first (l1 ++ a :: l2) final after →
  ∃ record, st !! a = Some record ∧
    path_mapping_t.prev record = from_option Some before (last l1) ∧
    path_mapping_t.next record = from_option Some after (head l2).
Proof.
  intros Hd. apply dseg_app in Hd as (mf & mh & Hd1 & Hd2).
  destruct Hd2 as (-> & record & Hr & Hprev & Hd2).
  exists record. split; [done|]. split.
  - rewrite Hprev. by eapply dseg_final.
  - by eapply dseg_first.
Qed.

Lemma store_extends_handles k a h st st' cells :
  store_extends k a h st st' → Forall (λ b, is_Some (st !! b)) cells →
  handles_of st' cells = handles_of st cells.
Proof.
  intros (_ & _ & _ & _ & Hold) Hlive. apply handles_of_frame; [|done].
  intros b record _ Hb. destruct (Hold b record Hb) as (record' & ? & ? & _).
  eauto.
Qed.

Lemma store_extends_new k a h st st' :
  store_extends k a h st st' → handles_of st' [a] = [h].
Proof.
  intros (_ & _ & _ & (before & after & Ha) & _).
  unfold handles_of. simpl. by rewrite Ha.
Qed.

Lemma path_cells_live st k p cells :
  path_cells st k p cells → Forall (λ b, is_Some (st !! b)) cells.
Proof. intros (Hd & _). by eapply dseg_cells_live. Qed.

(** X10: [create_path_handle] when the next path identifier is not in
    use.  It returns that identifier and raises no error for a name that
    is taken: the name now resolves to the new, empty path, one path
    more is counted, and every other path, an older one of the same name
    included, stays in the table with its name and steps. *)
Theorem create_path_handle_fresh (name : string) (g : HashGraph) :
  paths g !! next_path_id g = None →
  let '(p, g') := create_path_handle name g in
  p = next_path_id g ∧ next_path_id g' = p + 1 ∧
  has_path name g' = true ∧ get_path_handle name g' = Some p ∧
  get_path_name p g' = Some name ∧
  get_occurrence_count p g' = Some 0 ∧
  get_first_occurrence p g' = Some None ∧
  get_last_occurrence p g' = Some None ∧
  path_handles p g' = [] ∧
  get_path_count g' = S (get_path_count g) ∧
  (∀ q, q ≠ p →
     paths g' !! q = paths g !! q ∧ path_handles q g' = path_handles q g ∧
     get_path_name q g' = get_path_name q g) ∧
  (∀ other, other ≠ name →
     get_path_handle other g' = get_path_handle other g) ∧
  store g' = store g ∧ occurrences g' = occurrences g ∧ graph g' = graph g.
Proof.
  intros Hfresh. unfold create_path_handle. rewrite Hfresh. simpl.
  unfold has_path, get_path_handle, get_path_name, get_occurrence_count,
    get_first_occurrence, get_last_occurrence, get_path_count, path_handles,
    path_steps, path_at. simpl.
  rewrite !lookup_insert_eq. simpl. rewrite steps_from_null.
  repeat split; try done.
  - by rewrite map_size_insert_None.
  - by rewrite lookup_insert_ne.
  - by rewrite lookup_insert_ne.
  - by rewrite lookup_insert_ne.
  - intros other Hother. by rewrite lookup_insert_ne.
Qed.

Lemma create_path_handle_fresh_witness :
  let g := (create_path_handle "x" empty_graph).2 in
  let '(p, g') := create_path_handle "x" g in
  p = 2 ∧ get_path_handle "x" g' = Some 2 ∧
  get_path_name 1 g' = Some "x" ∧ get_path_count g' = 2%nat.
Proof.
  intros g.
  assert (paths g !! next_path_id g = None) as Hfresh by (by vm_compute).
  pose proof (create_path_handle_fresh "x" g Hfresh) as Hnew.
  destruct (create_path_handle "x" g) as [p g'].
  destruct Hnew as (Hp & _ & _ & Hh & _ & _ & _ & _ & _ & Hc & Hold & _).
  split; [by rewrite Hp|]. split; [by rewrite Hh, Hp|].
  split.
  - destruct (Hold 1) as (_ & _ & ->); [by rewrite Hp|]. by vm_compute.
  - rewrite Hc. by vm_compute.
Defined.

(** X11: [append_occurrence] on a live path of a well-formed path store,
    with room for one more record.  The new step is a record that was
    not there, it holds the handle, it is the last step of the path and
    follows the former tail; the path's steps and handles are the old
    ones followed by the new one, the stored count grows by one, the step
    is filed last in the bucket of its node, and the other paths and the
    nodes are left alone. *)
Theorem append_occurrence_appends (path : Z) (h : handle_t) (g : HashGraph)
    (p : path_t.t) :
  paths_wf g → paths g !! path = Some p →
  Z.of_nat (size (store g)) + 1 < two64 →
  ∃ mapping g',
    append_occurrence path h g = Some ((path, mapping), g') ∧
    store g !! mapping = None ∧
    get_occurrence mapping g' = Some h ∧
    path_steps path g' = path_steps path g ++ [mapping] ∧
    path_handles path g' = path_handles path g ++ [h] ∧
    get_occurrence_count path g' = Some (path_t.count p + 1) ∧
    get_last_occurrence path g' = Some (Some mapping) ∧
    get_next_occurrence mapping g' = Some None ∧
    get_previous_occurrence mapping g' = Some (path_t.tail p) ∧
    occurrences g' !! get_id h
    = Some (default [] (occurrences g !! get_id h) ++ [mapping]) ∧
    (∀ q, q ≠ path →
       paths g' !! q = paths g !! q ∧
       path_handles q g' = path_handles q g) ∧
    graph g' = graph g.
Proof.
  intros Hwf Hp Hroom.
  destruct (wf_paths _ _ Hwf path p Hp) as [cells Hcells].
  pose proof (new_addr_room _ Hroom) as Hnew.
  set (a := fresh (dom (store g))) in *.
  destruct (push_back_cells _ _ _ _ a h Hcells Hnew)
    as (p' & st' & Hpush & Hcells' & Hext & Hname).
  pose proof (new_addr_spec _ _ Hnew) as [Ha _].
  exists a. eexists. unfold append_occurrence, path_at. rewrite Hp. simpl.
  rewrite Hpush. simpl. split; [done|]. split; [done|].
  unfold get_occurrence, path_steps, path_handles, path_steps,
    get_occurrence_count, get_last_occurrence, get_next_occurrence,
    get_previous_occurrence, path_at. simpl.
  rewrite !lookup_insert_eq, Hp. simpl.
  rewrite (path_cells_steps _ _ _ _ Hcells), (path_cells_steps _ _ _ _ Hcells').
  pose proof Hcells' as (Hd' & _ & Hcount' & _).
  pose proof Hcells as (Hd & _ & Hcount & _).
  destruct (dseg_neighbours _ _ _ _ _ _ _ _ Hd')
    as (record & Hrec & Hprev & Hnext).
  pose proof Hext as (_ & _ & _ & (before & after & Hnewrec) & _).
  rewrite Hrec in Hnewrec. injection Hnewrec as ->.
  rewrite Hrec. simpl.
  split; [done|]. split; [done|]. split.
  { rewrite handles_of_app, (store_extends_handles _ _ _ _ _ _ Hext),
      (store_extends_new _ _ _ _ _ Hext); [done|].
    by eapply path_cells_live. }
  split. { rewrite Hcount', Hcount, length_app. simpl. f_equal. lia. }
  split.
  { f_equal. apply dseg_final in Hd'. by rewrite last_snoc in Hd'. }
  simpl in Hprev, Hnext. split; [by rewrite Hnext|].
  split.
  { rewrite Hprev. f_equal. apply dseg_final in Hd.
    rewrite Hd. by destruct (last cells). }
  split. { unfold push_occurrence. by rewrite lookup_insert_eq. }
  split; [|done].
  intros q Hq. rewrite lookup_insert_ne by done. split; [done|].
  destruct (paths g !! q) as [pq|] eqn:Epq; simpl.
  - destruct (wf_paths _ _ Hwf q pq Epq) as [cq Hcq].
    pose proof (path_cells_other _ _ _ _ _ _ _ _ Hext Hq Hcq) as Hcq'.
    rewrite (path_cells_steps _ _ _ _ Hcq), (path_cells_steps _ _ _ _ Hcq').
    apply (store_extends_handles _ _ _ _ _ _ Hext).
    by eapply path_cells_live.
  - by rewrite !steps_from_null.
Qed.

Lemma append_occurrence_appends_witness :
  let g := (create_path_handle "1"
              (create_handle (seq_of "ATG") 2 empty_graph).2).2 in
  ∃ mapping g',
    append_occurrence 1 (get_handle 2 true) g = Some ((1, mapping), g') ∧
    path_handles 1 g' = [] ++ [get_handle 2 true].
Proof.
  intros g.
  assert (paths_wf g) as Hwf
    by (apply create_path_handle_wf, paths_wf_empty_graph).
  assert (paths g !! 1 = Some (path_t.create "1" 1)) as Hp by (by vm_compute).
  assert (Z.of_nat (size (store g)) + 1 < two64) as Hroom by (by vm_compute).
  destruct (append_occurrence_appends 1 (get_handle 2 true) g _ Hwf Hp Hroom)
    as (mapping & g' & Happ & _ & _ & _ & Hh & _).
  exists mapping, g'. split; [done|]. rewrite Hh. by vm_compute.
Defined.

(** X12: [insert_after] and [push_front] on a well-formed list of steps
    with room for one more record.  [insert_after(h, m)] puts the new
    step right behind [m], [insert_after(h, nullptr)] and [push_front(h)]
    put it in front of the head; the other steps keep their order and
    their handles, and the stored count grows by one. *)
Theorem insert_after_position (st : gmap addr path_mapping_t.t) (k : Z)
    (p : path_t.t) (cells : list addr) (h : handle_t) :
  path_cells st k p cells → Z.of_nat (size st) + 1 < two64 →
  push_front h p st = insert_after h None p st ∧
  (∃ a p' st',
     push_front h p st = Some (a, p', st') ∧
     path_cells st' k p' (a :: cells) ∧
     handles_of st' (a :: cells) = h :: handles_of st cells ∧
     path_t.count p' = path_t.count p + 1) ∧
  (∀ l1 m l2, cells = l1 ++ m :: l2 →
     ∃ a p' st',
       insert_after h (Some m) p st = Some (a, p', st') ∧
       path_cells st' k p' (l1 ++ m :: a :: l2) ∧
       handles_of st' (l1 ++ m :: a :: l2)
       = handles_of st (l1 ++ [m]) ++ h :: handles_of st l2 ∧
       path_t.count p' = path_t.count p + 1).
Proof.
  intros Hcells Hroom.
  pose proof (new_addr_room _ Hroom) as Hnew.
  pose proof (path_cells_live _ _ _ _ Hcells) as Hlive.
  assert (push_front h p st = insert_after h None p st) as Hsame.
  { unfold push_front, insert_after. destruct (new_addr st); [|done].
    simpl. by destruct (path_t.head p). }
  split; [done|]. split.
  - rewrite Hsame.
    destruct (insert_after_cells _ _ _ _ _ h None Hcells Hnew)
      as (p' & st' & cells' & Hins & Hcells' & Hext & _ & Hfront & _);
      [done|].
    rewrite (Hfront eq_refl) in Hcells'.
    eexists _, p', st'. split; [done|]. split; [done|]. split.
    + change (fresh (dom st) :: cells) with ([fresh (dom st)] ++ cells).
      rewrite handles_of_app, (store_extends_new _ _ _ _ _ Hext).
      by rewrite (store_extends_handles _ _ _ _ _ _ Hext).
    + destruct Hcells' as (_ & _ & -> & _). destruct Hcells as (_ & _ & -> & _).
      simpl length. lia.
  - intros l1 m l2 ->.
    destruct (insert_after_cells _ _ _ _ _ h (Some m) Hcells Hnew)
      as (p' & st' & cells' & Hins & Hcells' & Hext & _ & _ & Hmid).
    { intros ? [= <-]. apply elem_of_app. right. by left. }
    rewrite (Hmid m l1 l2 eq_refl eq_refl) in Hcells'.
    eexists _, p', st'. split; [done|]. split; [done|]. split.
    + apply Forall_app in Hlive as [Hl1 Hl2].
      apply Forall_cons in Hl2 as [Hm Hl2].
      change (l1 ++ m :: fresh (dom st) :: l2)
        with (l1 ++ [m] ++ [fresh (dom st)] ++ l2).
      rewrite !handles_of_app, (store_extends_new _ _ _ _ _ Hext).
      rewrite !(store_extends_handles _ _ _ _ _ _ Hext); try done.
      * by rewrite <- app_assoc.
      * by constructor.
    + destruct Hcells' as (_ & _ & -> & _). destruct Hcells as (_ & _ & -> & _).
      rewrite !length_app. simpl length. lia.
Qed.

Lemma one_step_path_cells :
  ∃ g a p, one_step_graph = Some g ∧ paths_wf g ∧ paths g !! 1 = Some p ∧
    path_cells (store g) 1 p [a] ∧
    handles_of (store g) [a] = [get_handle 2 false] ∧
    Z.of_nat (size (store g)) + 1 < two64.
Proof.
  set (g0 := (create_path_handle "1"
                (create_handle (seq_of "ATG") 2 empty_graph).2).2).
  assert (paths_wf g0) as Hwf
    by (apply create_path_handle_wf, paths_wf_empty_graph).
  assert (paths g0 !! 1 = Some (path_t.create "1" 1)) as Hp by (by vm_compute).
  assert (Z.of_nat (size (store g0)) + 1 < two64) as Hroom by (by vm_compute).
  destruct (append_occurrence_wf 1 (get_handle 2 false) g0 Hwf)
    as [Hsome Hkeep]; [by rewrite Hp|].
  destruct (Hsome Hroom) as [[r g] Hg].
  pose proof (Hkeep r g Hg) as Hwf'.
  assert (one_step_graph = Some g) as Hone.
  { transitivity ('(_, g) ← append_occurrence 1 (get_handle 2 false) g0;
                  Some g); [reflexivity|]. by rewrite Hg. }
  assert (∃ a p, paths g !! 1 = Some p ∧ path_steps 1 g = [a] ∧
                 handles_of (store g) [a] = [get_handle 2 false] ∧
                 Z.of_nat (size (store g)) + 1 < two64) as (a & p & Hp' & Hs & Hh & Hr).
  { assert (Some g = one_step_graph) as Hone' by done.
    vm_compute in Hone'. injection Hone' as ->.
    eexists _, _. split; [by vm_compute|]. split; [by vm_compute|].
    split; by vm_compute. }
  exists g, a, p. split; [done|]. split; [done|]. split; [done|].
  destruct (wf_paths _ _ Hwf' 1 p Hp') as [cells Hcells].
  pose proof (path_cells_steps _ _ _ _ Hcells) as Hsteps.
  unfold path_steps, path_at in Hs. rewrite Hp' in Hs. simpl in Hs.
  rewrite Hs in Hsteps. subst cells. done.
Qed.

Lemma insert_after_position_witness :
  ∃ g a p, one_step_graph = Some g ∧
    ∃ b p' st',
      push_front (get_handle 2 true) p (store g) = Some (b, p', st') ∧
      handles_of st' (b :: [a]) = [get_handle 2 true; get_handle 2 false].
Proof.
  destruct one_step_path_cells
    as (g & a & p & Hg & _ & Hp & Hcells & Hh & Hroom).
  exists g, a, p. split; [done|].
  destruct (insert_after_position _ _ _ _ (get_handle 2 true) Hcells Hroom)
    as (_ & (b & p' & st' & Hpush & _ & Hhandles & _) & _).
  exists b, p', st'. split; [done|]. by rewrite Hhandles, Hh.
Defined.

(** * Unlinking a step, and walking a path in both directions *)

Section unlinking.
Implicit Types st : gmap addr path_mapping_t.t.
Implicit Types cells : list addr.

(** Pointing the first record of a segment at another predecessor. *)
Lemma dseg_set_prev st before n cells final after rec_n pv :
  dseg st before (Some n) (n :: cells) final after →
  n ∉ cells → st !! n = Some rec_n →
  dseg (<[n := path_mapping_t.set_prev pv rec_n]> st) pv (Some n)
       (n :: cells) final after.
Proof.
  intros (_ & record & Hr & Hprev & Hd) Hn Hrn.
  assert (record = rec_n) as -> by congruence.
  split; [done|]. eexists. rewrite lookup_insert_eq.
  split; [done|]. split; [done|]. simpl.
  eapply dseg_frame; [|done]. intros b Hb.
  rewrite lookup_insert_ne; [done|]. by intros ->.
Qed.

(** Pointing the last record of a segment at another successor. *)
Lemma dseg_set_next st before first cells q final after rec_q nx :
  dseg st before first (cells ++ [q]) final after →
  q ∉ cells → st !! q = Some rec_q →
  dseg (<[q := path_mapping_t.set_next nx rec_q]> st) before first
       (cells ++ [q]) final nx.
Proof.
  intros Hd Hq Hrq. apply dseg_app in Hd as (mf & mh & Hd1 & Hd2).
  destruct Hd2 as (-> & record & Hr & Hprev & Hnext & Hfinal).
  assert (record = rec_q) as -> by congruence.
  apply dseg_app. exists mf, (Some q). split.
  - eapply dseg_frame; [|done]. intros b Hb.
    rewrite lookup_insert_ne; [done|]. by intros ->.
  - split; [done|]. eexists. rewrite lookup_insert_eq.
    split; [done|]. split; [done|]. simpl. done.
Qed.

Lemma list_nil_or_snoc {A} (l : list A) : l = [] ∨ ∃ l' x, l = l' ++ [x].
Proof.
  destruct l as [|x l _] using rev_ind; [by left|right; eauto].
Qed.

(** X13: [path_t::remove] on a step of a well-formed list.  The record
    is taken off the list and freed; the steps before it and the steps
    behind it are linked to each other, keep their order and their
    handles, head and tail move when the step was first or last, and
    the stored count drops by one. *)
Theorem remove_unlinks st (k : Z) (p : path_t.t) (l1 l2 : list addr)
    (m : addr) :
  path_cells st k p (l1 ++ m :: l2) → Z.of_nat (size st) < two64 →
  ∃ p' st',
    remove m p st = Some (p', st') ∧
    path_cells st' k p' (l1 ++ l2) ∧
    st' !! m = None ∧ dom st' = dom st ∖ {[m]} ∧
    handles_of st' (l1 ++ l2) = handles_of st l1 ++ handles_of st l2 ∧
    path_t.count p' = path_t.count p - 1 ∧
    path_t.name p' = path_t.name p.
Proof.
  intros Hcells Hroom.
  pose proof (path_cells_live _ _ _ _ Hcells) as Hlive.
  destruct Hcells as (Hd & Hnd & Hcount & Hids & Hkey).
  pose proof (cells_le_size st _ Hnd Hlive) as Hlen.
  pose proof Hd as Hwhole.
  apply dseg_app in Hd as (mf & mh & Hd1 & Hd2).
  destruct Hd2 as (-> & rec_m & Hrm & Hprev & Hd2).
  pose proof (dseg_final _ _ _ _ _ _ Hd1) as Hmf.
  pose proof (dseg_first _ _ _ _ _ _ Hd1) as Hhead.
  pose proof (dseg_first _ _ _ _ _ _ Hd2) as Hnx.
  pose proof (dseg_final _ _ _ _ _ _ Hd2) as Htail.
  apply NoDup_app in Hnd as (Hnd1 & Hdisj & Hnd2).
  apply NoDup_cons in Hnd2 as [Hm_l2 Hnd2].
  assert (m ∉ l1) as Hm_l1 by (intros Hin; apply (Hdisj m Hin); by left).
  assert (∀ b, b ∈ l1 → b ∉ l2) as Hsep
    by (intros b Hb Hb'; apply (Hdisj b Hb); by right).
  apply Forall_app in Hids as [Hids1 Hids2].
  apply Forall_cons in Hids2 as [_ Hids2].
  apply Forall_app in Hlive as [Hlive1 Hlive2].
  apply Forall_cons in Hlive2 as [_ Hlive2].
  unfold remove. rewrite Hrm. simpl.
  (* the store after the two relinking steps *)
  set (st1 := match l2 with
              | n :: _ =>
                  match st !! n with
                  | Some rec_n =>
                      <[n := path_mapping_t.set_prev
                               (path_mapping_t.prev rec_m) rec_n]> st
                  | None => st
                  end
              | [] => st
              end).
  assert (match path_mapping_t.next rec_m with
          | Some n =>
              n_record ← st !! n;
              Some (<[n := path_mapping_t.set_prev
                             (path_mapping_t.prev rec_m) n_record]> st)
          | None => Some st
          end = Some st1) as Hst1.
  { rewrite Hnx. unfold st1. destruct l2 as [|n l2']; [done|]. simpl.
    apply Forall_cons in Hlive2 as [[rec_n Hrn] _]. by rewrite Hrn. }
  rewrite Hst1. simpl.
  assert (∀ b, b ∉ l2 → st1 !! b = st !! b) as Hst1_out.
  { intros b Hb. unfold st1. destruct l2 as [|n l2']; [done|].
    destruct (st !! n); [|done]. rewrite lookup_insert_ne; [done|].
    intros ->. apply Hb. by left. }
  set (st2 := match last l1 with
              | Some q =>
                  match st !! q with
                  | Some rec_q =>
                      <[q := path_mapping_t.set_next
                               (path_mapping_t.next rec_m) rec_q]> st1
                  | None => st1
                  end
              | None => st1
              end).
  assert (match path_mapping_t.prev rec_m with
          | Some q =>
              q_record ← st1 !! q;
              Some (<[q := path_mapping_t.set_next
                             (path_mapping_t.next rec_m) q_record]> st1)
          | None => Some st1
          end = Some st2) as Hst2.
  { rewrite Hprev, Hmf. unfold st2.
    destruct (list_nil_or_snoc l1) as [->|(l1' & q & ->)]; [done|].
    rewrite last_snoc. simpl.
    apply Forall_app in Hlive1 as [_ Hq].
    apply Forall_singleton in Hq as [rec_q Hrq].
    rewrite Hst1_out, Hrq; [done|].
    apply Hsep. apply elem_of_app. right. by left. }
  rewrite Hst2. simpl.
  assert (∀ b, b ∉ l1 → st2 !! b = st1 !! b) as Hst2_out.
  { intros b Hb. unfold st2. destruct (last l1) as [q|] eqn:Hq; [|done].
    destruct (st !! q); [|done]. rewrite lookup_insert_ne; [done|].
    intros ->. apply Hb. apply last_Some in Hq as [l' ->].
    apply elem_of_app. right. by left. }
  (* the two halves of the new list *)
  assert (dseg (delete m st2) None
            (if decide (Some m = path_t.head p)
             then path_mapping_t.next rec_m else path_t.head p)
            l1 mf (path_mapping_t.next rec_m)) as HA.
  { destruct (list_nil_or_snoc l1) as [->|(l1' & q & ->)].
    - simpl in Hhead, Hmf. rewrite Hhead, decide_True by done.
      by rewrite Hmf.
    - assert (Some m ≠ path_t.head p) as Hne.
      { rewrite Hhead. destruct l1' as [|x l1'']; simpl.
        - intros [= ->]. apply Hm_l1. by left.
        - intros [= ->]. apply Hm_l1. by left. }
      rewrite decide_False by done.
      apply NoDup_app in Hnd1 as (_ & Hq & _).
      assert (q ∉ l1') as Hq_l1'
        by (intros Hin; apply (Hq q Hin); by left).
      pose proof Hlive1 as Hlive1'.
      apply Forall_app in Hlive1' as [_ Hlq].
      apply Forall_singleton in Hlq as [rec_q Hrq].
      pose proof (dseg_set_next _ _ _ _ _ _ _ _
                    (path_mapping_t.next rec_m) Hd1 Hq_l1' Hrq) as Hd1'.
      eapply dseg_frame; [|exact Hd1'].
      intros b Hb. rewrite lookup_delete_ne by (by intros ->).
      unfold st2. rewrite last_snoc, Hrq.
      destruct (decide (b = q)) as [->|Hbq].
      + by rewrite !lookup_insert_eq.
      + rewrite !lookup_insert_ne by done.
        apply Hst1_out. by apply Hsep. }
  assert (dseg (delete m st2) mf (path_mapping_t.next rec_m) l2
            (if decide (Some m = path_t.tail p)
             then path_mapping_t.prev rec_m else path_t.tail p)
            None) as HB.
  { destruct l2 as [|n l2'].
    - simpl in Hnx, Htail. rewrite Htail, decide_True by done.
      by rewrite Hnx, Hprev.
    - assert (Some m ≠ path_t.tail p) as Hne.
      { rewrite Htail. destruct (last (n :: l2')) as [z|] eqn:Hz.
        - simpl. intros [= ->]. apply Hm_l2.
          apply last_Some in Hz as [l' ->]. apply elem_of_app.
          right. by left.
        - by apply last_None in Hz. }
      rewrite decide_False by done.
      apply NoDup_cons in Hnd2 as [Hn_l2' _].
      pose proof Hlive2 as Hlive2'.
      apply Forall_cons in Hlive2' as [[rec_n Hrn] _].
      simpl in Hnx. rewrite Hnx in Hd2 |- *.
      pose proof (dseg_set_prev _ _ _ _ _ _ _ mf Hd2 Hn_l2' Hrn) as Hd2'.
      eapply dseg_frame; [|exact Hd2'].
      intros b Hb. rewrite lookup_delete_ne by (by intros ->).
      rewrite Hst2_out by (intros Hin; by apply (Hsep b Hin)).
      unfold st1. rewrite Hrn, Hprev. done. }
  assert (∀ b record, b ≠ m → st !! b = Some record →
            ∃ record', delete m st2 !! b = Some record' ∧
              path_mapping_t.handle record' = path_mapping_t.handle record ∧
              path_mapping_t.path_id record'
              = path_mapping_t.path_id record) as Hkeep.
  { intros b record Hbm Hb. rewrite lookup_delete_ne by done.
    assert (∃ record1, st1 !! b = Some record1 ∧
              path_mapping_t.handle record1 = path_mapping_t.handle record ∧
              path_mapping_t.path_id record1
              = path_mapping_t.path_id record) as (record1 & Hb1 & Hh1 & Hk1).
    { unfold st1. destruct l2 as [|n l2']; [eauto|].
      destruct (st !! n) as [rec_n|] eqn:Hrn; [|eauto].
      destruct (decide (b = n)) as [->|Hbn].
      - rewrite lookup_insert_eq. eexists. split; [done|].
        assert (record = rec_n) as -> by congruence. done.
      - rewrite lookup_insert_ne by done. eauto. }
    unfold st2. destruct (last l1) as [q|]; [|eauto].
    destruct (st !! q) as [rec_q|] eqn:Hrq; [|eauto].
    destruct (decide (b = q)) as [->|Hbq].
    - rewrite lookup_insert_eq. eexists. split; [done|].
      assert (record = rec_q) as -> by congruence. done.
    - rewrite lookup_insert_ne by done. eauto. }
  eexists _, _. split; [done|].
  split; [|split; [|split; [|split; [|split]]]]; simpl.
  - split; [|split; [|split; [|split]]]; simpl.
    + apply dseg_app. eauto.
    + apply NoDup_app. split; [done|]. split; [|done]. apply Hsep.
    + rewrite Hcount. rewrite !length_app in *. simpl length in *.
      rewrite wrap64_small; lia.
    + apply Forall_app. split.
      * apply Forall_forall. intros b Hb.
        rewrite Forall_forall in Hids1.
        destruct (Hids1 b Hb) as (record & Hrb & Hkb).
        destruct (Hkeep b record) as (record' & ? & _ & ?);
          [by intros ->|done|]. exists record'. split; [done|]. congruence.
      * apply Forall_forall. intros b Hb.
        rewrite Forall_forall in Hids2.
        destruct (Hids2 b Hb) as (record & Hrb & Hkb).
        destruct (Hkeep b record) as (record' & ? & _ & ?);
          [by intros ->|done|]. exists record'. split; [done|]. congruence.
    + done.
  - apply lookup_delete_eq.
  - rewrite dom_delete_L. f_equal.
    assert (dom st1 = dom st) as Hdom1.
    { unfold st1. destruct l2 as [|n l2']; [done|].
      destruct (st !! n) eqn:Hrn; [|done]. rewrite dom_insert_L.
      apply elem_of_dom_2 in Hrn. set_solver. }
    unfold st2. destruct (last l1) as [q|]; [|done].
    destruct (st !! q) eqn:Hrq; [|done]. rewrite dom_insert_L.
    apply elem_of_dom_2 in Hrq. set_solver.
  - rewrite handles_of_app. f_equal; apply handles_of_frame; try done.
    + intros b record Hb Hrb. destruct (Hkeep b record) as (r' & ? & ? & _);
        [by intros ->|done|eauto].
    + intros b record Hb Hrb. destruct (Hkeep b record) as (r' & ? & ? & _);
        [by intros ->|done|eauto].
  - rewrite Hcount. rewrite !length_app in *. simpl length in *.
    rewrite wrap64_small; lia.
  - done.
Qed.
End unlinking.

Lemma remove_unlinks_witness :
  ∃ g a p, one_step_graph = Some g ∧
    ∃ p' st', remove a p (store g) = Some (p', st') ∧
              path_cells st' 1 p' ([] ++ []) ∧ st' !! a = None.
Proof.
  destruct one_step_path_cells
    as (g & a & p & Hg & _ & Hp & Hcells & Hh & Hroom).
  exists g, a, p. split; [done|].
  assert (Z.of_nat (size (store g)) < two64) as Hroom' by lia.
  destruct (remove_unlinks (store g) 1 p [] [] a Hcells Hroom')
    as (p' & st' & Hrem & Hcells' & Hgone & _).
  by exists p', st'.
Defined.

(** X14: walking a path.  In a well-formed path store, for a step [a]
    of path [k] with the steps [l1] before it and [l2] behind it:
    [get_previous_occurrence] gives the last step of [l1] (null for the
    first step), [get_next_occurrence] the first step of [l2] (null for
    the last step), [has_next_occurrence] and [has_previous_occurrence]
    say whether those are there, [get_first_occurrence] and
    [get_last_occurrence] give the two ends of the walk, and the record
    names path [k]. *)
Theorem occurrence_navigation (g : HashGraph) (k : Z) (p : path_t.t)
    (l1 l2 : list addr) (a : addr) :
  paths_wf g → paths g !! k = Some p → path_steps k g = l1 ++ a :: l2 →
  get_previous_occurrence a g = Some (last l1) ∧
  get_next_occurrence a g = Some (head l2) ∧
  has_previous_occurrence a g = Some (bool_decide (l1 ≠ [])) ∧
  has_next_occurrence a g = Some (bool_decide (l2 ≠ [])) ∧
  get_first_occurrence k g = Some (head (l1 ++ a :: l2)) ∧
  get_last_occurrence k g = Some (last (l1 ++ a :: l2)) ∧
  (∃ record, store g !! a = Some record ∧
             path_mapping_t.path_id record = k).
Proof.
  intros Hwf Hp Hsteps.
  destruct (wf_paths _ _ Hwf k p Hp) as [cells Hcells].
  pose proof (path_cells_steps _ _ _ _ Hcells) as Hs.
  unfold path_steps, path_at in Hsteps. rewrite Hp in Hsteps. simpl in Hsteps.
  rewrite Hsteps in Hs. subst cells.
  destruct Hcells as (Hd & Hnd & _ & Hids & _).
  destruct (dseg_neighbours _ _ _ _ _ _ _ _ Hd) as (record & Hr & Hprev & Hnext).
  unfold get_previous_occurrence, get_next_occurrence,
    has_previous_occurrence, has_next_occurrence, get_first_occurrence,
    get_last_occurrence. rewrite Hr, Hp. simpl. rewrite Hprev, Hnext.
  split; [by destruct (last l1)|]. split; [by destruct (head l2)|].
  split.
  { f_equal. apply bool_decide_ext.
    destruct (list_nil_or_snoc l1) as [->|(l' & x & ->)]; [done|].
    rewrite last_snoc. simpl. split; [|done]. intros _. by destruct l'. }
  split. { f_equal. apply bool_decide_ext. by destruct l2. }
  split.
  { f_equal. apply dseg_first in Hd. rewrite Hd.
    by destruct (head (l1 ++ a :: l2)) eqn:E; [|destruct l1]. }
  split.
  { f_equal. apply dseg_final in Hd. rewrite Hd.
    destruct (last (l1 ++ a :: l2)) eqn:E; [done|].
    apply last_None in E. by destruct l1. }
  apply Forall_app in Hids as [_ Hids].
  apply Forall_cons in Hids as [(record' & Hr' & Hk) _].
  assert (record' = record) as -> by congruence. by exists record.
Qed.

Lemma occurrence_navigation_witness :
  ∃ g a, one_step_graph = Some g ∧
    get_previous_occurrence a g = Some (last []) ∧
    get_next_occurrence a g = Some (head []) ∧
    get_first_occurrence 1 g = Some (head ([] ++ a :: [])).
Proof.
  destruct one_step_path_cells
    as (g & a & p & Hg & Hwf & Hp & Hcells & Hh & Hroom).
  exists g, a. split; [done|].
  assert (path_steps 1 g = [] ++ a :: []) as Hsteps.
  { unfold path_steps, path_at. rewrite Hp. simpl.
    by eapply path_cells_steps. }
  destruct (occurrence_navigation g 1 p [] [] a Hwf Hp Hsteps)
    as (H1 & H2 & _ & _ & H3 & _).
  done.
Defined.

(** * Visiting every path *)

Section visiting_facts.
Context {A S : Type}.
Implicit Types iteratee : A → S → bool * S.

Lemma visit_until_contract iteratee (range : list A) (s : S) :
  ∃ visited rest,
    range = visited ++ rest ∧
    stops_at_refusal iteratee visited rest s
      (visit_until iteratee range s).
Proof.
  revert s. induction range as [|x range IH]; intros s.
  - exists [], []. split; [done|]. split; [done|]. simpl. by split.
  - simpl. destruct (iteratee x s) as [k s'] eqn:E. destruct k.
    + destruct (IH s') as (visited & rest & -> & Hlast & Hstop).
      exists (x :: visited), rest. split; [done|].
      unfold stops_at_refusal. simpl. rewrite E.
      destruct (answers iteratee visited s') as [ks s''] eqn:Ea.
      simpl in *. split; [done|].
      destruct (visit_until iteratee (visited ++ rest) s').1.
      * destruct Hstop as [-> Hall]. split; [done|]. by constructor.
      * destruct Hstop as (accepted & -> & Hall).
        exists (true :: accepted). split; [done|]. by constructor.
    + exists [x], range. split; [done|].
      unfold stops_at_refusal. simpl. rewrite E. simpl.
      split; [done|]. exists []. by split.
Qed.
End visiting_facts.

(** X15: [for_each_path_handle] hands every path of the table to the
    iteratee once, in the table's iteration order, returns [false] right
    after the first refusal without visiting the paths behind it, and
    returns [true] when every path was accepted. *)
Theorem for_each_path_handle_contract `{HashOrder} {S : Type}
    (iteratee : Z → S → bool * S) (g : HashGraph) (s : S) :
  let ids := hash_keys (paths g) in
  NoDup ids ∧ (∀ k, k ∈ ids ↔ is_Some (paths g !! k)) ∧
  ∃ visited rest,
    ids = visited ++ rest ∧
    stops_at_refusal iteratee visited rest s
      (for_each_path_handle_impl iteratee g s).
Proof.
  intros ids. split; [apply NoDup_hash_keys|].
  split; [intros k; apply elem_of_hash_keys|].
  apply visit_until_contract.
Qed.

(** * The occurrence index *)

Lemma elem_of_remove_first_NoDup {A} `{EqDecision A} (x b : A) (l : list A) :
  NoDup l → b ∈ remove_first (λ y, y = x) l ↔ b ∈ l ∧ b ≠ x.
Proof.
  intros Hnd. unfold remove_first.
  destruct (list_find (λ y, y = x) l) as [[i y]|] eqn:E.
  - pose proof (remove_first_found (λ y, y = x) l i y E) as Hperm.
    unfold remove_first in Hperm. rewrite E in Hperm. rewrite Hperm.
    apply list_find_Some in E as (Hi & -> & _).
    apply list_elem_of_split_length in Hi as (l1 & l2 & -> & ->).
    rewrite delete_middle.
    apply NoDup_app in Hnd as (_ & Hdisj & Hnd2).
    apply NoDup_cons in Hnd2 as [Hx2 _].
    rewrite !elem_of_app, elem_of_cons. split.
    + intros [Hb|Hb]; (split; [tauto|]); intros ->.
      * apply (Hdisj x Hb). by left.
      * done.
    + intros [[Hb|[->|Hb]] Hne]; tauto.
  - apply list_find_None in E. split; [|tauto].
    intros Hb. split; [done|]. intros ->.
    rewrite Forall_forall in E. by apply (E x Hb).
Qed.

Lemma NoDup_remove_first {A} (P : A → Prop) `{∀ x, Decision (P x)}
    (l : list A) :
  NoDup l → NoDup (remove_first P l).
Proof.
  intros Hnd. eapply sublist_NoDup; [|done].
  pose proof (remove_first_perm_sub P l) as Hsub.
  apply submseteq_Permutation in Hsub as [k Hk].
  assert (NoDup (remove_first P l ++ k)) as Hnd' by (by rewrite <- Hk).
  apply NoDup_app in Hnd' as [Hnd' _].
  apply NoDup_ListNoDup in Hnd'. apply NoDup_ListNoDup.
  eapply List.NoDup_incl_NoDup; [exact Hnd'| |]; [done|]. by intros ?.
Qed.

(** What the loop of [destroy_path] leaves in the buckets. *)
Lemma forget_occurrences_buckets (st : gmap addr path_mapping_t.t)
    (gone : list addr) (oc : gmap Z (list addr)) :
  (∀ x bucket, oc !! x = Some bucket →
     NoDup bucket ∧
     ∀ b, b ∈ bucket →
       ∃ record, st !! b = Some record ∧
                 get_id (path_mapping_t.handle record) = x) →
  let oc' := foldl (forget_occurrence st) oc gone in
  (∀ x bucket, oc' !! x = Some bucket → NoDup bucket) ∧
  (∀ x b, b ∈ default [] (oc' !! x) ↔
          b ∈ default [] (oc !! x) ∧ (b ∈ gone → st !! b = None)).
Proof.
  revert oc. induction gone as [|a gone IH]; intros oc Hwf; simpl.
  - split; [intros x bucket Hx; by apply (Hwf x bucket)|].
    intros x b. split; [|tauto]. intros Hb. split; [done|].
    intros Hin. by apply elem_of_nil in Hin.
  - set (oc1 := forget_occurrence st oc a).
    assert (∀ x b, b ∈ default [] (oc1 !! x) ↔
              b ∈ default [] (oc !! x) ∧ (b = a → st !! b = None)) as Hstep.
    { intros x b. unfold oc1, forget_occurrence.
      destruct (st !! a) as [record|] eqn:Ea.
      2:{ split; [|tauto]. intros Hb. split; [done|]. by intros ->. }
      destruct (decide (x = get_id (path_mapping_t.handle record)))
        as [->|Hne].
      - rewrite lookup_insert_eq. simpl.
        rewrite elem_of_remove_first_NoDup.
        + split; [intros [? ?]; split; [done|]; by intros ->|].
          intros [? Hnone]. split; [done|]. intros ->.
          specialize (Hnone eq_refl). congruence.
        + destruct (oc !! get_id (path_mapping_t.handle record)) eqn:E;
            simpl; [by eapply Hwf|apply NoDup_nil_2].
      - rewrite lookup_insert_ne by done. split; [|tauto].
        intros Hb. split; [done|]. intros ->. exfalso.
        destruct (oc !! x) as [bucket|] eqn:E; simpl in Hb;
          [|by apply elem_of_nil in Hb].
        destruct (Hwf x bucket E) as [_ Hlive].
        destruct (Hlive a Hb) as (r & Hr & Hid). congruence. }
    assert (∀ x bucket, oc1 !! x = Some bucket →
              NoDup bucket ∧
              ∀ b, b ∈ bucket →
                ∃ record, st !! b = Some record ∧
                          get_id (path_mapping_t.handle record) = x) as Hwf1.
    { intros x bucket Hx. split.
      - revert Hx. unfold oc1, forget_occurrence.
        destruct (st !! a) as [record|]; [|intros Hx; by apply (Hwf x)].
        destruct (decide (x = get_id (path_mapping_t.handle record)))
          as [->|Hne].
        + rewrite lookup_insert_eq. intros [= <-].
          apply NoDup_remove_first.
          destruct (oc !! get_id (path_mapping_t.handle record)) eqn:E;
            simpl; [by eapply Hwf|apply NoDup_nil_2].
        + rewrite lookup_insert_ne by done. intros Hx. by apply (Hwf x).
      - intros b Hb.
        assert (b ∈ default [] (oc1 !! x)) as Hb1 by (by rewrite Hx).
        apply Hstep in Hb1 as [Hb0 _].
        destruct (oc !! x) as [bucket0|] eqn:E; simpl in Hb0;
          [|by apply elem_of_nil in Hb0].
        by apply (Hwf x bucket0 E). }
    destruct (IH oc1 Hwf1) as (Hnd' & Hiff).
    split; [done|]. intros x b. rewrite Hiff, Hstep, elem_of_cons.
    split.
    + intros [[Hb Ha] Hgone]. split; [done|]. intros [->|Hin]; auto.
    + intros [Hb Hgone]. split; [split; [done|]|]; auto.
Qed.

Lemma occurrences_in_path_cells st k p cells :
  path_cells st k p cells → occurrences_in_path p st = cells.
Proof.
  intros Hcells. unfold occurrences_in_path.
  rewrite (path_cells_steps _ _ _ _ Hcells).
  destruct Hcells as (_ & _ & Hcount & _).
  case_decide as Hz; [|done]. rewrite Hcount in Hz. by destruct cells.
Qed.

Lemma index_wf_empty_graph : index_wf empty_graph.
Proof.
  split.
  - intros x bucket Hx. simpl in Hx. by rewrite lookup_empty in Hx.
  - intros a record Ha. simpl in Ha. by rewrite lookup_empty in Ha.
Qed.

Lemma index_wf_create_path_handle (name : string) (g : HashGraph) :
  paths g !! next_path_id g = None → index_wf g →
  index_wf (create_path_handle name g).2.
Proof.
  intros Hfresh [Hb Hs]. unfold create_path_handle. rewrite Hfresh.
  by split.
Qed.

Lemma index_wf_append_occurrence (k : Z) (h : handle_t) (g g' : HashGraph)
    (r : Z * addr) :
  paths_wf g → is_Some (paths g !! k) → index_wf g →
  append_occurrence k h g = Some (r, g') → index_wf g'.
Proof.
  intros Hwf [p Hp] [Hb Hs] Happ.
  destruct (wf_paths _ _ Hwf k p Hp) as [cells Hcells].
  unfold append_occurrence, path_at in Happ. rewrite Hp in Happ.
  simpl in Happ.
  destruct (push_back h p (store g)) as [[[a p'] st']|] eqn:Hpush; [|done].
  simpl in Happ. injection Happ as <- <-.
  pose proof (push_back_new_addr _ _ _ _ _ _ Hpush) as Hnew.
  destruct (push_back_cells _ _ _ _ a h Hcells Hnew)
    as (p'' & st'' & Hpush' & _ & Hext & _).
  rewrite Hpush in Hpush'. injection Hpush' as <- <-.
  pose proof Hext as (Ha & _ & _ & (before & after & Hrec) & Hold).
  split; simpl.
  - intros x bucket Hx. unfold push_occurrence in Hx.
    destruct (decide (x = get_id h)) as [->|Hne].
    + rewrite lookup_insert_eq in Hx. injection Hx as <-.
      assert (NoDup (default [] (occurrences g !! get_id h)) ∧
              ∀ b, b ∈ default [] (occurrences g !! get_id h) →
                ∃ record, store g !! b = Some record ∧
                  get_id (path_mapping_t.handle record) = get_id h)
        as [Hnd Hlive].
      { destruct (occurrences g !! get_id h) as [bucket|] eqn:E; simpl.
        - by apply Hb.
        - split; [apply NoDup_nil_2|]. intros b Hin.
          by apply elem_of_nil in Hin. }
      split.
      * apply NoDup_app. split; [done|]. split; [|apply NoDup_singleton].
        intros b Hin Hba. apply list_elem_of_singleton in Hba. subst b.
        destruct (Hlive a Hin) as (? & ? & _). congruence.
      * intros b Hin. apply elem_of_app in Hin as [Hin|Hba];
          [|apply list_elem_of_singleton in Hba; subst b].
        -- destruct (Hlive b Hin) as (record & Hr & Hid).
           destruct (Hold b record Hr) as (record' & Hr' & Hh & _).
           exists record'. split; [done|]. congruence.
        -- eexists. split; [done|]. done.
    + rewrite lookup_insert_ne in Hx by done.
      destruct (Hb x bucket Hx) as [Hnd Hlive]. split; [done|].
      intros b Hin. destruct (Hlive b Hin) as (record & Hr & Hid).
      destruct (Hold b record Hr) as (record' & Hr' & Hh & _).
      exists record'. split; [done|]. congruence.
  - intros b record Hr. unfold push_occurrence.
    destruct (decide (b = a)) as [->|Hba].
    + rewrite Hrec in Hr. injection Hr as <-. simpl.
      rewrite lookup_insert_eq. simpl. apply elem_of_app. right. by left.
    + assert (is_Some (store g !! b)) as [old Hold_b].
      { apply elem_of_dom. destruct Hext as (_ & _ & Hdom & _).
        apply elem_of_dom_2 in Hr. rewrite Hdom in Hr. set_solver. }
      destruct (Hold b old Hold_b) as (record' & Hr' & Hh & _).
      assert (record' = record) as -> by congruence.
      rewrite Hh. pose proof (Hs b old Hold_b) as Hin.
      destruct (decide (get_id (path_mapping_t.handle old) = get_id h))
        as [E|Hne].
      * rewrite E in *. rewrite lookup_insert_eq. simpl.
        apply elem_of_app. by left.
      * by rewrite lookup_insert_ne.
Qed.

Lemma index_wf_destroy_path (k : Z) (g g' : HashGraph) :
  paths_wf g → index_wf g → destroy_path k g = Some g' → index_wf g'.
Proof.
  intros Hwf [Hb Hs] Hdes. unfold destroy_path in Hdes.
  destruct (paths g !! k) as [p|] eqn:Hp; [|done]. simpl in Hdes.
  injection Hdes as <-.
  destruct (wf_paths _ _ Hwf k p Hp) as [cells Hcells].
  rewrite (occurrences_in_path_cells _ _ _ _ Hcells).
  rewrite (destroy_path_t_cells _ _ _ _ Hcells).
  destruct (forget_occurrences_buckets (store g) cells (occurrences g) Hb)
    as (Hnd & Hiff).
  pose proof (path_cells_live _ _ _ _ Hcells) as Hlive.
  rewrite Forall_forall in Hlive.
  split; simpl.
  - intros x bucket Hx. split; [by eapply Hnd|].
    intros b Hin.
    assert (b ∈ default [] (foldl (forget_occurrence (store g))
                              (occurrences g) cells !! x)) as Hin'
      by (by rewrite Hx).
    apply Hiff in Hin' as [Hin0 Hgone].
    rewrite lookup_delete_cells.
    destruct (decide (b ∈ cells)) as [Hc|Hc].
    + destruct (Hlive b Hc) as [? ?]. rewrite (Hgone Hc) in *. done.
    + destruct (occurrences g !! x) as [bucket0|] eqn:E; simpl in Hin0;
        [|by apply elem_of_nil in Hin0].
      by apply (Hb x bucket0 E).
  - intros b record. rewrite lookup_delete_cells.
    destruct (decide (b ∈ cells)) as [|Hc]; [done|]. intros Hr.
    apply Hiff. split; [by apply Hs|]. done.
Qed.

(** X16: the occurrence index stays exact.  In the empty graph, and
    after [create_path_handle] on an unused identifier,
    [append_occurrence] on a live path and [destroy_path], no bucket
    holds a step twice, every step in the bucket of a node is a live
    record whose handle is on that node, and every step record is in the
    bucket of the node of its handle; in particular [destroy_path]
    leaves no pointer to a record that it freed. *)
Theorem index_wf_invariant :
  index_wf empty_graph ∧
  (∀ g name, paths g !! next_path_id g = None → index_wf g →
     index_wf (create_path_handle name g).2) ∧
  (∀ g k h r g', paths_wf g → is_Some (paths g !! k) → index_wf g →
     append_occurrence k h g = Some (r, g') → index_wf g') ∧
  (∀ g k g', paths_wf g → index_wf g →
     destroy_path k g = Some g' → index_wf g').
Proof.
  split; [apply index_wf_empty_graph|].
  split; [intros g name; apply index_wf_create_path_handle|].
  split; [intros g k h r g'; apply index_wf_append_occurrence|].
  intros g k g'. apply index_wf_destroy_path.
Qed.

Lemma one_step_index :
  ∃ g p, one_step_graph = Some g ∧ paths_wf g ∧ index_wf g ∧
         paths g !! 1 = Some p.
Proof.
  set (g0 := (create_path_handle "1"
                (create_handle (seq_of "ATG") 2 empty_graph).2).2).
  assert (paths_wf g0) as Hwf0
    by (apply create_path_handle_wf, paths_wf_empty_graph).
  assert (index_wf g0) as Hi0.
  { apply (index_wf_create_path_handle "1"
             (create_handle (seq_of "ATG") 2 empty_graph).2);
      [by vm_compute|]. destruct index_wf_empty_graph as [Hb Hs]. by split. }
  assert (is_Some (paths g0 !! 1)) as Hlive by (by vm_compute; eauto).
  destruct (append_occurrence_wf 1 (get_handle 2 false) g0 Hwf0 Hlive)
    as [_ Hkeep].
  destruct (append_occurrence 1 (get_handle 2 false) g0)
    as [[r g1]|] eqn:E; [|by vm_compute in E].
  assert (one_step_graph = Some g1) as Hone.
  { transitivity ('(_, g) ← append_occurrence 1 (get_handle 2 false) g0;
                  Some g); [reflexivity|]. by rewrite E. }
  destruct one_step_path_cells as (g & a & p & Hg & _ & Hp & _).
  assert (g = g1) as -> by congruence.
  exists g1, p. split; [done|]. split; [by eapply Hkeep|].
  split; [|done].
  by apply (index_wf_append_occurrence 1 (get_handle 2 false) g0 g1 r).
Qed.

Lemma index_wf_invariant_witness :
  ∃ g, one_step_graph = Some g ∧
       ∀ g', destroy_path 1 g = Some g' → index_wf g'.
Proof.
  destruct index_wf_invariant as (_ & _ & _ & Hdes).
  destruct one_step_index as (g & p & Hg & Hwf & Hidx & Hp).
  exists g. split; [done|]. intros g' Hg'.
  by apply (Hdes g 1 g').
Defined.

(** X17: [destroy_path] on a live path of a well-formed path store
    with an exact occurrence index.  The path leaves the table, one path
    less is counted and its name no longer resolves; every step record of
    the path is freed and no other record is touched; no bucket of the
    occurrence index keeps a freed step; the other paths keep their steps
    and handles, and the nodes are left alone. *)
Theorem destroy_path_frees (k : Z) (g : HashGraph) (p : path_t.t) :
  paths_wf g → index_wf g → paths g !! k = Some p →
  ∃ g',
    destroy_path k g = Some g' ∧
    paths g' !! k = None ∧ get_path_count g' = pred (get_path_count g) ∧
    has_path (path_t.name p) g' = false ∧
    (∀ a, a ∈ path_steps k g → store g' !! a = None) ∧
    (∀ a, a ∉ path_steps k g → store g' !! a = store g !! a) ∧
    (∀ x bucket a, occurrences g' !! x = Some bucket → a ∈ bucket →
       (a ∉ path_steps k g) ∧ is_Some (store g' !! a)) ∧
    (∀ q, q ≠ k →
       paths g' !! q = paths g !! q ∧
       path_steps q g' = path_steps q g ∧
       path_handles q g' = path_handles q g) ∧
    graph g' = graph g ∧ paths_wf g' ∧ index_wf g'.
Proof.
  intros Hwf Hidx Hp.
  destruct (destroy_path_wf k g Hwf) as [Hsome Hkeep].
  destruct Hsome as [g' Hg']; [eauto|].
  pose proof (Hkeep g' Hg') as Hwf'.
  pose proof (index_wf_destroy_path k g g' Hwf Hidx Hg') as Hidx'.
  exists g'. split; [done|].
  destruct (wf_paths _ _ Hwf k p Hp) as [cells Hcells].
  assert (path_steps k g = cells) as Hsteps.
  { unfold path_steps, path_at. rewrite Hp. simpl.
    by eapply path_cells_steps. }
  rewrite Hsteps.
  unfold destroy_path in Hg'. rewrite Hp in Hg'. simpl in Hg'.
  injection Hg' as <-.
  rewrite (destroy_path_t_cells _ _ _ _ Hcells) in *.
  unfold get_path_count, has_path, path_steps, path_handles, path_steps,
    path_at. simpl.
  split; [apply lookup_delete_eq|].
  split. { rewrite map_size_delete, Hp. done. }
  split. { apply bool_decide_eq_false. rewrite lookup_delete_eq.
           by intros [? ?]. }
  split. { intros a Ha. rewrite lookup_delete_cells. by rewrite decide_True. }
  split. { intros a Ha. rewrite lookup_delete_cells. by rewrite decide_False. }
  split.
  { intros x bucket a Hx Ha.
    destruct (index_buckets _ Hidx' x bucket Hx) as [_ Hlive].
    destruct (Hlive a Ha) as (record & Hr & _). simpl in Hr.
    split; [|eauto]. intros Hin.
    rewrite lookup_delete_cells, decide_True in Hr by done. done. }
  split; [|done].
  intros q Hq. rewrite lookup_delete_ne by done. split; [done|].
  destruct (paths g !! q) as [pq|] eqn:Epq; simpl.
  - destruct (wf_paths _ _ Hwf q pq Epq) as [cq Hcq].
    assert (∀ b, b ∈ cq → b ∉ cells) as Hdisj.
    { intros b Hb Hb'.
      destruct Hcq as (_ & _ & _ & Hids & _).
      destruct Hcells as (_ & _ & _ & Hids' & _).
      rewrite Forall_forall in Hids, Hids'.
      destruct (Hids b Hb) as (r1 & Hr1 & Hk1).
      destruct (Hids' b Hb') as (r2 & Hr2 & Hk2). congruence. }
    pose proof (path_cells_delete _ _ _ _ cells Hcq Hdisj) as Hcq'.
    rewrite (path_cells_steps _ _ _ _ Hcq), (path_cells_steps _ _ _ _ Hcq').
    split; [done|]. apply handles_of_frame.
    + intros b record Hb Hr. exists record. split; [|done].
      rewrite lookup_delete_cells, decide_False; [done|]. by apply Hdisj.
    + by eapply path_cells_live.
  - by rewrite !steps_from_null.
Qed.

Lemma destroy_path_frees_witness :
  ∃ g g', one_step_graph = Some g ∧ destroy_path 1 g = Some g' ∧
          paths g' !! 1 = None ∧ index_wf g'.
Proof.
  destruct one_step_index as (g & p & Hg & Hwf & Hidx & Hp).
  destruct (destroy_path_frees 1 g p Hwf Hidx Hp)
    as (g' & Hdes & Hgone & _ & _ & _ & _ & _ & _ & _ & _ & Hidx').
  by exists g, g'.
Defined.

(** * Visiting the steps on a node *)

Lemma visit_occurrences_contract {S : Type}
    (iteratee : occurrence_handle_t → S → bool * S)
    (st : gmap addr path_mapping_t.t) (bucket : list addr) (s : S) :
  Forall (λ a, is_Some (st !! a)) bucket →
  ∃ visited rest result,
    omap (λ a, (λ record, (path_mapping_t.path_id record, a)) <$> st !! a)
         bucket = visited ++ rest ∧
    visit_occurrences iteratee st bucket s = Some result ∧
    stops_at_refusal iteratee visited rest s result.
Proof.
  revert s. induction bucket as [|a bucket IH]; intros s Hlive.
  - exists [], [], (true, s). split; [done|]. split; [done|].
    split; [done|]. simpl. by split.
  - apply Forall_cons in Hlive as [[record Hr] Hlive].
    assert (omap (λ a, (λ record, (path_mapping_t.path_id record, a))
                         <$> st !! a) (a :: bucket)
            = (path_mapping_t.path_id record, a)
              :: omap (λ a, (λ record, (path_mapping_t.path_id record, a))
                              <$> st !! a) bucket) as Hom
      by (simpl; by rewrite Hr).
    rewrite Hom. cbn [visit_occurrences]. rewrite Hr. cbn [mbind option_bind].
    destruct (iteratee (path_mapping_t.path_id record, a) s) as [k s'] eqn:E.
    destruct k.
    + destruct (IH s' Hlive)
        as (visited & rest & result & Hsplit & Hrun & Hlast & Hstop).
      exists ((path_mapping_t.path_id record, a) :: visited), rest, result.
      split; [by rewrite Hsplit|]. split; [done|].
      unfold stops_at_refusal. simpl. rewrite E.
      destruct (answers iteratee visited s') as [ks s''] eqn:Ea.
      simpl in *. split; [done|].
      destruct result.1.
      * destruct Hstop as [-> Hall]. split; [done|]. by constructor.
      * destruct Hstop as (accepted & -> & Hall).
        exists (true :: accepted). split; [done|]. by constructor.
    + eexists [(path_mapping_t.path_id record, a)], _, (false, s').
      split; [done|]. split; [done|].
      unfold stops_at_refusal. simpl. rewrite E. simpl.
      split; [done|]. exists []. by split.
Qed.

Lemma snd_omap_live (st : gmap addr path_mapping_t.t) (l : list addr) :
  Forall (λ a, is_Some (st !! a)) l →
  snd <$> omap (λ a, (λ record, (path_mapping_t.path_id record, a))
                       <$> st !! a) l = l.
Proof.
  induction 1 as [|a l [record Hr] _ IH]; [done|].
  cbn [omap list_omap]. rewrite Hr. cbn [fmap option_fmap option_map].
  rewrite fmap_cons. by rewrite IH.
Qed.

(** X18: [for_each_occurrence_on_handle] with an exact occurrence index.
    The call does not fail; it hands the iteratee, once each and in the
    order of the bucket, exactly the steps whose handle is on the node of
    [h], each with the path its record names; it returns [false] right
    after the first refusal and [true] when every step was accepted, or
    when the node has no bucket. *)
Theorem for_each_occurrence_on_handle_contract {S : Type} (h : handle_t)
    (iteratee : occurrence_handle_t → S → bool * S) (g : HashGraph) (s : S) :
  index_wf g →
  NoDup (occurrences_on h g) ∧
  (∀ k a, (k, a) ∈ occurrences_on h g ↔
     ∃ record, store g !! a = Some record ∧
               path_mapping_t.path_id record = k ∧
               get_id (path_mapping_t.handle record) = get_id h) ∧
  ∃ visited rest result,
    occurrences_on h g = visited ++ rest ∧
    for_each_occurrence_on_handle_impl h iteratee g s = Some result ∧
    stops_at_refusal iteratee visited rest s result.
Proof.
  intros [Hb Hs].
  assert (NoDup (default [] (occurrences g !! get_id h)) ∧
          ∀ b, b ∈ default [] (occurrences g !! get_id h) →
            ∃ record, store g !! b = Some record ∧
              get_id (path_mapping_t.handle record) = get_id h)
    as [Hnd Hlive].
  { destruct (occurrences g !! get_id h) as [bucket|] eqn:E; simpl.
    - by apply Hb.
    - split; [apply NoDup_nil_2|]. intros b Hin.
      by apply elem_of_nil in Hin. }
  assert (∀ k a, (k, a) ∈ occurrences_on h g ↔
            a ∈ default [] (occurrences g !! get_id h) ∧
            ∃ record, store g !! a = Some record ∧
                      path_mapping_t.path_id record = k) as Hin.
  { intros k a. unfold occurrences_on. rewrite list_elem_of_omap. split.
    - intros (b & Hb' & Hsome).
      destruct (store g !! b) as [record|] eqn:Er; [|done].
      simpl in Hsome. injection Hsome as <- <-. eauto.
    - intros (Ha & record & Hr & <-). exists a. split; [done|].
      by rewrite Hr. }
  split; [|split].
  - unfold occurrences_on.
    apply (NoDup_fmap_1 snd).
    rewrite snd_omap_live; [done|]. apply Forall_forall. intros a Ha.
    destruct (Hlive a Ha) as (record & Hr & _). eauto.
  - intros k a. rewrite Hin. split.
    + intros (Ha & record & Hr & Hk). exists record.
      destruct (Hlive a Ha) as (record' & Hr' & Hid).
      assert (record' = record) as -> by congruence. done.
    + intros (record & Hr & Hk & Hid). split; [|eauto].
      pose proof (Hs a record Hr) as Ha. by rewrite Hid in Ha.
  - unfold for_each_occurrence_on_handle_impl, occurrences_on.
    destruct (occurrences g !! get_id h) as [bucket|] eqn:E; simpl.
    + apply visit_occurrences_contract. apply Forall_forall.
      intros a Ha. destruct (Hlive a Ha) as (record & Hr & _). eauto.
    + exists [], [], (true, s). split; [done|]. split; [done|].
      split; [done|]. simpl. by split.
Qed.

Lemma for_each_occurrence_on_handle_contract_witness :
  ∃ g result, one_step_graph = Some g ∧
    for_each_occurrence_on_handle_impl (get_handle 2 true)
      (λ occ log, (true, log ++ [occ.1])) g [] = Some result.
Proof.
  destruct one_step_index as (g & p & Hg & Hwf & Hidx & Hp).
  destruct (for_each_occurrence_on_handle_contract (get_handle 2 true)
              (λ occ log, (true, log ++ [occ.1])) g [] Hidx)
    as (_ & _ & visited & rest & result & _ & Hrun & _).
  by exists g, result.
Defined.

(** * The codec of one record, and resetting the object *)

Lemma length_write_handles (hs : list handle_t) :
  length (write_handles hs) = (8 * length hs)%nat.
Proof.
  unfold write_handles. induction hs as [|h hs IH]; [done|].
  rewrite bind_cons, length_app, length_write64, IH. simpl. lia.
Qed.

(** X19: the codec of a node record.  [node_t::serialize] writes
    [24 + |sequence| + 8 (|left_edges| + |right_edges|)] bytes, and
    [node_t::deserialize] reads back from them, whatever follows them in
    the stream, the same sequence and the same two adjacency lists in the
    same order, and leaves what follows unread; this holds for a record
    whose sizes fit in 64 bits and whose entries are 64-bit handles. *)
Theorem node_codec_round_trip (n : node_t.t) (rest : list byte) :
  node_representable n →
  node_deserialize (node_serialize n ++ rest) = Some (n, rest) ∧
  length (node_serialize n)
  = (24 + length (node_t.sequence n)
     + 8 * (length (node_t.left_edges n) + length (node_t.right_edges n)))%nat.
Proof.
  intros (Hs & Hl & Hr & Hvl & Hvr). split.
  - by apply node_deserialize_serialize.
  - unfold node_serialize, write_chars.
    rewrite !length_app, !length_write64, !length_write_handles, length_fmap.
    lia.
Qed.

Lemma node_codec_round_trip_witness :
  let n := node_t.mk (seq_of "ATG") [get_handle 1 true] [] in
  node_deserialize (node_serialize n ++ [x00%byte]) = Some (n, [x00%byte]) ∧
  length (node_serialize n) = 35%nat.
Proof.
  intros n.
  assert (node_representable n) as Hrep
    by (apply (bool_decide_unpack _); by vm_compute).
  destruct (node_codec_round_trip n [x00%byte] Hrep) as [Hread Hlen].
  split; [done|]. rewrite Hlen. by vm_compute.
Defined.

(** X20: the codec of a path.  [path_t::deserialize] run on the bytes
    that [path_t::serialize] wrote for a well-formed path, whatever
    follows them, builds a well-formed list of new step records with the
    same path identifier, name and count and the same handles in the same
    order; it leaves the records that were on the free store as they
    were and leaves what follows in the stream unread. *)
Theorem path_codec_round_trip (stg : gmap addr path_mapping_t.t) (k : Z)
    (p : path_t.t) (cells : list addr) (rest : list byte)
    (st : gmap addr path_mapping_t.t) :
  path_cells stg k p cells →
  int64 (path_t.path_id p) →
  Z.of_nat (String.length (path_t.name p)) < two64 →
  (∀ a record, stg !! a = Some record →
     valid_handle (path_mapping_t.handle record)) →
  Z.of_nat (size st) + Z.of_nat (length cells) < two64 →
  ∃ p' st' new,
    path_deserialize (path_serialize p stg ++ rest) st = Some (p', st', rest) ∧
    path_cells st' k p' new ∧
    path_t.path_id p' = path_t.path_id p ∧
    path_t.name p' = path_t.name p ∧
    path_t.count p' = path_t.count p ∧
    handles_of st' new = handles_of stg cells ∧
    (∀ b, b ∈ new → st !! b = None) ∧
    (∀ b, b ∉ new → st' !! b = st !! b).
Proof.
  intros Hcells Hid Hname Hvalid Hroom.
  destruct (path_deserialize_serialized stg k p cells rest st
              Hcells Hid Hname Hvalid Hroom)
    as (p' & st' & new & Hread & Hcells' & Hn & Hc & Hh & Hfresh & Hold & _).
  exists p', st', new. repeat (split; [done|]). split; [|done].
  destruct Hcells' as (_ & _ & _ & _ & ->).
  by destruct Hcells as (_ & _ & _ & _ & ->).
Qed.

Lemma path_codec_round_trip_witness :
  ∃ g a p p' st' new,
    one_step_graph = Some g ∧
    path_deserialize (path_serialize p (store g) ++ []) ∅ = Some (p', st', []) ∧
    handles_of st' new = handles_of (store g) [a].
Proof.
  destruct one_step_path_cells
    as (g & a & p & Hg & Hwf & Hp & Hcells & Hh & Hroom).
  assert (Some g = one_step_graph) as Hg' by done.
  assert (int64 (path_t.path_id p) ∧
          Z.of_nat (String.length (path_t.name p)) < two64 ∧
          ∀ b record, store g !! b = Some record →
            valid_handle (path_mapping_t.handle record)) as (H1 & H2 & H3).
  { destruct Hcells as (_ & _ & _ & _ & Hkey).
    vm_compute in Hg'. injection Hg' as ->.
    vm_compute in Hp. injection Hp as <-.
    split; [by vm_compute|]. split; [by vm_compute|].
    apply (bool_decide_unpack _). by vm_compute. }
  destruct (path_codec_round_trip (store g) 1 p [a] [] ∅ Hcells H1 H2 H3)
    as (p' & st' & new & Hread & _ & _ & _ & _ & Hhandles & _).
  { rewrite map_size_empty. simpl. unfold two64. lia. }
  by exists g, a, p, p', st', new.
Defined.

Section resetting.
Context `{HashOrder}.

(** X21: [clear] gives back the state of a newly constructed graph:
    with a well-formed path store it frees every step record, and the
    node table, the paths, the names, the occurrence index and the
    counters are those of the empty graph; so [deserialize] yields the
    same result whatever the object held before. *)
Theorem clear_resets (g : HashGraph) :
  paths_wf g →
  clear g = empty_graph ∧
  ∀ inp, deserialize inp g = deserialize inp empty_graph.
Proof.
  intros Hwf.
  assert (∀ g0, paths_wf g0 → clear g0 = empty_graph) as Hclear.
  { intros g0 Hwf0. pose proof (store_clear g0 Hwf0) as Hst.
    unfold clear in *. simpl in Hst. rewrite Hst. done. }
  split; [by apply Hclear|]. intros inp. unfold deserialize.
  by rewrite (Hclear g Hwf), (Hclear empty_graph paths_wf_empty_graph).
Qed.
End resetting.

Lemma clear_resets_witness :
  ∃ g, one_step_graph = Some g ∧ @clear ascending_order g = empty_graph.
Proof.
  destruct one_step_path_cells as (g & a & p & Hg & Hwf & _).
  exists g. split; [done|].
  by destruct (@clear_resets ascending_order g Hwf) as [Hclear _].
Defined.

(** * Turning a node around *)

(** The test that re-orients a node with one edge. *)
Example apply_orientation_test :
  let '(h1, g) := create_handle_next (seq_of "GATTACA") empty_graph in
  let '(h2, g) := create_handle_next (seq_of "CATTAG") g in
  let g := create_edge h1 h2 g in
  ∃ g', apply_orientation (flip h1) g = Some (h1, g') ∧
        get_sequence h1 g' = Some (seq_of "TGTAATC") ∧
        neighbors h1 true g' = Some [flip h2] ∧
        neighbors h1 false g' = Some [] ∧
        neighbors h2 true g' = Some [flip h1] ∧
        node_size g' = 2%nat.
Proof. vm_compute. eexists. repeat split. Qed.

Lemma foldl_preserves {A B} (P : A → Prop) (f : A → B → A) (l : list B)
    (a : A) :
  P a → (∀ a b, P a → P (f a b)) → P (foldl f a l).
Proof.
  intros Ha Hf. revert a Ha. induction l as [|b l IH]; intros a Ha; simpl;
    [done|]. apply IH. by apply Hf.
Qed.

Lemma length_flip_first (x : Z) (l : list handle_t) :
  length (flip_first x l) = length l.
Proof.
  unfold flip_first. destruct (list_find _ l) as [[i e]|]; [|done].
  apply length_insert.
Qed.

Lemma length_reverse_complement (s : seq_t) :
  length (reverse_complement s) = length s.
Proof. unfold reverse_complement. by rewrite length_rev, length_map. Qed.

(** What the two loops over the adjacency lists keep. *)
Lemma flip_backrefs_keeps (left_side : bool) (x : Z) (gr : gmap Z node_t.t) :
  let gr' := flip_backrefs left_side x gr in
  (∀ side n, length (edge_list side n gr') = length (edge_list side n gr)) ∧
  (∀ n, node_t.sequence (node_at gr' n) = node_t.sequence (node_at gr n)) ∧
  dom gr ⊆ dom gr'.
Proof.
  unfold flip_backrefs.
  apply (foldl_preserves
           (λ gr', (∀ side n, length (edge_list side n gr')
                              = length (edge_list side n gr)) ∧
                   (∀ n, node_t.sequence (node_at gr' n)
                         = node_t.sequence (node_at gr n)) ∧
                   dom gr ⊆ dom gr')).
  - done.
  - intros gr' i (Hlen & Hseq & Hdom).
    destruct (edge_list left_side x gr' !! i) as [target|]; [|done].
    split; [|split].
    + intros side n. rewrite edge_list_update_bwd.
      case_decide; [|done]. by rewrite length_flip_first.
    + intros n. by rewrite sequence_update_bwd.
    + rewrite dom_update_bwd. set_solver.
Qed.

Lemma flip_steps_total (bucket : list addr)
    (st : gmap addr path_mapping_t.t) :
  Forall (λ a, is_Some (st !! a)) bucket →
  ∃ st', flip_steps bucket st = Some st' ∧ dom st' = dom st.
Proof.
  revert st. induction bucket as [|a bucket IH]; intros st Hlive.
  - by exists st.
  - apply Forall_cons in Hlive as [[record Hr] Hlive]. simpl.
    rewrite Hr. simpl.
    destruct (IH (<[a := path_mapping_t.set_handle
                           (flip (path_mapping_t.handle record)) record]> st))
      as (st' & Hrun & Hdom).
    { eapply Forall_impl; [exact Hlive|]. intros b [rb Hb]. simpl.
      destruct (decide (b = a)) as [->|Hne].
      - rewrite lookup_insert_eq. eauto.
      - rewrite lookup_insert_ne by done. eauto. }
    exists st'. split; [done|]. rewrite Hdom, dom_insert_L.
    apply elem_of_dom_2 in Hr. set_solver.
Qed.

Lemma turn_node_keeps (x : Z) (gr : gmap Z node_t.t) :
  let gr' := turn_node x gr in
  node_t.sequence (node_at gr' x)
  = reverse_complement (node_t.sequence (node_at gr x)) ∧
  (∀ side, length (edge_list side x gr')
           = length (edge_list (negb side) x gr)) ∧
  (∀ n, n ≠ x →
     node_t.sequence (node_at gr' n) = node_t.sequence (node_at gr n) ∧
     ∀ side, length (edge_list side n gr') = length (edge_list side n gr)) ∧
  dom gr' = {[x]} ∪ dom (flip_backrefs false x (flip_backrefs true x
              (<[x := node_t.set_sequence
                        (reverse_complement (node_t.sequence (node_at gr x)))
                        (node_at gr x)]> gr))) ∧
  dom gr ⊆ dom gr'.
Proof.
  unfold turn_node.
  set (gr1 := <[x := node_t.set_sequence
                       (reverse_complement (node_t.sequence (node_at gr x)))
                       (node_at gr x)]> gr).
  set (gr2 := flip_backrefs false x (flip_backrefs true x gr1)).
  destruct (flip_backrefs_keeps true x gr1) as (Hlen1 & Hseq1 & Hdom1).
  destruct (flip_backrefs_keeps false x (flip_backrefs true x gr1))
    as (Hlen2 & Hseq2 & Hdom2).
  assert (∀ side n, length (edge_list side n gr2)
                    = length (edge_list side n gr)) as Hlen.
  { intros side n. unfold gr2. rewrite Hlen2, Hlen1.
    unfold gr1, edge_list. rewrite node_at_insert.
    destruct (decide (n = x)) as [->|]; [|done]. by destruct side. }
  assert (∀ n, node_t.sequence (node_at gr2 n)
               = if decide (n = x)
                 then reverse_complement (node_t.sequence (node_at gr x))
                 else node_t.sequence (node_at gr n)) as Hseq.
  { intros n. unfold gr2. rewrite Hseq2, Hseq1.
    unfold gr1. rewrite node_at_insert.
    by destruct (decide (n = x)). }
  cbv zeta. split; [|split; [|split; [|split]]].
  - rewrite node_at_insert, decide_True by done. simpl.
    by rewrite Hseq, decide_True.
  - intros side. unfold edge_list at 1.
    rewrite node_at_insert, decide_True by done.
    rewrite <- Hlen. by destruct side.
  - intros n Hn. rewrite node_at_insert, decide_False by done.
    rewrite Hseq, decide_False by done. split; [done|].
    intros side. rewrite <- Hlen. unfold edge_list.
    by rewrite node_at_insert, decide_False.
  - by rewrite dom_insert_L.
  - rewrite dom_insert_L.
    assert (dom gr ⊆ dom gr1) as Hdom0
      by (unfold gr1; rewrite dom_insert_L; set_solver).
    unfold gr2. set_solver.
Qed.

Lemma turn_steps_total (x : Z) (oc : gmap Z (list addr))
    (st : gmap addr path_mapping_t.t) :
  (∀ bucket, oc !! x = Some bucket → Forall (λ a, is_Some (st !! a)) bucket) →
  ∃ st', turn_steps x oc st = Some st' ∧ dom st' = dom st.
Proof.
  intros Hlive. unfold turn_steps.
  destruct (oc !! x) as [bucket|] eqn:E; [|eauto].
  apply flip_steps_total. by apply Hlive.
Qed.

(** X22: what [apply_orientation] does to the node.  On a forward
    handle it changes nothing and returns the handle.  On a reverse
    handle of a live node (the steps filed under the node being live
    records) it returns the forward handle of the same node, through which
    [get_sequence], [get_length] and [get_degree] on either side give
    what they gave through the reverse handle before the call; the other
    nodes keep their sequences, every adjacency list keeps its length, no
    node is removed, and the paths table, the occurrence index, the set
    of step records and the tracked bounds are left as they were. *)
Theorem apply_orientation_effects (h : handle_t) (g : HashGraph) :
  (get_is_reverse h = false → apply_orientation h g = Some (h, g)) ∧
  (get_is_reverse h = true → has_node (get_id h) g = true →
   (∀ bucket, occurrences g !! get_id h = Some bucket →
      Forall (λ a, is_Some (store g !! a)) bucket) →
   ∃ g',
     apply_orientation h g = Some (flip h, g') ∧
     get_is_reverse (flip h) = false ∧ get_id (flip h) = get_id h ∧
     get_sequence (flip h) g' = get_sequence h g ∧
     get_length (flip h) g' = get_length h g ∧
     (∀ go_left, get_degree (flip h) go_left g' = get_degree h go_left g) ∧
     (∀ j, j ≠ get_id h →
        node_t.sequence (node_at (graph g') j)
        = node_t.sequence (node_at (graph g) j) ∧
        ∀ side, length (edge_list side j (graph g'))
                = length (edge_list side j (graph g))) ∧
     dom (graph g) ⊆ dom (graph g') ∧
     paths g' = paths g ∧ occurrences g' = occurrences g ∧
     dom (store g') = dom (store g) ∧
     max_node_id g' = max_node_id g ∧ min_node_id g' = min_node_id g).
Proof.
  split.
  { intros Hfwd. unfold apply_orientation. by rewrite Hfwd. }
  intros Hrev Hlive Hbucket. apply has_node_live in Hlive as [node Hnode].
  unfold apply_orientation. rewrite Hrev.
  destruct (turn_steps_total (get_id h) (occurrences g) (store g) Hbucket)
    as (st' & -> & Hdomst).
  cbn [mbind option_bind].
  destruct (turn_node_keeps (get_id h) (graph g))
    as (Hseq & Hlen & Hother & _ & Hdom).
  assert (node_at (graph g) (get_id h) = node) as Hat
    by (unfold node_at; by rewrite Hnode).
  assert (is_Some (turn_node (get_id h) (graph g) !! get_id h))
    as [turned Hturned].
  { apply elem_of_dom. apply Hdom. by apply elem_of_dom. }
  assert (node_at (turn_node (get_id h) (graph g)) (get_id h) = turned)
    as Hat' by (unfold node_at; by rewrite Hturned).
  eexists. split; [reflexivity|].
  split; [by rewrite get_is_reverse_flip, Hrev|].
  split; [apply get_id_flip|].
  unfold get_sequence, get_length, get_degree.
  rewrite get_id_flip, get_is_reverse_flip, Hrev.
  cbn [graph set_store set_graph negb].
  rewrite Hturned, Hnode. cbn [mbind option_bind].
  rewrite Hat, Hat' in Hseq.
  split; [by rewrite Hseq|].
  split; [by rewrite Hseq, length_reverse_complement|].
  split.
  { intros go_left. f_equal.
    pose proof (Hlen true) as Hl. pose proof (Hlen false) as Hr.
    unfold edge_list in Hl, Hr. rewrite Hat, Hat' in Hl, Hr.
    by destruct go_left. }
  split; [exact Hother|]. split; [exact Hdom|]. done.
Qed.

Lemma apply_orientation_effects_witness :
  ∃ g', apply_orientation (get_handle 2 true) two_edge_graph
        = Some (flip (get_handle 2 true), g') ∧
        get_sequence (flip (get_handle 2 true)) g'
        = get_sequence (get_handle 2 true) two_edge_graph.
Proof.
  destruct (apply_orientation_effects (get_handle 2 true) two_edge_graph)
    as [_ Hturn].
  destruct Hturn as (g' & Hrun & _ & _ & Hseq & _).
  - by vm_compute.
  - by vm_compute.
  - intros bucket Hb. by vm_compute in Hb.
  - by exists g'.
Defined.

(** * Turning a node around: the edges *)

Lemma count_handle_NoDup (e : handle_t) (l : list handle_t) :
  NoDup l → (count_handle e l ≤ 1)%nat.
Proof.
  intros Hnd. unfold count_handle.
  induction Hnd as [|y l Hy Hnd IH]; [simpl; lia|].
  rewrite filter_cons. destruct (decide (y = e)) as [->|]; [|done].
  simpl. apply count_handle_zero in Hy. unfold count_handle in Hy. lia.
Qed.

Lemma count_handle_no_refs (x : Z) (e : handle_t) (l : list handle_t) :
  Forall (λ y, get_id y ≠ x) l → get_id e = x → count_handle e l = 0%nat.
Proof.
  intros Hl He. apply count_handle_zero. intros Hin.
  rewrite Forall_forall in Hl. by apply (Hl e Hin).
Qed.

Lemma flip_first_split (x : Z) (l : list handle_t) :
  (Forall (λ y, get_id y ≠ x) l ∧ flip_first x l = l) ∨
  (∃ l1 e l2, l = l1 ++ e :: l2 ∧ Forall (λ y, get_id y ≠ x) l1 ∧
              get_id e = x ∧ flip_first x l = l1 ++ flip e :: l2).
Proof.
  unfold flip_first.
  destruct (list_find (λ e, get_id e = x) l) as [[i e]|] eqn:E.
  - right. apply list_find_Some in E as (Hi & He & Hbefore).
    apply list_elem_of_split_length in Hi as (l1 & l2 & -> & ->).
    exists l1, e, l2. split; [done|]. split; [|split; [done|]].
    + apply Forall_forall. intros y Hy.
      apply list_elem_of_lookup in Hy as [j Hj].
      apply (Hbefore j y); [|by apply lookup_lt_Some in Hj].
      by rewrite lookup_app_l by (by apply lookup_lt_Some in Hj).
    + by rewrite insert_app_r_alt, Nat.sub_diag by done.
  - left. by apply list_find_None in E.
Qed.

Lemma flip_first_count_other (x : Z) (b : handle_t) (l : list handle_t) :
  get_id b ≠ x → count_handle b (flip_first x l) = count_handle b l.
Proof.
  intros Hb.
  destruct (flip_first_split x l)
    as [[_ ->]|(l1 & e & l2 & -> & _ & He & ->)]; [done|].
  rewrite !count_handle_app.
  change (flip e :: l2) with ([flip e] ++ l2).
  change (e :: l2) with ([e] ++ l2).
  rewrite !count_handle_app, !count_handle_one.
  rewrite !decide_False; [done|..]; intros <-; by rewrite ?get_id_flip in Hb.
Qed.

Lemma flip_first_twice (x : Z) (l : list handle_t) :
  flip_first x (flip_first x l) = l.
Proof.
  destruct (flip_first_split x l)
    as [[Hnone ->]|(l1 & e & l2 & -> & Hl1 & He & ->)].
  - destruct (flip_first_split x l)
      as [[_ ->]|(l1 & e & l2 & -> & _ & He & _)]; [done|].
    apply Forall_app in Hnone as [_ Hnone].
    apply Forall_cons in Hnone as [Hnone _]. done.
  - destruct (flip_first_split x (l1 ++ flip e :: l2))
      as [[Hnone _]|(l1' & e' & l2' & Hsplit & Hl1' & He' & ->)].
    + apply Forall_app in Hnone as [_ Hnone].
      apply Forall_cons in Hnone as [Hnone _].
      by rewrite get_id_flip in Hnone.
    + assert (l1' = l1 ∧ e' = flip e ∧ l2' = l2) as (-> & -> & ->).
      { clear -Hsplit Hl1 Hl1' He He'. revert l1' Hsplit Hl1'.
        induction l1 as [|y l1 IH]; intros l1' Hsplit Hl1'.
        - destruct l1' as [|y' l1']; simpl in Hsplit.
          + by injection Hsplit as <- <-.
          + injection Hsplit as <- _. apply Forall_cons in Hl1' as [Hy _].
            by rewrite get_id_flip in Hy.
        - apply Forall_cons in Hl1 as [Hy Hl1].
          destruct l1' as [|y' l1']; simpl in Hsplit.
          + injection Hsplit as -> _. done.
          + injection Hsplit as <- Hsplit.
            apply Forall_cons in Hl1' as [_ Hl1'].
            destruct (IH Hl1 l1' Hsplit Hl1') as (-> & -> & ->). done. }
      by rewrite flip_flip.
Qed.

Lemma flip_first_none (x : Z) (l : list handle_t) :
  refs_to x l = 0%nat → flip_first x l = l.
Proof.
  intros Hz. apply refs_to_zero in Hz.
  destruct (flip_first_split x l)
    as [[_ ->]|(l1 & e & l2 & -> & _ & He & _)]; [done|].
  apply Forall_app in Hz as [_ Hz]. apply Forall_cons in Hz as [Hz _]. done.
Qed.

Lemma flip_first_single (x : Z) (e' : handle_t) (l : list handle_t) :
  refs_to x l = 1%nat → get_id e' = x →
  count_handle e' (flip_first x l) = count_handle (flip e') l.
Proof.
  intros Hone He'.
  destruct (flip_first_split x l)
    as [[Hnone _]|(l1 & e & l2 & -> & Hl1 & He & ->)].
  - assert (refs_to x l = 0%nat) as Hz; [|lia].
    unfold refs_to. rewrite Forall_forall in Hnone.
    destruct (filter (λ e, get_id e = x) l) as [|y f] eqn:E; [done|].
    assert (y ∈ filter (λ e, get_id e = x) l) as Hy by (rewrite E; left).
    apply list_elem_of_filter in Hy as [Hy Hin]. by destruct (Hnone y Hin).
  - assert (Forall (λ y, get_id y ≠ x) l2) as Hl2.
    { change (e :: l2) with ([e] ++ l2) in Hone.
      rewrite !refs_to_app, refs_to_one, decide_True in Hone by done.
      apply refs_to_zero. lia. }
    change (flip e :: l2) with ([flip e] ++ l2).
    change (e :: l2) with ([e] ++ l2).
    rewrite !count_handle_app, !count_handle_one.
    rewrite !(count_handle_no_refs x) by (by rewrite ?get_id_flip).
    destruct (decide (flip e = e')) as [<-|Hne].
    + by rewrite flip_flip, decide_True.
    + rewrite decide_False; [done|]. intros ->. by rewrite flip_flip in Hne.
Qed.

(** Without an edge of the node to itself, the loop over one of its
    lists meets the entries that were there on entry. *)
Lemma flip_backrefs_no_loop (left_side : bool) (x : Z)
    (gr : gmap Z node_t.t) :
  Forall (λ e, get_id e ≠ x) (edge_list left_side x gr) →
  flip_backrefs left_side x gr
  = foldl (λ gr target, update_bwd (flip_first x) target gr) gr
          (edge_list left_side x gr).
Proof.
  intros Hno. unfold flip_backrefs.
  assert (∀ targets pre gr0,
            edge_list left_side x gr0 = pre ++ targets →
            Forall (λ e, get_id e ≠ x) targets →
            foldl (λ gr i,
                     match edge_list left_side x gr !! i with
                     | Some target => update_bwd (flip_first x) target gr
                     | None => gr
                     end) gr0 (seq (length pre) (length targets))
            = foldl (λ gr target, update_bwd (flip_first x) target gr)
                    gr0 targets) as Hgen.
  { induction targets as [|t ts IH]; intros pre gr0 Hsplit Hts; [done|].
    apply Forall_cons in Hts as [Ht Hts]. simpl.
    rewrite Hsplit, list_lookup_middle by done.
    assert (edge_list left_side x (update_bwd (flip_first x) t gr0)
            = (pre ++ [t]) ++ ts) as Hnext.
    { rewrite edge_list_update_bwd, decide_False, Hsplit by naive_solver.
      by rewrite <- app_assoc. }
    specialize (IH (pre ++ [t]) _ Hnext Hts).
    rewrite length_app in IH. simpl in IH.
    by rewrite Nat.add_1_r in IH. }
  by apply (Hgen (edge_list left_side x gr) [] gr).
Qed.

Lemma side_list_flip_loop (x : Z) (targets : list handle_t)
    (gr : gmap Z node_t.t) (a : handle_t) :
  side_list a (foldl (λ gr target, update_bwd (flip_first x) target gr)
                     gr targets)
  = Nat.iter (count_handle (flip a) targets) (flip_first x) (side_list a gr).
Proof.
  revert gr. induction targets as [|t ts IH]; intros gr; [done|].
  simpl. rewrite IH, side_list_update_bwd.
  change (t :: ts) with ([t] ++ ts).
  rewrite count_handle_app, count_handle_one.
  destruct (decide (a = flip t)) as [->|Hne].
  - rewrite flip_flip, decide_True by done.
    by rewrite <- Nat.iter_succ_r.
  - rewrite decide_False; [done|]. intros ->. by rewrite flip_flip in Hne.
Qed.

Lemma count_iter_flip_first_other (x : Z) (b : handle_t) (n : nat)
    (l : list handle_t) :
  get_id b ≠ x →
  count_handle b (Nat.iter n (flip_first x) l) = count_handle b l.
Proof.
  intros Hb. induction n as [|n IH]; [done|].
  simpl. by rewrite flip_first_count_other.
Qed.

(** The adjacency lists after [turn_node] on a node without an edge to
    itself. *)
Lemma side_list_turn_node (x : Z) (gr : gmap Z node_t.t) (a : handle_t) :
  no_self_loop x gr →
  side_list a (turn_node x gr)
  = if decide (get_id a = x) then side_list (flip a) gr
    else Nat.iter (count_handle (flip a) (edge_list false x gr))
           (flip_first x)
           (Nat.iter (count_handle (flip a) (edge_list true x gr))
              (flip_first x) (side_list a gr)).
Proof.
  intros Hloop. unfold no_self_loop in Hloop.
  rewrite out_edges_split in Hloop. apply Forall_app in Hloop as [HL HR].
  unfold turn_node.
  set (gr1 := <[x := node_t.set_sequence
                       (reverse_complement (node_t.sequence (node_at gr x)))
                       (node_at gr x)]> gr).
  assert (∀ side n, edge_list side n gr1 = edge_list side n gr) as Hsame.
  { intros side n. unfold gr1, edge_list. rewrite node_at_insert.
    destruct (decide (n = x)) as [->|]; [|done]. by destruct side. }
  assert (∀ b, side_list b gr1 = side_list b gr) as Hsame'
    by (intros b; apply Hsame).
  rewrite (flip_backrefs_no_loop true x gr1) by (by rewrite Hsame).
  set (gr2 := foldl (λ gr target, update_bwd (flip_first x) target gr) gr1
                    (edge_list true x gr1)).
  assert (∀ b, get_id b = x → side_list b gr2 = side_list b gr) as Hx2.
  { intros b Hb. unfold gr2. rewrite side_list_flip_loop, Hsame.
    rewrite (count_handle_no_refs x) by (by rewrite ?get_id_flip).
    apply Hsame'. }
  assert (edge_list false x gr2 = edge_list false x gr) as HR2.
  { rewrite <- !(side_list_build x false). apply Hx2. apply get_id_build. }
  rewrite (flip_backrefs_no_loop false x gr2) by (by rewrite HR2).
  set (gr3 := foldl (λ gr target, update_bwd (flip_first x) target gr) gr2
                    (edge_list false x gr2)).
  assert (∀ b, get_id b = x → side_list b gr3 = side_list b gr) as Hx3.
  { intros b Hb. unfold gr3. rewrite side_list_flip_loop, HR2.
    rewrite (count_handle_no_refs x) by (by rewrite ?get_id_flip).
    by apply Hx2. }
  destruct (decide (get_id a = x)) as [Ha|Ha].
  - unfold side_list at 1. unfold edge_list.
    rewrite Ha, node_at_insert, decide_True by done.
    pose proof (Hx3 (flip a)) as Hflip.
    rewrite get_id_flip in Hflip. specialize (Hflip Ha).
    rewrite <- Hflip. unfold side_list, edge_list.
    rewrite get_id_flip, get_is_reverse_flip, Ha.
    by destruct (get_is_reverse a).
  - unfold side_list at 1. unfold edge_list.
    rewrite node_at_insert, decide_False by done.
    change (side_list a gr3
            = Nat.iter (count_handle (flip a) (edge_list false x gr))
                (flip_first x)
                (Nat.iter (count_handle (flip a) (edge_list true x gr))
                   (flip_first x) (side_list a gr))).
    unfold gr3. rewrite side_list_flip_loop, HR2.
    unfold gr2. rewrite side_list_flip_loop, Hsame, Hsame'. done.
Qed.

Lemma no_self_loop_side (x : Z) (gr : gmap Z node_t.t) (a : handle_t) :
  no_self_loop x gr → get_id a = x →
  Forall (λ e, get_id e ≠ x) (side_list a gr).
Proof.
  intros Hloop Ha. unfold no_self_loop in Hloop.
  rewrite out_edges_split in Hloop. apply Forall_app in Hloop as [HL HR].
  unfold side_list. rewrite Ha. by destruct (get_is_reverse a).
Qed.

Lemma same_node_cases (x : Z) (a : handle_t) :
  get_id a = x → a = 2 * x + Z.b2z false ∨ a = 2 * x + Z.b2z true.
Proof.
  intros <-. rewrite (handle_split a) at 1 3.
  destruct (get_is_reverse a); [by right|by left].
Qed.

(** What the flips do to the references that another node keeps to the
    node, in a graph without parallel edges at the node. *)
Lemma turned_backrefs (x : Z) (gr : gmap Z node_t.t) (a' b' : handle_t) :
  edges_symmetric gr → no_self_loop x gr →
  NoDup (edge_list true x gr) → NoDup (edge_list false x gr) →
  get_id a' = x → get_id b' ≠ x →
  count_handle b' (side_list a' (turn_node x gr))
  = count_handle (flip a') (side_list (flip b') (turn_node x gr)).
Proof.
  intros Hsym Hloop HndL HndR Ha Hb.
  rewrite !side_list_turn_node by done.
  rewrite decide_True by done.
  rewrite decide_False by (by rewrite get_id_flip).
  rewrite flip_flip.
  set (M := side_list (flip b') gr).
  set (cL := count_handle b' (edge_list true x gr)).
  set (cR := count_handle b' (edge_list false x gr)).
  assert (count_handle (2 * x + Z.b2z false) M = cL) as HcL.
  { unfold M, cL. rewrite <- (side_list_build x true).
    by rewrite (Hsym (2 * x + Z.b2z true) b'), flip_build. }
  assert (count_handle (2 * x + Z.b2z true) M = cR) as HcR.
  { unfold M, cR. rewrite <- (side_list_build x false).
    by rewrite (Hsym (2 * x + Z.b2z false) b'), flip_build. }
  assert (refs_to x M = (cL + cR)%nat) as Hrefs
    by (by rewrite refs_to_counts, HcL, HcR).
  assert (cL ≤ 1)%nat as HL1 by (by apply count_handle_NoDup).
  assert (cR ≤ 1)%nat as HR1 by (by apply count_handle_NoDup).
  rewrite (Hsym (flip a') b'), flip_flip. fold M.
  assert (∀ e, get_id e = x →
            count_handle e M = if get_is_reverse e then cR else cL) as Hcount.
  { intros e He. destruct (same_node_cases x e He) as [->| ->];
      by rewrite get_is_reverse_build. }
  rewrite (Hcount a' Ha).
  destruct cL as [|[|cL]], cR as [|[|cR]]; try lia; simpl.
  - rewrite (Hcount (flip a')) by (by rewrite get_id_flip).
    by destruct (get_is_reverse a'), (get_is_reverse (flip a')).
  - rewrite flip_first_single by (by rewrite ?get_id_flip).
    by rewrite flip_flip, (Hcount a' Ha).
  - rewrite flip_first_single by (by rewrite ?get_id_flip).
    by rewrite flip_flip, (Hcount a' Ha).
  - rewrite flip_first_twice.
    rewrite (Hcount (flip a')) by (by rewrite get_id_flip).
    by destruct (get_is_reverse a'), (get_is_reverse (flip a')).
Qed.

Lemma edges_symmetric_turn_node (x : Z) (gr : gmap Z node_t.t) :
  edges_symmetric gr → no_self_loop x gr →
  NoDup (edge_list true x gr) → NoDup (edge_list false x gr) →
  edges_symmetric (turn_node x gr).
Proof.
  intros Hsym Hloop HndL HndR a b.
  destruct (decide (get_id a = x)) as [Ha|Ha];
    destruct (decide (get_id b = x)) as [Hb|Hb].
  - rewrite !side_list_turn_node by done.
    rewrite !decide_True by (by rewrite ?get_id_flip).
    rewrite !(count_handle_no_refs x); try done.
    + apply no_self_loop_side; [done|]. by rewrite !get_id_flip.
    + by rewrite get_id_flip.
    + apply no_self_loop_side; [done|]. by rewrite get_id_flip.
  - by apply turned_backrefs.
  - pose proof (turned_backrefs x gr (flip b) (flip a) Hsym Hloop HndL HndR)
      as Hk.
    rewrite !get_id_flip, !flip_flip in Hk. symmetry. by apply Hk.
  - rewrite !side_list_turn_node by done.
    rewrite !decide_False by (by rewrite ?get_id_flip).
    rewrite !count_iter_flip_first_other by (by rewrite ?get_id_flip).
    apply Hsym.
Qed.

Lemma dom_update_bwd_loop (f : list handle_t → list handle_t)
    (targets : list handle_t) (gr : gmap Z node_t.t) :
  dom (foldl (λ gr target, update_bwd f target gr) gr targets)
  = dom gr ∪ list_to_set (get_id <$> targets).
Proof.
  revert gr. induction targets as [|t ts IH]; intros gr; simpl.
  - set_solver.
  - rewrite IH, dom_update_bwd. set_solver.
Qed.

Lemma dom_turn_node (x : Z) (gr : gmap Z node_t.t) :
  is_Some (gr !! x) → edges_symmetric gr → no_self_loop x gr →
  dom (turn_node x gr) = dom gr.
Proof.
  intros Hlive Hsym Hloop.
  pose proof Hloop as Hloop'. unfold no_self_loop in Hloop'.
  rewrite out_edges_split in Hloop'. apply Forall_app in Hloop' as [HL HR].
  destruct (turn_node_keeps x gr) as (_ & _ & _ & -> & _).
  set (gr1 := <[x := node_t.set_sequence
                       (reverse_complement (node_t.sequence (node_at gr x)))
                       (node_at gr x)]> gr).
  assert (∀ side n, edge_list side n gr1 = edge_list side n gr) as Hsame.
  { intros side n. unfold gr1, edge_list. rewrite node_at_insert.
    destruct (decide (n = x)) as [->|]; [|done]. by destruct side. }
  rewrite (flip_backrefs_no_loop true x gr1) by (by rewrite Hsame).
  set (gr2 := foldl (λ gr target, update_bwd (flip_first x) target gr) gr1
                    (edge_list true x gr1)).
  assert (edge_list false x gr2 = edge_list false x gr) as HR2.
  { rewrite <- !(side_list_build x false). unfold gr2.
    rewrite side_list_flip_loop, Hsame.
    rewrite (count_handle_no_refs x);
      [apply Hsame|done|by rewrite get_id_flip, get_id_build]. }
  rewrite (flip_backrefs_no_loop false x gr2) by (by rewrite HR2).
  rewrite dom_update_bwd_loop, HR2. unfold gr2.
  rewrite dom_update_bwd_loop, Hsame. unfold gr1. rewrite dom_insert_L.
  assert (∀ side, list_to_set (get_id <$> edge_list side x gr)
                  ⊆@{gset Z} dom gr) as Hsub.
  { intros side id Hid. apply elem_of_list_to_set in Hid.
    apply list_elem_of_fmap in Hid as (e & -> & He). apply elem_of_dom.
    apply (edges_symmetric_targets_live gr (2 * x + Z.b2z side)); [done|].
    by rewrite side_list_build. }
  pose proof (Hsub true). pose proof (Hsub false).
  apply elem_of_dom in Hlive. set_solver.
Qed.

(** X23: [apply_orientation] and the edges.  For a reverse handle of a
    live node that has no edge to itself and no parallel edges, in a
    graph whose stored edges are symmetric: the stored edges are
    symmetric afterwards too, no node is added or removed, and
    [follow_edges] from the returned forward handle, in either direction,
    visits the handles that it visited from the reverse handle before the
    call, in the same order. *)
Theorem apply_orientation_edges (h : handle_t) (g : HashGraph) :
  get_is_reverse h = true → has_node (get_id h) g = true →
  (∀ bucket, occurrences g !! get_id h = Some bucket →
     Forall (λ a, is_Some (store g !! a)) bucket) →
  edges_symmetric (graph g) → no_self_loop (get_id h) (graph g) →
  NoDup (edge_list true (get_id h) (graph g)) →
  NoDup (edge_list false (get_id h) (graph g)) →
  ∃ g',
    apply_orientation h g = Some (flip h, g') ∧
    edges_symmetric (graph g') ∧ dom (graph g') = dom (graph g) ∧
    (∀ go_left, neighbors (flip h) go_left g' = neighbors h go_left g).
Proof.
  intros Hrev Hlive Hbucket Hsym Hloop HndL HndR.
  pose proof Hlive as Hlive'. apply has_node_live in Hlive'.
  unfold apply_orientation. rewrite Hrev.
  destruct (turn_steps_total (get_id h) (occurrences g) (store g) Hbucket)
    as (st' & -> & _).
  cbn [mbind option_bind]. eexists. split; [reflexivity|].
  cbn [graph set_store set_graph].
  pose proof (dom_turn_node (get_id h) (graph g) Hlive' Hsym Hloop) as Hdom.
  split; [by apply edges_symmetric_turn_node|]. split; [done|].
  intros go_left. rewrite !neighbors_live.
  - cbn [graph set_store set_graph]. f_equal. f_equal.
    rewrite get_id_flip, get_is_reverse_flip, Hrev. simpl.
    rewrite <- (side_list_build (get_id h) go_left).
    rewrite side_list_turn_node, decide_True by (done || apply get_id_build).
    by rewrite flip_build, side_list_build.
  - done.
  - cbn [graph set_store set_graph]. apply elem_of_dom.
    rewrite get_id_flip, Hdom. by apply elem_of_dom.
Qed.

Lemma apply_orientation_edges_witness :
  ∃ g', apply_orientation (get_handle 2 true) two_edge_graph
        = Some (flip (get_handle 2 true), g') ∧
        edges_symmetric (graph g').
Proof.
  assert (edges_symmetric (graph two_edge_graph)) as Hsym.
  { apply (edges_symmetric_create_edge (get_handle 2 false)
             (get_handle 3 false)
             (create_edge (get_handle 1 false) (get_handle 2 false) _)).
    apply edges_symmetric_create_edge.
    apply (edges_symmetric_create_handle (seq_of "GAC") 3); [by vm_compute|].
    apply (edges_symmetric_create_handle (seq_of "ATG") 2); [by vm_compute|].
    apply (edges_symmetric_create_handle (seq_of "CT") 1); [by vm_compute|].
    apply edges_symmetric_empty. }
  assert (get_is_reverse (get_handle 2 true) = true) as H1 by (by vm_compute).
  assert (has_node (get_id (get_handle 2 true)) two_edge_graph = true) as H2
    by (by vm_compute).
  assert (∀ bucket,
            occurrences two_edge_graph !! get_id (get_handle 2 true)
            = Some bucket →
            Forall (λ a, is_Some (store two_edge_graph !! a)) bucket) as H3
    by (intros bucket Hb; by vm_compute in Hb).
  assert (no_self_loop (get_id (get_handle 2 true)) (graph two_edge_graph))
    as H4 by (apply (bool_decide_unpack _); by vm_compute).
  assert (NoDup (edge_list true (get_id (get_handle 2 true))
                   (graph two_edge_graph))) as H5
    by (apply (bool_decide_unpack _); by vm_compute).
  assert (NoDup (edge_list false (get_id (get_handle 2 true))
                   (graph two_edge_graph))) as H6
    by (apply (bool_decide_unpack _); by vm_compute).
  destruct (apply_orientation_edges (get_handle 2 true) two_edge_graph
              H1 H2 H3 Hsym H4 H5 H6) as (g' & Hrun & Hsym' & _).
  by exists g'.
Defined.

(** * Turning a node around: the paths *)

(** With two parallel edges the same reference back is flipped twice,
    and none is turned around. *)
Example apply_orientation_parallel_edges :
  let '(h1, g) := create_handle_next (seq_of "GATTACA") empty_graph in
  let '(h2, g) := create_handle_next (seq_of "CATTAG") g in
  let g := create_edge h1 h2 (create_edge h1 h2 g) in
  ∃ g', apply_orientation (flip h1) g = Some (h1, g') ∧
        neighbors h1 true g' = Some [flip h2; flip h2] ∧
        neighbors (flip h2) false g' = Some [flip h1; flip h1].
Proof. vm_compute. eexists. repeat split. Qed.

(** The store after the loop over a bucket that holds live steps, none
    of them twice. *)
Lemma flip_steps_spec (bucket : list addr)
    (st : gmap addr path_mapping_t.t) :
  NoDup bucket → Forall (λ a, is_Some (st !! a)) bucket →
  ∃ st', flip_steps bucket st = Some st' ∧
    ∀ a, st' !! a
         = if decide (a ∈ bucket)
           then (λ r, path_mapping_t.set_handle
                        (flip (path_mapping_t.handle r)) r) <$> st !! a
           else st !! a.
Proof.
  revert st. induction bucket as [|a bucket IH]; intros st Hnd Hlive.
  - exists st. split; [done|]. intros a. rewrite decide_False; [done|].
    apply not_elem_of_nil.
  - apply NoDup_cons in Hnd as [Ha Hnd].
    apply Forall_cons in Hlive as [[record Hr] Hlive]. simpl.
    rewrite Hr. simpl.
    destruct (IH (<[a := path_mapping_t.set_handle
                           (flip (path_mapping_t.handle record)) record]> st)
                Hnd) as (st' & Hrun & Hspec).
    { eapply Forall_impl; [exact Hlive|]. intros b [rb Hb]. simpl.
      destruct (decide (b = a)) as [->|Hne].
      - rewrite lookup_insert_eq. eauto.
      - rewrite lookup_insert_ne by done. eauto. }
    exists st'. split; [done|]. intros b. rewrite Hspec.
    destruct (decide (b = a)) as [->|Hne].
    + rewrite decide_False by done. rewrite decide_True by (by left).
      by rewrite lookup_insert_eq, Hr.
    + rewrite lookup_insert_ne by done.
      destruct (decide (b ∈ bucket)) as [Hb|Hb].
      * by rewrite decide_True by (by right).
      * rewrite decide_False; [done|].
        intros [?|?]%elem_of_cons; done.
Qed.

Lemma dseg_relabelled st st' before first cells final after :
  relabelled st st' →
  dseg st before first cells final after →
  dseg st' before first cells final after.
Proof.
  intros Hrel. revert before first.
  induction cells as [|a cells IH]; intros before first; [done|].
  intros (-> & record & Hr & Hprev & Hd). split; [done|].
  specialize (Hrel a). rewrite Hr in Hrel.
  destruct (st' !! a) as [record'|]; [|done].
  destruct Hrel as (Hp & Hn & _).
  exists record'. split; [done|]. split; [congruence|].
  rewrite Hn. by apply IH.
Qed.

Lemma path_cells_relabelled st st' k p cells :
  relabelled st st' → path_cells st k p cells → path_cells st' k p cells.
Proof.
  intros Hrel (Hd & Hnd & Hc & Hids & Hkey).
  split; [by eapply dseg_relabelled|]. split; [done|]. split; [done|].
  split; [|done]. eapply Forall_impl; [exact Hids|].
  intros a (record & Hr & Hk). specialize (Hrel a). rewrite Hr in Hrel.
  destruct (st' !! a) as [record'|]; [|done].
  destruct Hrel as (_ & _ & Hpid). exists record'. split; [done|]. congruence.
Qed.

Lemma store_wf_relabelled ps st st' :
  relabelled st st' → store_wf ps st → store_wf ps st'.
Proof.
  intros Hrel [Hroom Hpaths Hstore].
  assert (dom st' = dom st) as Hdom.
  { apply set_eq. intros a. rewrite !elem_of_dom. specialize (Hrel a).
    destruct (st !! a), (st' !! a); try done; split; intros [? ?]; eauto;
      done. }
  split.
  - assert (size st' = size st) as ->; [|done].
    by rewrite <- !size_dom, Hdom.
  - intros k p Hk. destruct (Hpaths k p Hk) as [cells Hcells].
    exists cells. by eapply path_cells_relabelled.
  - intros a record' Ha. pose proof (Hrel a) as Hra. rewrite Ha in Hra.
    destruct (st !! a) as [record|] eqn:Er; [|done].
    destruct Hra as (_ & _ & Hpid).
    destruct (Hstore a record Er) as (p & Hp & Hin).
    exists p. rewrite Hpid. split; [done|].
    destruct (Hpaths _ p Hp) as [cells Hcells].
    rewrite (path_cells_steps _ _ _ _ Hcells) in Hin.
    by rewrite (path_cells_steps _ _ _ _
                  (path_cells_relabelled _ _ _ _ _ Hrel Hcells)).
Qed.

(** X24: [apply_orientation] and the paths.  With a well-formed path
    store and an exact occurrence index, on a reverse handle: the call
    does not fail; every path keeps its steps, their order and its count;
    the handle of a step is flipped when it is on the node and is left
    alone otherwise, so that every path spells the same walk through the
    re-oriented node; the path store stays well formed and the occurrence
    index exact. *)
Theorem apply_orientation_paths (h : handle_t) (g : HashGraph) :
  paths_wf g → index_wf g → get_is_reverse h = true →
  ∃ g',
    apply_orientation h g = Some (flip h, g') ∧
    paths_wf g' ∧ index_wf g' ∧ paths g' = paths g ∧
    ∀ q,
      path_steps q g' = path_steps q g ∧
      path_handles q g'
      = (λ e, if decide (get_id e = get_id h) then flip e else e)
          <$> path_handles q g.
Proof.
  intros Hwf Hidx Hrev. pose proof Hidx as [Hb Hs].
  set (x := get_id h).
  set (bucket := default [] (occurrences g !! x)).
  assert (NoDup bucket ∧
          ∀ a, a ∈ bucket →
            ∃ record, store g !! a = Some record ∧
                      get_id (path_mapping_t.handle record) = x)
    as [Hnd Hlive].
  { unfold bucket. destruct (occurrences g !! x) as [bk|] eqn:E; simpl.
    - by apply Hb.
    - split; [apply NoDup_nil_2|]. intros a Hin.
      by apply elem_of_nil in Hin. }
  destruct (flip_steps_spec bucket (store g) Hnd) as (st' & Hrun & Hspec).
  { apply Forall_forall. intros a Ha.
    destruct (Hlive a Ha) as (r & Hr & _). eauto. }
  assert (turn_steps x (occurrences g) (store g) = Some st') as Hturn.
  { unfold turn_steps. unfold bucket in Hrun.
    destruct (occurrences g !! x) as [bk|] eqn:E; [done|].
    simpl in Hrun. by injection Hrun as <-. }
  assert (relabelled (store g) st') as Hrel.
  { intros a. rewrite Hspec.
    destruct (store g !! a) as [r|] eqn:Er.
    - destruct (decide (a ∈ bucket)); simpl; done.
    - by destruct (decide (a ∈ bucket)). }
  assert (∀ a r, store g !! a = Some r →
            st' !! a
            = Some (path_mapping_t.set_handle
                      (if decide (get_id (path_mapping_t.handle r) = x)
                       then flip (path_mapping_t.handle r)
                       else path_mapping_t.handle r) r)) as Hnew.
  { intros a r Hr. rewrite Hspec, Hr. simpl.
    destruct (decide (a ∈ bucket)) as [Ha|Ha].
    - destruct (Hlive a Ha) as (r' & Hr' & Hid).
      assert (r' = r) as -> by congruence.
      by rewrite decide_True.
    - rewrite decide_False; [by destruct r|].
      intros Hid. apply Ha. unfold bucket. rewrite <- Hid. by apply Hs. }
  unfold apply_orientation. rewrite Hrev. fold x. rewrite Hturn.
  cbn [mbind option_bind]. eexists. split; [reflexivity|].
  assert (paths_wf (set_store st' (set_graph (turn_node x (graph g)) g)))
    as Hwf'.
  { unfold paths_wf. cbn [paths store set_store set_graph].
    by eapply store_wf_relabelled. }
  split; [done|]. split; [|split; [done|]].
  - split; cbn [occurrences store set_store set_graph].
    + intros y bk Hy. destruct (Hb y bk Hy) as [Hndy Hlivey].
      split; [done|]. intros a Ha.
      destruct (Hlivey a Ha) as (r & Hr & Hid).
      eexists. split; [by apply Hnew|]. simpl.
      case_decide; [by rewrite get_id_flip|done].
    + intros a r' Ha. pose proof (Hrel a) as Hra. rewrite Ha in Hra.
      destruct (store g !! a) as [r|] eqn:Er; [|done].
      rewrite (Hnew a r Er) in Ha. injection Ha as <-. simpl.
      pose proof (Hs a r Er) as Hin.
      case_decide; [by rewrite get_id_flip|done].
  - intros q. unfold path_steps, path_handles, path_steps, path_at.
    cbn [paths store set_store set_graph].
    destruct (paths g !! q) as [pq|] eqn:Epq; simpl.
    + destruct (wf_paths _ _ Hwf q pq Epq) as [cells Hcells].
      pose proof (path_cells_relabelled _ _ _ _ _ Hrel Hcells) as Hcells'.
      rewrite (path_cells_steps _ _ _ _ Hcells),
        (path_cells_steps _ _ _ _ Hcells').
      split; [done|].
      pose proof (path_cells_live _ _ _ _ Hcells) as Hl.
      clear -Hl Hnew. induction Hl as [|a cells [r Hr] _ IH]; [done|].
      rewrite (handles_of_cons (store g) a r) by done.
      rewrite (handles_of_cons st' a _ _ (Hnew a r Hr)).
      rewrite fmap_cons, IH. simpl. done.
    + by rewrite !steps_from_null.
Qed.

Lemma apply_orientation_paths_witness :
  ∃ g g', one_step_graph = Some g ∧
    apply_orientation (get_handle 2 true) g
    = Some (flip (get_handle 2 true), g') ∧
    path_handles 1 g'
    = (λ e, if decide (get_id e = get_id (get_handle 2 true))
            then flip e else e) <$> path_handles 1 g.
Proof.
  destruct one_step_index as (g & p & Hg & Hwf & Hidx & Hp).
  assert (get_is_reverse (get_handle 2 true) = true) as Hrev
    by (by vm_compute).
  destruct (apply_orientation_paths (get_handle 2 true) g Hwf Hidx Hrev)
    as (g' & Hrun & _ & _ & _ & Hpaths).
  exists g, g'. split; [done|]. split; [done|]. by apply Hpaths.
Defined.

(** * Dividing a node that paths walk over *)

(** One allocation filed in the bucket of its node keeps the index
    exact. *)
Lemma index_wf_extend (g g' : HashGraph) (k : Z) (a : addr) (h : handle_t) :
  index_wf g → store_extends k a h (store g) (store g') →
  occurrences g' = push_occurrence (get_id h) a (occurrences g) →
  index_wf g'.
Proof.
  intros [Hb Hs] Hext Hoc.
  pose proof Hext as (Ha & _ & _ & (before & after & Hrec) & Hold).
  split; rewrite Hoc.
  - intros x bucket Hx. unfold push_occurrence in Hx.
    destruct (decide (x = get_id h)) as [->|Hne].
    + rewrite lookup_insert_eq in Hx. injection Hx as <-.
      assert (NoDup (default [] (occurrences g !! get_id h)) ∧
              ∀ b, b ∈ default [] (occurrences g !! get_id h) →
                ∃ record, store g !! b = Some record ∧
                  get_id (path_mapping_t.handle record) = get_id h)
        as [Hnd Hlive].
      { destruct (occurrences g !! get_id h) as [bucket|] eqn:E; simpl.
        - by apply Hb.
        - split; [apply NoDup_nil_2|]. intros b Hin.
          by apply elem_of_nil in Hin. }
      split.
      * apply NoDup_app. split; [done|]. split; [|apply NoDup_singleton].
        intros b Hin Hba. apply list_elem_of_singleton in Hba. subst b.
        destruct (Hlive a Hin) as (? & ? & _). congruence.
      * intros b Hin. apply elem_of_app in Hin as [Hin|Hba];
          [|apply list_elem_of_singleton in Hba; subst b].
        -- destruct (Hlive b Hin) as (record & Hr & Hid).
           destruct (Hold b record Hr) as (record' & Hr' & Hh & _).
           exists record'. split; [done|]. congruence.
        -- eexists. split; [done|]. done.
    + rewrite lookup_insert_ne in Hx by done.
      destruct (Hb x bucket Hx) as [Hnd Hlive]. split; [done|].
      intros b Hin. destruct (Hlive b Hin) as (record & Hr & Hid).
      destruct (Hold b record Hr) as (record' & Hr' & Hh & _).
      exists record'. split; [done|]. congruence.
  - intros b record Hr. unfold push_occurrence.
    destruct (decide (b = a)) as [->|Hba].
    + rewrite Hrec in Hr. injection Hr as <-. simpl.
      rewrite lookup_insert_eq. simpl. apply elem_of_app. right. by left.
    + assert (is_Some (store g !! b)) as [old Hold_b].
      { apply elem_of_dom. destruct Hext as (_ & _ & Hdom & _).
        apply elem_of_dom_2 in Hr. rewrite Hdom in Hr. set_solver. }
      destruct (Hold b old Hold_b) as (record' & Hr' & Hh & _).
      assert (record' = record) as -> by congruence.
      rewrite Hh. pose proof (Hs b old Hold_b) as Hin.
      destruct (decide (get_id (path_mapping_t.handle old) = get_id h))
        as [E|Hne].
      * rewrite E in *. rewrite lookup_insert_eq. simpl.
        apply elem_of_app. by left.
      * by rewrite lookup_insert_ne.
Qed.

(** The steps of the other paths are not relinked by an allocation. *)
Lemma path_steps_other ps st st' k a h q :
  store_wf ps st → store_extends k a h st st' → q ≠ k →
  steps_from st' (path_t.head (path_at ps q))
  = steps_from st (path_t.head (path_at ps q)).
Proof.
  intros Hwf Hext Hq. unfold path_at.
  destruct (ps !! q) as [pq|] eqn:E; simpl.
  - destruct (wf_paths _ _ Hwf q pq E) as (cells & Hcells).
    rewrite (path_cells_steps _ _ _ _ Hcells).
    apply (path_cells_steps _ q).
    by eapply path_cells_other.
  - by rewrite !steps_from_null.
Qed.

(** A step on the walk of a path is a live record that names the path. *)
Lemma path_steps_owned (g : HashGraph) (q : Z) (b : addr) :
  paths_wf g → b ∈ path_steps q g →
  ∃ record, store g !! b = Some record ∧ path_mapping_t.path_id record = q.
Proof.
  intros Hwf. unfold path_steps, path_at.
  destruct (paths g !! q) as [pq|] eqn:E; simpl.
  - destruct (wf_paths _ _ Hwf q pq E) as (cells & Hcells).
    rewrite (path_cells_steps _ _ _ _ Hcells).
    destruct Hcells as (_ & _ & _ & Hids & _).
    rewrite Forall_forall in Hids. apply Hids.
  - rewrite steps_from_null. intros Hin. by apply elem_of_nil in Hin.
Qed.

Lemma pending_handles_app news rest st l1 l2 :
  pending_handles news rest st (l1 ++ l2)
  = pending_handles news rest st l1 ++ pending_handles news rest st l2.
Proof. unfold pending_handles. apply bind_app. Qed.

Lemma pending_handles_ext news rest rest' st st' l :
  (∀ b, b ∈ l →
     (b ∈ rest ↔ b ∈ rest') ∧
     path_mapping_t.handle <$> st !! b = path_mapping_t.handle <$> st' !! b) →
  pending_handles news rest st l = pending_handles news rest' st' l.
Proof.
  unfold pending_handles. induction l as [|a l IH]; intros Hl; [done|].
  rewrite !bind_cons. rewrite IH.
  2:{ intros b Hb. apply Hl. by right. }
  f_equal. destruct (Hl a) as [Hin Hh]; [by left|].
  destruct (st !! a) as [r|], (st' !! a) as [r'|]; simpl in Hh; try done.
  injection Hh as Hh. rewrite Hh.
  destruct (decide (a ∈ rest)), (decide (a ∈ rest')); tauto.
Qed.

Lemma pending_handles_fresh news rest st l :
  (∀ b, b ∈ l → b ∉ rest) →
  pending_handles news rest st l = handles_of st l.
Proof.
  unfold pending_handles, handles_of.
  induction l as [|a l IH]; intros Hl; [done|].
  rewrite bind_cons. simpl. rewrite IH.
  2:{ intros b Hb. apply Hl. by right. }
  destruct (st !! a) as [r|]; simpl; [|done].
  rewrite decide_False; [done|]. apply Hl. by left.
Qed.

Lemma pending_handles_nil news st l :
  pending_handles news [] st l = handles_of st l.
Proof.
  apply pending_handles_fresh. intros b _ Hb. by apply elem_of_nil in Hb.
Qed.

Lemma pending_handles_one news rest st m record :
  st !! m = Some record →
  pending_handles news rest st [m]
  = if decide (m ∈ rest)
    then step_expansion news (path_mapping_t.handle record)
    else [path_mapping_t.handle record].
Proof.
  intros Hm. unfold pending_handles. rewrite bind_cons, Hm. simpl.
  apply app_nil_r.
Qed.

(** The inner loop that inserts the pieces: it runs to its end when the
    address space has room for the new records; the new steps stand, in
    the order of the pieces, right behind the step it started from. *)
Lemma insert_steps_spec (busy : Z) (pieces : list (Z * handle_t)) :
  ∀ (mapping : option addr) (k : Z) (g : HashGraph) (p : path_t.t)
    (pre post : list addr),
  paths_wf g → index_wf g → paths g !! k = Some p →
  path_steps k g = pre ++ post → mapping = last pre →
  Forall (λ piece, piece.1 = get_id piece.2 ∧ piece.1 ≠ busy) pieces →
  Z.of_nat (size (store g)) + Z.of_nat (length pieces) < two64 →
  ∃ g' new,
    insert_steps busy pieces mapping k g = Some g' ∧
    paths_wf g' ∧ index_wf g' ∧
    path_steps k g' = pre ++ new ++ post ∧
    handles_of (store g') new = pieces.*2 ∧
    (∀ b, b ∈ new → store g !! b = None) ∧
    (∀ b record, store g !! b = Some record →
       ∃ record', store g' !! b = Some record' ∧
         path_mapping_t.handle record' = path_mapping_t.handle record ∧
         path_mapping_t.path_id record' = path_mapping_t.path_id record) ∧
    size (store g') = (size (store g) + length pieces)%nat ∧
    (∀ q, q ≠ k → path_steps q g' = path_steps q g) ∧
    (∀ q, path_t.name <$> paths g' !! q = path_t.name <$> paths g !! q) ∧
    graph g' = graph g ∧
    occurrences g' !! busy = occurrences g !! busy.
Proof.
  induction pieces as [|[id h] pieces IH];
    intros mapping k g p pre post Hwf Hix Hk Hsteps Hmap Hpieces Hroom.
  - exists g, []. simpl. rewrite Hsteps.
    split; [done|]. split; [done|]. split; [done|]. split; [done|].
    split; [done|]. split; [by intros b Hb%elem_of_nil|].
    split; [eauto|]. split; [lia|]. done.
  - apply Forall_cons in Hpieces as [[Hid Hbusy] Hpieces].
    simpl in Hid, Hbusy. subst id. cbn [length] in Hroom.
    destruct (wf_paths _ _ Hwf k p Hk) as (cells & Hcells).
    assert (cells = pre ++ post) as Ecells.
    { rewrite <- Hsteps. unfold path_steps, path_at. rewrite Hk. simpl.
      symmetry. by apply (path_cells_steps _ k). }
    assert (new_addr (store g) = Some (fresh (dom (store g)))) as Ha
      by (apply new_addr_room; lia).
    set (a := fresh (dom (store g))) in *.
    destruct (insert_after_cells _ _ _ _ a h mapping Hcells Ha)
      as (p' & st' & cells' & Hins & Hcells' & Hext & Hname & Hnone & Hsome).
    { intros m Hm. subst mapping. rewrite Ecells. apply elem_of_app. left.
      apply last_Some in Hm as [l' ->]. apply elem_of_app. right. by left. }
    assert (cells' = (pre ++ [a]) ++ post) as Ecells'.
    { destruct (last pre) as [m|] eqn:E.
      - apply last_Some in E as [l' ->].
        rewrite (Hsome m l' post Hmap).
        + by rewrite <- !app_assoc.
        + by rewrite Ecells, <- app_assoc.
      - apply last_None in E. subst pre. rewrite (Hnone Hmap), Ecells. done. }
    set (g1 := set_store st'
                 (set_occurrences
                    (push_occurrence (get_id h) a (occurrences g))
                    (set_paths (<[k := p']> (paths g)) g))).
    assert (paths_wf g1) as Hwf1.
    { unfold paths_wf, g1. simpl.
      eapply (store_wf_extend _ _ _ _ _ _ _ _ _ cells'); try done.
      - intros b Hb. rewrite Ecells', Ecells in *. set_solver.
      - rewrite Ecells'. set_solver. }
    assert (index_wf g1) as Hix1
      by (by apply (index_wf_extend g g1 k a h)).
    pose proof (store_extends_size _ _ _ _ _ Hext) as Hsize.
    destruct (IH (Some a) k g1 p' (pre ++ [a]) post)
      as (g' & new & Hrun & Hwf' & Hix' & Hsteps' & Hh' & Hnew' & Hold'
          & Hsize' & Hother' & Hnames' & Hgraph' & Hocc'); try done.
    { unfold g1. simpl. apply lookup_insert_eq. }
    { unfold path_steps, path_at, g1. simpl. rewrite lookup_insert_eq.
      simpl. rewrite <- Ecells'. by apply (path_cells_steps _ k). }
    { by rewrite last_snoc. }
    { unfold g1. simpl. lia. }
    pose proof Hext as (Hfresh & _ & Hdom & (before & after & Hrec) & Hold).
    exists g', (a :: new).
    split.
    { simpl. unfold path_at. rewrite Hk. simpl. rewrite Hins. simpl.
      rewrite decide_False by done. exact Hrun. }
    split; [done|]. split; [done|].
    split; [by rewrite Hsteps', <- app_assoc|].
    split.
    { destruct (Hold' a _ Hrec) as (ra & Hra & Hha & _).
      rewrite (handles_of_cons _ _ _ _ Hra), Hh', Hha. done. }
    split.
    { intros b [->|Hb]%elem_of_cons; [done|].
      apply Hnew' in Hb. unfold g1 in Hb. simpl in Hb.
      apply not_elem_of_dom. apply not_elem_of_dom in Hb.
      rewrite Hdom in Hb. set_solver. }
    split.
    { intros b record Hb.
      destruct (Hold b record Hb) as (r1 & Hr1 & Hh1 & Hp1 & _).
      destruct (Hold' b r1 Hr1) as (r2 & Hr2 & Hh2 & Hp2).
      exists r2. split; [done|]. split; congruence. }
    split; [rewrite Hsize'; unfold g1; simpl; rewrite Hsize; simpl; lia|].
    split.
    { intros q Hq. rewrite (Hother' q Hq).
      unfold path_steps, g1, path_at. simpl.
      rewrite lookup_insert_ne by done.
      by apply (path_steps_other (paths g) _ _ k a h q). }
    split.
    { intros q. rewrite Hnames'. unfold g1. simpl.
      destruct (decide (q = k)) as [->|Hq].
      - rewrite lookup_insert_eq, Hk. simpl. by rewrite Hname.
      - by rewrite lookup_insert_ne. }
    split; [by rewrite Hgraph'|].
    rewrite Hocc'. unfold g1, push_occurrence. simpl.
    by rewrite lookup_insert_ne.
Qed.

Lemma snd_id_handle (l : list handle_t) :
  ((λ h : handle_t, (get_id h, h)) <$> l).*2 = l.
Proof.
  rewrite <- list_fmap_compose. rewrite <- (list_fmap_id l) at 2.
  by apply list_fmap_ext.
Qed.

Lemma snd_id_flip (l : list handle_t) :
  ((λ h : handle_t, (get_id h, flip h)) <$> l).*2 = flip <$> l.
Proof. rewrite <- list_fmap_compose. by apply list_fmap_ext. Qed.

(** The body of the loop over the bucket, on a step [m] of the bucket
    whose remaining steps are [rest]. *)
Lemma rehome_step_spec (busy : Z) (news : list handle_t) (first : handle_t)
    (g : HashGraph) (m : addr) (rest : list addr) :
  paths_wf g → index_wf g → NoDup (m :: rest) →
  (∀ b, b ∈ m :: rest → is_Some (store g !! b)) →
  Forall (λ hn, get_id hn ≠ busy) news →
  Z.of_nat (size (store g)) + Z.of_nat (length news) < two64 →
  ∃ g',
    rehome_step busy (first :: news) g m = Some g' ∧
    paths_wf g' ∧ index_wf g' ∧
    size (store g') = (size (store g) + length news)%nat ∧
    (∀ b, is_Some (store g !! b) → is_Some (store g' !! b)) ∧
    (∀ q, pending_handles news rest (store g') (path_steps q g')
          = pending_handles news (m :: rest) (store g) (path_steps q g)) ∧
    (∀ q, path_t.name <$> paths g' !! q = path_t.name <$> paths g !! q) ∧
    graph g' = graph g ∧
    occurrences g' !! busy = occurrences g !! busy.
Proof.
  intros Hwf Hix Hnd Hlive Hnews Hroom.
  destruct (Hlive m) as [record Hrec]; [by left|].
  unfold rehome_step. rewrite Hrec. cbn [mbind option_bind tail].
  set (k := path_mapping_t.path_id record).
  destruct (wf_store _ _ Hwf m record Hrec) as (p & Hk & Hin).
  change (paths g !! k = Some p) in Hk.
  destruct (wf_paths _ _ Hwf k p Hk) as (cells & Hcells).
  rewrite (path_cells_steps _ _ _ _ Hcells) in Hin.
  apply list_elem_of_split in Hin as (l1 & l2 & Ecells).
  assert (path_steps k g = cells) as Hsteps.
  { unfold path_steps, path_at. rewrite Hk. simpl.
    by apply (path_cells_steps _ k). }
  pose proof Hcells as (Hd & Hndc & _).
  apply NoDup_cons in Hnd as [Hm Hnd].
  (* what is common to the two directions *)
  assert (∀ g' new,
            paths_wf g' →
            (∀ b, b ∈ new → store g !! b = None) →
            (∀ b record, store g !! b = Some record →
               ∃ record', store g' !! b = Some record' ∧
                 path_mapping_t.handle record'
                 = path_mapping_t.handle record ∧
                 path_mapping_t.path_id record'
                 = path_mapping_t.path_id record) →
            (∀ q, q ≠ k → path_steps q g' = path_steps q g) →
            (∀ l, (∀ b, b ∈ l → b ≠ m ∧ is_Some (store g !! b)) →
               pending_handles news rest (store g') l
               = pending_handles news (m :: rest) (store g) l) ∧
            pending_handles news rest (store g') [m]
            = [path_mapping_t.handle record] ∧
            pending_handles news rest (store g') new
            = handles_of (store g') new ∧
            (∀ q, q ≠ k →
               pending_handles news rest (store g') (path_steps q g')
               = pending_handles news (m :: rest) (store g)
                   (path_steps q g))) as Hshared.
  { intros g' new Hwf' Hnew Hold Hother.
    assert (∀ l, (∀ b, b ∈ l → b ≠ m ∧ is_Some (store g !! b)) →
              pending_handles news rest (store g') l
              = pending_handles news (m :: rest) (store g) l) as Hsame.
    { intros l Hl. apply pending_handles_ext. intros b Hb.
      destruct (Hl b Hb) as [Hbm [rb Hrb]]. split; [set_solver|].
      destruct (Hold b rb Hrb) as (rb' & Hrb' & Hh & _).
      rewrite Hrb, Hrb'. simpl. by rewrite Hh. }
    split; [exact Hsame|]. split; [|split].
    - destruct (Hold m record Hrec) as (r' & Hr' & Hh & _).
      rewrite (pending_handles_one _ _ _ _ _ Hr'), decide_False by done.
      by rewrite Hh.
    - apply pending_handles_fresh. intros b Hb Hrest.
      destruct (Hlive b) as [rb Hrb]; [by right|].
      rewrite (Hnew b Hb) in Hrb. done.
    - intros q Hq. rewrite (Hother q Hq). apply Hsame.
      intros b Hb. destruct (path_steps_owned g q b Hwf Hb) as (rb & Hrb & Hp).
      split; [|eauto]. intros ->. unfold k in Hq. congruence. }
  assert (∀ b, b ∈ l1 ++ l2 → b ≠ m ∧ is_Some (store g !! b)) as Hl12.
  { intros b Hb. split.
    - intros ->. rewrite Ecells in Hndc.
      apply NoDup_app in Hndc as (_ & Hdisj & Hnd2).
      apply NoDup_cons in Hnd2 as [Hm2 _].
      apply elem_of_app in Hb as [Hb|Hb]; [|done].
      apply (Hdisj m Hb). by left.
    - pose proof (path_cells_live _ _ _ _ Hcells) as Hl.
      rewrite Forall_forall in Hl. apply Hl. rewrite Ecells. set_solver. }
  destruct (get_is_reverse (path_mapping_t.handle record)) eqn:Hrev.
  - (* a reverse step: the flipped pieces go in front of it *)
    destruct (dseg_neighbours _ _ _ _ _ _ _ _
                (eq_rect _ (λ c, dseg _ _ _ c _ _) Hd _ Ecells))
      as (record' & Hrec' & Hprev & _).
    assert (record' = record) as -> by congruence.
    assert (path_mapping_t.prev record = last l1) as Hprev'
      by (rewrite Hprev; by destruct (last l1)).
    destruct (insert_steps_spec busy
                ((λ h, (get_id h, flip h)) <$> reverse news)
                (path_mapping_t.prev record) k g p l1 (m :: l2))
      as (g' & new & Hrun & Hwf' & Hix' & Hsteps' & Hh' & Hnew & Hold
          & Hsize & Hother & Hnames & Hgraph & Hocc); try done.
    { by rewrite Hsteps. }
    { apply Forall_fmap. apply Forall_reverse.
      eapply Forall_impl; [exact Hnews|]. intros hn Hn. simpl.
      by rewrite get_id_flip. }
    { by rewrite length_fmap, length_reverse. }
    destruct (Hshared g' new Hwf' Hnew Hold Hother)
      as (Hsame & Hone & Hfresh & Hq).
    exists g'. split; [exact Hrun|]. split; [done|]. split; [done|].
    split; [by rewrite Hsize, length_fmap, length_reverse|].
    split.
    { intros b [rb Hrb]. destruct (Hold b rb Hrb) as (? & ? & _). eauto. }
    split; [|done].
    intros q. destruct (decide (q = k)) as [->|Hne]; [|by apply Hq].
    rewrite Hsteps', Hsteps, Ecells.
    change (m :: l2) with ([m] ++ l2).
    rewrite !pending_handles_app, Hone, Hfresh, Hh', snd_id_flip.
    rewrite (pending_handles_one _ _ _ _ _ Hrec), decide_True by (by left).
    unfold step_expansion. rewrite Hrev.
    rewrite !Hsame.
    + by rewrite <- !app_assoc.
    + intros b Hb. apply Hl12. set_solver.
    + intros b Hb. apply Hl12. set_solver.
  - (* a forward step: the pieces go behind it *)
    destruct (insert_steps_spec busy ((λ h, (get_id h, h)) <$> news)
                (Some m) k g p (l1 ++ [m]) l2)
      as (g' & new & Hrun & Hwf' & Hix' & Hsteps' & Hh' & Hnew & Hold
          & Hsize & Hother & Hnames & Hgraph & Hocc); try done.
    { by rewrite Hsteps, Ecells, <- app_assoc. }
    { by rewrite last_snoc. }
    { apply Forall_fmap. eapply Forall_impl; [exact Hnews|]. done. }
    { by rewrite length_fmap. }
    destruct (Hshared g' new Hwf' Hnew Hold Hother)
      as (Hsame & Hone & Hfresh & Hq).
    exists g'. split; [exact Hrun|]. split; [done|]. split; [done|].
    split; [by rewrite Hsize, length_fmap|].
    split.
    { intros b [rb Hrb]. destruct (Hold b rb Hrb) as (? & ? & _). eauto. }
    split; [|done].
    intros q. destruct (decide (q = k)) as [->|Hne]; [|by apply Hq].
    rewrite Hsteps', Hsteps, Ecells.
    change (m :: l2) with ([m] ++ l2).
    rewrite !pending_handles_app, Hone, Hfresh, Hh', snd_id_handle.
    rewrite (pending_handles_one _ _ _ _ _ Hrec), decide_True by (by left).
    unfold step_expansion. rewrite Hrev.
    rewrite !Hsame.
    + by rewrite <- !app_assoc.
    + intros b Hb. apply Hl12. set_solver.
    + intros b Hb. apply Hl12. set_solver.
Qed.

(** The loop over the bucket of the divided node. *)
Lemma rehome_steps_spec (busy : Z) (news : list handle_t) (first : handle_t)
    (bucket : list addr) :
  ∀ g, paths_wf g → index_wf g → NoDup bucket →
  (∀ b, b ∈ bucket → is_Some (store g !! b)) →
  Forall (λ hn, get_id hn ≠ busy) news →
  Z.of_nat (size (store g))
  + Z.of_nat (length bucket) * Z.of_nat (length news) < two64 →
  ∃ g',
    rehome_steps busy (first :: news) bucket g = Some g' ∧
    paths_wf g' ∧ index_wf g' ∧
    (∀ q, path_handles q g'
          = pending_handles news bucket (store g) (path_steps q g)) ∧
    (∀ q, path_t.name <$> paths g' !! q = path_t.name <$> paths g !! q) ∧
    graph g' = graph g.
Proof.
  induction bucket as [|m rest IH]; intros g Hwf Hix Hnd Hlive Hnews Hroom.
  - exists g. simpl. split; [done|]. split; [done|]. split; [done|].
    split; [|done]. intros q. by rewrite pending_handles_nil.
  - cbn [length] in Hroom.
    destruct (rehome_step_spec busy news first g m rest)
      as (g1 & Hrun1 & Hwf1 & Hix1 & Hsize1 & Hlive1 & Hpend1 & Hnames1
          & Hgraph1 & _); try done; [nia|].
    destruct (IH g1) as (g' & Hrun & Hwf' & Hix' & Hpend & Hnames & Hgraph);
      try done.
    { by apply NoDup_cons in Hnd as [_ ?]. }
    { intros b Hb. apply Hlive1, Hlive. by right. }
    { rewrite Hsize1. nia. }
    exists g'. split.
    { simpl. rewrite Hrun1. simpl. exact Hrun. }
    split; [done|]. split; [done|]. split.
    { intros q. by rewrite Hpend, Hpend1. }
    split; [|congruence]. intros q. by rewrite Hnames, Hnames1.
Qed.

Lemma divided_step_expansion (h : handle_t) (news : list handle_t)
    (e : handle_t) :
  get_is_reverse h = false → get_id e = get_id h →
  divided_step h (h :: news) e = step_expansion news e.
Proof.
  intros Hfwd Hid. unfold divided_step, step_expansion.
  rewrite decide_True by done.
  destruct (get_is_reverse e) eqn:Hrev.
  - rewrite reverse_cons, fmap_app. simpl. do 2 f_equal.
    apply handle_eq.
    + by rewrite get_id_flip.
    + by rewrite get_is_reverse_flip, Hfwd.
  - f_equal. apply handle_eq; congruence.
Qed.

Lemma divided_step_whole (h e : handle_t) :
  get_is_reverse h = false → divided_step h [h] e = [e].
Proof.
  intros Hfwd.
  destruct (decide (get_id e = get_id h)) as [Hid|Hid].
  - rewrite divided_step_expansion by done. unfold step_expansion.
    by destruct (get_is_reverse e).
  - unfold divided_step. by rewrite decide_False.
Qed.

Lemma pending_handles_divided (h : handle_t) (news : list handle_t)
    (bucket : list addr) (st : gmap addr path_mapping_t.t)
    (cells : list addr) :
  get_is_reverse h = false →
  (∀ a r, st !! a = Some r →
     a ∈ bucket ↔ get_id (path_mapping_t.handle r) = get_id h) →
  pending_handles news bucket st cells
  = handles_of st cells ≫= divided_step h (h :: news).
Proof.
  intros Hfwd Hb. unfold pending_handles, handles_of.
  induction cells as [|a cells IH]; [done|].
  rewrite bind_cons, IH. simpl.
  destruct (st !! a) as [r|] eqn:E; simpl; [|done].
  f_equal. case_decide as Hin.
  - symmetry. apply divided_step_expansion; [done|]. by apply (Hb a r E).
  - unfold divided_step. rewrite decide_False; [done|].
    intros Hid. apply Hin. by apply (Hb a r E).
Qed.

Lemma length_pieces (s : seq_t) (offsets : list Z) :
  length (pieces s offsets) = length offsets.
Proof. induction offsets as [|o rest IH]; simpl; by f_equal. Qed.

(** [divide_handle] on a forward handle with increasing offsets: it
    returns, and this is what it leaves. *)
Lemma divide_handle_forward_spec (h : handle_t) (offsets : list Z)
    (g : HashGraph) (s : seq_t) :
  get_is_reverse h = false →
  get_sequence h g = Some s →
  Sorted Z.lt offsets →
  Forall (λ o, 0 <= o <= Z.of_nat (length s)) offsets →
  Z.of_nat (length s) < two64 →
  ids_bounded g →
  0 <= max_id g + 1 → max_id g + Z.of_nat (length offsets) < 2 ^ 63 →
  paths_wf g → index_wf g →
  Z.of_nat (size (store g))
  + Z.of_nat (length (default [] (occurrences g !! get_id h)))
    * Z.of_nat (length offsets) < two64 →
  ∃ news g',
    divide_handle h offsets g = Some (h :: news, g') ∧
    Forall2 (λ hn piece, get_is_reverse hn = false ∧ max_id g < get_id hn ∧
                         get_sequence hn g' = Some piece)
            news (pieces s offsets) ∧
    get_sequence h g'
    = Some (take (Z.to_nat (default (Z.of_nat (length s)) (head offsets))) s) ∧
    (∀ j, j ≠ get_id h → is_Some (graph g !! j) →
       seq_at (graph g') j = seq_at (graph g) j) ∧
    paths_wf g' ∧ index_wf g' ∧
    (∀ q, path_handles q g'
          = path_handles q g ≫= divided_step h (h :: news)) ∧
    (∀ q, path_t.name <$> paths g' !! q = path_t.name <$> paths g !! q) ∧
    (offsets ≠ [] →
     ∃ g1 front,
       head offsets = Some front ∧
       divide_sequence (get_id h) (Z.of_nat (length s)) offsets g [h]
       = Some (h :: news, g1) ∧
       graph g'
       = let back := default h (last (h :: news)) in
         chain_segments (h :: news)
           (retarget_backrefs (get_id back) (flip h) (flip back)
              (move_right_edges (get_id h) (get_id back)
                 (<[get_id h :=
                      node_t.set_sequence (take (Z.to_nat front) s)
                        (node_at (graph g1) (get_id h))]> (graph g1))))).
Proof.
  intros Hfwd Hseq Hsorted Hrange Hlen Hbound Hlow Hhigh Hwf Hix Hroom.
  pose proof Hseq as Hseq0.
  unfold get_sequence in Hseq. rewrite Hfwd in Hseq.
  destruct (graph g !! get_id h) as [n|] eqn:Hn; [|done].
  simpl in Hseq. injection Hseq as <-.
  set (s := node_t.sequence n) in *.
  assert (seq_at (graph g) (get_id h) = Some s) as Hat
    by (unfold seq_at; by rewrite Hn).
  assert (∀ a r, store g !! a = Some r →
            a ∈ default [] (occurrences g !! get_id h)
            ↔ get_id (path_mapping_t.handle r) = get_id h) as Hbucket.
  { intros a r Hr. split.
    - destruct (occurrences g !! get_id h) as [bucket|] eqn:E; simpl;
        [|by intros ?%elem_of_nil].
      intros Hin.
      destruct (index_buckets _ Hix _ _ E) as [_ Hlive].
      destruct (Hlive a Hin) as (r' & Hr' & Hid). congruence.
    - intros Hid. rewrite <- Hid. by apply (index_steps _ Hix). }
  unfold divide_handle, get_length, forward. rewrite Hn, Hfwd.
  cbn [mbind option_bind]. fold s.
  case_decide as Hoffs.
  { subst offsets. exists [], g. simpl.
    split; [done|]. split; [constructor|].
    split; [by rewrite Nat2Z.id, firstn_all|].
    split; [done|]. split; [done|]. split; [done|].
    split; [|done].
    intros q. induction (path_handles q g) as [|e l IH]; [done|].
    by rewrite bind_cons, divided_step_whole, <- IH. }
  destruct (divide_sequence_forward offsets g [h] (get_id h) s)
    as (news & g1 & Hrun & Hnews & Hframe & Hps & Hst & Hoc); try done.
  rewrite Hrun. cbn [mbind option_bind].
  destruct offsets as [|front rest]; [done|].
  cbn [head default].
  assert (get_id h <= max_id g) as Hid by (apply Hbound; eauto).
  assert (node_t.sequence (node_at (graph g1) (get_id h)) = s) as Hnode.
  { unfold node_at. rewrite Hframe by done. by rewrite Hn. }
  rewrite Hnode.
  pose proof Hrange as [Hfront _]%Forall_cons.
  change (id front) with front.
  assert (substr s 0 front = Some (take (Z.to_nat front) s)) as ->.
  { unfold substr. simpl. rewrite decide_True by lia.
    rewrite Z.sub_0_r, Z.min_l by lia. done. }
  cbn [mbind option_bind].
  set (gr2 := <[get_id h := _]> (graph g1)).
  set (back := default h (last ([h] ++ news))).
  set (gr5 := chain_segments _ _).
  set (g5 := set_graph gr5 g1).
  assert (sequences_kept gr2 gr5) as Hkept.
  { unfold gr5.
    eapply sequences_kept_trans; [|apply sequences_kept_chain].
    eapply sequences_kept_trans; [|apply sequences_kept_retarget].
    apply sequences_kept_move. }
  assert (Forall (λ hn, get_id hn ≠ get_id h) news) as Hfresh.
  { clear -Hnews Hid. induction Hnews as [|hn piece news ps (_ & Hgt & _)];
      constructor; [lia|done]. }
  assert (length news = S (length rest)) as Hcount.
  { rewrite (Forall2_length _ _ _ Hnews). apply length_pieces. }
  assert (paths_wf g5) as Hwf5.
  { unfold paths_wf, g5. simpl. by rewrite Hps, Hst. }
  assert (index_wf g5) as Hix5.
  { destruct Hix as [Hb Hs]. split; unfold g5; simpl; rewrite Hoc, Hst;
      [exact Hb|exact Hs]. }
  assert (∃ g6,
            match occurrences g5 !! get_id h with
            | Some bucket => rehome_steps (get_id h) ([h] ++ news) bucket g5
            | None => Some g5
            end = Some g6 ∧
            paths_wf g6 ∧ index_wf g6 ∧ graph g6 = gr5 ∧
            (∀ q, path_handles q g6
                  = path_handles q g ≫= divided_step h (h :: news)) ∧
            (∀ q, path_t.name <$> paths g6 !! q
                  = path_t.name <$> paths g !! q))
    as (g6 & -> & Hwf6 & Hix6 & Hgr6 & Hpaths6 & Hnames6).
  { assert (∀ q bucket,
              (∀ a r, store g !! a = Some r →
                 a ∈ bucket ↔ get_id (path_mapping_t.handle r) = get_id h) →
              pending_handles news bucket (store g5) (path_steps q g5)
              = path_handles q g ≫= divided_step h (h :: news)) as Hpend.
    { intros q bucket Hb. unfold path_steps, g5. simpl. rewrite Hps, Hst.
      by apply pending_handles_divided. }
    assert (occurrences g5 = occurrences g) as Hoc5 by done.
    rewrite Hoc5.
    destruct (occurrences g !! get_id h) as [bucket|] eqn:E;
      simpl in Hbucket, Hroom.
    - destruct (index_buckets _ Hix _ _ E) as [Hnd Hlive].
      destruct (rehome_steps_spec (get_id h) news h bucket g5)
        as (g6 & Hrun6 & Hwf6 & Hix6 & Hpaths6 & Hnames6 & Hgr6); try done.
      { intros b Hb. destruct (Hlive b Hb) as (r & Hr & _).
        unfold g5. simpl. rewrite Hst. eauto. }
      { unfold g5. simpl. rewrite Hst, Hcount. cbn [length] in Hroom. lia. }
      exists g6. split; [exact Hrun6|]. split; [done|]. split; [done|].
      split; [done|]. split.
      + intros q. rewrite Hpaths6. by apply Hpend.
      + intros q. rewrite Hnames6. unfold g5. simpl. by rewrite Hps.
    - exists g5. split; [done|]. split; [done|]. split; [done|].
      split; [done|]. split.
      + intros q. rewrite <- (Hpend q []) by done.
        by rewrite pending_handles_nil.
      + intros q. unfold g5. simpl. by rewrite Hps. }
  cbn [mbind option_bind]. exists news, g6.
  split; [done|].
  assert (∀ j piece, seq_at gr2 j = Some piece →
            seq_at (graph g6) j = Some piece) as Hseqs.
  { intros j piece Hj. rewrite Hgr6. by apply Hkept. }
  assert (∀ e piece, get_is_reverse e = false →
            seq_at (graph g6) (get_id e) = Some piece →
            get_sequence e g6 = Some piece) as Hget.
  { intros e piece He Hk. unfold get_sequence. rewrite He.
    unfold seq_at in Hk. destruct (graph g6 !! get_id e); [|done].
    simpl in *. congruence. }
  split.
  { eapply Forall2_impl; [exact Hnews|].
    intros hn piece (Hf & Hgt & Hp). split; [done|]. split; [done|].
    apply Hget; [done|]. apply Hseqs. unfold seq_at, gr2.
    rewrite lookup_insert_ne by lia. exact Hp. }
  split.
  { apply Hget; [done|]. apply Hseqs. unfold seq_at, gr2.
    by rewrite lookup_insert_eq. }
  split.
  { intros j Hj [nj Hnj]. unfold seq_at at 2. rewrite Hnj. simpl.
    apply Hseqs. unfold seq_at, gr2. rewrite lookup_insert_ne by done.
    rewrite Hframe by (apply Hbound; eauto). by rewrite Hnj. }
  split; [done|]. split; [done|]. split; [done|]. split; [done|].
  intros _. exists g1, front. split; [done|]. split; [done|].
  exact Hgr6.
Qed.

(** * What [divide_handle] returns and leaves *)

(** The scenario of one node, one path and one step, ready to be
    divided. *)
Lemma one_step_divisible :
  ∃ g, one_step_graph = Some g ∧ paths_wf g ∧ index_wf g ∧ ids_bounded g ∧
    get_sequence (get_handle 2 false) g = Some (seq_of "ATG") ∧
    get_sequence (get_handle 2 true) g = Some (seq_of "CAT") ∧
    max_id g = 2 ∧
    Z.of_nat (size (store g))
    + Z.of_nat (length (default [] (occurrences g !! 2))) * 1 < two64 ∧
    path_handles 1 g = [get_handle 2 false].
Proof.
  destruct one_step_index as (g & p & Hg & Hwf & Hix & _).
  exists g. split; [done|]. split; [done|]. split; [done|].
  assert (Some g = one_step_graph) as Hone by done.
  vm_compute in Hone. injection Hone as ->.
  split.
  { intros id [n Hn]. unfold max_id; simpl.
    destruct (decide (id = 2)) as [->|Hne]; [done|].
    exfalso. revert Hn.
    change (graph _) with
      (<[2 := node_t.mk (seq_of "ATG") [] []]> (∅ : gmap Z node_t.t)).
    rewrite lookup_insert_ne by done. by rewrite lookup_empty. }
  repeat split; by vm_compute.
Qed.

Lemma get_sequence_other (e : handle_t) (g g' : HashGraph) :
  seq_at (graph g') (get_id e) = seq_at (graph g) (get_id e) →
  get_sequence e g' = get_sequence e g.
Proof.
  unfold seq_at, get_sequence. intros Hs.
  destruct (graph g' !! get_id e) as [n'|], (graph g !! get_id e) as [n|];
    simpl in *; try done.
  by injection Hs as ->.
Qed.

(** X25: the pieces of a divided node.  [divide_handle] on a forward
    handle of a live node, with strictly increasing offsets inside the
    sequence, identifiers left below [2^63], a well-formed path store, an
    exact occurrence index and room for the new step records, does not
    fail.  It returns one handle more than there are
    offsets: the given handle first, then forward handles of new nodes
    whose identifiers lie above the former maximum.  Read in this order
    they hold the pieces into which the offsets cut the old sequence, so
    that their sequences laid end to end spell it; every other node
    keeps its sequence. *)
Theorem divide_handle_forward_pieces (h : handle_t) (offsets : list Z)
    (g : HashGraph) (s : seq_t) :
  get_is_reverse h = false →
  get_sequence h g = Some s →
  Sorted Z.lt offsets →
  Forall (λ o, 0 <= o <= Z.of_nat (length s)) offsets →
  Z.of_nat (length s) < two64 →
  ids_bounded g →
  0 <= max_id g + 1 → max_id g + Z.of_nat (length offsets) < 2 ^ 63 →
  paths_wf g → index_wf g →
  Z.of_nat (size (store g))
  + Z.of_nat (length (default [] (occurrences g !! get_id h)))
    * Z.of_nat (length offsets) < two64 →
  ∃ parts g',
    divide_handle h offsets g = Some (parts, g') ∧
    head parts = Some h ∧
    length parts = S (length offsets) ∧
    Forall (λ part, max_id g < get_id part) (tail parts) ∧
    Forall2 (λ part piece, get_is_reverse part = false ∧
                           get_sequence part g' = Some piece)
            parts (pieces s (0 :: offsets)) ∧
    joined_sequence parts g' = Some s ∧
    ∀ e, get_id e ≠ get_id h → has_node (get_id e) g = true →
         get_sequence e g' = get_sequence e g.
Proof.
  intros Hfwd Hseq Hsorted Hrange Hlen Hbound Hlow Hhigh Hwf Hix Hroom.
  destruct (divide_handle_forward_spec h offsets g s)
    as (news & g' & Hrun & Hnews & Hfirst & Hothers & _); try done.
  exists (h :: news), g'. split; [done|]. split; [done|].
  split.
  { cbn [length]. f_equal. rewrite (Forall2_length _ _ _ Hnews).
    apply length_pieces. }
  split.
  { cbn [tail]. clear -Hnews.
    induction Hnews as [|hn piece news ps (_ & Hgt & _)]; by constructor. }
  split.
  { cbn [pieces]. constructor.
    - split; [done|]. rewrite Hfirst, Z.sub_0_r. simpl drop.
      by destruct offsets.
    - eapply Forall2_impl; [exact Hnews|]. by intros hn piece (? & _ & ?). }
  split.
  { by eapply divide_handle_forward_round_trip. }
  intros e He Hlive. apply has_node_live in Hlive.
  apply get_sequence_other. by apply Hothers.
Qed.

Lemma divide_handle_forward_pieces_witness :
  ∃ g parts g',
    one_step_graph = Some g ∧
    divide_handle (get_handle 2 false) [1] g = Some (parts, g') ∧
    joined_sequence parts g' = Some (seq_of "ATG").
Proof.
  destruct one_step_divisible
    as (g & Hg & Hwf & Hix & Hb & Hseq & _ & Hmax & Hroom & _).
  assert (get_is_reverse (get_handle 2 false) = false) as H1
    by (by vm_compute).
  assert (Sorted Z.lt [1]) as H2 by (repeat constructor).
  assert (Forall (λ o, 0 <= o <= Z.of_nat (length (seq_of "ATG"))) [1])
    as H3 by (repeat constructor; by vm_compute).
  assert (Z.of_nat (length (seq_of "ATG")) < two64) as H4 by (by vm_compute).
  assert (0 <= max_id g + 1) as H5 by (rewrite Hmax; lia).
  assert (max_id g + Z.of_nat (length [1]) < 2 ^ 63) as H6
    by (rewrite Hmax; by vm_compute).
  destruct (divide_handle_forward_pieces (get_handle 2 false) [1] g
              (seq_of "ATG") H1 Hseq H2 H3 H4 Hb H5 H6 Hwf Hix Hroom)
    as (parts & g' & Hrun & _ & _ & _ & _ & Hjoin & _).
  by exists g, parts, g'.
Defined.

(** X26: the paths over a divided node.  [divide_handle] on a forward
    handle of a live node, with strictly increasing offsets inside the
    sequence, identifiers left below [2^63], a well-formed path store, an
    exact occurrence index and room for the new step records, rewrites
    every path: a forward step on the divided node is followed by new
    steps on the new pieces in their order, a reverse step on it is
    preceded by new steps on the flipped new pieces in the opposite
    order, and a step on another node is left alone.  The paths keep
    their names, the path store stays well formed and the occurrence
    index exact. *)
Theorem divide_handle_forward_paths (h : handle_t) (offsets : list Z)
    (g : HashGraph) (s : seq_t) :
  get_is_reverse h = false →
  get_sequence h g = Some s →
  Sorted Z.lt offsets →
  Forall (λ o, 0 <= o <= Z.of_nat (length s)) offsets →
  Z.of_nat (length s) < two64 →
  ids_bounded g →
  0 <= max_id g + 1 → max_id g + Z.of_nat (length offsets) < 2 ^ 63 →
  paths_wf g → index_wf g →
  Z.of_nat (size (store g))
  + Z.of_nat (length (default [] (occurrences g !! get_id h)))
    * Z.of_nat (length offsets) < two64 →
  ∃ parts g',
    divide_handle h offsets g = Some (parts, g') ∧
    (∀ q, path_handles q g' = path_handles q g ≫= divided_step h parts) ∧
    (∀ q, get_path_name q g' = get_path_name q g) ∧
    paths_wf g' ∧ index_wf g'.
Proof.
  intros Hfwd Hseq Hsorted Hrange Hlen Hbound Hlow Hhigh Hwf Hix Hroom.
  destruct (divide_handle_forward_spec h offsets g s)
    as (news & g' & Hrun & _ & _ & _ & Hwf' & Hix' & Hpaths & Hnames & _);
    try done.
  by exists (h :: news), g'.
Qed.

Lemma divide_handle_forward_paths_witness :
  ∃ g parts g',
    one_step_graph = Some g ∧
    divide_handle (get_handle 2 false) [1] g = Some (parts, g') ∧
    path_handles 1 g' = parts.
Proof.
  destruct one_step_divisible
    as (g & Hg & Hwf & Hix & Hb & Hseq & _ & Hmax & Hroom & Hpath).
  assert (get_is_reverse (get_handle 2 false) = false) as H1
    by (by vm_compute).
  assert (Sorted Z.lt [1]) as H2 by (repeat constructor).
  assert (Forall (λ o, 0 <= o <= Z.of_nat (length (seq_of "ATG"))) [1])
    as H3 by (repeat constructor; by vm_compute).
  assert (Z.of_nat (length (seq_of "ATG")) < two64) as H4 by (by vm_compute).
  assert (0 <= max_id g + 1) as H5 by (rewrite Hmax; lia).
  assert (max_id g + Z.of_nat (length [1]) < 2 ^ 63) as H6
    by (rewrite Hmax; by vm_compute).
  destruct (divide_handle_forward_paths (get_handle 2 false) [1] g
              (seq_of "ATG") H1 Hseq H2 H3 H4 Hb H5 H6 Hwf Hix Hroom)
    as (parts & g' & Hrun & Hpaths & _).
  exists g, parts, g'. split; [done|]. split; [done|].
  rewrite Hpaths, Hpath. unfold divided_step. simpl. apply app_nil_r.
Defined.

(** * Dividing through a reverse handle *)

Lemma reverse_complement_app (a b : seq_t) :
  reverse_complement (a ++ b) = reverse_complement b ++ reverse_complement a.
Proof. unfold reverse_complement. by rewrite map_app, rev_app_distr. Qed.

Lemma reverse_complement_concat (l : list seq_t) :
  reverse_complement (concat l) = concat (reverse (reverse_complement <$> l)).
Proof.
  induction l as [|a l IH]; [done|].
  rewrite fmap_cons, reverse_cons, concat_app. simpl.
  by rewrite reverse_complement_app, IH, app_nil_r.
Qed.

(** Through a reverse handle and with offsets, [divide_handle] does what
    it does through the forward handle with the offsets counted from the
    other end, and returns the parts flipped and in the opposite
    order. *)
Lemma divide_handle_reverse_mirror (h : handle_t) (offsets : list Z)
    (g : HashGraph) (len : Z) :
  get_is_reverse h = true → get_length h g = Some len → offsets ≠ [] →
  divide_handle h offsets g
  = (λ r : list handle_t * HashGraph, (flip <$> reverse r.1, r.2))
      <$> divide_handle (flip h) ((λ off, wrap64 (len - off)) <$> offsets) g.
Proof.
  intros Hrev Hlen Hne. unfold divide_handle.
  assert (get_length (flip h) g = Some len) as ->
    by (unfold get_length in *; by rewrite get_id_flip).
  rewrite Hlen. cbn [mbind option_bind].
  unfold forward. rewrite get_is_reverse_flip, Hrev, get_id_flip.
  cbn [negb].
  rewrite decide_False by done.
  rewrite decide_False by (by destruct offsets).
  destruct (divide_sequence _ _ _ _ _) as [[rv g1]|]; [|done].
  cbn [mbind option_bind].
  destruct (substr _ _ _) as [kept|]; [|done].
  cbn [mbind option_bind].
  match goal with
  | |- context [match ?o with Some bucket => _ | None => _ end] =>
      destruct o as [bucket|]
  end.
  - by destruct (rehome_steps _ _ _ _).
  - done.
Qed.

Lemma sorted_mirror (len : Z) (offsets : list Z) :
  Sorted Z.gt offsets → Sorted Z.lt ((λ off, len - off) <$> offsets).
Proof.
  induction 1 as [|o rest Hs IH Hhd]; [constructor|].
  rewrite fmap_cons. constructor; [done|].
  destruct Hhd; constructor. lia.
Qed.

Lemma get_sequence_flip (e : handle_t) (g : HashGraph) (piece : seq_t) :
  get_is_reverse e = false → get_sequence e g = Some piece →
  get_sequence (flip e) g = Some (reverse_complement piece).
Proof.
  unfold get_sequence. rewrite get_id_flip, get_is_reverse_flip.
  intros ->. destruct (graph g !! get_id e); simpl; [|done].
  by intros [= ->].
Qed.

(** X27: dividing through a reverse handle.  With at least one offset,
    the offsets given in strictly decreasing order and inside the
    sequence, [divide_handle] on a reverse handle of a live node does not
    fail: it returns one reverse handle more than there are offsets, the
    given handle last, and the sequences of the returned handles laid end
    to end spell the sequence of the given handle; the path store stays
    well formed.  A single offset is such a list. *)
Theorem divide_handle_reverse_decreasing (h : handle_t) (offsets : list Z)
    (g : HashGraph) (s : seq_t) :
  get_is_reverse h = true →
  get_sequence h g = Some s →
  offsets ≠ [] → Sorted Z.gt offsets →
  Forall (λ o, 0 <= o <= Z.of_nat (length s)) offsets →
  Z.of_nat (length s) < two64 →
  ids_bounded g →
  0 <= max_id g + 1 → max_id g + Z.of_nat (length offsets) < 2 ^ 63 →
  paths_wf g → index_wf g →
  Z.of_nat (size (store g))
  + Z.of_nat (length (default [] (occurrences g !! get_id h)))
    * Z.of_nat (length offsets) < two64 →
  ∃ parts g',
    divide_handle h offsets g = Some (parts, g') ∧
    length parts = S (length offsets) ∧
    last parts = Some h ∧
    Forall (λ part, get_is_reverse part = true) parts ∧
    joined_sequence parts g' = Some s ∧
    paths_wf g' ∧ index_wf g'.
Proof.
  intros Hrev Hseq Hne Hsorted Hrange Hlen Hbound Hlow Hhigh Hwf Hix Hroom.
  unfold get_sequence in Hseq. rewrite Hrev in Hseq.
  destruct (graph g !! get_id h) as [n|] eqn:Hn; [|done].
  simpl in Hseq. injection Hseq as <-.
  set (sf := node_t.sequence n) in *.
  rewrite length_reverse_complement in Hrange, Hlen.
  set (len := Z.of_nat (length sf)) in *.
  assert (get_length h g = Some len) as Hlength
    by (unfold get_length; by rewrite Hn).
  rewrite (divide_handle_reverse_mirror h offsets g len) by done.
  assert ((λ off, wrap64 (len - off)) <$> offsets
          = (λ off, len - off) <$> offsets) as ->.
  { apply Forall_fmap_ext. eapply Forall_impl; [exact Hrange|].
    intros o Ho. simpl in *. apply wrap64_small. lia. }
  set (fo := (λ off, len - off) <$> offsets).
  assert (get_is_reverse (flip h) = false) as Hfwd
    by (by rewrite get_is_reverse_flip, Hrev).
  assert (get_sequence (flip h) g = Some sf) as Hseqf.
  { unfold get_sequence. by rewrite get_id_flip, Hfwd, Hn. }
  assert (Sorted Z.lt fo) as Hsortedf by (by apply sorted_mirror).
  assert (Forall (λ o, 0 <= o <= Z.of_nat (length sf)) fo) as Hrangef.
  { apply Forall_fmap. eapply Forall_impl; [exact Hrange|].
    intros o Ho. simpl in *. fold len. lia. }
  assert (length fo = length offsets) as Hcount by apply length_fmap.
  destruct (divide_handle_forward_spec (flip h) fo g sf)
    as (news & g' & Hrun & Hnews & Hfirst & _ & Hwf' & Hix' & _);
    try done.
  { by rewrite Hcount. }
  { by rewrite get_id_flip, Hcount. }
  rewrite Hrun. cbn [fmap option_fmap option_map fst snd].
  eexists _, g'. split; [reflexivity|].
  assert (length news = length offsets) as Hnlen.
  { rewrite (Forall2_length _ _ _ Hnews), length_pieces. done. }
  split.
  { rewrite length_fmap, length_reverse. simpl. by rewrite Hnlen. }
  split.
  { rewrite reverse_cons, fmap_app. simpl. by rewrite last_snoc, flip_flip. }
  split.
  { apply Forall_fmap. apply Forall_reverse. constructor.
    - simpl. by rewrite get_is_reverse_flip, Hfwd.
    - clear -Hnews. induction Hnews as [|hn piece news ps (Hf & _)];
        constructor; [|done]. simpl. by rewrite get_is_reverse_flip, Hf. }
  split; [|done].
  destruct fo as [|front rest] eqn:Efo; [by destruct offsets|].
  pose proof Hrangef as [Hfront _]%Forall_cons.
  cbn [head default] in Hfirst.
  rewrite (joined_sequence_Some _ _
             (reverse (reverse_complement
                         <$> take (Z.to_nat front) sf
                             :: pieces sf (front :: rest)))).
  - rewrite <- reverse_complement_concat. rewrite concat_cons.
    rewrite pieces_join; [by rewrite take_drop|done|lia|].
    eapply Forall_impl; [exact Hrangef|]. simpl. lia.
  - rewrite <- fmap_reverse.
    apply Forall2_fmap, Forall2_reverse. constructor.
    + by apply get_sequence_flip.
    + eapply Forall2_impl; [exact Hnews|].
      intros hn piece (Hf & _ & Hp). by apply get_sequence_flip.
Qed.

Lemma divide_handle_reverse_decreasing_witness :
  ∃ g parts g',
    one_step_graph = Some g ∧
    divide_handle (get_handle 2 true) [1] g = Some (parts, g') ∧
    joined_sequence parts g' = Some (seq_of "CAT").
Proof.
  destruct one_step_divisible
    as (g & Hg & Hwf & Hix & Hb & _ & Hseq & Hmax & Hroom & _).
  assert (get_is_reverse (get_handle 2 true) = true) as H1
    by (by vm_compute).
  assert ([1] ≠ []) as H0 by done.
  assert (Sorted Z.gt [1]) as H2 by (repeat constructor).
  assert (Forall (λ o, 0 <= o <= Z.of_nat (length (seq_of "CAT"))) [1])
    as H3 by (repeat constructor; by vm_compute).
  assert (Z.of_nat (length (seq_of "CAT")) < two64) as H4 by (by vm_compute).
  assert (0 <= max_id g + 1) as H5 by (rewrite Hmax; lia).
  assert (max_id g + Z.of_nat (length [1]) < 2 ^ 63) as H6
    by (rewrite Hmax; by vm_compute).
  destruct (divide_handle_reverse_decreasing (get_handle 2 true) [1] g
              (seq_of "CAT") H1 Hseq H0 H2 H3 H4 Hb H5 H6 Hwf Hix Hroom)
    as (parts & g' & Hrun & _ & _ & _ & Hjoin & _).
  by exists g, parts, g'.
Defined.

(** * The edges of a divided node *)

(** The nodes that the first loop of [divide_handle] makes: forward
    handles on distinct new identifiers, with no edges. *)
Lemma divide_sequence_layout (id len : Z) (offs : list Z) :
  ∀ (g : HashGraph) (acc rv : list handle_t) (g1 : HashGraph),
  ids_bounded g → 0 <= max_id g + 1 →
  max_id g + Z.of_nat (length offs) < 2 ^ 63 →
  divide_sequence id len offs g acc = Some (rv, g1) →
  ∃ news, rv = acc ++ news ∧
    Forall (λ hn, get_is_reverse hn = false ∧ max_id g < get_id hn) news ∧
    NoDup (get_id <$> news) ∧
    (∀ side n, edge_list side n (graph g1) = edge_list side n (graph g)) ∧
    dom (graph g) ⊆ dom (graph g1) ∧
    Forall (λ hn, is_Some (graph g1 !! get_id hn)) news.
Proof.
  induction offs as [|off rest IH]; intros g acc rv g1 Hb Hlow Hhigh Hrun.
  - simpl in Hrun. injection Hrun as <- <-. exists [].
    rewrite app_nil_r. split; [done|]. split; [constructor|].
    split; [constructor|]. split; [done|]. split; [done|constructor].
  - cbn [divide_sequence] in Hrun.
    destruct (substr _ _ _) as [piece|]; [|done].
    cbn [mbind option_bind] in Hrun.
    unfold create_handle_next, create_handle in Hrun.
    set (g' := set_bounds _ _ _) in Hrun.
    assert (max_id g' = max_id g + 1) as Hmax by (unfold g'; simpl; lia).
    cbn [length] in Hhigh.
    apply IH in Hrun as (news & -> & Hnews & Hnd & Hedges & Hdom & Hlive).
    2:{ intros j Hj. rewrite Hmax. unfold g' in Hj. simpl in Hj.
        destruct (decide (j = max_id g + 1)) as [->|Hne]; [lia|].
        rewrite lookup_insert_ne in Hj by done. apply Hb in Hj. lia. }
    2:{ lia. }
    2:{ lia. }
    assert (valid_id (max_id g + 1)) as Hvalid by (unfold valid_id; lia).
    exists (get_handle (max_id g + 1) false :: news).
    assert (dom (graph g) ⊆ dom (graph g1)) as Hdom'.
    { etrans; [|exact Hdom]. unfold g'. simpl. rewrite dom_insert_L.
      set_solver. }
    split; [by rewrite <- app_assoc|]. split; [|split; [|split; [|split]]].
    4:{ done. }
    4:{ constructor; [|done]. rewrite get_id_get_handle by done.
        apply elem_of_dom. apply Hdom. unfold g'. simpl.
        rewrite dom_insert_L. set_solver. }
    + constructor.
      * rewrite get_is_reverse_get_handle, get_id_get_handle by done.
        split; [done|lia].
      * eapply Forall_impl; [exact Hnews|]. intros hn [? ?].
        split; [done|lia].
    + rewrite fmap_cons, get_id_get_handle by done. constructor; [|done].
      intros Hin. apply list_elem_of_fmap in Hin as (hn & Heq & Hin).
      rewrite Forall_forall in Hnews. destruct (Hnews hn Hin) as [_ Hgt].
      lia.
    + intros side n. rewrite Hedges. unfold g', edge_list. simpl.
      rewrite node_at_insert. case_decide as E; [|done]. subst n.
      unfold node_at.
      destruct (graph g !! (max_id g + 1)) as [nd|] eqn:Hold.
      * assert (max_id g + 1 <= max_id g) by (apply Hb; eauto). lia.
      * by destruct side.
Qed.

Lemma edge_list_set_sequence (gr : gmap Z node_t.t) (x : Z) (kept : seq_t)
    (side : bool) (n : Z) :
  edge_list side n (<[x := node_t.set_sequence kept (node_at gr x)]> gr)
  = edge_list side n gr.
Proof.
  unfold edge_list. rewrite node_at_insert.
  case_decide as E; [subst n|done]. by destruct side.
Qed.

Lemma edge_list_move_right_edges (x final : Z) (gr : gmap Z node_t.t)
    (side : bool) (n : Z) :
  x ≠ final →
  edge_list side n (move_right_edges x final gr)
  = if decide (n = final ∧ side = false) then edge_list false x gr
    else if decide (n = x ∧ side = false) then []
    else edge_list side n gr.
Proof.
  intros Hne. unfold move_right_edges, edge_list.
  rewrite !node_at_insert.
  destruct side; repeat case_decide; simpl; try done; naive_solver.
Qed.

(** When no moved edge leads to the final piece, the loop over the moved
    edges visits the entries of the list as it stood. *)
Lemma retarget_backrefs_no_loop (final : Z) (old new : handle_t)
    (gr : gmap Z node_t.t) :
  Forall (λ e, get_id e ≠ final) (edge_list false final gr) →
  retarget_backrefs final old new gr
  = foldl (λ gr next,
             update_bwd (replace_first (λ e, e = old) new) next gr)
          gr (edge_list false final gr).
Proof.
  intros Hno. unfold retarget_backrefs.
  change (node_t.right_edges (node_at gr final))
    with (edge_list false final gr).
  assert (∀ targets pre gr0,
            edge_list false final gr0 = pre ++ targets →
            Forall (λ e, get_id e ≠ final) targets →
            foldl (λ gr i,
                     match node_t.right_edges (node_at gr final) !! i with
                     | Some next =>
                         update_bwd (replace_first (λ e, e = old) new)
                                    next gr
                     | None => gr
                     end) gr0 (seq (length pre) (length targets))
            = foldl (λ gr next,
                       update_bwd (replace_first (λ e, e = old) new) next gr)
                    gr0 targets) as Hgen.
  { induction targets as [|t ts IH]; intros pre gr0 Hsplit Hts; [done|].
    apply Forall_cons in Hts as [Ht Hts]. simpl.
    change (node_t.right_edges (node_at gr0 final))
      with (edge_list false final gr0).
    rewrite Hsplit, list_lookup_middle by done.
    assert (edge_list false final
              (update_bwd (replace_first (λ e, e = old) new) t gr0)
            = (pre ++ [t]) ++ ts) as Hnext.
    { rewrite edge_list_update_bwd, decide_False, Hsplit by naive_solver.
      by rewrite <- app_assoc. }
    specialize (IH (pre ++ [t]) _ Hnext Hts).
    rewrite length_app in IH. simpl in IH.
    by rewrite Nat.add_1_r in IH. }
  by apply (Hgen (edge_list false final gr) [] gr).
Qed.

Lemma side_list_update_loop (fn : list handle_t → list handle_t)
    (targets : list handle_t) (gr : gmap Z node_t.t) (a : handle_t) :
  side_list a (foldl (λ gr target, update_bwd fn target gr) gr targets)
  = Nat.iter (count_handle (flip a) targets) fn (side_list a gr).
Proof.
  revert gr. induction targets as [|t ts IH]; intros gr; [done|].
  simpl. rewrite IH, side_list_update_bwd.
  change (t :: ts) with ([t] ++ ts).
  rewrite count_handle_app, count_handle_one.
  destruct (decide (a = flip t)) as [->|Hne].
  - rewrite flip_flip, decide_True by done.
    by rewrite <- Nat.iter_succ_r.
  - rewrite decide_False; [done|]. intros ->. by rewrite flip_flip in Hne.
Qed.

Lemma retargeted_absent (old new : handle_t) (l : list handle_t) :
  old ∉ l → retargeted old new <$> l = l.
Proof.
  induction l as [|e l IH]; intros Hnot; [done|].
  rewrite fmap_cons, IH by set_solver. unfold retargeted.
  rewrite decide_False; [done|]. set_solver.
Qed.

Lemma replace_first_split (old new : handle_t) (l : list handle_t) :
  old ∈ l →
  ∃ l1 l2, l = l1 ++ old :: l2 ∧ (old ∉ l1) ∧
           replace_first (λ e, e = old) new l = l1 ++ new :: l2.
Proof.
  intros Hin. unfold replace_first.
  destruct (list_find (λ e, e = old) l) as [[i e]|] eqn:E.
  - apply list_find_Some in E as (Hi & -> & Hbefore).
    apply list_elem_of_split_length in Hi as (l1 & l2 & -> & ->).
    exists l1, l2. split; [done|]. split.
    + intros Hy. apply list_elem_of_lookup in Hy as [j Hj].
      apply (Hbefore j old); [|by apply lookup_lt_Some in Hj|done].
      by rewrite lookup_app_l by (by apply lookup_lt_Some in Hj).
    + by rewrite insert_app_r_alt, Nat.sub_diag by done.
  - apply list_find_None in E. rewrite Forall_forall in E.
    by destruct (E old Hin).
Qed.

Lemma count_handle_cons (b e : handle_t) (l : list handle_t) :
  count_handle b (e :: l)
  = ((if decide (e = b) then 1 else 0) + count_handle b l)%nat.
Proof.
  change (e :: l) with ([e] ++ l).
  by rewrite count_handle_app, count_handle_one.
Qed.

(** Replacing the first entry as often as the entry occurs replaces all
    of them. *)
Lemma iter_replace_first (old new : handle_t) (n : nat) :
  ∀ l, old ≠ new → count_handle old l = n →
  Nat.iter n (replace_first (λ e, e = old) new) l = retargeted old new <$> l.
Proof.
  induction n as [|n IH]; intros l Hne Hc.
  - simpl. symmetry. apply retargeted_absent. by apply count_handle_zero.
  - rewrite Nat.iter_succ_r.
    destruct (replace_first_split old new l) as (l1 & l2 & -> & Hl1 & ->).
    { destruct (decide (old ∈ l)) as [|Hnot]; [done|].
      apply count_handle_zero in Hnot. lia. }
    rewrite count_handle_app, count_handle_cons, decide_True in Hc by done.
    rewrite IH; [|done|].
    + rewrite !fmap_app, !fmap_cons. do 2 f_equal. unfold retargeted.
      rewrite (decide_True (P := old = old)) by done.
      by rewrite (decide_False (P := new = old)).
    + rewrite count_handle_app, count_handle_cons, decide_False by done.
      lia.
Qed.

Lemma count_handle_retargeted (old new b : handle_t) (l : list handle_t) :
  old ≠ new → new ∉ l →
  count_handle b (retargeted old new <$> l)
  = if decide (b = new) then count_handle old l
    else if decide (b = old) then 0%nat else count_handle b l.
Proof.
  intros Hne. induction l as [|e l IH]; intros Hnew.
  - by repeat case_decide.
  - apply not_elem_of_cons in Hnew as [Hen Hnew].
    rewrite fmap_cons, !count_handle_cons, IH by done.
    unfold retargeted.
    repeat case_decide; subst; try done; try lia; congruence.
Qed.

Lemma side_list_chain (ps : list handle_t) :
  ∀ (gr : gmap Z node_t.t) (a : handle_t),
  side_list a (chain_segments ps gr) = side_list a gr ++ chain_links a ps.
Proof.
  unfold chain_links.
  induction ps as [|p ps IH]; intros gr a; [by rewrite app_nil_r|].
  destruct ps as [|q rest]; [by rewrite app_nil_r|].
  change (chain_segments (p :: q :: rest) gr)
    with (chain_segments (q :: rest) (create_edge_nodes p q gr)).
  rewrite IH, side_list_create_edge.
  cbn [zip zip_with tail]. rewrite bind_cons. simpl.
  by rewrite <- !app_assoc.
Qed.

Lemma chain_links_cons (a p q : handle_t) (rest : list handle_t) :
  chain_links a (p :: q :: rest)
  = (if decide (a = p) then [q] else [])
    ++ (if decide (p ≠ flip q ∧ a = flip q) then [flip p] else [])
    ++ chain_links a (q :: rest).
Proof.
  unfold chain_links. cbn [zip zip_with tail]. rewrite bind_cons. simpl.
  by rewrite <- app_assoc.
Qed.

Lemma chain_links_outside (a : handle_t) (ps : list handle_t) :
  (∀ p, p ∈ ps → a ≠ p) → (∀ q, q ∈ tail ps → a ≠ flip q) →
  chain_links a ps = [].
Proof.
  induction ps as [|p ps IH]; intros Hp Hq; [done|].
  destruct ps as [|q rest]; [done|].
  rewrite chain_links_cons.
  rewrite decide_False by (apply Hp; by left).
  rewrite decide_False.
  2:{ intros [_ E]. revert E. apply Hq. by left. }
  simpl. apply IH.
  - intros p' Hp'. apply Hp. by right.
  - intros q' Hq'. apply Hq. simpl. by right.
Qed.

Lemma flip_orientation (a b : handle_t) :
  get_is_reverse a = get_is_reverse b → a ≠ flip b.
Proof.
  intros Hab ->. rewrite get_is_reverse_flip in Hab.
  by destruct (get_is_reverse b).
Qed.

(** The links of a chain of forward handles on distinct nodes. *)
Lemma chain_links_spec (ps : list handle_t) :
  Forall (λ p, get_is_reverse p = false) ps → NoDup (get_id <$> ps) →
  (∀ i p q, ps !! i = Some p → ps !! S i = Some q →
     chain_links p ps = [q] ∧ chain_links (flip q) ps = [flip p]) ∧
  (∀ b, last ps = Some b → chain_links b ps = []) ∧
  (∀ p, head ps = Some p → chain_links (flip p) ps = []).
Proof.
  induction ps as [|p0 ps IH]; intros Hfwd Hnd.
  { split; [by intros i p q Hp|]. by split. }
  apply Forall_cons in Hfwd as [Hf0 Hfwd].
  rewrite fmap_cons in Hnd. apply NoDup_cons in Hnd as [Hid0 Hnd].
  destruct (IH Hfwd Hnd) as (IHlink & IHlast & IHhead).
  assert (∀ p, p ∈ ps → get_is_reverse p = false ∧ p0 ≠ p) as Hps.
  { intros p Hp. rewrite Forall_forall in Hfwd. split; [by apply Hfwd|].
    intros ->. apply Hid0. apply list_elem_of_fmap. eauto. }
  destruct ps as [|p1 rest].
  { split; [by intros [|i] p q Hp Hq|]. by split. }
  apply Forall_cons in Hfwd as [Hf1 Hfwd'].
  assert (∀ q, q ∈ rest → get_is_reverse q = false ∧ q ≠ p1) as Hrest.
  { intros q Hq. rewrite Forall_forall in Hfwd'. split; [by apply Hfwd'|].
    intros ->. rewrite fmap_cons in Hnd. apply NoDup_cons in Hnd as [Hid1 _].
    apply Hid1. apply list_elem_of_fmap. eauto. }
  assert (chain_links p0 (p1 :: rest) = []) as Hp0.
  { apply chain_links_outside.
    - intros p Hp. by apply Hps.
    - intros q Hq. apply flip_orientation. simpl in Hq.
      destruct (Hrest q Hq) as [-> _]. done. }
  assert (chain_links (flip p1) (p1 :: rest) = []) as Hp1.
  { apply chain_links_outside.
    - intros p Hp Heq. symmetry in Heq. revert Heq. apply flip_orientation.
      destruct (Hps p Hp) as [-> _]. done.
    - intros q Hq Heq. apply flip_inj in Heq. subst q.
      simpl in Hq. by destruct (Hrest p1 Hq). }
  split; [|split].
  - intros [|i] p q Hp Hq.
    + injection Hp as <-. injection Hq as <-.
      rewrite !chain_links_cons, Hp0, Hp1.
      rewrite decide_True by done.
      rewrite (decide_False (P := _ ∧ p0 = flip p1))
        by (intros [_ E]; by apply (flip_orientation p0 p1) in E; congruence).
      rewrite (decide_False (P := flip p1 = p0)).
      2:{ intros E. symmetry in E.
          by apply (flip_orientation p0 p1) in E; congruence. }
      rewrite decide_True; [done|]. split; [|done].
      apply flip_orientation. congruence.
    + simpl in Hp, Hq.
      destruct (IHlink i p q Hp Hq) as [Hl1 Hl2].
      assert (p ∈ p1 :: rest) as Hpin by (by eapply list_elem_of_lookup_2).
      assert (q ∈ rest) as Hqin.
      { apply (list_elem_of_lookup_2 _ i). exact Hq. }
      destruct (Hps p Hpin) as [Hfp Hnp].
      destruct (Hrest q Hqin) as [Hfq Hnq].
      rewrite !chain_links_cons, Hl1, Hl2.
      rewrite (decide_False (P := p = p0)) by done.
      rewrite (decide_False (P := _ ∧ p = flip p1))
        by (intros [_ E]; by apply (flip_orientation p p1) in E; congruence).
      rewrite (decide_False (P := flip q = p0)).
      2:{ intros E. symmetry in E.
          by apply (flip_orientation p0 q) in E; congruence. }
      rewrite (decide_False (P := _ ∧ flip q = flip p1)); [done|].
      intros [_ E]. by apply flip_inj in E.
  - intros b Hb. change (last (p0 :: p1 :: rest)) with (last (p1 :: rest)) in Hb.
    assert (b ∈ p1 :: rest) as Hbin.
    { apply last_Some in Hb as [l' ->]. apply elem_of_app. right. by left. }
    destruct (Hps b Hbin) as [Hfb Hnb].
    rewrite chain_links_cons, (IHlast b Hb).
    rewrite (decide_False (P := b = p0)) by done.
    rewrite decide_False; [done|].
    intros [_ E]. by apply (flip_orientation b p1) in E; congruence.
  - intros p [= <-]. apply chain_links_outside.
    + intros p Hp Heq. symmetry in Heq. revert Heq. apply flip_orientation.
      apply elem_of_cons in Hp as [->|Hp]; [done|].
      destruct (Hps p Hp) as [-> _]. done.
    + intros q Hq Heq. apply flip_inj in Heq. subst q. simpl in Hq.
      by destruct (Hps p0 Hq).
Qed.

(** * The edges after a division *)

Lemma neighbors_side_list (h : handle_t) (g : HashGraph) :
  is_Some (graph g !! get_id h) →
  neighbors h false g = Some (side_list h (graph g)) ∧
  neighbors h true g = Some (flip <$> side_list (flip h) (graph g)).
Proof.
  intros [n Hn]. rewrite !neighbors_unfold, Hn. simpl.
  rewrite insert_id by done. unfold side_list.
  rewrite get_id_flip, get_is_reverse_flip. split.
  - by rewrite xorb_false_r, fmap_same.
  - by rewrite xorb_true_r.
Qed.

Lemma side_list_dead (a : handle_t) (gr : gmap Z node_t.t) :
  gr !! get_id a = None → side_list a gr = [].
Proof.
  intros Hdead. unfold side_list, edge_list, node_at. rewrite Hdead.
  by destruct (get_is_reverse a).
Qed.

Lemma get_sequence_live (e : handle_t) (g : HashGraph) (s : seq_t) :
  get_sequence e g = Some s → is_Some (graph g !! get_id e).
Proof.
  unfold get_sequence. destruct (graph g !! get_id e); [eauto|done].
Qed.

Lemma flip_retargeted (old new : handle_t) (l : list handle_t) :
  flip <$> (retargeted (flip old) (flip new) <$> l)
  = retargeted old new <$> (flip <$> l).
Proof.
  rewrite <- !list_fmap_compose. apply list_fmap_ext. intros _ t _. simpl.
  unfold retargeted. destruct (decide (t = flip old)) as [->|Hne].
  - by rewrite !flip_flip, decide_True.
  - rewrite decide_False; [done|]. intros E. apply Hne.
    by apply flip_eq_swap.
Qed.

(** The adjacency lists after the right edges were moved to the final
    piece and the references back to the node were pointed at it. *)
Lemma side_list_backrefs (gr0 gr2 : gmap Z node_t.t) (h back a : handle_t) :
  (∀ side n, edge_list side n gr2 = edge_list side n gr0) →
  edges_symmetric gr0 → no_self_loop (get_id h) gr0 →
  get_is_reverse h = false → get_is_reverse back = false →
  get_id back ≠ get_id h →
  (∀ c e, e ∈ side_list c gr0 → get_id e ≠ get_id back) →
  side_list a (retarget_backrefs (get_id back) (flip h) (flip back)
                 (move_right_edges (get_id h) (get_id back) gr2))
  = if decide (a = back) then side_list h gr0
    else if decide (a = h) then []
    else retargeted (flip h) (flip back) <$> side_list a gr0.
Proof.
  intros Hedges Hsym Hloop Hfh Hfb Hne Hnoref.
  set (gr3 := move_right_edges _ _ gr2).
  assert (∀ c, side_list c gr3
               = if decide (c = back) then side_list h gr0
                 else if decide (c = h) then [] else side_list c gr0) as H3.
  { intros c. unfold side_list, gr3.
    rewrite edge_list_move_right_edges by done. rewrite !Hedges, Hfh.
    destruct (decide (c = back)) as [->|Hcb].
    - rewrite decide_True; [done|]. by rewrite Hfb.
    - rewrite decide_False.
      2:{ intros [Hid Hrev]. apply Hcb. apply handle_eq; congruence. }
      destruct (decide (c = h)) as [->|Hch].
      + by rewrite decide_True.
      + rewrite decide_False; [done|]. intros [Hid Hrev]. apply Hch.
        apply handle_eq; congruence. }
  assert (edge_list false (get_id back) gr3 = side_list h gr0) as HR.
  { pose proof (H3 back) as Hb. rewrite decide_True in Hb by done.
    rewrite <- Hb. unfold side_list. by rewrite Hfb. }
  rewrite retarget_backrefs_no_loop.
  2:{ rewrite HR. apply Forall_forall. intros e He. by eapply Hnoref. }
  rewrite side_list_update_loop, HR, H3.
  assert (∀ e, get_id e = get_id back → e ∉ side_list h gr0) as Hnew.
  { intros e He Hin. by apply (Hnoref h e Hin). }
  assert (∀ e, get_id e = get_id h → e ∉ side_list h gr0) as Hself.
  { intros e He Hin.
    pose proof (no_self_loop_side (get_id h) gr0 h Hloop eq_refl) as Hno.
    rewrite Forall_forall in Hno. by apply (Hno e Hin). }
  destruct (decide (a = back)) as [->|Hab].
  { replace (count_handle (flip back) (side_list h gr0)) with 0%nat; [done|].
    symmetry. apply count_handle_zero, Hnew, get_id_flip. }
  destruct (decide (a = h)) as [->|Hah].
  { replace (count_handle (flip h) (side_list h gr0)) with 0%nat; [done|].
    symmetry. apply count_handle_zero, Hself, get_id_flip. }
  apply iter_replace_first.
  - intros E. apply flip_inj in E. by subst.
  - by rewrite (Hsym h (flip a)), flip_flip.
Qed.

(** The stored edges are symmetric again after that. *)
Lemma edges_symmetric_backrefs (gr0 gr4 : gmap Z node_t.t)
    (h back : handle_t) :
  edges_symmetric gr0 → get_id back ≠ get_id h →
  (∀ c e, e ∈ side_list c gr0 → get_id e ≠ get_id back) →
  (∀ e, get_id e = get_id h → e ∉ side_list h gr0) →
  (∀ a, side_list a gr4
        = if decide (a = back) then side_list h gr0
          else if decide (a = h) then []
          else retargeted (flip h) (flip back) <$> side_list a gr0) →
  edges_symmetric gr4.
Proof.
  intros Hsym Hne Hnoref Hself Hform a b.
  assert (flip h ≠ flip back) as Hhb
    by (intros E; apply flip_inj in E; by subst).
  assert (∀ c, flip back ∉ side_list c gr0) as Hfresh.
  { intros c Hin. apply (Hnoref c _ Hin). apply get_id_flip. }
  assert (count_handle (flip h) (side_list h gr0) = 0%nat) as Hz
    by (apply count_handle_zero, Hself, get_id_flip).
  assert (∀ e, get_id e = get_id back →
            count_handle e (side_list h gr0) = 0%nat) as Hzb.
  { intros e He. apply count_handle_zero. intros Hin.
    by apply (Hnoref h e Hin). }
  rewrite !Hform.
  destruct (decide (a = back)) as [->|Hab].
  - destruct (decide (flip b = back)) as [Eb|Hbb].
    + rewrite (Hzb b), (Hzb (flip back)); [done|apply get_id_flip|].
      by rewrite <- Eb, get_id_flip.
    + destruct (decide (flip b = h)) as [Eb|Hbh].
      * apply flip_eq_swap in Eb. subst b. by rewrite Hz.
      * rewrite count_handle_retargeted, decide_True by done.
        apply Hsym.
  - destruct (decide (a = h)) as [->|Hah].
    + change (count_handle b []) with 0%nat.
      destruct (decide (flip b = back)) as [Eb|Hbb]; [by rewrite Hz|].
      destruct (decide (flip b = h)) as [Eb|Hbh]; [done|].
      rewrite count_handle_retargeted by done.
      rewrite decide_False by done. by rewrite decide_True.
    + rewrite count_handle_retargeted by done.
      destruct (decide (flip b = back)) as [Eb|Hbb].
      * apply flip_eq_swap in Eb. subst b. rewrite decide_True by done.
        by rewrite (Hsym h (flip a)), flip_flip.
      * rewrite decide_False.
        2:{ intros ->. by rewrite flip_flip in Hbb. }
        destruct (decide (flip b = h)) as [Eb|Hbh].
        -- apply flip_eq_swap in Eb. subst b. by rewrite decide_True.
        -- rewrite decide_False.
           2:{ intros ->. by rewrite flip_flip in Hbh. }
           rewrite count_handle_retargeted by done.
           rewrite decide_False by (intros E; by apply flip_inj in E).
           rewrite decide_False by (intros E; by apply flip_inj in E).
           apply Hsym.
Qed.

Lemma edges_symmetric_chain (ps : list handle_t) :
  ∀ gr, edges_symmetric gr → edges_symmetric (chain_segments ps gr).
Proof.
  induction ps as [|p ps IH]; intros gr Hsym; [done|].
  destruct ps as [|q rest]; [done|].
  change (chain_segments (p :: q :: rest) gr)
    with (chain_segments (q :: rest) (create_edge_nodes p q gr)).
  apply IH.
  by apply (edges_symmetric_create_edge p q (set_graph gr empty_graph)).
Qed.

(** X28: the edges of a divided node.  [divide_handle] on a forward
    handle of a live node, with at least one offset, the offsets strictly
    increasing and inside the sequence, identifiers left below [2^63] and
    room for the new step records, in a graph whose stored edges are
    symmetric and whose divided node has no edge to itself: the stored
    edges are symmetric afterwards; the given handle keeps its left
    neighbours and the last part takes over its right neighbours; each
    part has the next part as its only right neighbour and is the only
    left neighbour of it; and every other node sees the last part
    wherever it saw the right end of the divided node, and is otherwise
    left as it was. *)
Theorem divide_handle_forward_edges (h : handle_t) (offsets : list Z)
    (g : HashGraph) (s : seq_t) :
  get_is_reverse h = false →
  get_sequence h g = Some s →
  offsets ≠ [] → Sorted Z.lt offsets →
  Forall (λ o, 0 <= o <= Z.of_nat (length s)) offsets →
  Z.of_nat (length s) < two64 →
  ids_bounded g →
  0 <= max_id g + 1 → max_id g + Z.of_nat (length offsets) < 2 ^ 63 →
  paths_wf g → index_wf g →
  Z.of_nat (size (store g))
  + Z.of_nat (length (default [] (occurrences g !! get_id h)))
    * Z.of_nat (length offsets) < two64 →
  edges_symmetric (graph g) → no_self_loop (get_id h) (graph g) →
  ∃ parts back g',
    divide_handle h offsets g = Some (parts, g') ∧
    last parts = Some back ∧
    edges_symmetric (graph g') ∧
    neighbors h true g' = neighbors h true g ∧
    neighbors back false g' = neighbors h false g ∧
    (∀ i a b, parts !! i = Some a → parts !! S i = Some b →
       neighbors a false g' = Some [b] ∧ neighbors b true g' = Some [a]) ∧
    (∀ e, get_id e ≠ get_id h → has_node (get_id e) g = true →
       neighbors e false g'
       = (λ l : list handle_t, retargeted (flip h) (flip back) <$> l)
           <$> neighbors e false g ∧
       neighbors e true g'
       = (λ l : list handle_t, retargeted h back <$> l)
           <$> neighbors e true g).
Proof.
  intros Hfwd Hseq Hne Hsorted Hrange Hlen Hbound Hlow Hhigh Hwf Hix Hroom
         Hsym Hloop.
  destruct (divide_handle_forward_spec h offsets g s)
    as (news & g' & Hrun & Hnews & Hfirst & Hothers & _ & _ & _ & _ & Hgraph);
    try done.
  destruct (Hgraph Hne) as (g1 & front & Hfront & Hdiv & Hgr).
  destruct (divide_sequence_layout _ _ _ _ _ _ _ Hbound Hlow Hhigh Hdiv)
    as (news' & Enews & Hlayout & Hnd & Hedges & _).
  simpl in Enews. injection Enews as <-.
  set (gr0 := graph g) in *.
  pose proof (get_sequence_live _ _ _ Hseq) as Hlive_h. fold gr0 in Hlive_h.
  assert (get_id h <= max_id g) as Hid by (by apply Hbound).
  rewrite Forall_forall in Hlayout.
  assert (∀ hn, hn ∈ news → gr0 !! get_id hn = None) as Hdead.
  { intros hn Hin. destruct (Hlayout hn Hin) as [_ Hgt].
    destruct (gr0 !! get_id hn) as [nd|] eqn:E; [|done].
    assert (get_id hn <= max_id g) by (apply Hbound; unfold gr0 in E; eauto).
    lia. }
  assert (length news = length offsets) as Hcount.
  { rewrite (Forall2_length _ _ _ Hnews). apply length_pieces. }
  destruct (last news) as [back|] eqn:Hlast.
  2:{ apply last_None in Hlast. subst news. by destruct offsets. }
  assert (last (h :: news) = Some back) as Hlast'
    by (by rewrite last_cons, Hlast).
  assert (back ∈ news) as Hback_in.
  { apply last_Some in Hlast as [l' ->]. apply elem_of_app. right. by left. }
  destruct (Hlayout back Hback_in) as [Hfb Hgtb].
  assert (get_id back ≠ get_id h) as Hneq by lia.
  assert (∀ c e, e ∈ side_list c gr0 → get_id e ≠ get_id back) as Hnoref.
  { intros c e Hin Heq.
    pose proof (edges_symmetric_targets_live gr0 c e Hsym Hin) as Hl.
    apply Hbound in Hl. lia. }
  assert (∀ e, get_id e = get_id h → e ∉ side_list h gr0) as Hself.
  { intros e He Hin.
    pose proof (no_self_loop_side (get_id h) gr0 h Hloop eq_refl) as Hno.
    rewrite Forall_forall in Hno. by apply (Hno e Hin). }
  cbv zeta in Hgr. rewrite Hlast' in Hgr. cbn [default] in Hgr.
  set (gr2 := <[get_id h := _]> (graph g1)) in Hgr.
  set (gr4 := retarget_backrefs _ _ _ _) in Hgr.
  assert (∀ side n, edge_list side n gr2 = edge_list side n gr0) as Hedges2.
  { intros side n. unfold gr2. by rewrite edge_list_set_sequence. }
  assert (∀ a, side_list a gr4
               = if decide (a = back) then side_list h gr0
                 else if decide (a = h) then []
                 else retargeted (flip h) (flip back) <$> side_list a gr0)
    as Hform.
  { intros a. by apply side_list_backrefs. }
  assert (edges_symmetric gr4) as Hsym4
    by (by apply (edges_symmetric_backrefs gr0 gr4 h back)).
  assert (∀ a, side_list a (graph g')
               = side_list a gr4 ++ chain_links a (h :: news)) as Hform'.
  { intros a. rewrite Hgr. apply side_list_chain. }
  assert (Forall (λ p, get_is_reverse p = false) (h :: news)) as Hpf.
  { constructor; [done|]. apply Forall_forall. intros hn Hin.
    by destruct (Hlayout hn Hin). }
  assert (NoDup (get_id <$> h :: news)) as Hpnd.
  { rewrite fmap_cons. constructor; [|done].
    intros Hin. apply list_elem_of_fmap in Hin as (hn & Heq & Hin).
    destruct (Hlayout hn Hin) as [_ Hgt]. lia. }
  destruct (chain_links_spec (h :: news) Hpf Hpnd) as (Hlink & Hend & Hhead).
  assert (∀ p, p ∈ h :: news → is_Some (graph g' !! get_id p)) as Hlive'.
  { intros p [->|Hp]%elem_of_cons; [by eapply get_sequence_live|].
    clear -Hnews Hp.
    induction Hnews as [|hn piece news ps (_ & _ & Hs) _ IH];
      [by apply elem_of_nil in Hp|].
    apply elem_of_cons in Hp as [->|Hp]; [by eapply get_sequence_live|].
    by apply IH. }
  assert (∀ e, get_id e ≠ get_id h → is_Some (gr0 !! get_id e) →
            is_Some (graph g' !! get_id e) ∧
            (∀ a, get_id a = get_id e →
               side_list a (graph g')
               = retargeted (flip h) (flip back) <$> side_list a gr0))
    as Hold.
  { intros e Heh Hle. split.
    - pose proof (Hothers (get_id e) Heh Hle) as Hs. unfold seq_at in Hs.
      destruct Hle as [nd Hnd']. fold gr0 in Hs. rewrite Hnd' in Hs.
      destruct (graph g' !! get_id e); [eauto|done].
    - intros a Ha. rewrite Hform', Hform.
      assert (get_id a <= max_id g) as Hamax
        by (rewrite Ha; by apply Hbound).
      rewrite decide_False by (intros ->; lia).
      rewrite decide_False by (intros ->; congruence).
      rewrite chain_links_outside; [by rewrite app_nil_r|..].
      + intros p [->|Hp]%elem_of_cons E; [subst; congruence|].
        subst a. destruct (Hlayout p Hp) as [_ Hgt]. lia.
      + intros q Hq E. simpl in Hq. subst a. rewrite get_id_flip in Hamax.
        destruct (Hlayout q Hq) as [_ Hgt]. lia. }
  exists (h :: news), back, g'.
  split; [done|]. split; [done|].
  split; [rewrite Hgr; by apply edges_symmetric_chain|].
  split.
  { destruct (neighbors_side_list h g' (Hlive' h (list_elem_of_here _ _)))
      as [_ ->].
    destruct (neighbors_side_list h g Hlive_h) as [_ ->].
    do 2 f_equal. rewrite Hform', Hform, (Hhead h eq_refl), app_nil_r.
    rewrite decide_False.
    2:{ intros E. symmetry in E.
        by apply (flip_orientation back h) in E; congruence. }
    rewrite decide_False.
    2:{ intros E. symmetry in E. by apply (flip_orientation h h) in E. }
    apply retargeted_absent. intros Hin.
    pose proof (no_self_loop_side (get_id h) gr0 (flip h) Hloop
                  (get_id_flip h)) as Hno.
    rewrite Forall_forall in Hno. apply (Hno _ Hin). apply get_id_flip. }
  split.
  { destruct (neighbors_side_list back g') as [-> _].
    { apply Hlive'. by right. }
    destruct (neighbors_side_list h g Hlive_h) as [-> _].
    f_equal. rewrite Hform', Hform, (Hend back Hlast'), app_nil_r.
    by rewrite decide_True. }
  split.
  { intros i a b Ha Hb.
    destruct (Hlink i a b Ha Hb) as [Hla Hlb].
    assert (a ∈ h :: news) as Hain by (by eapply list_elem_of_lookup_2).
    assert (b ∈ news) as Hbin by (by eapply (list_elem_of_lookup_2 _ i)).
    destruct (Hlayout b Hbin) as [Hfb' Hgtb'].
    assert (a ≠ back) as Hab.
    { intros ->.
      assert (NoDup (h :: news)) as Hnd' by (by eapply NoDup_fmap_1).
      rewrite last_lookup in Hlast'. simpl in Hlast'.
      pose proof (NoDup_lookup _ _ _ _ Hnd' Ha Hlast') as ->.
      apply lookup_lt_Some in Hb. simpl in Hb. lia. }
    destruct (neighbors_side_list a g' (Hlive' a Hain)) as [-> _].
    destruct (neighbors_side_list b g') as [_ ->].
    { apply Hlive'. by right. }
    rewrite !Hform', !Hform, Hla, Hlb.
    rewrite (decide_False (P := a = back)) by done.
    rewrite (decide_False (P := flip b = back)).
    2:{ intros E. symmetry in E.
        by apply (flip_orientation back b) in E; congruence. }
    rewrite (decide_False (P := flip b = h)).
    2:{ intros E. symmetry in E.
        by apply (flip_orientation h b) in E; congruence. }
    rewrite (side_list_dead (flip b))
      by (rewrite get_id_flip; by apply Hdead).
    split.
    - destruct (decide (a = h)) as [->|Hah]; [done|].
      apply elem_of_cons in Hain as [->|Hain]; [done|].
      by rewrite (side_list_dead a) by (by apply Hdead).
    - simpl. by rewrite flip_flip. }
  intros e Heh Hle. apply has_node_live in Hle.
  destruct (Hold e Heh Hle) as [Hle' Hlists].
  destruct (neighbors_side_list e g' Hle') as [-> ->].
  destruct (neighbors_side_list e g Hle) as [-> ->].
  rewrite (Hlists e eq_refl), (Hlists (flip e) (get_id_flip e)).
  split; [done|]. simpl. f_equal. apply flip_retargeted.
Qed.

Lemma divide_handle_forward_edges_witness :
  ∃ parts back g',
    divide_handle (get_handle 2 false) [1] two_edge_graph
    = Some (parts, g') ∧
    last parts = Some back ∧
    neighbors back false g'
    = neighbors (get_handle 2 false) false two_edge_graph.
Proof.
  assert (edges_symmetric (graph two_edge_graph)) as Hsym.
  { apply (edges_symmetric_create_edge (get_handle 2 false)
             (get_handle 3 false)
             (create_edge (get_handle 1 false) (get_handle 2 false) _)).
    apply edges_symmetric_create_edge.
    apply (edges_symmetric_create_handle (seq_of "GAC") 3); [by vm_compute|].
    apply (edges_symmetric_create_handle (seq_of "ATG") 2); [by vm_compute|].
    apply (edges_symmetric_create_handle (seq_of "CT") 1); [by vm_compute|].
    apply edges_symmetric_empty. }
  assert (get_is_reverse (get_handle 2 false) = false) as H1
    by (by vm_compute).
  assert (get_sequence (get_handle 2 false) two_edge_graph
          = Some (seq_of "ATG")) as H2 by (by vm_compute).
  assert ([1] ≠ []) as H3 by done.
  assert (Sorted Z.lt [1]) as H4 by (repeat constructor).
  assert (Forall (λ o, 0 <= o <= Z.of_nat (length (seq_of "ATG"))) [1])
    as H5 by (repeat constructor; by vm_compute).
  assert (Z.of_nat (length (seq_of "ATG")) < two64) as H6 by (by vm_compute).
  assert (ids_bounded two_edge_graph) as H7.
  { assert (map_Forall (λ id _, id <= max_id two_edge_graph)
              (graph two_edge_graph)) as Hall
      by (apply (bool_decide_unpack _); by vm_compute).
    intros id [nd Hnd]. by apply (Hall id nd). }
  assert (0 <= max_id two_edge_graph + 1) as H8 by (by vm_compute).
  assert (max_id two_edge_graph + Z.of_nat (length [1]) < 2 ^ 63) as H9
    by (by vm_compute).
  assert (paths_wf two_edge_graph) as H10 by apply store_wf_empty.
  assert (index_wf two_edge_graph) as H11.
  { split.
    - intros x bucket Hx. by vm_compute in Hx.
    - intros a record Ha. by vm_compute in Ha. }
  assert (Z.of_nat (size (store two_edge_graph))
          + Z.of_nat (length (default []
                                (occurrences two_edge_graph
                                 !! get_id (get_handle 2 false))))
            * Z.of_nat (length [1]) < two64) as H12 by (by vm_compute).
  assert (no_self_loop (get_id (get_handle 2 false)) (graph two_edge_graph))
    as H13 by (apply (bool_decide_unpack _); by vm_compute).
  destruct (divide_handle_forward_edges (get_handle 2 false) [1]
              two_edge_graph (seq_of "ATG")
              H1 H2 H3 H4 H5 H6 H7 H8 H9 H10 H11 H12 Hsym H13)
    as (parts & back & g' & Hrun & Hlast & _ & _ & Hright & _).
  by exists parts, back, g'.
Defined.

(** * Offsets beyond the end of the sequence *)

(** The loop that cuts the pieces stops at [substr] when it reaches an
    offset beyond the end of the sequence. *)
Lemma divide_sequence_out_of_range (id len : Z) (offs : list Z) :
  ∀ (g : HashGraph) (acc : list handle_t) (s : seq_t),
  seq_at (graph g) id = Some s → ids_bounded g →
  Exists (λ o, Z.of_nat (length s) < o) offs →
  divide_sequence id len offs g acc = None.
Proof.
  induction offs as [|off rest IH]; intros g acc s Hs Hbound Hex.
  { by apply Exists_nil in Hex. }
  assert (node_t.sequence (node_at (graph g) id) = s) as Hnode.
  { unfold seq_at in Hs. unfold node_at.
    destruct (graph g !! id) as [n|]; [|done]. by injection Hs. }
  cbn [divide_sequence]. rewrite Hnode.
  destruct (decide (off <= Z.of_nat (length s))) as [Hin|Hout].
  - unfold substr. rewrite decide_True by done.
    cbn [mbind option_bind]. unfold create_handle_next, create_handle.
    apply Exists_cons in Hex as [Hoff|Hex]; [lia|].
    assert (id ≠ max_id g + 1) as Hid.
    { intros ->. unfold seq_at in Hs.
      destruct (graph g !! (max_id g + 1)) as [n|] eqn:E; [|done].
      assert (max_id g + 1 <= max_id g) by (apply Hbound; eauto). lia. }
    apply (IH _ _ s); [| |done].
    + unfold seq_at. simpl. by rewrite lookup_insert_ne.
    + intros j Hj. simpl in *.
      destruct (decide (j = max_id g + 1)) as [->|Hne]; [lia|].
      rewrite lookup_insert_ne in Hj by done. apply Hbound in Hj. lia.
  - unfold substr. by rewrite decide_False.
Qed.

(** X29: what makes [divide_handle] throw.  On a handle whose node is
    not live the call throws in [get_length] ([graph.at]).  On a handle
    of a live node, in either orientation, an offset beyond the end of
    the sequence makes it throw in [substr] ([std::out_of_range]),
    whatever the other offsets are. *)
Theorem divide_handle_throws (h : handle_t) (offsets : list Z)
    (g : HashGraph) :
  (has_node (get_id h) g = false → divide_handle h offsets g = None) ∧
  (∀ s, get_sequence h g = Some s → ids_bounded g →
     Exists (λ o, Z.of_nat (length s) < o < two64) offsets →
     divide_handle h offsets g = None).
Proof.
  split.
  { intros Hdead. unfold divide_handle, get_length.
    unfold has_node in Hdead. apply bool_decide_eq_false in Hdead.
    destruct (graph g !! get_id h); [|done]. destruct Hdead. eauto. }
  intros s Hseq Hbound Hex.
  unfold get_sequence in Hseq.
  destruct (graph g !! get_id h) as [n|] eqn:Hn; [|done].
  simpl in Hseq. injection Hseq as <-.
  set (sf := node_t.sequence n) in *.
  unfold divide_handle, get_length. rewrite Hn. cbn [mbind option_bind].
  fold sf. rewrite decide_False by (intros ->; by apply Exists_nil in Hex).
  rewrite (divide_sequence_out_of_range _ _ _ g _ sf); [done| |done|].
  - unfold seq_at. by rewrite Hn.
  - destruct (get_is_reverse h).
    + apply Exists_fmap. eapply Exists_impl; [exact Hex|].
      intros o Ho. cbn beta iota in Ho.
      rewrite length_reverse_complement in Ho. unfold compose, wrap64.
      rewrite <- (Z_mod_plus_full _ 1), Z.mod_small; unfold two64 in *; lia.
    + eapply Exists_impl; [exact Hex|].
      intros o Ho. cbn beta iota in Ho. cbn beta. lia.
Qed.

Lemma divide_handle_throws_witness :
  divide_handle (get_handle 2 false) [1; 4] two_edge_graph = None.
Proof.
  destruct (divide_handle_throws (get_handle 2 false) [1; 4] two_edge_graph)
    as [_ Hrange].
  apply (Hrange (seq_of "ATG")).
  - by vm_compute.
  - assert (map_Forall (λ id _, id <= max_id two_edge_graph)
              (graph two_edge_graph)) as Hall
      by (apply (bool_decide_unpack _); by vm_compute).
    intros id [nd Hnd]. by apply (Hall id nd).
  - apply Exists_cons_tl, Exists_cons_hd. by vm_compute.
Defined.

(** * The bookkeeping after a division *)

Lemma insert_steps_bounds busy pieces mapping path g g' :
  insert_steps busy pieces mapping path g = Some g' →
  max_id g' = max_id g ∧ min_id g' = min_id g.
Proof.
  revert mapping g. induction pieces as [|[id h] pieces IH]; intros mapping g.
  - by intros [= <-].
  - simpl. destruct (insert_after _ _ _ _) as [[[a p'] st']|]; [|done].
    simpl. case_decide; [done|]. intros Hrec. by apply IH in Hrec.
Qed.

Lemma rehome_steps_bounds busy rv bucket g g' :
  rehome_steps busy rv bucket g = Some g' →
  max_id g' = max_id g ∧ min_id g' = min_id g.
Proof.
  revert g. induction bucket as [|m bucket IH]; intros g; simpl.
  - by intros [= <-].
  - destruct (rehome_step busy rv g m) as [g1|] eqn:Hstep; [|done]. simpl.
    intros Hrec. apply IH in Hrec as [-> ->].
    unfold rehome_step in Hstep.
    destruct (store g !! m); [|done]. simpl in Hstep.
    destruct (get_is_reverse _); by apply insert_steps_bounds in Hstep.
Qed.

(** The bounds that [divide_handle] leaves are those that its first loop
    left. *)
Lemma divide_handle_tracks (h : handle_t) (offsets : list Z)
    (g g' : HashGraph) (parts : list handle_t) :
  offsets ≠ [] → divide_handle h offsets g = Some (parts, g') →
  ∃ len rv g1,
    get_length h g = Some len ∧
    divide_sequence (get_id h) len
      (if get_is_reverse h
       then (λ off, wrap64 (len - off)) <$> offsets else offsets)
      g [forward h]
    = Some (rv, g1) ∧
    max_id g' = max_id g1 ∧ min_id g' = min_id g1.
Proof.
  intros Hne. unfold divide_handle.
  destruct (get_length h g) as [len|]; [|done].
  cbn [mbind option_bind]. rewrite decide_False by done.
  destruct (divide_sequence _ _ _ _ _) as [[rv g1]|] eqn:Hdiv; [|done].
  cbn [mbind option_bind].
  destruct (substr _ _ _) as [kept|]; [|done].
  cbn [mbind option_bind].
  match goal with
  | |- context [match ?o with Some bucket => _ | None => _ end] =>
      destruct o as [bucket|]
  end.
  - destruct (rehome_steps _ _ _ _) as [g6|] eqn:Hre; [|done].
    cbn [mbind option_bind]. intros [= <- <-].
    apply rehome_steps_bounds in Hre as [Hmax Hmin].
    exists len, rv, g1. split; [done|]. split; [exact Hdiv|]. done.
  - cbn [mbind option_bind]. intros [= <- <-].
    exists len, rv, g1. split; [done|]. split; [exact Hdiv|]. done.
Qed.

(** The first loop of [divide_handle] and the node table. *)
Lemma divide_sequence_census (id len : Z) (offs : list Z) :
  ∀ (g : HashGraph) (acc rv : list handle_t) (g1 : HashGraph),
  ids_bounded g → min_id g <= max_id g + 1 →
  divide_sequence id len offs g acc = Some (rv, g1) →
  max_id g1 = max_id g + Z.of_nat (length offs) ∧
  min_id g1 = min_id g ∧
  size (graph g1) = (size (graph g) + length offs)%nat ∧
  dom (graph g) ⊆ dom (graph g1) ∧
  (∀ j, is_Some (graph g1 !! j) →
     is_Some (graph g !! j) ∨
     max_id g < j <= max_id g + Z.of_nat (length offs)).
Proof.
  induction offs as [|off rest IH]; intros g acc rv g1 Hb Hmin Hrun.
  - simpl in Hrun. injection Hrun as <- <-. simpl.
    split; [lia|]. split; [done|]. split; [lia|]. split; [done|]. eauto.
  - cbn [divide_sequence] in Hrun.
    destruct (substr _ _ _) as [piece|]; [|done].
    cbn [mbind option_bind] in Hrun.
    unfold create_handle_next, create_handle in Hrun.
    set (g' := set_bounds _ _ _) in Hrun.
    assert (max_id g' = max_id g + 1) as Hmax by (unfold g'; simpl; lia).
    assert (min_id g' = min_id g) as Hmin' by (unfold g'; simpl; lia).
    assert (graph g !! (max_id g + 1) = None) as Hfresh.
    { destruct (graph g !! (max_id g + 1)) as [nd|] eqn:E; [|done].
      assert (max_id g + 1 <= max_id g) by (apply Hb; eauto). lia. }
    apply IH in Hrun as (Hmax1 & Hmin1 & Hsize & Hdom & Hnew).
    2:{ intros j Hj. rewrite Hmax. unfold g' in Hj. simpl in Hj.
        destruct (decide (j = max_id g + 1)) as [->|Hne]; [lia|].
        rewrite lookup_insert_ne in Hj by done. apply Hb in Hj. lia. }
    2:{ lia. }
    cbn [length]. split; [lia|]. split; [congruence|].
    split.
    { rewrite Hsize. unfold g'. simpl.
      rewrite map_size_insert_None by done. lia. }
    split.
    { etrans; [|exact Hdom]. unfold g'. simpl. rewrite dom_insert_L.
      set_solver. }
    intros j Hj. destruct (Hnew j Hj) as [Hold|Hrange].
    + unfold g' in Hold. simpl in Hold.
      destruct (decide (j = max_id g + 1)) as [->|Hne]; [right; lia|].
      rewrite lookup_insert_ne in Hold by done. by left.
    + right. lia.
Qed.

Lemma dom_chain_segments (ps : list handle_t) :
  ∀ gr, (∀ p, p ∈ ps → is_Some (gr !! get_id p)) →
  dom (chain_segments ps gr) = dom gr.
Proof.
  induction ps as [|p ps IH]; intros gr Hlive; [done|].
  destruct ps as [|q rest]; [done|].
  change (chain_segments (p :: q :: rest) gr)
    with (chain_segments (q :: rest) (create_edge_nodes p q gr)).
  assert (dom (create_edge_nodes p q gr) = dom gr) as Hdom.
  { apply dom_create_edge; apply Hlive; [by left|]. right. by left. }
  rewrite IH; [done|].
  intros p' Hp'. apply elem_of_dom. rewrite Hdom. apply elem_of_dom.
  apply Hlive. by right.
Qed.

(** The edits of [divide_handle] on the node table add no node when the
    divided node, the parts and the right neighbours are live. *)
Lemma dom_divided (gr : gmap Z node_t.t) (x : Z) (back old new : handle_t)
    (kept : seq_t) (parts : list handle_t) :
  is_Some (gr !! x) → is_Some (gr !! get_id back) → x ≠ get_id back →
  (∀ e, e ∈ edge_list false x gr →
     is_Some (gr !! get_id e) ∧ get_id e ≠ get_id back) →
  (∀ p, p ∈ parts → is_Some (gr !! get_id p)) →
  dom (chain_segments parts
         (retarget_backrefs (get_id back) old new
            (move_right_edges x (get_id back)
               (<[x := node_t.set_sequence kept (node_at gr x)]> gr))))
  = dom gr.
Proof.
  intros Hx Hback Hne Htargets Hparts.
  apply elem_of_dom in Hx. apply elem_of_dom in Hback.
  set (gr2 := <[x := _]> gr).
  set (gr3 := move_right_edges _ _ gr2).
  assert (dom gr2 = dom gr) as Hd2
    by (unfold gr2; rewrite dom_insert_L; set_solver).
  assert (dom gr3 = dom gr) as Hd3.
  { unfold gr3, move_right_edges. rewrite !dom_insert_L, Hd2. set_solver. }
  assert (edge_list false (get_id back) gr3 = edge_list false x gr) as HR.
  { unfold gr3. rewrite edge_list_move_right_edges by done.
    rewrite decide_True by done. unfold gr2.
    by rewrite edge_list_set_sequence. }
  assert (dom (retarget_backrefs (get_id back) old new gr3) = dom gr) as Hd4.
  { rewrite retarget_backrefs_no_loop.
    2:{ rewrite HR. apply Forall_forall. intros e He.
        by destruct (Htargets e He). }
    rewrite dom_update_bwd_loop, HR, Hd3.
    apply set_eq. intros j. rewrite elem_of_union, elem_of_list_to_set.
    split; [|by left]. intros [Hj|Hj]; [done|].
    apply list_elem_of_fmap in Hj as (e & -> & He).
    apply elem_of_dom. by destruct (Htargets e He). }
  rewrite dom_chain_segments; [done|].
  intros p Hp. apply elem_of_dom. rewrite Hd4. apply elem_of_dom.
  by apply Hparts.
Qed.

(** X30: the bookkeeping after a division.  [divide_handle] on a
    forward handle of a live node, with strictly increasing offsets
    inside the sequence, identifiers left below [2^63] and room for the
    new step records, in a graph whose stored edges are symmetric and
    whose live identifiers lie within the tracked bounds: the call adds
    one node per offset and removes none, [max_node_id] grows by the
    number of offsets, [min_node_id] is unchanged, the live identifiers
    lie within the bounds again, and as many paths are counted as
    before. *)
Theorem divide_handle_forward_census (h : handle_t) (offsets : list Z)
    (g : HashGraph) (s : seq_t) :
  get_is_reverse h = false →
  get_sequence h g = Some s →
  Sorted Z.lt offsets →
  Forall (λ o, 0 <= o <= Z.of_nat (length s)) offsets →
  Z.of_nat (length s) < two64 →
  ids_within g →
  0 <= max_id g + 1 → max_id g + Z.of_nat (length offsets) < 2 ^ 63 →
  paths_wf g → index_wf g →
  Z.of_nat (size (store g))
  + Z.of_nat (length (default [] (occurrences g !! get_id h)))
    * Z.of_nat (length offsets) < two64 →
  edges_symmetric (graph g) →
  ∃ parts g',
    divide_handle h offsets g = Some (parts, g') ∧
    node_size g' = (node_size g + length offsets)%nat ∧
    max_node_id g' = max_node_id g + Z.of_nat (length offsets) ∧
    min_node_id g' = min_node_id g ∧
    ids_within g' ∧
    (∀ id, has_node id g = true → has_node id g' = true) ∧
    get_path_count g' = get_path_count g.
Proof.
  intros Hfwd Hseq Hsorted Hrange Hlen Hwithin Hlow Hhigh Hwf Hix Hroom Hsym.
  assert (ids_bounded g) as Hbound.
  { intros id Hid. by apply Hwithin. }
  destruct (divide_handle_forward_spec h offsets g s)
    as (news & g' & Hrun & Hnews & Hfirst & _ & _ & _ & _ & Hnames & Hgraph);
    try done.
  exists (h :: news), g'. split; [done|].
  assert (get_path_count g' = get_path_count g) as Hpaths.
  { unfold get_path_count. rewrite <- !size_dom. f_equal.
    apply set_eq. intros q. rewrite !elem_of_dom.
    specialize (Hnames q).
    destruct (paths g' !! q), (paths g !! q); simpl in Hnames;
      try done; split; eauto. }
  destruct (decide (offsets = [])) as [->|Hne].
  { unfold divide_handle in Hrun.
    destruct (get_length h g); [|done]. cbn [mbind option_bind] in Hrun.
    rewrite decide_True in Hrun by done.
    injection Hrun as _ Hg. subst g'.
    unfold node_size, max_node_id, min_node_id.
    simpl. split; [lia|]. split; [lia|]. done. }
  destruct (Hgraph Hne) as (g1 & front & Hfront & Hdiv & Hgr).
  pose proof (get_sequence_live _ _ _ Hseq) as Hlive_h.
  assert (min_id g <= get_id h <= max_id g) as Hid by (by apply Hwithin).
  destruct (divide_handle_tracks h offsets g g' (h :: news) Hne Hrun)
    as (len & rv & g1' & Hlength & Hdiv' & Hmax' & Hmin').
  assert (len = Z.of_nat (length s)) as ->.
  { unfold get_length in Hlength. unfold get_sequence in Hseq.
    rewrite Hfwd in Hseq.
    destruct (graph g !! get_id h); simpl in *; congruence. }
  rewrite Hfwd in Hdiv'. unfold forward in Hdiv'. rewrite Hfwd in Hdiv'.
  assert (g1' = g1) as -> by congruence.
  destruct (divide_sequence_census _ _ _ _ _ _ _ Hbound ltac:(lia) Hdiv)
    as (Hmax1 & Hmin1 & Hsize1 & Hdom1 & Hnew1).
  destruct (divide_sequence_layout _ _ _ _ _ _ _ Hbound Hlow Hhigh Hdiv)
    as (news' & Enews & Hlayout & _ & Hedges & _ & Hlive1).
  simpl in Enews. injection Enews as <-.
  rewrite Forall_forall in Hlayout, Hlive1.
  assert (is_Some (graph g1 !! get_id h)) as Hlive_h1.
  { apply elem_of_dom. apply Hdom1. by apply elem_of_dom. }
  assert (∀ p, p ∈ h :: news → is_Some (graph g1 !! get_id p)) as Hparts.
  { intros p [->|Hp]%elem_of_cons; [done|]. by apply Hlive1. }
  assert (length news = length offsets) as Hcount.
  { rewrite (Forall2_length _ _ _ Hnews). apply length_pieces. }
  destruct (last news) as [back|] eqn:Hlast.
  2:{ apply last_None in Hlast. subst news. by destruct offsets. }
  assert (last (h :: news) = Some back) as Hlast'
    by (by rewrite last_cons, Hlast).
  assert (back ∈ news) as Hback_in.
  { apply last_Some in Hlast as [l' ->]. apply elem_of_app. right. by left. }
  destruct (Hlayout back Hback_in) as [_ Hgtb].
  assert (dom (graph g') = dom (graph g1)) as Hdom.
  { rewrite Hgr. cbv zeta. rewrite Hlast'.
    change (default h (Some back)) with back.
    apply dom_divided; [done| |lia| |done].
    - apply Hparts. by right.
    - intros e He. rewrite Hedges in He.
      assert (e ∈ side_list h (graph g)) as Hin
        by (unfold side_list; by rewrite Hfwd).
      pose proof (edges_symmetric_targets_live _ _ _ Hsym Hin) as Hl.
      split.
      + apply elem_of_dom. apply Hdom1. by apply elem_of_dom.
      + apply Hbound in Hl. lia. }
  unfold node_size, max_node_id, min_node_id.
  split.
  { by rewrite <- size_dom, Hdom, size_dom. }
  split; [lia|]. split; [congruence|].
  split.
  { intros id Hlive. rewrite Hmax', Hmin', Hmax1, Hmin1.
    apply elem_of_dom in Hlive. rewrite Hdom in Hlive.
    apply elem_of_dom in Hlive.
    destruct (Hnew1 id Hlive) as [Hold|Hin].
    - apply Hwithin in Hold. lia.
    - lia. }
  split; [|done].
  intros id Hlive. apply has_node_live. apply has_node_live in Hlive.
  apply elem_of_dom. rewrite Hdom. apply Hdom1. by apply elem_of_dom.
Qed.

Lemma divide_handle_forward_census_witness :
  ∃ parts g',
    divide_handle (get_handle 2 false) [1] two_edge_graph
    = Some (parts, g') ∧
    node_size g' = 4%nat ∧ max_node_id g' = 4.
Proof.
  assert (edges_symmetric (graph two_edge_graph)) as Hsym.
  { apply (edges_symmetric_create_edge (get_handle 2 false)
             (get_handle 3 false)
             (create_edge (get_handle 1 false) (get_handle 2 false) _)).
    apply edges_symmetric_create_edge.
    apply (edges_symmetric_create_handle (seq_of "GAC") 3); [by vm_compute|].
    apply (edges_symmetric_create_handle (seq_of "ATG") 2); [by vm_compute|].
    apply (edges_symmetric_create_handle (seq_of "CT") 1); [by vm_compute|].
    apply edges_symmetric_empty. }
  assert (get_is_reverse (get_handle 2 false) = false) as H1
    by (by vm_compute).
  assert (get_sequence (get_handle 2 false) two_edge_graph
          = Some (seq_of "ATG")) as H2 by (by vm_compute).
  assert (Sorted Z.lt [1]) as H4 by (repeat constructor).
  assert (Forall (λ o, 0 <= o <= Z.of_nat (length (seq_of "ATG"))) [1])
    as H5 by (repeat constructor; by vm_compute).
  assert (Z.of_nat (length (seq_of "ATG")) < two64) as H6 by (by vm_compute).
  assert (ids_within two_edge_graph) as H7.
  { assert (map_Forall (λ id _, min_id two_edge_graph <= id
                                <= max_id two_edge_graph)
              (graph two_edge_graph)) as Hall
      by (apply (bool_decide_unpack _); by vm_compute).
    intros id [nd Hnd]. by apply (Hall id nd). }
  assert (0 <= max_id two_edge_graph + 1) as H8 by (by vm_compute).
  assert (max_id two_edge_graph + Z.of_nat (length [1]) < 2 ^ 63) as H9
    by (by vm_compute).
  assert (paths_wf two_edge_graph) as H10 by apply store_wf_empty.
  assert (index_wf two_edge_graph) as H11.
  { split.
    - intros x bucket Hx. by vm_compute in Hx.
    - intros a record Ha. by vm_compute in Ha. }
  assert (Z.of_nat (size (store two_edge_graph))
          + Z.of_nat (length (default []
                                (occurrences two_edge_graph
                                 !! get_id (get_handle 2 false))))
            * Z.of_nat (length [1]) < two64) as H12 by (by vm_compute).
  destruct (divide_handle_forward_census (get_handle 2 false) [1]
              two_edge_graph (seq_of "ATG")
              H1 H2 H4 H5 H6 H7 H8 H9 H10 H11 H12 Hsym)
    as (parts & g' & Hrun & Hsize & Hmax & _).
  exists parts, g'. split; [done|]. split; [by rewrite Hsize|].
  by rewrite Hmax.
Defined.
